(** * Suffix tree (Ukkonen's online construction) and its queries

    A shallow embedding of [suffixTree.js] (class [Node], class [SuffixTree])
    and the verification of its construction engine and query engine.

    JavaScript objects live in a heap: a node reference is an index into a
    list of node records, [new Node(..)] appends a record, and a field
    assignment alters the record in place, so that aliasing between
    [activeNode], [lastCreatedNode], the suffix links and the children
    arrays is the aliasing of the source.  Strings are lists of UTF-16 code
    units, numbers are integers. *)

From Stdlib Require Import ZArith Lia.
From Stdlib Require Import Strings.String Strings.Ascii.
From stdpp Require Import base tactics option numbers list gmap sorting.

Local Open Scope Z_scope.

(** ** Strings *)

(** A JavaScript string is the list of its UTF-16 code units. *)
Definition str (s : String.string) : list Z :=
  (λ a, Z.of_nat (Ascii.nat_of_ascii a)) <$> String.list_ascii_of_string s.

(** [s[i]]: [None] stands for [undefined]. *)
Definition char_at (s : list Z) (i : Z) : option Z :=
  if decide (0 ≤ i) then s !! Z.to_nat i else None.

Definition strlen (s : list Z) : Z := Z.of_nat (length s).

(** [s.substring(a, b)]: both bounds are clamped to [0 .. s.length] and
    swapped when [a > b]. *)
Definition clamp (s : list Z) (i : Z) : Z := Z.max 0 (Z.min i (strlen s)).

Definition substring (s : list Z) (a b : Z) : list Z :=
  let a' := clamp s a in
  let b' := clamp s b in
  let lo := Z.min a' b' in
  let hi := Z.max a' b' in
  take (Z.to_nat (hi - lo)) (drop (Z.to_nat lo) s).

Definition DOLLAR : Z := 36.
Definition CODE_A : Z := 65.
Definition CODE_Z : Z := 90.

(** [s.includes('$')] *)
Definition includes_dollar (s : list Z) : bool := bool_decide (DOLLAR ∈ s).

(** ** Outcomes of a call *)

(** A call returns, throws a [TypeError] (a property read on [undefined]),
    or exhausts the fuel that bounds its loops and its recursion depth. *)
Inductive outcome (A : Type) : Type :=
  | Done (a : A)
  | TypeError
  | OutOfFuel.
Arguments Done {A} a.
Arguments TypeError {A}.
Arguments OutOfFuel {A}.

Definition bind {A B} (m : outcome A) (k : A → outcome B) : outcome B :=
  match m with
  | Done a => k a
  | TypeError => TypeError
  | OutOfFuel => OutOfFuel
  end.

#[global] Instance outcome_bind : MBind outcome := λ A B k m, bind m k.
#[global] Instance outcome_ret : MRet outcome := λ A a, Done a.

Definition of_option {A} (o : option A) : outcome A :=
  match o with Some a => Done a | None => TypeError end.

Fixpoint foldM {A B} (f : A → B → outcome A) (a : A) (l : list B) : outcome A :=
  match l with
  | [] => Done a
  | b :: l' => a' ← f a b; foldM f a' l'
  end.

(** ** Nodes and the heap *)

Record Node := mkNode {
  start : Z;
  end_ : option Z;            (* [None] is [null]: the shared leaf end *)
  children : gmap Z nat;      (* [children[i]]; an absent key is [null] *)
  suffixLink : option nat;
  suffixIndex : Z;
}.

(** [new Node(start, end)] *)
Definition newNode (s : Z) (e : option Z) : Node := mkNode s e ∅ None (-1).

Definition set_start (s : Z) (n : Node) : Node :=
  mkNode s (end_ n) (children n) (suffixLink n) (suffixIndex n).
Definition set_child (i : Z) (c : nat) (n : Node) : Node :=
  mkNode (start n) (end_ n) (<[i := c]> (children n)) (suffixLink n) (suffixIndex n).
Definition set_suffixLink (l : option nat) (n : Node) : Node :=
  mkNode (start n) (end_ n) (children n) l (suffixIndex n).
Definition set_suffixIndex (i : Z) (n : Node) : Node :=
  mkNode (start n) (end_ n) (children n) (suffixLink n) i.

(** [node.edgeLength(currentLeafEnd)] *)
Definition realEnd (n : Node) (currentLeafEnd : Z) : Z :=
  match end_ n with Some e => e | None => currentLeafEnd end.
Definition edgeLength (n : Node) (currentLeafEnd : Z) : Z :=
  realEnd n currentLeafEnd - start n + 1.

Definition get (h : list Node) (v : nat) : outcome Node := of_option (h !! v).

(** The indices [0 .. 26] of the loops [for (let i = 0; i < 27; i++)]. *)
Definition ALPHABET_SIZE : Z := 27.
Definition slots : list Z := seqZ 0 ALPHABET_SIZE.

(** [charToIndex(c)] *)
Definition charToIndex (c : Z) : Z :=
  if decide (c = DOLLAR) then 26 else c - CODE_A.

(** [charToIndex(s[i])]: [undefined.charCodeAt] throws. *)
Definition charToIndex_at (s : list Z) (i : Z) : outcome Z :=
  c ← of_option (char_at s i); Done (charToIndex c).

(** ** The tree object *)

Record Step := mkStep {
  message : option Z * Z;     (* the symbol and the phase of the message *)
  snapshotRoot : nat;
  activeNodeStart : Z;
  stepActiveEdge : Z;
  stepActiveLength : Z;
  remainder : Z;
}.

Record SuffixTree := mkTree {
  heap : list Node;
  root : nat;
  activeNode : nat;
  activeEdge : Z;
  activeLength : Z;
  remainingSuffixCount : Z;
  leafEnd : Z;
  lastCreatedNode : option nat;
  steps : list Step;
}.

Definition with_heap (h : list Node) (t : SuffixTree) : SuffixTree :=
  mkTree h (root t) (activeNode t) (activeEdge t) (activeLength t)
    (remainingSuffixCount t) (leafEnd t) (lastCreatedNode t) (steps t).
Definition with_active (v : nat) (e l : Z) (t : SuffixTree) : SuffixTree :=
  mkTree (heap t) (root t) v e l
    (remainingSuffixCount t) (leafEnd t) (lastCreatedNode t) (steps t).
Definition with_last (w : option nat) (t : SuffixTree) : SuffixTree :=
  mkTree (heap t) (root t) (activeNode t) (activeEdge t) (activeLength t)
    (remainingSuffixCount t) (leafEnd t) w (steps t).
Definition with_remaining (r : Z) (t : SuffixTree) : SuffixTree :=
  mkTree (heap t) (root t) (activeNode t) (activeEdge t) (activeLength t)
    r (leafEnd t) (lastCreatedNode t) (steps t).
Definition with_leafEnd (e : Z) (t : SuffixTree) : SuffixTree :=
  mkTree (heap t) (root t) (activeNode t) (activeEdge t) (activeLength t)
    (remainingSuffixCount t) e (lastCreatedNode t) (steps t).
Definition with_steps (s : list Step) (t : SuffixTree) : SuffixTree :=
  mkTree (heap t) (root t) (activeNode t) (activeEdge t) (activeLength t)
    (remainingSuffixCount t) (leafEnd t) (lastCreatedNode t) s.

(** The state at the start of [buildSuffixTreeStepByStep]: the root
    [new Node(-1, -1)] is the only node. *)
Definition init_tree : SuffixTree :=
  mkTree [newNode (-1) (Some (-1))] 0%nat 0%nat (-1) 0 0 (-1) None [].

(** ** Construction *)

Section construction.
Variable text : list Z.

(** The tail of an iteration of the loop of [extendSuffixTree], after a
    leaf was added: one suffix less, and the active point moves. *)
Definition next_suffix (pos : Z) (t : SuffixTree) : outcome SuffixTree :=
  let t := with_remaining (remainingSuffixCount t - 1) t in
  if decide (activeNode t = root t) then
    if decide (activeLength t > 0) then
      Done (with_active (activeNode t)
              (pos - remainingSuffixCount t + 1) (activeLength t - 1) t)
    else Done t
  else
    an ← get (heap t) (activeNode t);
    Done (with_active (default (root t) (suffixLink an))
            (activeEdge t) (activeLength t) t).

(** One iteration of [while (this.remainingSuffixCount > 0)].  The
    boolean is [false] after [break] and [true] after [continue] or at the
    end of the body. *)
Definition extend_iter (pos : Z) (t0 : SuffixTree) : outcome (bool * SuffixTree) :=
  let t := if decide (activeLength t0 = 0)
           then with_active (activeNode t0) pos (activeLength t0) t0 else t0 in
  edgeIndex ← charToIndex_at text (activeEdge t);
  an ← get (heap t) (activeNode t);
  match children an !! edgeIndex with
  | None =>
      (* a new leaf below the active node *)
      let leaf := length (heap t) in
      let h := heap t ++ [newNode pos None] in
      let h := alter (set_child edgeIndex leaf) (activeNode t) h in
      let t := match lastCreatedNode t with
               | Some w =>
                   with_last None
                     (with_heap (alter (set_suffixLink (Some (activeNode t))) w h) t)
               | None => with_heap h t
               end in
      t' ← next_suffix pos t; Done (true, t')
  | Some next =>
      nextNode ← get (heap t) next;
      (* walkDown *)
      let edgeLen := edgeLength nextNode (leafEnd t) in
      if decide (activeLength t >= edgeLen) then
        Done (true, with_active next (activeEdge t + edgeLen)
                      (activeLength t - edgeLen) t)
      else
        let nextChar := char_at text (start nextNode + activeLength t) in
        if decide (nextChar = char_at text pos) then
          let t := match lastCreatedNode t with
                   | Some w =>
                       if decide (activeNode t ≠ root t) then
                         with_last None
                           (with_heap
                              (alter (set_suffixLink (Some (activeNode t))) w (heap t)) t)
                       else t
                   | None => t
                   end in
          Done (false, with_active (activeNode t) (activeEdge t) (activeLength t + 1) t)
        else
          (* split the edge *)
          let splitEnd := start nextNode + activeLength t - 1 in
          let splitNode := length (heap t) in
          let h := heap t ++ [newNode (start nextNode) (Some splitEnd)] in
          let h := alter (set_child edgeIndex splitNode) (activeNode t) h in
          leafIndex ← charToIndex_at text pos;
          let leaf := length h in
          let h := h ++ [newNode pos None] in
          let h := alter (set_child leafIndex leaf) splitNode h in
          let h := alter (set_start (start nextNode + activeLength t)) next h in
          nextIndex ← charToIndex_at text (start nextNode + activeLength t);
          let h := alter (set_child nextIndex next) splitNode h in
          let h := match lastCreatedNode t with
                   | Some w => alter (set_suffixLink (Some splitNode)) w h
                   | None => h
                   end in
          let t := with_last (Some splitNode) (with_heap h t) in
          t' ← next_suffix pos t; Done (true, t')
  end.

(** The loop of [extendSuffixTree]; the fuel fuel_left is returned. *)
Fixpoint extend_loop (fuel : nat) (pos : Z) (t : SuffixTree)
  : outcome (SuffixTree * nat) :=
  if decide (remainingSuffixCount t > 0) then
    match fuel with
    | O => OutOfFuel
    | S fuel' =>
        '(continue, t') ← extend_iter pos t;
        if continue : bool then extend_loop fuel' pos t' else Done (t', fuel')
    end
  else Done (t, fuel).

Definition extendSuffixTree (fuel : nat) (pos : Z) (t : SuffixTree)
  : outcome (SuffixTree * nat) :=
  let t := with_leafEnd pos t in
  let t := with_remaining (remainingSuffixCount t + 1) t in
  let t := with_last None t in
  extend_loop fuel pos t.

(** [cloneNode(node)] for a node that is not [null]. *)
Fixpoint cloneNode (depth : nat) (h : list Node) (node : nat)
  : outcome (list Node * nat) :=
  match depth with
  | O => OutOfFuel
  | S depth' =>
      n ← get h node;
      let newNode_ := length h in
      let h := h ++ [newNode (start n) (end_ n)] in
      let h := alter (set_suffixLink (suffixLink n)) newNode_ h in
      let h := alter (set_suffixIndex (suffixIndex n)) newNode_ h in
      h ← foldM (λ h i,
             n ← get h node;
             match children n !! i with
             | Some c =>
                 '(h, c') ← cloneNode depth' h c;
                 Done (alter (set_child i c') newNode_ h)
             | None => Done h
             end) h slots;
      Done (h, newNode_)
  end.

Definition recordStep (depth : nat) (msg : option Z * Z) (t : SuffixTree)
  : outcome SuffixTree :=
  '(h, r) ← cloneNode depth (heap t) (root t);
  an ← get h (activeNode t);
  Done (with_steps
          (steps t ++ [mkStep msg r (start an) (activeEdge t) (activeLength t)
                         (remainingSuffixCount t)])
          (with_heap h t)).

(** [buildSuffixTreeStepByStep()] *)
Definition buildSuffixTreeStepByStep (fuel : nat) : outcome (SuffixTree * nat) :=
  foldM (λ '(t, fuel_left) i,
      '(t, fuel_left) ← extendSuffixTree fuel_left i t;
      t ← recordStep fuel (char_at text i, i) t;
      Done (t, fuel_left))
    (init_tree, fuel) (seqZ 0 (strlen text)).

(** The first [k] rounds of the loop of [buildSuffixTreeStepByStep()]. *)
Definition phases (fuel : nat) (k : nat) : outcome (SuffixTree * nat) :=
  foldM (λ '(t, fuel_left) i,
      '(t, fuel_left) ← extendSuffixTree fuel_left i t;
      t ← recordStep fuel (char_at text i, i) t;
      Done (t, fuel_left))
    (init_tree, fuel) (seqZ 0 (Z.of_nat k)).

(** [setSuffixIndexByDFS(node, labelHeight)] *)
Fixpoint setSuffixIndexByDFS (depth : nat) (le : Z) (h : list Node)
    (node : nat) (labelHeight : Z) : outcome (list Node) :=
  match depth with
  | O => OutOfFuel
  | S depth' =>
      '(h, isLeaf) ← foldM (λ '(h, isLeaf) i,
             n ← get h node;
             match children n !! i with
             | Some c =>
                 cn ← get h c;
                 h ← setSuffixIndexByDFS depth' le h c
                        (labelHeight + edgeLength cn le);
                 Done (h, false)
             | None => Done (h, isLeaf)
             end) (h, true) slots;
      if isLeaf : bool
      then Done (alter (set_suffixIndex (strlen text - labelHeight)) node h)
      else Done h
  end.

(** [new SuffixTree(text)].  The fuel bounds the total number of
    iterations of the loop of [extendSuffixTree] over all phases, and the
    depth of each recursive traversal. *)
Definition build (fuel : nat) : outcome SuffixTree :=
  '(t, _) ← buildSuffixTreeStepByStep fuel;
  h ← setSuffixIndexByDFS fuel (leafEnd t) (heap t) (root t) 0;
  Done (with_heap h t).

End construction.

(** ** The copy of the class whose snapshots remap the suffix links *)

(** A JavaScript [Map] whose keys are nodes: its entries in the order of
    their insertion.  [map.set(k, v)] replaces the value of a key that is
    present, in place, and appends a new key; [map.get(k)] is [None] for
    [undefined]. *)
Fixpoint map_set (k v : nat) (m : list (nat * nat)) : list (nat * nat) :=
  match m with
  | [] => [(k, v)]
  | (k', v') :: m' =>
      if decide (k' = k) then (k, v) :: m' else (k', v') :: map_set k v m'
  end.

Fixpoint map_get (k : nat) (m : list (nat * nat)) : option nat :=
  match m with
  | [] => None
  | (k', v') :: m' => if decide (k' = k) then Some v' else map_get k m'
  end.

(** The class of the copy of [suffixTree.js] whose [recordStep] takes
    the position and the leaf end of the phase and clones with
    [cloneTreeWithSuffixLinks].  Its other methods are those above; its
    array [steps] holds the records below and is carried beside the
    tree. *)
Module Linked.

Record Step := mkStep {
  pos : Z;
  message : option Z * Z;     (* the symbol and the phase of the message *)
  snapshotRoot : nat;
  activeNodeStart : Z;
  stepActiveEdge : Z;
  stepActiveLength : Z;
  remainder : Z;
  leafEndSnapshot : Z;
}.

Section construction.
Variable text : list Z.

(** [_cloneNodeHelper(node, map)] for a node that is not [null]. *)
Fixpoint _cloneNodeHelper (depth : nat) (h : list Node)
    (map : list (nat * nat)) (node : nat)
  : outcome (list Node * list (nat * nat) * nat) :=
  match depth with
  | O => OutOfFuel
  | S depth' =>
      n ← get h node;
      let newNode_ := length h in
      let h := h ++ [newNode (start n) (end_ n)] in
      let map := map_set node newNode_ map in
      let h := alter (set_suffixIndex (suffixIndex n)) newNode_ h in
      '(h, map) ← foldM (λ '(h, map) i,
             n ← get h node;
             match children n !! i with
             | Some c =>
                 '(h, map, c') ← _cloneNodeHelper depth' h map c;
                 Done (alter (set_child i c') newNode_ h, map)
             | None => Done (h, map)
             end) (h, map) slots;
      Done (h, map, newNode_)
  end.

(** [cloneTreeWithSuffixLinks(node)]: the loop over [map.entries()] sets
    the suffix link of a clone to [map.get(orig.suffixLink) || null]. *)
Definition cloneTreeWithSuffixLinks (depth : nat) (h : list Node) (node : nat)
  : outcome (list Node * nat) :=
  '(h, map, clonedRoot) ← _cloneNodeHelper depth h [] node;
  h ← foldM (λ h '(orig, clone),
         o ← get h orig;
         match suffixLink o with
         | Some l => Done (alter (set_suffixLink (map_get l map)) clone h)
         | None => Done h
         end) h map;
  Done (h, clonedRoot).

(** [recordStep(pos, message, leafEndSnapshot)] *)
Definition recordStep (depth : nat) (pos : Z) (msg : option Z * Z)
    (leafEndSnapshot : Z) (t : SuffixTree) (steps : list Step)
  : outcome (SuffixTree * list Step) :=
  '(h, r) ← cloneTreeWithSuffixLinks depth (heap t) (root t);
  an ← get h (activeNode t);
  Done (with_heap h t,
        steps ++ [mkStep pos msg r (start an) (activeEdge t) (activeLength t)
                    (remainingSuffixCount t) leafEndSnapshot]).

(** [buildSuffixTreeStepByStep()]: [recordStep(i, ..., this.leafEnd)]
    after every extension. *)
Definition buildSuffixTreeStepByStep (fuel : nat)
  : outcome (SuffixTree * list Step * nat) :=
  foldM (λ '(t, steps, fuel_left) i,
      '(t, fuel_left) ← extendSuffixTree text fuel_left i t;
      '(t, steps) ← recordStep fuel i (char_at text i, i) (leafEnd t) t steps;
      Done (t, steps, fuel_left))
    (init_tree, [], fuel) (seqZ 0 (strlen text)).

(** [new SuffixTree(text)] *)
Definition build (fuel : nat) : outcome (SuffixTree * list Step) :=
  '(t, steps, _) ← buildSuffixTreeStepByStep fuel;
  h ← setSuffixIndexByDFS text fuel (leafEnd t) (heap t) (root t) 0;
  Done (with_heap h t, steps).

End construction.
End Linked.

(** The first [k] rounds of the loop of [Linked.buildSuffixTreeStepByStep]. *)
Definition linked_phases (text : list Z) (fuel : nat) (k : nat)
  : outcome (SuffixTree * list Linked.Step * nat) :=
  foldM (λ '(t, steps, fuel_left) i,
      '(t, fuel_left) ← extendSuffixTree text fuel_left i t;
      '(t, steps) ← Linked.recordStep fuel i (char_at text i, i) (leafEnd t)
                      t steps;
      Done (t, steps, fuel_left))
    (init_tree, [], fuel) (seqZ 0 (Z.of_nat k)).

(** ** Queries *)

(** The order of [Array.prototype.sort()] without a comparator on strings:
    code unit by code unit, a proper prefix first. *)
Fixpoint lex_leb (a b : list Z) : bool :=
  match a, b with
  | [], _ => true
  | _ :: _, [] => false
  | x :: a', y :: b' =>
      if decide (x < y) then true
      else if decide (x = y) then lex_leb a' b' else false
  end.
Definition lex_le (a b : list Z) : Prop := lex_leb a b = true.

#[global] Instance lex_le_dec a b : Decision (lex_le a b).
Proof. unfold lex_le. apply _. Defined.

(** [Number.MAX_SAFE_INTEGER] *)
Definition MAX_SAFE_INTEGER : Z := 2 ^ 53 - 1.

Section queries.
Variable text : list Z.
Variable t : SuffixTree.

(** The inner loop of [search] and [_findNode]:
    [while (i < edgeLen && pos < pattern.length)], with [k] the number of
    iterations that [i < edgeLen] still allows.  [None] is the
    [return] on a mismatch, [Some pos] the position reached. *)
Fixpoint scan_edge (k : nat) (pattern : list Z) (childStart i pos : Z)
  : option Z :=
  match k with
  | O => Some pos
  | S k' =>
      if decide (pos < strlen pattern) then
        if decide (char_at text (childStart + i) ≠ char_at pattern pos)
        then None
        else scan_edge k' pattern childStart (i + 1) (pos + 1)
      else Some pos
  end.

(** [_findNode(pattern)]: the loop, from node [current] and position
    [pos]; [None] is [null]. *)
Fixpoint findNode_loop (fuel : nat) (pattern : list Z) (current : nat) (pos : Z)
  : outcome (option nat) :=
  if decide (pos < strlen pattern) then
    match fuel with
    | O => OutOfFuel
    | S fuel' =>
        idx ← charToIndex_at pattern pos;
        cur ← get (heap t) current;
        match children cur !! idx with
        | None => Done None
        | Some child =>
            cn ← get (heap t) child;
            let edgeLen := edgeLength cn (leafEnd t) in
            match scan_edge (Z.to_nat edgeLen) pattern (start cn) 0 pos with
            | None => Done None
            | Some pos' => findNode_loop fuel' pattern child pos'
            end
        end
    end
  else Done (Some current).

Definition _findNode (fuel : nat) (pattern : list Z) : outcome (option nat) :=
  findNode_loop fuel pattern (root t) 0.

(** [search(pattern)] *)
Fixpoint search_loop (fuel : nat) (pattern : list Z) (current : nat) (pos : Z)
  : outcome bool :=
  if decide (pos < strlen pattern) then
    match fuel with
    | O => OutOfFuel
    | S fuel' =>
        idx ← charToIndex_at pattern pos;
        cur ← get (heap t) current;
        match children cur !! idx with
        | None => Done false
        | Some child =>
            cn ← get (heap t) child;
            let edgeLen := edgeLength cn (leafEnd t) in
            match scan_edge (Z.to_nat edgeLen) pattern (start cn) 0 pos with
            | None => Done false
            | Some pos' => search_loop fuel' pattern child pos'
            end
        end
    end
  else Done true.

Definition search (fuel : nat) (pattern : list Z) : outcome bool :=
  search_loop fuel pattern (root t) 0.

(** [_collectLeafIndices(node, arr)]: the array after the call. *)
Fixpoint _collectLeafIndices (depth : nat) (node : nat) (arr : list Z)
  : outcome (list Z) :=
  match depth with
  | O => OutOfFuel
  | S depth' =>
      n ← get (heap t) node;
      '(arr, isLeaf) ← foldM (λ '(arr, isLeaf) i,
             match children n !! i with
             | Some c =>
                 arr ← _collectLeafIndices depth' c arr;
                 Done (arr, false)
             | None => Done (arr, isLeaf)
             end) (arr, true) slots;
      if (isLeaf : bool) && bool_decide (suffixIndex n ≠ -1)
      then Done (arr ++ [suffixIndex n])
      else Done arr
  end.

(** [findAllMatches(pattern)]; [result.sort((a, b) => a - b)] sorts the
    numbers in ascending order. *)
Definition findAllMatches (fuel : nat) (pattern : list Z) : outcome (list Z) :=
  node ← _findNode fuel pattern;
  match node with
  | None => Done []
  | Some node =>
      result ← _collectLeafIndices fuel node [];
      Done (merge_sort Z.le result)
  end.

(** The number of children of a node, as [longestRepeatedSubstring] and
    [shortestUniqueSubstring] count it. *)
Definition childCount (n : Node) : Z :=
  Z.of_nat (length (filter (λ i, is_Some (children n !! i)) slots)).

(** The label of the edge into a node:
    [text.substring(child.start, child.start + edgeLen)]. *)
Definition edgeStr (cn : Node) : list Z :=
  substring text (start cn) (start cn + edgeLength cn (leafEnd t)).

(** [longestRepeatedSubstring()]: the inner [dfs(node, path)], which
    updates the variable [lrs]. *)
Fixpoint lrs_dfs (depth : nat) (node : nat) (path lrs : list Z)
  : outcome (list Z) :=
  match depth with
  | O => OutOfFuel
  | S depth' =>
      n ← get (heap t) node;
      let lrs := if decide (childCount n >= 2 ∧ strlen path > strlen lrs)
                 then path else lrs in
      foldM (λ lrs i,
          match children n !! i with
          | Some c =>
              cn ← get (heap t) c;
              lrs_dfs depth' c (path ++ edgeStr cn) lrs
          | None => Done lrs
          end) lrs slots
  end.

Definition longestRepeatedSubstring (fuel : nat) : outcome (list Z) :=
  lrs_dfs fuel (root t) [] [].

(** [shortestUniqueSubstring()], the variant that enumerates the
    substrings by increasing length. *)
Definition unique_candidates (fuel : nat) (len : Z) : outcome (list (list Z)) :=
  foldM (λ candidates i,
      let candidate := substring text i (i + len) in
      if includes_dollar candidate then Done candidates
      else
        occ ← findAllMatches fuel candidate;
        if decide (length occ = 1%nat)
        then Done (candidates ++ [candidate])
        else Done candidates)
    [] (seqZ 0 (strlen text - len + 1)).

Fixpoint sus_lengths (fuel : nat) (lens : list Z) : outcome (list Z) :=
  match lens with
  | [] => Done []
  | len :: lens' =>
      candidates ← unique_candidates fuel len;
      match candidates with
      | [] => sus_lengths fuel lens'
      | _ :: _ => Done (default [] (head (merge_sort lex_le candidates)))
      end
  end.

Definition shortestUniqueSubstring (fuel : nat) : outcome (list Z) :=
  sus_lengths fuel (seqZ 1 (strlen text)).

(** [shortestUniqueSubstring()], the variant that walks the tree.  The
    loop over the prefixes of [pathSoFar] stops at the first one that
    contains the terminal. *)
Fixpoint sus_prefixes (pathSoFar : list Z) (lens : list Z)
    (st : list Z * Z) : list Z * Z :=
  match lens with
  | [] => st
  | prefixLen :: lens' =>
      let candidate := substring pathSoFar 0 prefixLen in
      if includes_dollar candidate then st
      else if decide (strlen candidate < st.2)
           then sus_prefixes pathSoFar lens' (candidate, strlen candidate)
           else sus_prefixes pathSoFar lens' st
  end.

(** The inner [dfs(node, pathSoFar)]: the number of leaves below the
    node, with the variables [sus] and [minLen]. *)
Fixpoint sus_dfs (depth : nat) (node : nat) (pathSoFar : list Z)
    (st : list Z * Z) : outcome (Z * (list Z * Z)) :=
  match depth with
  | O => OutOfFuel
  | S depth' =>
      n ← get (heap t) node;
      '(totalLeaves, count, st) ← foldM (λ '(totalLeaves, count, st) i,
             match children n !! i with
             | Some c =>
                 cn ← get (heap t) c;
                 '(leaves, st) ← sus_dfs depth' c (pathSoFar ++ edgeStr cn) st;
                 Done (totalLeaves + leaves, count + 1, st)
             | None => Done (totalLeaves, count, st)
             end) (0, 0, st) slots;
      let totalLeaves := if decide (count = 0) then 1 else totalLeaves in
      if decide (totalLeaves = 1) then
        let st :=
          if negb (includes_dollar pathSoFar)
             && bool_decide (strlen pathSoFar > 0)
             && bool_decide (strlen pathSoFar < st.2)
          then (pathSoFar, strlen pathSoFar) else st in
        Done (totalLeaves,
              sus_prefixes pathSoFar (seqZ 1 (strlen pathSoFar - 1)) st)
      else Done (totalLeaves, st)
  end.

Definition shortestUniqueSubstring_dfs (fuel : nat) : outcome (list Z) :=
  '(_, st) ← sus_dfs fuel (root t) [] ([], MAX_SAFE_INTEGER);
  Done st.1.

End queries.

(** [new SuffixTree(text)] followed by one query on the finished tree. *)
Definition run {A} (text : list Z) (fuel : nat)
    (q : list Z → SuffixTree → nat → outcome A) : outcome A :=
  t ← build text fuel; q text t fuel.

(** ** Specification vocabulary *)

(** The recognized alphabet: the letters [A .. Z] and the terminal [$]. *)
Definition alphabet (c : Z) : Prop := c = DOLLAR ∨ CODE_A ≤ c ≤ CODE_Z.

(** A valid text: symbols of the alphabet, the terminal exactly once, at
    the end. *)
Definition valid_text (text : list Z) : Prop :=
  ∃ body, text = body ++ [DOLLAR] ∧ Forall (λ c, CODE_A ≤ c ≤ CODE_Z) body.

(** [p] occurs in [text] at position [i]: [text[i .. i + len p) = p], for a
    position [i] of the text. *)
Definition occurs_at (text p : list Z) (i : Z) : Prop :=
  0 ≤ i < strlen text ∧ substring text i (i + strlen p) = p
  ∧ i + strlen p ≤ strlen text.

#[global] Instance occurs_at_dec text p i : Decision (occurs_at text p i).
Proof. unfold occurs_at. apply _. Defined.

(** The brute-force oracle: all positions of [p] in [text], ascending. *)
Definition occurrences (text p : list Z) : list Z :=
  filter (occurs_at text p) (seqZ 0 (strlen text)).

Definition is_substring (text p : list Z) : Prop :=
  ∃ i, 0 ≤ i ∧ i + strlen p ≤ strlen text ∧ substring text i (i + strlen p) = p.

(** For every node of the live tree: the position [hd] in the text at
    which its path label can be read, and its parent. *)
Record ghost := mkGhost {
  hd : nat → Z;
  par : nat → nat;
  live : nat → Prop;
}.

(** ** Snapshots *)

(** [c] is reached from [r] along child pointers. *)
Inductive reach (h : list Node) (r : nat) : nat → Prop :=
  | reach_root : reach h r r
  | reach_child p pn i c :
      reach h r p → h !! p = Some pn → children pn !! i = Some c →
      reach h r c.

(** [v'] in [h'] is the root of a copy, of height below [d] and with its
    nodes in [[lo, hi)], of the tree of [v] in [h]: the numbers are
    copied, the children of the slots [0 .. 26] lead to the copies of the
    children, and the suffix link is the reference of the original. *)
Fixpoint mirror (d : nat) (h h' : list Node) (lo hi : nat) (v v' : nat) : Prop :=
  match d with
  | O => False
  | S d' =>
      ∃ n n', h !! v = Some n ∧ h' !! v' = Some n' ∧ (lo ≤ v' < hi)%nat
        ∧ start n' = start n ∧ end_ n' = end_ n
        ∧ suffixLink n' = suffixLink n ∧ suffixIndex n' = suffixIndex n
        ∧ (∀ i c, children n !! i = Some c → 0 ≤ i < 27 →
             ∃ c', children n' !! i = Some c' ∧ mirror d' h h' lo hi c c')
        ∧ (∀ i c', children n' !! i = Some c' →
             0 ≤ i < 27 ∧ is_Some (children n !! i))
  end.

(** The nodes [[lo, hi)] of a snapshot: outside the live tree, their
    children among themselves, their suffix links into the live tree. *)
Definition snapshot_range (g : ghost) (h : list Node) (lo hi : nat) : Prop :=
  (hi ≤ length h)%nat
  ∧ ∀ v n, (lo ≤ v < hi)%nat → h !! v = Some n →
      ¬ live g v
      ∧ (∀ i c, children n !! i = Some c → (lo ≤ c < hi)%nat)
      ∧ (∀ u, suffixLink n = Some u → live g u).

(** ** Ghost state and invariants of the construction *)

(** A ghost function changed at one node. *)
Definition upd {A} (f : nat → A) (k : nat) (a : A) : nat → A :=
  λ v, if decide (v = k) then a else f v.

Section invariants.
Variable text : list Z.

(** [text[a .. a + len) = text[b .. b + len)] *)
Definition agree (a b len : Z) : Prop :=
  ∀ k, 0 ≤ k < len → char_at text (a + k) = char_at text (b + k).

(** The length of the path label of a node (its string depth). *)
Definition dep (g : ghost) (h : list Node) (le : Z) (v : nat) : Z :=
  match h !! v with
  | Some n => realEnd n le + 1 - hd g v
  | None => 0
  end.

Inductive anc (g : ghost) : nat → nat → Prop :=
  | anc_refl u : anc g u u
  | anc_up u v : v ≠ 0%nat → anc g u (par g v) → anc g u v.

Definition internal (h : list Node) (v : nat) : Prop :=
  ∃ n, h !! v = Some n ∧ is_Some (end_ n).

Definition node_ok (g : ghost) (h : list Node) (le : Z) (v : nat) (n : Node)
  : Prop :=
  live g (par g v) ∧ internal h (par g v)
  ∧ 0 ≤ hd g v ∧ hd g v ≤ start n
  ∧ start n = hd g v + dep g h le (par g v)
  ∧ start n ≤ realEnd n le ∧ realEnd n le ≤ le
  ∧ (∀ e, end_ n = Some e → e < le)
  ∧ agree (hd g (par g v)) (hd g v) (dep g h le (par g v))
  ∧ ∃ pn c, h !! par g v = Some pn ∧ char_at text (start n) = Some c
            ∧ children pn !! charToIndex c = Some v.

Definition child_ok (g : ghost) (h : list Node) (p : nat) (k : Z) (c : nat)
  : Prop :=
  live g c ∧ c ≠ 0%nat ∧ par g c = p
  ∧ ∃ cn ch, h !! c = Some cn ∧ char_at text (start cn) = Some ch
             ∧ charToIndex ch = k.

Record wf (g : ghost) (h : list Node) (le : Z) : Prop := {
  wf_le : -1 ≤ le < strlen text;
  wf_root : live g 0%nat ∧ hd g 0%nat = 0
            ∧ ∃ r, h !! 0%nat = Some r ∧ start r = -1 ∧ end_ r = Some (-1);
  wf_live : ∀ v, live g v → is_Some (h !! v);
  wf_node : ∀ v n, live g v → v ≠ 0%nat → h !! v = Some n → node_ok g h le v n;
  wf_child : ∀ p pn k c, live g p → h !! p = Some pn →
             children pn !! k = Some c → child_ok g h p k c;
  wf_leaf : ∀ v n, live g v → h !! v = Some n → end_ n = None →
            children n = ∅;
  wf_branch : ∀ v n, live g v → v ≠ 0%nat → h !! v = Some n →
              is_Some (end_ n) →
              ∃ k1 k2, k1 ≠ k2 ∧ is_Some (children n !! k1)
                       ∧ is_Some (children n !! k2);
}.

(** Two heaps with the same edges: only suffix links and suffix indices
    may differ. *)
Definition same_struct (h h' : list Node) : Prop :=
  length h = length h'
  ∧ ∀ v n, h !! v = Some n →
      ∃ n', h' !! v = Some n' ∧ start n' = start n ∧ end_ n' = end_ n
            ∧ children n' = children n.

(** What a step of the construction does to the heap: the nodes outside
    the live tree keep their fields, and the new live nodes are fresh. *)
Definition heap_frame (g g' : ghost) (h h' : list Node) : Prop :=
  (length h ≤ length h')%nat
  ∧ (∀ v, (v < length h)%nat → ¬ live g v → h' !! v = h !! v)
  ∧ (∀ v, live g' v ↔ live g v ∨ (length h ≤ v < length h')%nat).

(** The suffix link of an internal node leads to the node of its path
    label without the first symbol; [null] stands for the root. *)
Definition link_ok (g : ghost) (h : list Node) (le : Z) (v : nat) (n : Node)
  : Prop :=
  match suffixLink n with
  | Some u => live g u ∧ internal h u
              ∧ dep g h le u = dep g h le v - 1
              ∧ agree (hd g u) (hd g v + 1) (dep g h le v - 1)
  | None => dep g h le v = 1
  end.

(** The tree with the leaves of the suffixes [0 .. j - 1]; [last] is the
    internal node whose suffix link is still to be set. *)
Record tree (g : ghost) (h : list Node) (le j : Z) (last : option nat)
  : Prop := {
  tr_wf : wf g h le;
  tr_link : ∀ v n, live g v → v ≠ 0%nat → h !! v = Some n →
            is_Some (end_ n) → last ≠ Some v → link_ok g h le v n;
  tr_links : ∀ v n u, live g v → h !! v = Some n → suffixLink n = Some u →
             live g u;
  tr_leaves : ∀ k, 0 ≤ k < j →
              ∃ l n, live g l ∧ h !! l = Some n ∧ end_ n = None ∧ hd g l = k;
  tr_leaf_hd : ∀ l n, live g l → h !! l = Some n → end_ n = None →
               0 ≤ hd g l < j;
}.

(** The active point spells [text[j .. pos)], every suffix of
    [text[0 .. pos)] from [j] on is a word of the tree, and the fuel
    spent is covered by the potential. *)
Record core (g : ghost) (t : SuffixTree) (le pos j : Z) (last : option nat)
    (F fuel : nat) : Prop := {
  co_root : root t = 0%nat;
  co_le : leafEnd t = le;
  co_j : 0 ≤ j ≤ pos;
  co_tree : tree g (heap t) le j last;
  co_imp : ∀ a, j ≤ a ≤ pos →
           ∃ c, live g c ∧ pos - a ≤ dep g (heap t) le c
                ∧ agree (hd g c) a (pos - a);
  co_an : live g (activeNode t) ∧ internal (heap t) (activeNode t);
  co_al : 0 ≤ activeLength t
          ∧ dep g (heap t) le (activeNode t) + activeLength t = pos - j;
  co_lbl : agree (hd g (activeNode t)) j (dep g (heap t) le (activeNode t));
  co_ae : activeLength t > 0 →
          activeEdge t = j + dep g (heap t) le (activeNode t);
  co_fuel : Z.of_nat F ≤ Z.of_nat fuel + dep g (heap t) le (activeNode t)
                          + 2 * j + pos;
}.

(** The node that waits for its suffix link: its label is
    [text[j - 1 .. pos)], and [text[j .. pos)] occurs before [pos]
    followed by a symbol other than [text[pos]]. *)
Definition pending (g : ghost) (h : list Node) (pos j : Z) (w : nat) : Prop :=
  live g w ∧ w ≠ 0%nat
  ∧ (∃ n, h !! w = Some n ∧ is_Some (end_ n) ∧ suffixLink n = None)
  ∧ dep g h pos w = pos - j + 1
  ∧ agree (hd g w) (j - 1) (pos - j + 1)
  ∧ ∃ a, 0 ≤ a ∧ a + (pos - j) < pos ∧ agree a j (pos - j)
         ∧ char_at text (a + (pos - j)) ≠ char_at text pos.

(** At the head of the loop of [extendSuffixTree(pos)]. *)
Record inv (g : ghost) (pos : Z) (t : SuffixTree) (F fuel : nat) : Prop := {
  inv_pos : 0 ≤ pos < strlen text;
  inv_rem : 1 ≤ remainingSuffixCount t;
  inv_core : core g t pos pos (pos + 1 - remainingSuffixCount t)
               (lastCreatedNode t) F fuel;
  inv_last : ∀ w, lastCreatedNode t = Some w →
             pending g (heap t) pos (pos + 1 - remainingSuffixCount t) w;
}.

(** Between two phases, before [extendSuffixTree(pos)]. *)
Record boundary (g : ghost) (pos : Z) (t : SuffixTree) (F fuel : nat)
  : Prop := {
  bd_pos : 0 ≤ pos ≤ strlen text;
  bd_rem : 0 ≤ remainingSuffixCount t;
  bd_core : core g t (pos - 1) pos (pos - remainingSuffixCount t) None F fuel;
}.

(** What [setSuffixIndexByDFS] does to a heap: only suffix indices
    change, and only to the index of a leaf of the live tree. *)
Definition indexed (g : ghost) (h0 : list Node) (le : Z)
    (h1 h2 : list Node) : Prop :=
  length h1 = length h2
  ∧ ∀ u n1, h1 !! u = Some n1 →
      ∃ n2, h2 !! u = Some n2 ∧ start n2 = start n1 ∧ end_ n2 = end_ n1
        ∧ children n2 = children n1 ∧ suffixLink n2 = suffixLink n1
        ∧ (suffixIndex n2 = suffixIndex n1
           ∨ (live g u ∧ children n1 = ∅
              ∧ suffixIndex n2 = strlen text - dep g h0 le u)).

(** Every leaf below [v] has its suffix index. *)
Definition indexed_below (g : ghost) (h0 : list Node) (le : Z)
    (v : nat) (h1 : list Node) : Prop :=
  ∀ u nu, live g u → anc g v u → h1 !! u = Some nu → children nu = ∅ →
    suffixIndex nu = strlen text - dep g h0 le u.

(** The finished suffix tree of a valid text: one leaf for every suffix,
    with its position as suffix index. *)
Record suffix_tree (g : ghost) (t : SuffixTree) : Prop := {
  st_root : root t = 0%nat;
  st_le : leafEnd t = strlen text - 1;
  st_tree : tree g (heap t) (strlen text - 1) (strlen text) None;
  st_index : ∀ l n, live g l → heap t !! l = Some n → children n = ∅ →
             suffixIndex n = hd g l;
}.

(** Between two phases of [buildSuffixTreeStepByStep], after [pos]
    phases: one snapshot for each of them, and, when suffixes are left
    implicit, the last symbol occurred before. *)
Definition build_inv (F : nat) (pos : Z) (t : SuffixTree) (fuel : nat)
  : Prop :=
  ∃ g, boundary g pos t F fuel
    ∧ Z.of_nat (length (steps t)) = pos
    ∧ Forall (λ s, ∃ lo hi, (lo ≤ snapshotRoot s < hi)%nat
                     ∧ snapshot_range g (heap t) lo hi) (steps t)
    ∧ (0 < remainingSuffixCount t →
       ∃ q, 0 ≤ q < pos - 1 ∧ char_at text q = char_at text (pos - 1)).

End invariants.

Arguments wf_le {text g h le}.
Arguments wf_root {text g h le}.
Arguments wf_live {text g h le}.
Arguments wf_node {text g h le}.
Arguments wf_child {text g h le}.
Arguments wf_leaf {text g h le}.
Arguments wf_branch {text g h le}.
Arguments tr_wf {text g h le j last}.
Arguments tr_link {text g h le j last}.
Arguments tr_links {text g h le j last}.
Arguments tr_leaves {text g h le j last}.
Arguments tr_leaf_hd {text g h le j last}.
Arguments co_root {text g t le pos j last F fuel}.
Arguments co_le {text g t le pos j last F fuel}.
Arguments co_j {text g t le pos j last F fuel}.
Arguments co_tree {text g t le pos j last F fuel}.
Arguments co_imp {text g t le pos j last F fuel}.
Arguments co_an {text g t le pos j last F fuel}.
Arguments co_al {text g t le pos j last F fuel}.
Arguments co_lbl {text g t le pos j last F fuel}.
Arguments co_ae {text g t le pos j last F fuel}.
Arguments co_fuel {text g t le pos j last F fuel}.
Arguments inv_pos {text g pos t F fuel}.
Arguments inv_rem {text g pos t F fuel}.
Arguments inv_core {text g pos t F fuel}.
Arguments inv_last {text g pos t F fuel}.
Arguments bd_pos {text g pos t F fuel}.
Arguments bd_rem {text g pos t F fuel}.
Arguments bd_core {text g pos t F fuel}.
Arguments st_root {text g t}.
Arguments st_le {text g t}.
Arguments st_tree {text g t}.
Arguments st_index {text g t}.

(** ** Vocabulary of the proofs *)

(** [p] can be read in [text] from position [i] on. *)
Definition reads (text p : list Z) (i : Z) : Prop :=
  ∀ k, 0 ≤ k < strlen p → char_at p k = char_at text (i + k).

(** The heap and the ghost state after a leaf for the symbol [ce] was
    added below the active node and the pending suffix link was set. *)
Definition leaf_heap (t : SuffixTree) (pos ce : Z) : list Node :=
  let hl := alter (set_child (charToIndex ce) (length (heap t))) (activeNode t)
              (heap t ++ [newNode pos None]) in
  match lastCreatedNode t with
  | Some w => alter (set_suffixLink (Some (activeNode t))) w hl
  | None => hl
  end.

Definition leaf_ghost (g : ghost) (t : SuffixTree) (pos : Z) : ghost :=
  mkGhost (upd (hd g) (length (heap t)) (pos + 1 - remainingSuffixCount t))
          (upd (par g) (length (heap t)) (activeNode t))
          (λ v, live g v ∨ v = length (heap t)).

(** The heap after the edge into [next] was split, in the order of the
    assignments of the source, and its ghost state. *)
Definition split_heap (t : SuffixTree) (pos : Z) (nn : Node) (ce cp cq : Z)
    (next : nat) : list Node :=
  let h1 := alter (set_child (charToIndex ce) (length (heap t))) (activeNode t)
              (heap t ++ [newNode (start nn)
                            (Some (start nn + activeLength t - 1))]) in
  let h2 := alter (set_child (charToIndex cp) (length h1)) (length (heap t))
              (h1 ++ [newNode pos None]) in
  let h3 := alter (set_start (start nn + activeLength t)) next h2 in
  let h4 := alter (set_child (charToIndex cq) next) (length (heap t)) h3 in
  match lastCreatedNode t with
  | Some w => alter (set_suffixLink (Some (length (heap t)))) w h4
  | None => h4
  end.

Definition split_ghost (g : ghost) (t : SuffixTree) (pos : Z) (next : nat)
  : ghost :=
  mkGhost (upd (upd (hd g) (length (heap t)) (hd g next))
             (S (length (heap t))) (pos + 1 - remainingSuffixCount t))
          (upd (upd (upd (par g) (length (heap t)) (activeNode t))
                  (S (length (heap t))) (length (heap t)))
             next (length (heap t)))
          (λ v, live g v ∨ v = length (heap t) ∨ v = S (length (heap t))).

(** The state of the loop of [cloneNode] after the slots [K]: the copy of
    the node [n0], in a heap that grew from [h]. *)
Definition cloning (g : ghost) (h0 : list Node) (d : nat) (h : list Node)
    (n0 : Node) (K : list Z) (h1 : list Node) : Prop :=
  (length h < length h1)%nat
  ∧ (∀ u, (u < length h)%nat → h1 !! u = h !! u)
  ∧ (∃ nr, h1 !! length h = Some nr
      ∧ start nr = start n0 ∧ end_ nr = end_ n0
      ∧ suffixLink nr = suffixLink n0 ∧ suffixIndex nr = suffixIndex n0
      ∧ (∀ i c, i ∈ K → children n0 !! i = Some c →
           ∃ c' lo hi, children nr !! i = Some c'
             ∧ (length h < lo)%nat ∧ (hi ≤ length h1)%nat
             ∧ mirror d h0 h1 lo hi c c')
      ∧ (∀ i c', children nr !! i = Some c' →
           0 ≤ i < 27 ∧ i ∈ K ∧ is_Some (children n0 !! i)))
  ∧ (∀ u n, (length h ≤ u < length h1)%nat → h1 !! u = Some n →
       (∀ i c, children n !! i = Some c → (length h ≤ c < length h1)%nat)
       ∧ (∀ x, suffixLink n = Some x → live g x)).

(** [l] is a leaf of the tree of [v]. *)
Definition leaf_below (g : ghost) (t : SuffixTree) (v l : nat) : Prop :=
  live g l ∧ anc g v l ∧ ∃ n, heap t !! l = Some n ∧ children n = ∅.

(** The tree of a text that need not end with the terminal: a
    well-formed tree in which every suffix of the text can be read from
    the root, be it to a leaf or not. *)
Record word_tree (text : list Z) (g : ghost) (t : SuffixTree) : Prop := {
  wt_root : root t = 0%nat;
  wt_le : leafEnd t = strlen text - 1;
  wt_wf : wf text g (heap t) (strlen text - 1);
  wt_words : ∀ a, 0 ≤ a ≤ strlen text →
             ∃ c, live g c
                  ∧ strlen text - a ≤ dep g (heap t) (strlen text - 1) c
                  ∧ agree text (hd g c) a (strlen text - a);
}.

Arguments wt_root {text g t}.
Arguments wt_le {text g t}.
Arguments wt_wf {text g t}.
Arguments wt_words {text g t}.

(** The nodes [[lo, hi)] of a snapshot with remapped links: outside the
    live tree, reached from [lo], their children and their suffix links
    among themselves. *)
Definition linked_range (g : ghost) (h : list Node) (lo hi : nat) : Prop :=
  (hi ≤ length h)%nat
  ∧ ∀ v n, (lo ≤ v < hi)%nat → h !! v = Some n →
      ¬ live g v
      ∧ reach h lo v
      ∧ (∀ i c, children n !! i = Some c → (lo ≤ c < hi)%nat)
      ∧ (∀ u, suffixLink n = Some u → (lo ≤ u < hi)%nat).

(** What [_cloneNodeHelper] has done, from the heap [h0] on, when the
    map is [m]: one new node for every entry, in the order of the
    entries; the copy has the numbers of its original, no suffix link
    yet, and its children are copies of children of the original. *)
Definition copying (g : ghost) (h0 h : list Node) (m : list (nat * nat))
  : Prop :=
  length h = (length h0 + length m)%nat
  ∧ (∀ u, (u < length h0)%nat → h !! u = h0 !! u)
  ∧ m.*2 = seq (length h0) (length m)
  ∧ NoDup m.*1
  ∧ ∀ u c, (u, c) ∈ m →
      live g u
      ∧ ∃ nu nc, h0 !! u = Some nu ∧ h !! c = Some nc
          ∧ start nc = start nu ∧ end_ nc = end_ nu
          ∧ suffixIndex nc = suffixIndex nu ∧ suffixLink nc = None
          ∧ ∀ i c', children nc !! i = Some c' →
              ∃ x, children nu !! i = Some x ∧ (x, c') ∈ m.

(** The copy [c] of [u] has a copy of every child of [u]. *)
Definition copied (h0 h : list Node) (m : list (nat * nat)) (u c : nat)
  : Prop :=
  ∃ nu nc, h0 !! u = Some nu ∧ h !! c = Some nc
    ∧ ∀ i x, children nu !! i = Some x →
        ∃ c', children nc !! i = Some c' ∧ (x, c') ∈ m.

(** Between two rounds of this loop, after [pos] rounds: one record for
    each of them, with the position and the leaf end of its round, and a
    snapshot with remapped links. *)
Definition linked_inv (text : list Z) (F : nat) (pos : Z) (t : SuffixTree)
    (stp : list Linked.Step) (fuel : nat) : Prop :=
  ∃ g, boundary text g pos t F fuel
    ∧ Z.of_nat (length stp) = pos
    ∧ Forall (λ s, ∃ hi, linked_range g (heap t) (Linked.snapshotRoot s) hi
                         ∧ (Linked.snapshotRoot s < hi)%nat) stp
    ∧ ∀ i s, stp !! i = Some s →
        Linked.pos s = Z.of_nat i ∧ Linked.leafEndSnapshot s = Z.of_nat i
        ∧ Linked.message s = (char_at text (Z.of_nat i), Z.of_nat i).

(** ** Vocabulary of the properties *)

(** [v] is a leaf of the tree: a node reached from the root that has no
    child. *)
Definition is_leaf (t : SuffixTree) (v : nat) : Prop :=
  reach (heap t) (root t) v ∧ ∃ n, heap t !! v = Some n ∧ children n = ∅.

(** [node.suffixIndex] of the node [v]. *)
Definition suffixIndex_of (t : SuffixTree) (v : nat) : Z :=
  from_option suffixIndex (-1) (heap t !! v).

(** The order in which the loops over the slots [0 .. 26] meet the
    labels: symbol by symbol, by the index of the symbol. *)
Definition idx_le (a b : list Z) : Prop :=
  lex_le (charToIndex <$> a) (charToIndex <$> b).

(** [s] is the path label of the node [v]. *)
Definition path_label (text : list Z) (g : ghost) (t : SuffixTree)
    (v : nat) (s : list Z) : Prop :=
  strlen s = dep g (heap t) (strlen text - 1) v ∧ reads text s (hd g v).

(** A node of the tree with two children or more. *)
Definition branches (g : ghost) (t : SuffixTree) (v : nat) : Prop :=
  live g v ∧ ∃ n, heap t !! v = Some n ∧ 2 ≤ childCount n.

(** What [dfs] of [longestRepeatedSubstring] has done to the variable
    [lrs] after the nodes [S]: the new value [r] is as long as the label
    of every branching node of [S]; if it changed, it is the label of one
    of them, longer than the old value and the first of its length. *)
Definition lrs_post_on (text : list Z) (g : ghost) (t : SuffixTree)
    (S : nat → Prop) (lrs r : list Z) : Prop :=
  strlen lrs ≤ strlen r
  ∧ (∀ u, branches g t u → S u →
       dep g (heap t) (strlen text - 1) u ≤ strlen r)
  ∧ (r = lrs
     ∨ (strlen lrs < strlen r
        ∧ (∃ u, branches g t u ∧ S u ∧ path_label text g t u r)
        ∧ ∀ u s, branches g t u → S u → path_label text g t u s →
            strlen s = strlen r → idx_le r s)).

(** The node [v] and the nodes below its children of the slots before
    [a]. *)
Definition lrs_scope (g : ghost) (n : Node) (v : nat) (a : Z) (u : nat)
  : Prop :=
  u = v ∨ ∃ k c, 0 ≤ k < a ∧ children n !! k = Some c ∧ anc g c u.

(** [s] is a unique substring of [text]: not empty, without the terminal,
    and read at exactly one position. *)
Definition unique_in (text s : list Z) : Prop :=
  s ≠ [] ∧ (DOLLAR ∉ s) ∧ (∃ i, occurrences text s = [i]).

(** [s] is the string of the edges on the way from the root to the node
    [v]: the argument [path] of the traversals, which grows by [edgeStr]
    at every child. *)
Inductive spells (text : list Z) (t : SuffixTree) : nat → list Z → Prop :=
  | spells_root : spells text t (root t) []
  | spells_child p s pn i c cn :
      spells text t p s → heap t !! p = Some pn →
      children pn !! i = Some c → heap t !! c = Some cn →
      spells text t c (s ++ edgeStr text t cn).

(** * Proofs *)

(** ** Strings *)

Lemma strlen_nonneg (s : list Z) : 0 ≤ strlen s.
Proof. unfold strlen. lia. Qed.

Lemma strlen_app (a b : list Z) : strlen (a ++ b) = strlen a + strlen b.
Proof. unfold strlen. rewrite length_app. lia. Qed.

Lemma char_at_Some (s : list Z) (i c : Z) :
  char_at s i = Some c → 0 ≤ i < strlen s.
Proof.
  unfold char_at, strlen. case_decide; [|done].
  intros H1%lookup_lt_Some. lia.
Qed.

Lemma char_at_is_Some (s : list Z) (i : Z) :
  0 ≤ i < strlen s → is_Some (char_at s i).
Proof.
  unfold char_at, strlen. intros. case_decide; [|lia].
  apply lookup_lt_is_Some. lia.
Qed.

Lemma char_at_None (s : list Z) (i : Z) :
  char_at s i = None → i < 0 ∨ strlen s ≤ i.
Proof.
  intros H. destruct (decide (0 ≤ i < strlen s)) as [Hi|]; [|lia].
  apply char_at_is_Some in Hi. rewrite H in Hi. by destruct Hi.
Qed.

Lemma char_at_elem (s : list Z) (i c : Z) : char_at s i = Some c → c ∈ s.
Proof.
  unfold char_at. case_decide; [|done]. apply list_elem_of_lookup_2.
Qed.

Lemma charToIndex_inj (a b : Z) :
  alphabet a → alphabet b → charToIndex a = charToIndex b → a = b.
Proof.
  unfold alphabet, charToIndex, DOLLAR, CODE_A, CODE_Z.
  intros. repeat case_decide; lia.
Qed.

Lemma charToIndex_range (a : Z) : alphabet a → 0 ≤ charToIndex a < 27.
Proof.
  unfold alphabet, charToIndex, DOLLAR, CODE_A, CODE_Z.
  intros. case_decide; lia.
Qed.

Lemma elem_of_slots (k : Z) : k ∈ slots ↔ 0 ≤ k < 27.
Proof. unfold slots, ALPHABET_SIZE. rewrite elem_of_seqZ. lia. Qed.

(** ** The structure of a well-formed heap *)

Section agree_facts.
Variable text : list Z.

Lemma agree_refl a len : agree text a a len.
Proof. by intros k _. Qed.

Lemma agree_sym a b len : agree text a b len → agree text b a len.
Proof. intros H k Hk. symmetry. by apply H. Qed.

Lemma agree_trans a b c l1 l2 :
  agree text a b l1 → agree text b c l2 → agree text a c (Z.min l1 l2).
Proof. intros H1 H2 k Hk. rewrite H1 by lia. apply H2. lia. Qed.

Lemma agree_mono a b l l' : l' ≤ l → agree text a b l → agree text a b l'.
Proof. intros Hl H k Hk. apply H. lia. Qed.

Lemma agree_shift a b l d :
  0 ≤ d → agree text a b l → agree text (a + d) (b + d) (l - d).
Proof.
  intros Hd H k Hk. rewrite <- !Z.add_assoc. apply H. lia.
Qed.

Lemma agree_at a b l k :
  agree text a b l → 0 ≤ k < l → char_at text (a + k) = char_at text (b + k).
Proof. intros H. apply H. Qed.
End agree_facts.

Arguments agree_sym {text a b len}.
Arguments agree_trans {text a b c l1 l2}.
Arguments agree_mono {text a b l l'}.
Arguments agree_shift {text a b l} d.
Arguments agree_at {text a b l k}.

Section wf_facts.
Variable text : list Z.
Hypothesis text_alphabet : Forall alphabet text.
Variables (g : ghost) (h : list Node) (le : Z).
Hypothesis Hwf : wf text g h le.

Lemma char_alphabet i c : char_at text i = Some c → alphabet c.
Proof.
  intros H%char_at_elem. rewrite Forall_forall in text_alphabet. auto.
Qed.

Lemma dep_root : dep g h le 0%nat = 0.
Proof.
  destruct (wf_root Hwf) as (_ & Hhd & r & Hr & Hs & He).
  unfold dep, realEnd. rewrite Hr, He, Hhd. lia.
Qed.

Lemma dep_eq v n : h !! v = Some n → dep g h le v = realEnd n le + 1 - hd g v.
Proof. unfold dep. by intros ->. Qed.

Lemma dep_par v :
  live g v → v ≠ 0%nat →
  0 ≤ dep g h le (par g v) < dep g h le v.
Proof.
  intros Hl Hv. destruct (wf_live Hwf v Hl) as [n Hn].
  destruct (wf_node Hwf v n Hl Hv Hn) as (_&_&?&?&?&?&?&_).
  rewrite (dep_eq v n Hn). lia.
Qed.

Lemma live_par v : live g v → v ≠ 0%nat → live g (par g v).
Proof.
  intros Hl Hv. destruct (wf_live Hwf v Hl) as [n Hn].
  by destruct (wf_node Hwf v n Hl Hv Hn) as (?&_).
Qed.

Lemma dep_nonneg v : live g v → 0 ≤ dep g h le v.
Proof.
  intros Hl. destruct (decide (v = 0%nat)) as [->|Hv].
  - rewrite dep_root. lia.
  - pose proof (dep_par v Hl Hv). lia.
Qed.

Lemma dep_pos v : live g v → v ≠ 0%nat → 0 < dep g h le v.
Proof. intros Hl Hv. pose proof (dep_par v Hl Hv). lia. Qed.

Lemma agree_par v :
  live g v → v ≠ 0%nat →
  agree text (hd g (par g v)) (hd g v) (dep g h le (par g v)).
Proof.
  intros Hl Hv. destruct (wf_live Hwf v Hl) as [n Hn].
  by destruct (wf_node Hwf v n Hl Hv Hn) as (_&_&_&_&_&_&_&_&?&_).
Qed.

Lemma anc_root_aux (k : nat) :
  ∀ v, live g v → (Z.to_nat (dep g h le v) < k)%nat → anc g 0%nat v.
Proof.
  induction k as [|k IH]; intros v Hl Hk; [lia|].
  destruct (decide (v = 0%nat)) as [->|Hv]; [constructor|].
  apply anc_up; [done|]. apply IH; [by apply live_par|].
  pose proof (dep_par v Hl Hv). lia.
Qed.

Lemma anc_root v : live g v → anc g 0%nat v.
Proof. intros Hl. eapply anc_root_aux; [done|]. apply Nat.lt_succ_diag_r. Qed.

Lemma anc_live u v : anc g u v → live g v → live g u.
Proof. induction 1; auto using live_par. Qed.

Lemma anc_dep u v : anc g u v → live g v → dep g h le u ≤ dep g h le v.
Proof.
  induction 1 as [|u v Hv _ IH]; intros Hl; [lia|].
  pose proof (dep_par v Hl Hv). specialize (IH (live_par v Hl Hv)). lia.
Qed.

Lemma anc_agree u v :
  anc g u v → live g v → agree text (hd g u) (hd g v) (dep g h le u).
Proof.
  induction 1 as [|u v Hv Ha IH]; intros Hl; [apply agree_refl|].
  pose proof (anc_dep _ _ Ha (live_par v Hl Hv)).
  eapply agree_mono; [|eapply agree_trans;
    [apply IH; by apply live_par|by apply agree_par]]. lia.
Qed.

Lemma anc_trans u v w : anc g u v → anc g v w → anc g u w.
Proof. intros Huv. induction 1; [done|]. apply anc_up; auto. Qed.

Lemma anc_antisym u v : anc g u v → live g v → dep g h le v ≤ dep g h le u → u = v.
Proof.
  destruct 1 as [|u v Hv Ha]; intros Hl Hd; [done|].
  pose proof (anc_dep _ _ Ha (live_par v Hl Hv)).
  pose proof (dep_par v Hl Hv). lia.
Qed.

(** Below an ancestor [u] of [v] other than [v], a child of [u] is an
    ancestor of [v]. *)
Lemma anc_child u v :
  anc g u v → live g v → u ≠ v →
  ∃ c, live g c ∧ c ≠ 0%nat ∧ par g c = u ∧ anc g c v.
Proof.
  induction 1 as [|u v Hv Ha IH]; intros Hl Hne; [done|].
  destruct (decide (u = par g v)) as [->|Hp].
  - exists v. split_and!; auto. constructor.
  - destruct (IH (live_par v Hl Hv) Hp) as (c & ? & ? & ? & ?).
    exists c. split_and!; auto. by apply anc_up.
Qed.

(** The first symbol of the edge into a live node [c], read in the label
    of a descendant. *)
Lemma child_key c n :
  live g c → c ≠ 0%nat → h !! c = Some n →
  ∃ pn ch, h !! par g c = Some pn
    ∧ char_at text (hd g c + dep g h le (par g c)) = Some ch
    ∧ children pn !! charToIndex ch = Some c.
Proof.
  intros Hl Hc Hn.
  destruct (wf_node Hwf c n Hl Hc Hn)
    as (_&_&_&_&Hs&_&_&_&_&pn&ch&Hpn&Hch&Hk).
  exists pn, ch. rewrite <- Hs. auto.
Qed.

(** Two children of a node whose edges start with the same symbol are
    the same node. *)
Lemma child_unique c1 c2 :
  live g c1 → live g c2 → c1 ≠ 0%nat → c2 ≠ 0%nat →
  par g c1 = par g c2 →
  char_at text (hd g c1 + dep g h le (par g c1))
  = char_at text (hd g c2 + dep g h le (par g c1)) →
  c1 = c2.
Proof.
  intros Hl1 Hl2 H1 H2 Hp Hch.
  destruct (wf_live Hwf c1 Hl1) as [n1 Hn1].
  destruct (wf_live Hwf c2 Hl2) as [n2 Hn2].
  destruct (child_key c1 n1) as (pn1 & ch1 & Hpn1 & Hc1 & Hk1); auto.
  destruct (child_key c2 n2) as (pn2 & ch2 & Hpn2 & Hc2 & Hk2); auto.
  rewrite <- Hp in *. rewrite Hch in Hc1. simplify_eq. done.
Qed.

(** A node whose label is a prefix of the label of [v] is an ancestor of
    [v]. *)
Lemma prefix_anc_aux (k : nat) :
  ∀ u v, live g u → live g v → (Z.to_nat (dep g h le u) < k)%nat →
    dep g h le u ≤ dep g h le v →
    agree text (hd g u) (hd g v) (dep g h le u) → anc g u v.
Proof.
  induction k as [|k IH]; intros u v Hu Hv Hk Hd Hag; [lia|].
  destruct (decide (u = 0%nat)) as [->|Hu0]; [by apply anc_root|].
  pose proof (dep_par u Hu Hu0) as Hdp.
  assert (anc g (par g u) v) as Hpa.
  { apply IH; auto using live_par; [lia..|].
    eapply agree_mono; [|eapply agree_trans; [by apply agree_par|done]]. lia. }
  destruct (anc_child _ _ Hpa Hv) as (c & Hc & Hc0 & Hcp & Hcv); [intros <-; lia|].
  assert (c = u) as ->; [|done].
  apply child_unique; auto. rewrite Hcp.
  pose proof (anc_agree _ _ Hcv Hv) as Hcag.
  pose proof (dep_par c Hc Hc0) as Hdc. rewrite Hcp in Hdc.
  rewrite (agree_at Hcag) by lia.
  rewrite (agree_at Hag) by lia. done.
Qed.

Lemma prefix_anc u v :
  live g u → live g v → dep g h le u ≤ dep g h le v →
  agree text (hd g u) (hd g v) (dep g h le u) → anc g u v.
Proof. intros. eapply prefix_anc_aux; eauto. Qed.

End wf_facts.

Arguments char_alphabet {text} text_alphabet {i c}.
Arguments dep_root {text g h le}.
Arguments dep_eq {g h le v n}.
Arguments dep_par {text g h le}.
Arguments live_par {text g h le}.
Arguments dep_nonneg {text g h le}.
Arguments dep_pos {text g h le}.
Arguments agree_par {text g h le}.
Arguments anc_root {text g h le}.
Arguments anc_live {text g h le} Hwf {u v}.
Arguments anc_dep {text g h le} Hwf {u v}.
Arguments anc_agree {text g h le} Hwf {u v}.
Arguments anc_trans {g u v w}.
Arguments anc_antisym {text g h le} Hwf {u v}.
Arguments anc_child {text g h le} Hwf {u v}.
Arguments child_key {text g h le}.
Arguments child_unique {text g h le}.
Arguments prefix_anc {text g h le}.

Section descend.
Variable text : list Z.
Hypothesis text_alphabet : Forall alphabet text.
Variables (g : ghost) (h : list Node) (le : Z).
Hypothesis Hwf : wf text g h le.

(** What a child pointer tells. *)
Lemma child_facts p pn k c :
  live g p → h !! p = Some pn → children pn !! k = Some c →
  live g c ∧ c ≠ 0%nat ∧ par g c = p
  ∧ ∃ cn ch, h !! c = Some cn
      ∧ start cn = hd g c + dep g h le p
      ∧ char_at text (start cn) = Some ch ∧ charToIndex ch = k
      ∧ alphabet ch ∧ 0 ≤ k < 27
      ∧ dep g h le c = dep g h le p + edgeLength cn le
      ∧ 1 ≤ edgeLength cn le
      ∧ realEnd cn le ≤ le ∧ 0 ≤ hd g c
      ∧ agree text (hd g p) (hd g c) (dep g h le p).
Proof.
  intros Hp Hpn Hk.
  destruct (wf_child Hwf p pn k c Hp Hpn Hk)
    as (Hc & Hc0 & Hpar & cn & ch & Hcn & Hch & Hidx).
  destruct (wf_node Hwf c cn Hc Hc0 Hcn)
    as (_&_&?&?&Hs&?&?&_&Hag&_).
  rewrite Hpar in *. split_and!; auto.
  exists cn, ch. pose proof (char_alphabet text_alphabet Hch).
  split_and!; auto.
  - subst k. by apply charToIndex_range.
  - subst k. by apply charToIndex_range.
  - rewrite (dep_eq Hcn). unfold edgeLength. lia.
  - unfold edgeLength. lia.
Qed.

(** From a node whose label is a proper prefix of the label of [c], the
    child for the next symbol of [c] exists and is an ancestor of [c]. *)
Lemma descend u un c :
  live g u → h !! u = Some un → live g c →
  dep g h le u < dep g h le c →
  agree text (hd g u) (hd g c) (dep g h le u) →
  ∃ x ch, char_at text (hd g c + dep g h le u) = Some ch
    ∧ children un !! charToIndex ch = Some x
    ∧ live g x ∧ anc g x c.
Proof.
  intros Hu Hun Hc Hd Hag.
  assert (anc g u c) as Ha by (eapply prefix_anc; eauto; lia).
  destruct (anc_child Hwf Ha Hc) as (x & Hx & Hx0 & Hxp & Hxc);
    [intros ->; lia|].
  destruct (wf_live Hwf x Hx) as [xn Hxn].
  destruct (child_key Hwf x xn Hx Hx0 Hxn) as (pn & ch & Hpn & Hch & Hk).
  pose proof (anc_agree Hwf Hxc Hc) as Hxag.
  pose proof (dep_par Hwf x Hx Hx0) as Hdx.
  rewrite Hxp in Hpn, Hch, Hdx. rewrite Hun in Hpn. injection Hpn as <-.
  exists x, ch. split_and!; auto.
  rewrite <- (agree_at Hxag) by lia. done.
Qed.

(** Setting a suffix link or a suffix index leaves the structure alone. *)
Lemma dep_same h' v :
  (∀ n, h !! v = Some n → ∃ n', h' !! v = Some n' ∧ end_ n' = end_ n) →
  (h !! v = None → h' !! v = None) →
  dep g h' le v = dep g h le v.
Proof.
  intros H1 H2. unfold dep. destruct (h !! v) as [n|] eqn:Hn.
  - destruct (H1 n eq_refl) as (n' & -> & He). unfold realEnd. by rewrite He.
  - by rewrite H2.
Qed.
End descend.

Arguments child_facts {text} text_alphabet {g h le} Hwf {p pn k c}.
Arguments descend {text g h le} Hwf u un c.
Arguments dep_same {g h le} h' v.

(** ** Heaps with the same edges *)

Section struct_facts.
Variable text : list Z.
Variables (g : ghost) (h h' : list Node) (le : Z).
Hypothesis Hss : same_struct h h'.

Lemma same_struct_None v : h !! v = None → h' !! v = None.
Proof.
  destruct Hss as [Hlen _]. rewrite !lookup_ge_None. lia.
Qed.

Lemma same_struct_back v n' :
  h' !! v = Some n' →
  ∃ n, h !! v = Some n ∧ start n' = start n ∧ end_ n' = end_ n
       ∧ children n' = children n.
Proof.
  intros Hn'. destruct (h !! v) as [n|] eqn:Hn.
  - destruct (proj2 Hss v n Hn) as (n'' & Hn'' & ?). simplify_eq. eauto.
  - apply same_struct_None in Hn. congruence.
Qed.

Lemma dep_struct v : dep g h' le v = dep g h le v.
Proof.
  apply dep_same; [|apply same_struct_None].
  intros n Hn. destruct (proj2 Hss v n Hn) as (n' & ? & ? & ? & ?). eauto.
Qed.

Lemma internal_struct v : internal h v → internal h' v.
Proof.
  intros (n & Hn & He). destruct (proj2 Hss v n Hn) as (n' & ? & ? & Hee & ?).
  exists n'. rewrite Hee. auto.
Qed.

Lemma wf_struct : wf text g h le → wf text g h' le.
Proof.
  intros Hwf. constructor.
  - apply (wf_le Hwf).
  - destruct (wf_root Hwf) as (? & ? & r & Hr & ? & ?).
    destruct (proj2 Hss _ _ Hr) as (r' & ? & ? & ? & ?).
    split_and!; auto. exists r'. split_and!; congruence.
  - intros v Hv. destruct (wf_live Hwf v Hv) as [n Hn].
    destruct (proj2 Hss _ _ Hn) as (n' & ? & _). eauto.
  - intros v n' Hv Hv0 Hn'.
    destruct (same_struct_back v n' Hn') as (n & Hn & Hs & He & Hc).
    destruct (wf_node Hwf v n Hv Hv0 Hn)
      as (?&?&?&?&?&?&?&?&?&pn&c&Hpn&?&?).
    destruct (proj2 Hss _ _ Hpn) as (pn' & ? & ? & ? & Hpc).
    unfold node_ok, realEnd in *. rewrite !dep_struct, Hs, He.
    split_and!; auto using internal_struct.
    exists pn', c. rewrite Hpc. auto.
  - intros p pn' k c Hp Hpn' Hk.
    destruct (same_struct_back p pn' Hpn') as (pn & Hpn & _ & _ & Hc).
    rewrite Hc in Hk.
    destruct (wf_child Hwf p pn k c Hp Hpn Hk) as (?&?&?&cn&ch&Hcn&?&?).
    destruct (proj2 Hss _ _ Hcn) as (cn' & ? & Hs & ? & ?).
    split_and!; auto. exists cn', ch. rewrite Hs. auto.
  - intros v n' Hv Hn' He.
    destruct (same_struct_back v n' Hn') as (n & Hn & _ & Hee & Hc).
    rewrite Hc. apply (wf_leaf Hwf v n); congruence.
  - intros v n' Hv Hv0 Hn' He.
    destruct (same_struct_back v n' Hn') as (n & Hn & _ & Hee & Hc).
    rewrite Hc. apply (wf_branch Hwf v n); congruence.
Qed.

Lemma link_ok_struct v n n' :
  suffixLink n' = suffixLink n → link_ok text g h le v n → link_ok text g h' le v n'.
Proof.
  unfold link_ok. intros ->. destruct (suffixLink n).
  - rewrite !dep_struct. intros (?&?&?&?). auto using internal_struct.
  - by rewrite dep_struct.
Qed.

(** The tree after suffix links were set, when every internal node but
    [last'] has a proper one. *)
Lemma tree_struct j last last' :
  tree text g h le j last →
  (∀ v n n', live g v → v ≠ 0%nat → h !! v = Some n → h' !! v = Some n' →
     is_Some (end_ n) → last' ≠ Some v →
     (last ≠ Some v ∧ suffixLink n' = suffixLink n) ∨ link_ok text g h' le v n') →
  (∀ v n n' u, live g v → h !! v = Some n → h' !! v = Some n' →
     suffixLink n' = Some u → suffixLink n = Some u ∨ live g u) →
  tree text g h' le j last'.
Proof.
  intros Ht Hl Hlive. constructor.
  - apply wf_struct, (tr_wf Ht).
  - intros v n' Hv Hv0 Hn' He Hlast.
    destruct (same_struct_back v n' Hn') as (n & Hn & _ & Hee & _).
    rewrite Hee in He.
    destruct (Hl v n n' Hv Hv0 Hn Hn' He Hlast) as [[Hne Heq]|]; [|done].
    eapply link_ok_struct; [done|]. by apply (tr_link Ht).
  - intros v n' u Hv Hn' Hu.
    destruct (same_struct_back v n' Hn') as (n & Hn & _).
    destruct (Hlive v n n' u Hv Hn Hn' Hu) as [Ho|]; [|done].
    apply (tr_links Ht v n u Hv Hn Ho).
  - intros k Hk. destruct (tr_leaves Ht k Hk) as (l & n & ? & Hn & ? & ?).
    destruct (proj2 Hss _ _ Hn) as (n' & ? & ? & ? & ?).
    exists l, n'. split_and!; auto; congruence.
  - intros l n' Hv Hn' He.
    destruct (same_struct_back l n' Hn') as (n & Hn & _ & Hee & _).
    apply (tr_leaf_hd Ht l n); congruence.
Qed.
End struct_facts.

Arguments dep_struct {g h h' le}.
Arguments internal_struct {h h'}.
Arguments wf_struct {text g h h' le}.
Arguments tree_struct {text g h h' le} Hss {j last} last'.

Lemma same_struct_refl h : same_struct h h.
Proof. split; [done|]. intros v n Hn. eauto. Qed.

Lemma same_struct_set_link h w l :
  same_struct h (alter (set_suffixLink l) w h).
Proof.
  split; [by rewrite length_alter|]. intros v n Hn.
  rewrite list_lookup_alter. case_decide; subst; rewrite Hn; simpl; eauto.
Qed.

(** ** One iteration of the loop of [extendSuffixTree] *)

Section core_facts.
Variable text : list Z.
Hypothesis text_alphabet : Forall alphabet text.

(** Every suffix of [text[0 .. pos)] is a word of the tree. *)
Lemma core_word g t le pos j last F fuel :
  core text g t le pos j last F fuel → pos - 1 ≤ le →
  ∀ a, 0 ≤ a ≤ pos →
    ∃ c, live g c ∧ pos - a ≤ dep g (heap t) le c
         ∧ agree text (hd g c) a (pos - a).
Proof.
  intros Hc Hle a Ha. destruct (decide (a < j)) as [Haj|Haj].
  - destruct (tr_leaves (co_tree Hc) a)
      as (l & n & Hl & Hn & He & Hhd); [lia|].
    exists l. split_and!; auto.
    + rewrite (dep_eq Hn). unfold realEnd. rewrite He. lia.
    + rewrite Hhd. apply agree_refl.
  - apply (co_imp Hc). lia.
Qed.
End core_facts.

Arguments core_word {text g t le pos j last F fuel}.

Section iteration.
Variable text : list Z.
Hypothesis text_alphabet : Forall alphabet text.
Variables (g : ghost) (t : SuffixTree) (pos : Z) (F fuel : nat).
Hypothesis Hinv : inv text g pos t F (S fuel).

Local Abbreviation j := (pos + 1 - remainingSuffixCount t).
Local Abbreviation h := (heap t).
Local Abbreviation aN := (activeNode t).
Local Abbreviation aL := (activeLength t).
Local Abbreviation D := (dep g (heap t) pos).

Lemma iter_core :
  core text g t pos pos (pos + 1 - remainingSuffixCount t)
    (lastCreatedNode t) F (S fuel).
Proof. exact (inv_core Hinv). Qed.

Lemma iter_tree :
  tree text g (heap t) pos (pos + 1 - remainingSuffixCount t)
    (lastCreatedNode t).
Proof. exact (co_tree iter_core). Qed.

Lemma iter_wf : wf text g (heap t) pos.
Proof. exact (tr_wf iter_tree). Qed.

Lemma iter_setup :
  ∃ an ce, h !! aN = Some an ∧ is_Some (end_ an)
    ∧ char_at text (pos - aL) = Some ce ∧ alphabet ce
    ∧ pos - aL = j + D aN
    ∧ (aL > 0 → activeEdge t = pos - aL)
    ∧ live g aN ∧ 0 ≤ aL ∧ 0 ≤ D aN.
Proof.
  destruct (co_an iter_core) as [Hl (an & Han & He)].
  destruct (co_al iter_core) as [H0 Hal].
  pose proof (co_j iter_core) as Hj.
  pose proof (inv_pos Hinv) as Hpos.
  pose proof (dep_nonneg iter_wf _ Hl) as Hd.
  destruct (char_at_is_Some text (pos - aL)) as [ce Hce]; [lia|].
  exists an, ce. split_and!; auto; try lia.
  - by eapply char_alphabet.
  - intros Hp. rewrite (co_ae iter_core Hp). lia.
Qed.

Lemma active_word :
  ∃ c, live g c ∧ pos - j ≤ D c ∧ agree text (hd g c) j (pos - j)
       ∧ agree text (hd g aN) (hd g c) (D aN).
Proof.
  destruct (core_word iter_core ltac:(lia) j) as (c & Hc & Hdc & Hagc).
  { pose proof (co_j iter_core). lia. }
  exists c. split_and!; auto.
  destruct (co_al iter_core) as [H0 Hal].
  eapply agree_mono; [|eapply agree_trans;
    [apply (co_lbl iter_core)|apply agree_sym, Hagc]]. lia.
Qed.

Lemma next_facts an ce next :
  h !! aN = Some an → char_at text (pos - aL) = Some ce →
  children an !! charToIndex ce = Some next →
  live g next ∧ next ≠ 0%nat ∧ par g next = aN ∧ next ≠ aN
  ∧ ∃ nn, h !! next = Some nn
      ∧ start nn = hd g next + D aN
      ∧ char_at text (start nn) = Some ce
      ∧ D next = D aN + edgeLength nn pos
      ∧ 1 ≤ edgeLength nn pos
      ∧ realEnd nn pos ≤ pos ∧ 0 ≤ hd g next
      ∧ agree text (hd g next) j (Z.min (D next) (pos - j))
      ∧ (end_ nn = None → hd g next < j)
      ∧ (∀ e, end_ nn = Some e → e < pos).
Proof.
  intros Han Hce Hch.
  destruct iter_setup as (an' & ce' & Han' & _ & Hce' & Halph & Hpa & _ & Hl & H0 & Hd).
  simplify_eq.
  destruct (child_facts text_alphabet iter_wf Hl Han Hch)
    as (Hnl & Hn0 & Hnp & nn & ch & Hnn & Hs & Hsc & Hidx & Hach & _ & Hdn & Hel & Hre & Hhd & Hag).
  apply charToIndex_inj in Hidx; auto. subst ch.
  split_and!; auto.
  { intros Heq. rewrite Heq in Hdn. lia. }
  exists nn. split_and!; auto.
  - destruct (decide (aL = 0)) as [Hz|Hz].
    + eapply agree_mono; [|eapply agree_trans;
        [apply agree_sym, Hag|apply (co_lbl iter_core)]]. lia.
    + destruct active_word as (c & Hc & Hdc & Hagc & Hagn).
      destruct (descend iter_wf aN an c) as (x & ch & Hch' & Hx & Hxl & Hxa);
        auto; [lia|].
      rewrite (agree_at Hagc) in Hch' by lia.
      rewrite <- Hpa in Hch'. simplify_eq.
      pose proof (anc_agree iter_wf Hxa Hc) as Hxag.
      eapply agree_mono; [|eapply agree_trans; [apply Hxag|apply Hagc]]. lia.
  - intros He. apply (tr_leaf_hd iter_tree _ _ Hnl Hnn He).
  - intros e He.
    destruct (wf_node iter_wf _ _ Hnl Hn0 Hnn) as (_&_&_&_&_&_&_&Hlt&_). auto.
Qed.

Lemma next_exists an ce :
  h !! aN = Some an → char_at text (pos - aL) = Some ce → aL > 0 →
  is_Some (children an !! charToIndex ce).
Proof.
  intros Han Hce Hpos.
  destruct iter_setup as (an' & ce' & Han' & _ & Hce' & Halph & Hpa & _ & Hl & H0 & Hd).
  simplify_eq.
  destruct active_word as (c & Hc & Hdc & Hagc & Hagn).
  destruct (descend iter_wf aN an c) as (x & ch & Hch' & Hx & Hxl & Hxa);
    auto; [lia|].
  rewrite (agree_at Hagc) in Hch' by lia.
  rewrite <- Hpa in Hch'. simplify_eq. eauto.
Qed.

(** [walkDown] moved the active point one node down. *)
Lemma case_walk an ce next nn :
  h !! aN = Some an → char_at text (pos - aL) = Some ce →
  children an !! charToIndex ce = Some next → h !! next = Some nn →
  aL >= edgeLength nn pos →
  inv text g pos
    (with_active next (pos - aL + edgeLength nn pos) (aL - edgeLength nn pos) t)
    F fuel.
Proof.
  intros Han Hce Hch Hnn Hge.
  destruct (next_facts an ce next Han Hce Hch)
    as (Hnl & Hn0 & Hnp & Hna & nn' & Hnn' & Hs & Hsc & Hdn & Hel & Hre & Hhd & Hag & Hleaf & Hint).
  simplify_eq.
  destruct iter_setup as (an' & ce' & Han' & _ & Hce' & Halph & Hpa & _ & Hl & H0 & Hd).
  simplify_eq.
  destruct (co_al iter_core) as [_ Hal].
  constructor; simpl.
  - apply (inv_pos Hinv).
  - apply (inv_rem Hinv).
  - constructor; simpl.
    + apply (co_root iter_core).
    + apply (co_le iter_core).
    + apply (co_j iter_core).
    + apply (co_tree iter_core).
    + apply (co_imp iter_core).
    + split; [done|]. exists nn. split; [done|].
      destruct (end_ nn) eqn:He; [eauto|]. specialize (Hleaf eq_refl).
      rewrite (dep_eq Hnn) in Hdn. unfold realEnd in Hdn. rewrite He in Hdn. lia.
    + lia.
    + eapply agree_mono; [|apply Hag]. lia.
    + intros _. lia.
    + pose proof (co_fuel iter_core). lia.
  - apply (inv_last Hinv).
Qed.

(** When a node waits for its suffix link and the next symbol is
    already there, the active point is at a node. *)
Lemma rule3_at_node an ce next nn w :
  h !! aN = Some an → char_at text (pos - aL) = Some ce →
  children an !! charToIndex ce = Some next → h !! next = Some nn →
  ¬ aL >= edgeLength nn pos →
  char_at text (start nn + aL) = char_at text pos →
  lastCreatedNode t = Some w → aL = 0.
Proof.
  intros Han Hce Hch Hnn Hlt Hsame Hw.
  destruct (decide (aL = 0)) as [|Hnz]; [done|exfalso].
  destruct (next_facts an ce next Han Hce Hch)
    as (Hnl & Hn0 & Hnp & Hna & nn' & Hnn' & Hs & Hsc & Hdn & Hel & Hre & Hhd & Hag & Hleaf & Hint).
  simplify_eq.
  destruct iter_setup as (an' & ce' & Han' & _ & Hce' & Halph & Hpa & _ & Hl & H0 & Hd).
  simplify_eq.
  destruct (co_al iter_core) as [_ Hal].
  destruct (inv_last Hinv w Hw) as (_ & _ & _ & _ & _ & a & Ha0 & Halt & Haj & Hy).
  destruct (core_word iter_core ltac:(lia) a) as (c & Hc & Hdc & Hagc); [lia|].
  assert (agree text (hd g c) j (pos - j)) as Hcj.
  { eapply agree_mono; [|eapply agree_trans; [apply Hagc|apply Haj]]. lia. }
  destruct (descend iter_wf aN an c) as (x & ch & Hch' & Hx & Hxl & Hxa);
    auto; [lia| |].
  { eapply agree_mono; [|eapply agree_trans;
      [apply (co_lbl iter_core)|apply agree_sym, Hcj]]. lia. }
  rewrite (agree_at Hcj) in Hch' by lia.
  rewrite <- Hpa in Hch'. simplify_eq.
  pose proof (anc_agree iter_wf Hxa Hc) as Hxag.
  apply Hy. rewrite <- Hsame.
  rewrite <- (agree_at Hagc) by lia.
  replace (start nn + aL) with (hd g next + (pos - j)) by lia.
  symmetry. apply (agree_at Hxag). lia.
Qed.

(** The symbol that stopped the phase occurs before [pos]. *)
Lemma rule3_before an ce next nn :
  h !! aN = Some an → char_at text (pos - aL) = Some ce →
  children an !! charToIndex ce = Some next → h !! next = Some nn →
  ¬ aL >= edgeLength nn pos →
  0 ≤ start nn + aL < pos
  ∧ hd g next < j
  ∧ (char_at text (start nn + aL) = char_at text pos →
     agree text (hd g next) j (pos + 1 - j)).
Proof.
  intros Han Hce Hch Hnn Hlt.
  destruct (next_facts an ce next Han Hce Hch)
    as (Hnl & Hn0 & Hnp & Hna & nn' & Hnn' & Hs & Hsc & Hdn & Hel & Hre & Hhd & Hag & Hleaf & Hint).
  simplify_eq.
  destruct iter_setup as (an' & ce' & Han' & _ & Hce' & Halph & Hpa & _ & Hl & H0 & Hd).
  simplify_eq.
  destruct (co_al iter_core) as [_ Hal].
  assert (start nn + aL < pos ∧ hd g next < j) as [??].
  { unfold edgeLength, realEnd in *. destruct (end_ nn) as [e|] eqn:He.
    - specialize (Hint e eq_refl). lia.
    - specialize (Hleaf eq_refl). lia. }
  split_and!; [lia|lia|lia|].
  intros Hsame k Hk. destruct (decide (k = pos - j)) as [->|].
  - replace (hd g next + (pos - j)) with (start nn + aL) by lia.
    rewrite Hsame. f_equal. lia.
  - apply Hag. lia.
Qed.

(** Rule 3: the phase stops, and the next phase finds its invariant. *)
Lemma rule3_boundary an ce next nn h' last' :
  h !! aN = Some an → char_at text (pos - aL) = Some ce →
  children an !! charToIndex ce = Some next → h !! next = Some nn →
  ¬ aL >= edgeLength nn pos →
  char_at text (start nn + aL) = char_at text pos →
  same_struct h h' → tree text g h' pos j None →
  boundary text g (pos + 1)
    (mkTree h' (root t) aN (pos - aL) (aL + 1) (remainingSuffixCount t)
       (leafEnd t) last' (steps t)) F fuel.
Proof.
  intros Han Hce Hch Hnn Hlt Hsame Hss Ht'.
  destruct (rule3_before an ce next nn Han Hce Hch Hnn Hlt)
    as (Hq & Hhdn & Hag1). specialize (Hag1 Hsame).
  destruct (next_facts an ce next Han Hce Hch)
    as (Hnl & Hn0 & Hnp & Hna & nn' & Hnn' & Hs & Hsc & Hdn & Hel & Hre & Hhd & Hag & Hleaf & Hint).
  simplify_eq.
  destruct iter_setup as (an' & ce' & Han' & Hean & Hce' & Halph & Hpa & _ & Hl & H0 & Hd).
  simplify_eq.
  destruct (co_al iter_core) as [_ Hal].
  pose proof (inv_pos Hinv) as Hpos. pose proof (inv_rem Hinv) as Hrem.
  pose proof (co_j iter_core) as Hj.
  constructor; simpl; [lia|lia|].
  replace (pos + 1 - 1) with pos by lia.
  constructor; simpl.
  - apply (co_root iter_core).
  - apply (co_le iter_core).
  - lia.
  - done.
  - intros a Ha. destruct (decide (a = pos + 1)) as [->|Hne].
    + exists 0%nat. destruct (wf_root iter_wf) as (? & ? & _).
      split_and!; auto.
      * rewrite (dep_struct Hss), (dep_root iter_wf). lia.
      * intros k Hk. lia.
    + destruct (core_word iter_core ltac:(lia) (hd g next + (a - j)))
        as (c & Hc & Hdc & Hagc); [lia|].
      exists c. rewrite (dep_struct Hss). split_and!; [done|lia|].
      intros k Hk. rewrite (agree_at Hagc) by lia.
      rewrite <- Z.add_assoc. rewrite (agree_at Hag1) by lia. f_equal. lia.
  - split; [done|]. apply (internal_struct Hss). exists an. auto.
  - rewrite (dep_struct Hss). lia.
  - rewrite (dep_struct Hss). apply (co_lbl iter_core).
  - intros _. rewrite (dep_struct Hss). lia.
  - rewrite (dep_struct Hss). pose proof (co_fuel iter_core). lia.
Qed.

Lemma case_rule3 an ce next nn :
  h !! aN = Some an → char_at text (pos - aL) = Some ce →
  children an !! charToIndex ce = Some next → h !! next = Some nn →
  ¬ aL >= edgeLength nn pos →
  char_at text (start nn + aL) = char_at text pos →
  boundary text g (pos + 1)
    (with_active aN (pos - aL) (aL + 1)
       (match lastCreatedNode t with
        | Some w =>
            if decide (aN ≠ root t) then
              with_last None
                (with_heap (alter (set_suffixLink (Some aN)) w h) t)
            else t
        | None => t
        end)) F fuel.
Proof.
  intros Han Hce Hch Hnn Hlt Hsame.
  pose proof (rule3_at_node an ce next nn) as Hnode.
  pose proof (inv_last Hinv) as Hpend.
  pose proof iter_tree as Ht. pose proof (co_root iter_core) as Hroot.
  pose proof (co_lbl iter_core) as Hlbl.
  destruct (co_an iter_core) as [Hl Hint]. destruct (co_al iter_core) as [_ Hal].
  destruct (lastCreatedNode t) as [w|] eqn:Hw.
  - specialize (Hnode w Han Hce Hch Hnn Hlt Hsame eq_refl).
    destruct (Hpend w eq_refl) as (Hwl & Hw0 & (wn & Hwn & Hwe & Hwlink) & Hdw & Hagw & _).
    destruct (decide (aN ≠ root t)) as [Hr|Hr].
    + apply (rule3_boundary an ce next nn
               (alter (set_suffixLink (Some aN)) w h) None); auto.
      { apply same_struct_set_link. }
      apply (tree_struct (same_struct_set_link _ _ _) None Ht).
      intros v n n' Hv Hv0 Hn Hn' He _.
      rewrite list_lookup_alter in Hn'. case_decide; subst.
      * right. rewrite Hn in Hn'. simpl in Hn'. simplify_eq.
        unfold link_ok. simpl.
        rewrite !(dep_struct (same_struct_set_link _ _ _)).
        split_and!; auto.
        { by apply (internal_struct (same_struct_set_link _ _ _)). }
        { lia. }
        intros k Hk. rewrite (agree_at Hlbl) by lia.
        rewrite <- Z.add_assoc. rewrite (agree_at Hagw) by lia. f_equal. lia.
      * left. split; [congruence|]. congruence.
      * intros v n n' u Hv Hn Hn' Hu.
        rewrite list_lookup_alter in Hn'. case_decide; subst.
        -- rewrite Hn in Hn'. simpl in Hn'. simplify_eq. simpl in Hu.
           right. congruence.
        -- left. congruence.
    + apply (rule3_boundary an ce next nn h (lastCreatedNode t)); auto.
      { apply same_struct_refl. }
      apply (tree_struct (same_struct_refl _) None Ht).
      intros v n n' Hv Hv0 Hn Hn' He _. simplify_eq.
      destruct (decide (v = w)) as [->|].
      * right. simplify_eq. unfold link_ok. rewrite Hwlink.
        assert (aN = 0%nat) as Ha0
          by (destruct (decide (aN = root t)); [congruence|by destruct Hr]).
        rewrite Ha0, (dep_root iter_wf) in Hal. lia.
      * left. split; congruence.
      * intros v n n' u Hv Hn Hn' Hu. left. congruence.
  - apply (rule3_boundary an ce next nn h (lastCreatedNode t)); auto.
    apply same_struct_refl.
Qed.

End iteration.

(** ** The next suffix *)

Section next_suffix.
Variable text : list Z.
Hypothesis text_alphabet : Forall alphabet text.
Variables (g : ghost) (t : SuffixTree) (pos : Z) (F fuel : nat).
Hypothesis Hinv : inv text g pos t F (S fuel).

Local Abbreviation j := (pos + 1 - remainingSuffixCount t).
Local Abbreviation h := (heap t).
Local Abbreviation aN := (activeNode t).
Local Abbreviation aL := (activeLength t).
Local Abbreviation D := (dep g (heap t) pos).

(** After the leaf of suffix [j] was added: the active point moves to
    suffix [j + 1]. *)
Lemma next_suffix_ok g' h' last' aE1 :
  tree text g' h' pos (j + 1) last' →
  (∀ v, live g v →
     live g' v ∧ hd g' v = hd g v ∧ dep g' h' pos v = D v) →
  internal h' aN →
  (∀ w, last' = Some w → pending text g' h' pos (j + 1) w) →
  (aL > 0 → aE1 = pos - aL) →
  (last' = None ∨ aL > 0) →
  ∃ t', next_suffix pos
          (mkTree h' (root t) aN aE1 aL (remainingSuffixCount t)
             (leafEnd t) last' (steps t)) = Done t'
    ∧ heap t' = h' ∧ steps t' = steps t
    ∧ ((1 ≤ remainingSuffixCount t' ∧ inv text g' pos t' F fuel)
       ∨ (remainingSuffixCount t' = 0 ∧ boundary text g' (pos + 1) t' F fuel)).
Proof.
  intros Ht' Hold Hint' Hpend Hae Hlast.
  pose proof (inv_core Hinv) as Hcore.
  pose proof (tr_wf (co_tree Hcore)) as Hwf.
  pose proof (tr_wf Ht') as Hwf'.
  pose proof (inv_pos Hinv) as Hpos. pose proof (inv_rem Hinv) as Hrem.
  pose proof (co_j Hcore) as Hj. pose proof (co_root Hcore) as Hroot.
  pose proof (co_le Hcore) as Hle. pose proof (co_fuel Hcore) as Hfuel.
  pose proof (co_lbl Hcore) as Hlbl.
  destruct (co_an Hcore) as [Hl _]. destruct (co_al Hcore) as [H0 Hal].
  destruct (Hold _ Hl) as (Hl' & Hhd' & Hd').
  assert (∀ a, j + 1 ≤ a ≤ pos →
    ∃ c, live g' c ∧ pos - a ≤ dep g' h' pos c ∧ agree text (hd g' c) a (pos - a))
    as Himp.
  { intros a Ha. destruct (co_imp Hcore a) as (c & Hc & Hdc & Hagc); [lia|].
    destruct (Hold _ Hc) as (? & Hh & Hdd). exists c. rewrite Hh, Hdd. auto. }
  unfold next_suffix. simpl.
  destruct (decide (aN = root t)) as [Har|Har].
  - rewrite Har, Hroot in *. rewrite (dep_root Hwf) in *.
    destruct (decide (aL > 0)) as [Hp|Hp].
    + eexists. split; [done|]. simpl. split_and!; auto. left. split; [lia|].
      constructor; simpl; [lia|lia| |].
      * replace (pos + 1 - (remainingSuffixCount t - 1)) with (j + 1) by lia.
        constructor; simpl; auto; try lia.
        -- rewrite Hd'. intros k Hk. lia.
      * intros w Hw.
        replace (pos + 1 - (remainingSuffixCount t - 1)) with (j + 1) by lia.
        auto.
    + eexists. split; [done|]. simpl. split_and!; auto. right.
      assert (aL = 0) as Hz by lia. split; [lia|].
      destruct Hlast as [->|]; [|lia].
      constructor; simpl; [lia|lia|].
      replace (pos + 1 - 1) with pos by lia.
      replace (pos + 1 - (remainingSuffixCount t - 1)) with (j + 1) by lia.
      constructor; simpl; auto; try lia.
      * intros a Ha. exists 0%nat. split_and!; auto; [lia|].
        intros k Hk. lia.
      * rewrite Hd'. intros k Hk. lia.
  - rewrite Hroot in Har.
    destruct Hint' as (an' & Han' & Hean'). unfold get. rewrite Han'. simpl.
    eexists. split; [done|]. simpl. split_and!; auto. left.
    pose proof (dep_pos Hwf _ Hl Har) as Hdp.
    split; [lia|].
    assert (last' ≠ Some aN) as Hnl.
    { intros Heq. destruct (Hpend _ Heq) as (_&_&_&Hdw&_).
      destruct Hlast as [Hn|]; [congruence|lia]. }
    pose proof (tr_link Ht' aN an' Hl' Har Han' Hean' Hnl) as Hlk.
    unfold link_ok in Hlk.
    constructor; simpl; [lia|lia| |].
    + replace (pos + 1 - (remainingSuffixCount t - 1)) with (j + 1) by lia.
      destruct (suffixLink an') as [u|] eqn:Hu; simpl.
      * destruct Hlk as (Hul & Hui & Hud & Hua).
        constructor; simpl; auto; try lia.
        -- intros k Hk. rewrite (agree_at Hua) by lia.
           rewrite Hhd', <- Z.add_assoc, (agree_at Hlbl) by lia. f_equal. lia.
      * destruct (wf_root Hwf') as (Hrl & Hrh & r & Hr & _ & Hre).
        pose proof (dep_root Hwf') as Hdr. rewrite Hroot.
        constructor; simpl; auto; try lia.
        -- split; [done|]. exists r. rewrite Hre. eauto.
        -- rewrite Hdr. intros k Hk. lia.
    + intros w Hw. simpl.
      replace (pos + 1 - (remainingSuffixCount t - 1)) with (j + 1) by lia. auto.
Qed.

End next_suffix.

(** ** Rule 2: a new leaf below the active node *)

Section leaf_case.
Variable text : list Z.
Hypothesis text_alphabet : Forall alphabet text.
Variables (g : ghost) (t : SuffixTree) (pos : Z) (F fuel : nat).
Hypothesis Hinv : inv text g pos t F (S fuel).
Variables (an : Node) (ce : Z).

Local Abbreviation j := (pos + 1 - remainingSuffixCount t).
Local Abbreviation h := (heap t).
Local Abbreviation aN := (activeNode t).
Local Abbreviation aL := (activeLength t).
Local Abbreviation D := (dep g (heap t) pos).
Local Abbreviation k := (charToIndex ce).
Local Abbreviation leaf := (length (heap t)).

Hypothesis Han : h !! aN = Some an.
Hypothesis Hce : char_at text (pos - aL) = Some ce.
Hypothesis Hnone : children an !! k = None.

Local Abbreviation g' := (leaf_ghost g t pos).
Local Abbreviation h' := (leaf_heap t pos ce).

Lemma leaf_aL : aL = 0.
Proof.
  destruct (decide (aL = 0)) as [|Hnz]; [done|exfalso].
  destruct (co_al (inv_core Hinv)) as [H0 _].
  destruct (next_exists text text_alphabet g t pos F fuel Hinv an ce Han Hce) as [x Hx];
    [lia|congruence].
Qed.

Lemma leaf_lookup_old v n :
  h !! v = Some n →
  h' !! v = Some (mkNode (start n) (end_ n)
    (if decide (v = aN) then <[k := leaf]> (children n) else children n)
    (if decide (lastCreatedNode t = Some v) then Some aN else suffixLink n)
    (suffixIndex n)).
Proof.
  intros Hn. pose proof (lookup_lt_Some _ _ _ Hn) as Hlt.
  assert (alter (set_child k leaf) aN (h ++ [newNode pos None]) !! v
          = Some (mkNode (start n) (end_ n)
              (if decide (v = aN) then <[k := leaf]> (children n) else children n)
              (suffixLink n) (suffixIndex n))) as Hl.
  { destruct (decide (v = aN)) as [->|Hne].
    - rewrite list_lookup_alter_eq, (lookup_app_l h), Hn by exact Hlt. done.
    - rewrite list_lookup_alter_ne, (lookup_app_l h), Hn by (done || exact Hlt).
      by destruct n. }
  unfold leaf_heap. destruct (lastCreatedNode t) as [w|].
  - destruct (decide (w = v)) as [->|Hne].
    + rewrite list_lookup_alter_eq, Hl. simpl.
      repeat case_decide; first [reflexivity|congruence].
    + rewrite list_lookup_alter_ne, Hl by done.
      rewrite (decide_False (P := Some w = Some v)) by congruence. done.
  - rewrite Hl. rewrite (decide_False (P := None = Some v)) by congruence. done.
Qed.

Lemma live_lt v : live g v → (v < leaf)%nat.
Proof.
  intros Hv. destruct (wf_live (tr_wf (co_tree (inv_core Hinv))) v Hv) as [n Hn].
  by apply lookup_lt_Some in Hn.
Qed.

Lemma leaf_lookup_new : h' !! leaf = Some (newNode pos None).
Proof.
  pose proof (lookup_lt_Some _ _ _ Han) as Hlt.
  assert (alter (set_child k leaf) aN (h ++ [newNode pos None]) !! leaf
          = Some (newNode pos None)) as Hl.
  { rewrite list_lookup_alter_ne by lia.
    rewrite lookup_app_r by lia. by rewrite Nat.sub_diag. }
  unfold leaf_heap. destruct (lastCreatedNode t) as [w|] eqn:Hw; [|done].
  destruct (inv_last Hinv w Hw) as (Hwl & _).
  apply live_lt in Hwl. rewrite list_lookup_alter_ne by lia. done.
Qed.

Lemma leaf_length : length h' = S leaf.
Proof.
  unfold leaf_heap. destruct (lastCreatedNode t);
    rewrite ?length_alter, length_app; simpl; lia.
Qed.

Lemma leaf_lookup_inv v n' :
  h' !! v = Some n' →
  (v = leaf ∧ n' = newNode pos None)
  ∨ (∃ n, h !! v = Some n ∧ (v < leaf)%nat ∧ n' = mkNode (start n) (end_ n)
       (if decide (v = aN) then <[k := leaf]> (children n) else children n)
       (if decide (lastCreatedNode t = Some v) then Some aN else suffixLink n)
       (suffixIndex n)).
Proof.
  intros Hn'. pose proof (lookup_lt_Some _ _ _ Hn') as Hlt.
  rewrite leaf_length in Hlt.
  destruct (decide (v = leaf)) as [->|Hne].
  - left. rewrite leaf_lookup_new in Hn'. by simplify_eq.
  - right. destruct (lookup_lt_is_Some_2 h v) as [n Hn]; [lia|].
    exists n. rewrite (leaf_lookup_old v n Hn) in Hn'. split_and!; [done|lia|congruence].
Qed.

Lemma leaf_hd_old v : live g v → hd g' v = hd g v ∧ par g' v = par g v.
Proof.
  intros Hv%live_lt. unfold leaf_ghost, upd. simpl.
  rewrite !decide_False by lia. done.
Qed.

Lemma leaf_hd_new : hd g' leaf = j ∧ par g' leaf = aN.
Proof. unfold leaf_ghost, upd. simpl. by rewrite !decide_True. Qed.

Lemma leaf_dep_old v : live g v → dep g' h' pos v = D v.
Proof.
  intros Hv. destruct (leaf_hd_old v Hv) as [Hh _].
  destruct (wf_live (tr_wf (co_tree (inv_core Hinv))) v Hv) as [n Hn].
  unfold dep. rewrite (leaf_lookup_old v n Hn), Hn, Hh. done.
Qed.

Lemma leaf_internal_old v : internal h v → internal h' v.
Proof.
  intros (n & Hn & He). eexists. split; [by apply leaf_lookup_old|]. done.
Qed.

Lemma leaf_wf : wf text g' h' pos.
Proof.
  pose proof (inv_core Hinv) as Hcore.
  pose proof (tr_wf (co_tree Hcore)) as Hwf.
  pose proof leaf_aL as HaL.
  destruct (co_an Hcore) as [Hl Hint]. destruct (co_al Hcore) as [_ Hal].
  pose proof (co_j Hcore) as Hj.
  constructor.
  - apply (wf_le Hwf).
  - destruct (wf_root Hwf) as (Hrl & Hrh & r & Hr & Hrs & Hre).
    split_and!.
    + by left.
    + by rewrite (proj1 (leaf_hd_old _ Hrl)).
    + eexists. split; [by apply leaf_lookup_old|]. done.
  - intros v [Hv| ->].
    + destruct (wf_live Hwf v Hv) as [n Hn]. rewrite (leaf_lookup_old v n Hn). eauto.
    + rewrite leaf_lookup_new. eauto.
  - intros v n' Hv Hv0 Hn'.
    destruct (leaf_lookup_inv v n' Hn') as [[-> ->]|(n & Hn & Hlt & ->)].
    + (* the new leaf *)
      unfold node_ok, realEnd.
      rewrite (proj1 leaf_hd_new), (proj2 leaf_hd_new).
      rewrite (leaf_dep_old _ Hl), (proj1 (leaf_hd_old _ Hl)). simpl.
      split_and!; [by left|by apply leaf_internal_old|lia..|done
                  |apply (co_lbl Hcore)|].
      eexists _, ce. split; [by apply leaf_lookup_old|]. simpl.
      rewrite decide_True by done. rewrite lookup_insert_eq.
      split; [|done]. rewrite <- Hce. f_equal. lia.
    + (* an old node *)
      destruct Hv as [Hv|]; [|lia].
      destruct (wf_node Hwf v n Hv Hv0 Hn)
        as (Hpl&Hpi&?&?&?&?&?&?&?&pn&c&Hpn&Hc&Hk).
      destruct (leaf_hd_old v Hv) as [Hh Hp].
      unfold node_ok, realEnd in *. rewrite Hh, Hp.
      rewrite (leaf_dep_old _ Hpl), (proj1 (leaf_hd_old _ Hpl)). simpl.
      split_and!; [by left|by apply leaf_internal_old|done..|].
      eexists _, c. split; [by apply leaf_lookup_old|]. simpl.
      split; [done|]. destruct (decide (par g v = aN)) as [Hpa|Hpa]; [|done].
      rewrite lookup_insert_ne; [done|].
      intros Heq. rewrite Hpa, Han in Hpn. simplify_eq. congruence.
  - intros p pn' k' c Hp Hpn' Hk'.
    destruct (leaf_lookup_inv p pn' Hpn') as [[-> ->]|(pn & Hpn & Hlt & ->)];
      [done|].
    destruct Hp as [Hp|]; [|lia]. simpl in Hk'.
    assert (children pn !! k' = Some c ∨ (p = aN ∧ k' = k ∧ c = leaf)) as [Hold|(-> & -> & ->)].
    { destruct (decide (p = aN)) as [->|]; [|by left].
      rewrite Han in Hpn. simplify_eq.
      destruct (decide (k' = k)) as [->|].
      - rewrite lookup_insert_eq in Hk'. simplify_eq. auto.
      - rewrite lookup_insert_ne in Hk' by done. auto. }
    + destruct (wf_child Hwf p pn k' c Hp Hpn Hold) as (Hc&?&?&cn&ch&Hcn&?&?).
      destruct (leaf_hd_old c Hc) as [Hh Hpc].
      unfold child_ok. rewrite Hpc. split_and!; auto; [by left|].
      eexists _, ch. split; [by apply leaf_lookup_old|]. done.
    + unfold child_ok. rewrite (proj2 leaf_hd_new).
      split_and!; auto; [by right|lia|].
      eexists _, ce. split; [apply leaf_lookup_new|]. simpl.
      split; [|done]. rewrite <- Hce. f_equal. lia.
  - intros v n' Hv Hn' He.
    destruct (leaf_lookup_inv v n' Hn') as [[-> ->]|(n & Hn & Hlt & ->)]; [done|].
    destruct Hv as [Hv|]; [|lia]. simpl in *.
    destruct (decide (v = aN)) as [->|]; [|by apply (wf_leaf Hwf v n)].
    destruct Hint as (an' & Han' & [e Hee]). congruence.
  - intros v n' Hv Hv0 Hn' He.
    destruct (leaf_lookup_inv v n' Hn') as [[-> ->]|(n & Hn & Hlt & ->)];
      [by destruct He|].
    destruct Hv as [Hv|]; [|lia]. simpl in *.
    destruct (wf_branch Hwf v n Hv Hv0 Hn He) as (k1 & k2 & Hne & H1 & H2).
    exists k1, k2. split; [done|].
    destruct (decide (v = aN)); [|done]. rewrite !lookup_insert_is_Some.
    split; [destruct (decide (k = k1))|destruct (decide (k = k2))]; auto.
Qed.

Lemma leaf_tree : tree text g' h' pos (j + 1) None.
Proof.
  pose proof (inv_core Hinv) as Hcore.
  pose proof (co_tree Hcore) as Ht.
  pose proof (tr_wf Ht) as Hwf.
  pose proof leaf_aL as HaL.
  destruct (co_an Hcore) as [Hl Hint]. destruct (co_al Hcore) as [_ Hal].
  pose proof (co_j Hcore) as Hj. pose proof (co_lbl Hcore) as Hlbl.
  constructor.
  - apply leaf_wf.
  - intros v n' Hv Hv0 Hn' He _.
    destruct (leaf_lookup_inv v n' Hn') as [[-> ->]|(n & Hn & Hlt & ->)];
      [by destruct He|].
    destruct Hv as [Hv|]; [|lia]. simpl in He.
    unfold link_ok. cbn [suffixLink].
    rewrite (leaf_dep_old _ Hv).
    destruct (decide (lastCreatedNode t = Some v)) as [Hw|Hw].
    + destruct (inv_last Hinv v Hw) as (_ & _ & _ & Hdw & Hagw & _).
      rewrite (leaf_dep_old _ Hl), (proj1 (leaf_hd_old _ Hl)),
        (proj1 (leaf_hd_old _ Hv)).
      split_and!; [by left|by apply leaf_internal_old|lia|].
      intros i Hi. rewrite (agree_at Hlbl) by lia.
      rewrite <- Z.add_assoc. rewrite (agree_at Hagw) by lia. f_equal. lia.
    + pose proof (tr_link Ht v n Hv Hv0 Hn He Hw) as Hlk.
      unfold link_ok in Hlk. destruct (suffixLink n) as [u|]; [|done].
      destruct Hlk as (Hu & Hui & Hud & Hua).
      rewrite (leaf_dep_old _ Hu), (proj1 (leaf_hd_old _ Hu)),
        (proj1 (leaf_hd_old _ Hv)).
      split_and!; [by left|by apply leaf_internal_old|done..].
  - intros v n' u Hv Hn' Hu.
    destruct (leaf_lookup_inv v n' Hn') as [[-> ->]|(n & Hn & Hlt & ->)];
      [done|].
    destruct Hv as [Hv|]; [|lia]. simpl in Hu. left.
    destruct (decide (lastCreatedNode t = Some v)); [by simplify_eq|].
    apply (tr_links Ht v n u Hv Hn Hu).
  - intros i Hi. destruct (decide (i = j)) as [->|Hne].
    + exists leaf, (newNode pos None).
      split_and!; [by right|apply leaf_lookup_new|done|apply leaf_hd_new].
    + destruct (tr_leaves Ht i) as (l & n & Hll & Hn & He & Hhd); [lia|].
      exists l. eexists.
      split_and!; [by left|by apply leaf_lookup_old|done|].
      by rewrite (proj1 (leaf_hd_old _ Hll)).
  - intros l n' Hv Hn' He.
    destruct (leaf_lookup_inv l n' Hn') as [[-> ->]|(n & Hn & Hlt & ->)].
    + rewrite (proj1 leaf_hd_new). lia.
    + destruct Hv as [Hv|]; [|lia]. simpl in He.
      rewrite (proj1 (leaf_hd_old _ Hv)).
      pose proof (tr_leaf_hd Ht l n Hv Hn He). lia.
Qed.

Lemma leaf_frame : heap_frame g g' h h'.
Proof.
  split_and!.
  - rewrite leaf_length. lia.
  - intros v Hlt Hnl. destruct (lookup_lt_is_Some_2 h v Hlt) as [n Hn].
    rewrite (leaf_lookup_old v n Hn), Hn.
    destruct (co_an (inv_core Hinv)) as [Hl _].
    rewrite decide_False by (intros ->; done).
    rewrite decide_False; [by destruct n|].
    intros Hw. by destruct (inv_last Hinv v Hw) as (? & _).
  - intros v. rewrite leaf_length. simpl. split; (intros [?|?]; [by left|right; lia]).
Qed.

(** Rule 2 at a node: a new leaf, then the next suffix. *)
Lemma case_leaf aE1 :
  ∃ t', next_suffix pos
          (mkTree h' (root t) aN aE1 aL (remainingSuffixCount t)
             (leafEnd t) None (steps t)) = Done t'
    ∧ heap t' = h' ∧ steps t' = steps t
    ∧ ((1 ≤ remainingSuffixCount t' ∧ inv text g' pos t' F fuel)
       ∨ (remainingSuffixCount t' = 0 ∧ boundary text g' (pos + 1) t' F fuel)).
Proof.
  apply (next_suffix_ok text g t pos F fuel Hinv g' h' None aE1).
  - apply leaf_tree.
  - intros v Hv. split_and!; [by left|apply leaf_hd_old, Hv|by apply leaf_dep_old].
  - apply leaf_internal_old, (co_an (inv_core Hinv)).
  - done.
  - pose proof leaf_aL. lia.
  - by left.
Qed.

End leaf_case.

(** ** Rule 2: the edge is split *)

Section split_case.
Variable text : list Z.
Hypothesis text_alphabet : Forall alphabet text.
Variables (g : ghost) (t : SuffixTree) (pos : Z) (F fuel : nat).
Hypothesis Hinv : inv text g pos t F (S fuel).
Variables (an nn : Node) (ce cp cq : Z) (next : nat).

Local Abbreviation j := (pos + 1 - remainingSuffixCount t).
Local Abbreviation h := (heap t).
Local Abbreviation aN := (activeNode t).
Local Abbreviation aL := (activeLength t).
Local Abbreviation D := (dep g (heap t) pos).
Local Abbreviation k := (charToIndex ce).
Local Abbreviation leafIndex := (charToIndex cp).
Local Abbreviation nextIndex := (charToIndex cq).
Local Abbreviation splitNode := (length (heap t)).
Local Abbreviation leaf := (S (length (heap t))).

Hypothesis Han : h !! aN = Some an.
Hypothesis Hce : char_at text (pos - aL) = Some ce.
Hypothesis Hch : children an !! k = Some next.
Hypothesis Hnn : h !! next = Some nn.
Hypothesis Hlt : ¬ aL >= edgeLength nn pos.
Hypothesis Hcp : char_at text pos = Some cp.
Hypothesis Hcq : char_at text (start nn + aL) = Some cq.
Hypothesis Hdiff : cq ≠ cp.

Local Abbreviation g' := (split_ghost g t pos next).
Local Abbreviation h' := (split_heap t pos nn ce cp cq next).

Lemma split_live_lt v : live g v → (v < splitNode)%nat.
Proof.
  intros Hv. destruct (wf_live (tr_wf (co_tree (inv_core Hinv))) v Hv) as [n Hn].
  by apply lookup_lt_Some in Hn.
Qed.

Lemma split_facts :
  live g next ∧ next ≠ 0%nat ∧ par g next = aN ∧ next ≠ aN
  ∧ start nn = hd g next + D aN
  ∧ char_at text (start nn) = Some ce
  ∧ D next = D aN + edgeLength nn pos
  ∧ realEnd nn pos ≤ pos ∧ 0 ≤ hd g next
  ∧ agree text (hd g next) j (pos - j)
  ∧ (∀ e, end_ nn = Some e → e < pos)
  ∧ 1 ≤ aL ∧ start nn + aL < pos ∧ hd g next < j
  ∧ D aN + aL = pos - j ∧ live g aN ∧ 0 ≤ D aN
  ∧ leafIndex ≠ nextIndex.
Proof.
  destruct (next_facts text text_alphabet g t pos F fuel Hinv an ce next Han Hce Hch)
    as (Hnl & Hn0 & Hnp & Hna & nn' & Hnn' & Hs & Hsc & Hdn & Hel & Hre & Hhd & Hag & Hleaf & Hint).
  simplify_eq.
  destruct (rule3_before text text_alphabet g t pos F fuel Hinv an ce next nn Han Hce Hch Hnn Hlt)
    as (Hq & Hhdn & _).
  destruct (iter_setup text text_alphabet g t pos F fuel Hinv)
    as (an' & ce' & Han' & _ & Hce' & Halph & Hpa & _ & Hl & H0 & Hd).
  simplify_eq.
  destruct (co_al (inv_core Hinv)) as [_ Hal].
  assert (1 ≤ aL).
  { destruct (decide (aL = 0)) as [Hz|]; [|lia]. exfalso.
    rewrite Hz, Z.sub_0_r in Hce. rewrite Hz, Z.add_0_r in Hcq. congruence. }
  split_and!; auto; try lia.
  - eapply agree_mono; [|apply Hag]. lia.
  - intros Heq. apply Hdiff. symmetry.
    apply charToIndex_inj; [| |done].
    + apply (char_alphabet text_alphabet Hcp).
    + apply (char_alphabet text_alphabet Hcq).
Qed.

Lemma split_lookup_old v n :
  h !! v = Some n →
  h' !! v = Some (mkNode
    (if decide (v = next) then start nn + aL else start n) (end_ n)
    (if decide (v = aN) then <[k := splitNode]> (children n) else children n)
    (if decide (lastCreatedNode t = Some v) then Some splitNode else suffixLink n)
    (suffixIndex n)).
Proof.
  intros Hn. pose proof (lookup_lt_Some _ _ _ Hn) as Hl.
  set (S0 := newNode (start nn) (Some (start nn + aL - 1))).
  assert (alter (set_child k splitNode) aN (h ++ [S0]) !! v
          = Some (mkNode (start n) (end_ n)
              (if decide (v = aN) then <[k := splitNode]> (children n) else children n)
              (suffixLink n) (suffixIndex n))) as H1.
  { destruct (decide (v = aN)) as [->|Hne].
    - rewrite list_lookup_alter_eq, (lookup_app_l h), Hn by exact Hl. done.
    - rewrite list_lookup_alter_ne, (lookup_app_l h), Hn by (done || exact Hl).
      by destruct n. }
  assert (length (alter (set_child k splitNode) aN (h ++ [S0])) = leaf) as Hlen1.
  { rewrite length_alter, length_app. simpl. lia. }
  unfold split_heap. fold S0. rewrite Hlen1.
  set (h1 := alter (set_child k splitNode) aN (h ++ [S0])) in *.
  assert (alter (set_child nextIndex next) splitNode
            (alter (set_start (start nn + aL)) next
               (alter (set_child leafIndex leaf) splitNode
                  (h1 ++ [newNode pos None]))) !! v
          = Some (mkNode
              (if decide (v = next) then start nn + aL else start n) (end_ n)
              (if decide (v = aN) then <[k := splitNode]> (children n) else children n)
              (suffixLink n) (suffixIndex n))) as H4.
  { rewrite list_lookup_alter_ne by lia.
    destruct (decide (v = next)) as [->|Hne].
    - rewrite list_lookup_alter_eq, list_lookup_alter_ne by lia.
      rewrite lookup_app_l by lia. rewrite H1. done.
    - rewrite !list_lookup_alter_ne by (done || lia).
      rewrite lookup_app_l by lia. rewrite H1. done. }
  destruct (lastCreatedNode t) as [w|].
  - destruct (decide (w = v)) as [->|Hne].
    + rewrite list_lookup_alter_eq, H4. simpl.
      repeat case_decide; first [reflexivity|congruence].
    + rewrite list_lookup_alter_ne, H4 by done.
      rewrite (decide_False (P := Some w = Some v)) by congruence. done.
  - rewrite H4. rewrite (decide_False (P := None = Some v)) by congruence. done.
Qed.

Lemma split_lookup_s :
  h' !! splitNode = Some (mkNode (start nn) (Some (start nn + aL - 1))
    (<[nextIndex := next]> (<[leafIndex := leaf]> ∅)) None (-1)).
Proof.
  pose proof (lookup_lt_Some _ _ _ Han) as Hla.
  pose proof (lookup_lt_Some _ _ _ Hnn) as Hln.
  set (S0 := newNode (start nn) (Some (start nn + aL - 1))).
  assert (length (alter (set_child k splitNode) aN (h ++ [S0])) = leaf) as Hlen1.
  { rewrite length_alter, length_app. simpl. lia. }
  unfold split_heap. fold S0. rewrite Hlen1.
  set (h1 := alter (set_child k splitNode) aN (h ++ [S0])) in *.
  assert (h1 !! splitNode = Some S0) as H1.
  { unfold h1. rewrite list_lookup_alter_ne by lia.
    rewrite lookup_app_r by lia. by rewrite Nat.sub_diag. }
  assert (alter (set_child nextIndex next) splitNode
            (alter (set_start (start nn + aL)) next
               (alter (set_child leafIndex leaf) splitNode
                  (h1 ++ [newNode pos None]))) !! splitNode
          = Some (mkNode (start nn) (Some (start nn + aL - 1))
              (<[nextIndex := next]> (<[leafIndex := leaf]> ∅)) None (-1))) as H4.
  { rewrite list_lookup_alter_eq, list_lookup_alter_ne by lia.
    rewrite list_lookup_alter_eq, lookup_app_l by lia. rewrite H1. done. }
  destruct (lastCreatedNode t) as [w|] eqn:Hw; [|done].
  destruct (inv_last Hinv w Hw) as (Hwl & _). apply split_live_lt in Hwl.
  rewrite list_lookup_alter_ne by lia. done.
Qed.

Lemma split_lookup_l : h' !! leaf = Some (newNode pos None).
Proof.
  pose proof (lookup_lt_Some _ _ _ Han) as Hla.
  pose proof (lookup_lt_Some _ _ _ Hnn) as Hln.
  set (S0 := newNode (start nn) (Some (start nn + aL - 1))).
  assert (length (alter (set_child k splitNode) aN (h ++ [S0])) = leaf) as Hlen1.
  { rewrite length_alter, length_app. simpl. lia. }
  unfold split_heap. fold S0. rewrite Hlen1.
  set (h1 := alter (set_child k splitNode) aN (h ++ [S0])) in *.
  assert (alter (set_child nextIndex next) splitNode
            (alter (set_start (start nn + aL)) next
               (alter (set_child leafIndex leaf) splitNode
                  (h1 ++ [newNode pos None]))) !! leaf
          = Some (newNode pos None)) as H4.
  { rewrite !list_lookup_alter_ne by lia.
    rewrite lookup_app_r by lia. by rewrite Hlen1, Nat.sub_diag. }
  destruct (lastCreatedNode t) as [w|] eqn:Hw; [|done].
  destruct (inv_last Hinv w Hw) as (Hwl & _). apply split_live_lt in Hwl.
  rewrite list_lookup_alter_ne by lia. done.
Qed.

Lemma split_length : length h' = S leaf.
Proof.
  unfold split_heap. destruct (lastCreatedNode t);
    rewrite ?length_alter, length_app, length_alter, length_app; simpl; lia.
Qed.

Lemma split_lookup_inv v n' :
  h' !! v = Some n' →
  (v = splitNode ∧ n' = mkNode (start nn) (Some (start nn + aL - 1))
      (<[nextIndex := next]> (<[leafIndex := leaf]> ∅)) None (-1))
  ∨ (v = leaf ∧ n' = newNode pos None)
  ∨ (∃ n, h !! v = Some n ∧ (v < splitNode)%nat ∧ n' = mkNode
       (if decide (v = next) then start nn + aL else start n) (end_ n)
       (if decide (v = aN) then <[k := splitNode]> (children n) else children n)
       (if decide (lastCreatedNode t = Some v) then Some splitNode else suffixLink n)
       (suffixIndex n)).
Proof.
  intros Hn'. pose proof (lookup_lt_Some _ _ _ Hn') as Hl.
  rewrite split_length in Hl.
  destruct (decide (v = splitNode)) as [->|Hs].
  { left. rewrite split_lookup_s in Hn'. by simplify_eq. }
  destruct (decide (v = leaf)) as [->|Hne].
  { right. left. rewrite split_lookup_l in Hn'. by simplify_eq. }
  right. right. destruct (lookup_lt_is_Some_2 h v) as [n Hn]; [lia|].
  exists n. rewrite (split_lookup_old v n Hn) in Hn'.
  split_and!; [done|lia|congruence].
Qed.

Lemma split_hd_old v : live g v → hd g' v = hd g v.
Proof.
  intros Hv%split_live_lt. unfold split_ghost, upd. simpl.
  rewrite !decide_False by lia. done.
Qed.

Lemma split_par_old v : live g v → v ≠ next → par g' v = par g v.
Proof.
  intros Hv%split_live_lt Hne. unfold split_ghost, upd. simpl.
  rewrite !decide_False by (done || lia). done.
Qed.

Lemma split_par_next : par g' next = splitNode.
Proof. unfold split_ghost, upd. simpl. by rewrite decide_True. Qed.

Lemma split_ghost_s : hd g' splitNode = hd g next ∧ par g' splitNode = aN.
Proof.
  pose proof (lookup_lt_Some _ _ _ Hnn) as Hln.
  unfold split_ghost, upd. simpl.
  rewrite !(decide_False (P := splitNode = leaf)) by lia.
  rewrite !(decide_False (P := splitNode = next)) by lia.
  by rewrite !decide_True.
Qed.

Lemma split_ghost_l : hd g' leaf = j ∧ par g' leaf = splitNode.
Proof.
  pose proof (lookup_lt_Some _ _ _ Hnn) as Hln.
  unfold split_ghost, upd. simpl.
  rewrite !(decide_False (P := leaf = next)) by lia.
  by rewrite !decide_True.
Qed.

Lemma split_dep_old v : live g v → dep g' h' pos v = D v.
Proof.
  intros Hv. pose proof (split_hd_old v Hv) as Hh.
  destruct (wf_live (tr_wf (co_tree (inv_core Hinv))) v Hv) as [n Hn].
  unfold dep. rewrite (split_lookup_old v n Hn), Hn, Hh. done.
Qed.

Lemma split_dep_s : dep g' h' pos splitNode = pos - j.
Proof.
  destruct split_facts as (_&_&_&_&Hs&_&_&_&_&_&_&_&_&_&Hal&_).
  unfold dep. rewrite split_lookup_s, (proj1 split_ghost_s).
  unfold realEnd. simpl. lia.
Qed.

Lemma split_dep_l : dep g' h' pos leaf = pos + 1 - j.
Proof.
  unfold dep. rewrite split_lookup_l, (proj1 split_ghost_l).
  unfold realEnd. simpl. lia.
Qed.

Lemma split_internal_old v : internal h v → internal h' v.
Proof.
  intros (n & Hn & He). eexists. split; [by apply split_lookup_old|]. done.
Qed.

Lemma split_internal_s : internal h' splitNode.
Proof. eexists. split; [apply split_lookup_s|]. simpl. eauto. Qed.

Lemma split_wf : wf text g' h' pos.
Proof.
  pose proof (inv_core Hinv) as Hcore.
  pose proof (tr_wf (co_tree Hcore)) as Hwf.
  destruct split_facts as (Hnl & Hn0 & Hnp & Hna & Hs & Hsc & Hdn & Hre & Hhd
    & Hag & Hint & HaL & Hq & Hhdn & Hal & Hl & Hd & Hidx).
  destruct (co_an Hcore) as [_ Hian].
  pose proof (co_j Hcore) as Hj.
  pose proof (lookup_lt_Some _ _ _ Hnn) as Hln.
  assert (start nn + aL ≤ realEnd nn pos) as Hre'
    by (unfold edgeLength in Hlt; lia).
  constructor.
  - apply (wf_le Hwf).
  - destruct (wf_root Hwf) as (Hrl & Hrh & r & Hr & Hrs & Hre0).
    split_and!.
    + by left.
    + by rewrite (split_hd_old _ Hrl).
    + eexists. split; [by apply split_lookup_old|]. simpl.
      rewrite decide_False by done. done.
  - intros v [Hv|[->| ->]].
    + destruct (wf_live Hwf v Hv) as [n Hn]. rewrite (split_lookup_old v n Hn). eauto.
    + rewrite split_lookup_s. eauto.
    + rewrite split_lookup_l. eauto.
  - intros v n' Hv Hv0 Hn'.
    destruct (split_lookup_inv v n' Hn')
      as [[-> ->]|[[-> ->]|(n & Hn & Hvlt & ->)]].
    + (* the new internal node *)
      unfold node_ok, realEnd.
      rewrite (proj1 split_ghost_s), (proj2 split_ghost_s).
      rewrite (split_dep_old _ Hl), (split_hd_old _ Hl). simpl.
      split_and!; [by left|by apply split_internal_old|lia..| |
                  |].
      * intros e [= <-]. lia.
      * destruct (wf_node Hwf next nn Hnl Hn0 Hnn) as (_&_&_&_&_&_&_&_&Hagp&_).
        by rewrite Hnp in Hagp.
      * eexists _, ce. split; [by apply split_lookup_old|]. simpl.
        rewrite decide_True by done. by rewrite lookup_insert_eq.
    + (* the new leaf *)
      unfold node_ok, realEnd.
      rewrite (proj1 split_ghost_l), (proj2 split_ghost_l).
      rewrite split_dep_s, (proj1 split_ghost_s). simpl.
      split_and!; [by right; left|apply split_internal_s|lia..|done|done|].
      eexists _, cp. split; [apply split_lookup_s|]. simpl.
      split; [done|]. rewrite lookup_insert_ne by done.
      by rewrite lookup_insert_eq.
    + destruct Hv as [Hv|[?|?]]; [|lia..].
      destruct (decide (v = next)) as [->|Hne].
      * (* the node below the split *)
        rewrite Hnn in Hn. injection Hn as <-.
        unfold node_ok, realEnd.
        rewrite split_par_next, split_dep_s, (proj1 split_ghost_s),
          (split_hd_old _ Hnl). simpl.
        unfold realEnd in *.
        split_and!; [by right; left|apply split_internal_s|lia..|done
                    |apply agree_refl|].
        eexists _, cq. split; [apply split_lookup_s|]. simpl.
        split; [done|]. by rewrite lookup_insert_eq.
      * (* any other node *)
        destruct (wf_node Hwf v n Hv Hv0 Hn)
          as (Hpl&Hpi&?&?&?&?&?&?&?&pn&c&Hpn&Hc&Hk).
        unfold node_ok, realEnd in *.
        rewrite (split_par_old v Hv Hne), (split_hd_old v Hv).
        rewrite (split_dep_old _ Hpl), (split_hd_old _ Hpl). simpl.
        split_and!; [by left|by apply split_internal_old|done..|].
        eexists _, c. split; [by apply split_lookup_old|]. simpl.
        split; [done|]. destruct (decide (par g v = aN)) as [Hpa|Hpa]; [|done].
        rewrite lookup_insert_ne; [done|].
        intros Heq. rewrite Hpa, Han in Hpn. simplify_eq. congruence.
  - intros p pn' k' c Hp Hpn' Hk'.
    destruct (split_lookup_inv p pn' Hpn')
      as [[-> ->]|[[-> ->]|(pn & Hpn & Hplt & ->)]].
    + (* children of the new internal node *)
      simpl in Hk'. unfold child_ok.
      destruct (decide (k' = nextIndex)) as [->|Hk1].
      { rewrite lookup_insert_eq in Hk'. injection Hk' as <-.
        rewrite split_par_next.
        split_and!; [by left|done..|].
        eexists _, cq. split; [by apply split_lookup_old|]. simpl.
        by rewrite decide_True. }
      rewrite lookup_insert_ne in Hk' by done.
      destruct (decide (k' = leafIndex)) as [->|Hk2].
      { rewrite lookup_insert_eq in Hk'. injection Hk' as <-.
        rewrite (proj2 split_ghost_l).
        split_and!; [by right; right|done..|].
        eexists _, cp. split; [apply split_lookup_l|]. done. }
      rewrite lookup_insert_ne in Hk' by done. done.
    + done.
    + destruct Hp as [Hp|[?|?]]; [|lia..]. simpl in Hk'.
      assert (children pn !! k' = Some c ∧ ¬ (p = aN ∧ k' = k)
              ∨ (p = aN ∧ k' = k ∧ c = splitNode)) as [[Hold Hnk]|(-> & -> & ->)].
      { destruct (decide (p = aN)) as [->|]; [|left; split; [done|tauto]].
        rewrite Han in Hpn. simplify_eq.
        destruct (decide (k' = k)) as [->|].
        - rewrite lookup_insert_eq in Hk'. simplify_eq. auto.
        - rewrite lookup_insert_ne in Hk' by done. left. split; [done|tauto]. }
      * destruct (wf_child Hwf p pn k' c Hp Hpn Hold) as (Hc&?&Hpc&cn&ch&Hcn&Hch'&?).
        assert (c ≠ next) as Hcn'.
        { intros ->. apply Hnk. rewrite Hnn in Hcn. simplify_eq.
          split; congruence. }
        unfold child_ok. rewrite (split_par_old c Hc Hcn').
        split_and!; [by left|done..|].
        eexists _, ch. split; [by apply split_lookup_old|]. simpl.
        by rewrite decide_False.
      * unfold child_ok. rewrite (proj2 split_ghost_s).
        split_and!; [by right; left|lia|done|].
        eexists _, ce. split; [apply split_lookup_s|]. done.
  - intros v n' Hv Hn' He.
    destruct (split_lookup_inv v n' Hn')
      as [[-> ->]|[[-> ->]|(n & Hn & Hvlt & ->)]]; [done|done|].
    destruct Hv as [Hv|[?|?]]; [|lia..]. simpl in *.
    destruct (decide (v = aN)) as [->|]; [|by apply (wf_leaf Hwf v n)].
    destruct Hian as (an' & Han' & [e Hee]). congruence.
  - intros v n' Hv Hv0 Hn' He.
    destruct (split_lookup_inv v n' Hn')
      as [[-> ->]|[[-> ->]|(n & Hn & Hvlt & ->)]].
    + exists leafIndex, nextIndex. simpl. split; [done|].
      rewrite !lookup_insert_is_Some. split; [|by left].
      right. split; [done|]. by left.
    + by destruct He.
    + destruct Hv as [Hv|[?|?]]; [|lia..]. simpl in *.
      destruct (wf_branch Hwf v n Hv Hv0 Hn He) as (k1 & k2 & Hne & H1 & H2).
      exists k1, k2. split; [done|].
      destruct (decide (v = aN)); [|done]. rewrite !lookup_insert_is_Some.
      split; [destruct (decide (k = k1))|destruct (decide (k = k2))]; auto.
Qed.

Lemma split_tree : tree text g' h' pos (j + 1) (Some splitNode).
Proof.
  pose proof (inv_core Hinv) as Hcore.
  pose proof (co_tree Hcore) as Ht.
  pose proof (tr_wf Ht) as Hwf.
  destruct split_facts as (Hnl & Hn0 & Hnp & Hna & Hs & Hsc & Hdn & Hre & Hhd
    & Hag & Hint & HaL & Hq & Hhdn & Hal & Hl & Hd & Hidx).
  pose proof (co_j Hcore) as Hj.
  constructor.
  - apply split_wf.
  - intros v n' Hv Hv0 Hn' He Hvs.
    destruct (split_lookup_inv v n' Hn')
      as [[-> ->]|[[-> ->]|(n & Hn & Hvlt & ->)]];
      [done|by destruct He|].
    destruct Hv as [Hv|[?|?]]; [|lia..]. simpl in He.
    unfold link_ok. cbn [suffixLink].
    rewrite (split_dep_old _ Hv).
    destruct (decide (lastCreatedNode t = Some v)) as [Hw|Hw].
    + destruct (inv_last Hinv v Hw) as (_ & _ & _ & Hdw & Hagw & _).
      rewrite split_dep_s, (proj1 split_ghost_s), (split_hd_old _ Hv).
      split_and!; [by right; left|apply split_internal_s|lia|].
      intros i Hi. rewrite (agree_at Hag) by lia.
      rewrite <- Z.add_assoc. rewrite (agree_at Hagw) by lia. f_equal. lia.
    + pose proof (tr_link Ht v n Hv Hv0 Hn He Hw) as Hlk.
      unfold link_ok in Hlk. destruct (suffixLink n) as [u|]; [|done].
      destruct Hlk as (Hu & Hui & Hud & Hua).
      rewrite (split_dep_old _ Hu), (split_hd_old _ Hu), (split_hd_old _ Hv).
      split_and!; [by left|by apply split_internal_old|done..].
  - intros v n' u Hv Hn' Hu.
    destruct (split_lookup_inv v n' Hn')
      as [[-> ->]|[[-> ->]|(n & Hn & Hvlt & ->)]]; [done|done|].
    destruct Hv as [Hv|[?|?]]; [|lia..]. simpl in Hu.
    destruct (decide (lastCreatedNode t = Some v)).
    + simplify_eq. by right; left.
    + left. apply (tr_links Ht v n u Hv Hn Hu).
  - intros i Hi. destruct (decide (i = j)) as [->|Hne].
    + exists leaf, (newNode pos None).
      split_and!; [by right; right|apply split_lookup_l|done|apply split_ghost_l].
    + destruct (tr_leaves Ht i) as (l & n & Hll & Hn & He & Hhdl); [lia|].
      exists l. eexists.
      split_and!; [by left|by apply split_lookup_old|done|].
      by rewrite (split_hd_old _ Hll).
  - intros l n' Hv Hn' He.
    destruct (split_lookup_inv l n' Hn')
      as [[-> ->]|[[-> ->]|(n & Hn & Hvlt & ->)]]; [done| |].
    + rewrite (proj1 split_ghost_l). lia.
    + destruct Hv as [Hv|[?|?]]; [|lia..]. simpl in He.
      rewrite (split_hd_old _ Hv).
      pose proof (tr_leaf_hd Ht l n Hv Hn He). lia.
Qed.

Lemma split_pending : pending text g' h' pos (j + 1) splitNode.
Proof.
  destruct split_facts as (Hnl & Hn0 & Hnp & Hna & Hs & Hsc & Hdn & Hre & Hhd
    & Hag & Hint & HaL & Hq & Hhdn & Hal & Hl & Hd & Hidx).
  pose proof (lookup_lt_Some _ _ _ Hnn) as Hln.
  unfold pending. rewrite split_dep_s, (proj1 split_ghost_s).
  split_and!; [by right; left|lia| |lia| |].
  - eexists. split; [apply split_lookup_s|]. simpl. eauto.
  - replace (j + 1 - 1) with j by lia.
    eapply agree_mono; [|apply Hag]. lia.
  - exists (hd g next + 1). split_and!; [lia|lia| |].
    + intros i Hi. rewrite <- !Z.add_assoc. apply (agree_at Hag). lia.
    + replace (hd g next + 1 + (pos - (j + 1))) with (start nn + aL) by lia.
      rewrite Hcq, Hcp. congruence.
Qed.

Lemma split_frame : heap_frame g g' h h'.
Proof.
  destruct split_facts as (Hnl & _ & _ & _ & _ & _ & _ & _ & _ & _ & _ & _ & _
    & _ & _ & Hl & _).
  split_and!.
  - rewrite split_length. lia.
  - intros v Hvlt Hnl'. destruct (lookup_lt_is_Some_2 h v Hvlt) as [n Hn].
    rewrite (split_lookup_old v n Hn), Hn.
    rewrite (decide_False (P := v = next)) by (intros ->; done).
    rewrite (decide_False (P := v = aN)) by (intros ->; done).
    rewrite decide_False; [by destruct n|].
    intros Hw. by destruct (inv_last Hinv v Hw) as (? & _).
  - intros v. rewrite split_length. simpl.
    split; (intros [?|?]; [by left|right; lia]).
Qed.

(** Rule 2 inside an edge: the edge is split, then the next suffix. *)
Lemma case_split aE1 :
  (aL > 0 → aE1 = pos - aL) →
  ∃ t', next_suffix pos
          (mkTree h' (root t) aN aE1 aL (remainingSuffixCount t)
             (leafEnd t) (Some splitNode) (steps t)) = Done t'
    ∧ heap t' = h' ∧ steps t' = steps t
    ∧ ((1 ≤ remainingSuffixCount t' ∧ inv text g' pos t' F fuel)
       ∨ (remainingSuffixCount t' = 0 ∧ boundary text g' (pos + 1) t' F fuel)).
Proof.
  intros Hae.
  destruct split_facts as (Hnl & Hn0 & Hnp & Hna & Hs & Hsc & Hdn & Hre & Hhd
    & Hag & Hint & HaL & Hq & Hhdn & Hal & Hl & Hd & Hidx).
  apply (next_suffix_ok text g t pos F fuel Hinv g' h' (Some splitNode) aE1).
  - apply split_tree.
  - intros v Hv. split_and!;
      [by left|apply split_hd_old, Hv|by apply split_dep_old].
  - apply split_internal_old, (co_an (inv_core Hinv)).
  - intros w [= <-]. apply split_pending.
  - done.
  - right. lia.
Qed.

End split_case.

(** ** The iteration keeps the invariant *)

Section iter_ok.
Variable text : list Z.
Hypothesis text_alphabet : Forall alphabet text.

Lemma heap_frame_refl g h : heap_frame g g h h.
Proof. split_and!; [done|done|]. intros v. split; [by left|]. intros [?|?]; [done|lia]. Qed.

Lemma heap_frame_set_link g h w l :
  live g w → heap_frame g g h (alter (set_suffixLink l) w h).
Proof.
  intros Hw. split_and!.
  - by rewrite length_alter.
  - intros v _ Hv. rewrite list_lookup_alter_ne; [done|]. by intros ->.
  - intros v. rewrite length_alter. split; [by left|]. intros [?|?]; [done|lia].
Qed.

(** One iteration of the loop of [extendSuffixTree] keeps the invariant,
    or ends the phase. *)
Lemma iter_ok g t pos F fuel :
  inv text g pos t F (S fuel) →
  ∃ b t' g', extend_iter text pos t = Done (b, t')
    ∧ steps t' = steps t
    ∧ heap_frame g g' (heap t) (heap t')
    ∧ if b : bool
      then (1 ≤ remainingSuffixCount t' ∧ inv text g' pos t' F fuel)
           ∨ (remainingSuffixCount t' = 0
              ∧ boundary text g' (pos + 1) t' F fuel)
      else boundary text g' (pos + 1) t' F fuel
           ∧ ∃ q, 0 ≤ q < pos ∧ char_at text q = char_at text pos.
Proof.
  intros Hinv.
  destruct (iter_setup text text_alphabet g t pos F fuel Hinv)
    as (an & ce & Han & Hean & Hce & Halph & Hpa & Hae & Hl & H0 & Hd).
  pose proof (co_le (inv_core Hinv)) as Hle.
  pose proof (inv_pos Hinv) as Hpos.
  unfold extend_iter.
  set (t1 := if decide (activeLength t = 0) then _ else t).
  assert (t1 = with_active (activeNode t) (pos - activeLength t)
                 (activeLength t) t) as ->.
  { unfold t1. destruct (decide (activeLength t = 0)) as [Hz|Hz].
    - unfold with_active. f_equal. lia.
    - rewrite <- Hae by lia. by destruct t. }
  unfold charToIndex_at. cbn [activeEdge activeNode heap with_active].
  rewrite Hce. simpl. unfold get. rewrite Han. simpl.
  destruct (children an !! charToIndex ce) as [next|] eqn:Hch.
  - destruct (next_facts text text_alphabet g t pos F fuel Hinv an ce next Han Hce Hch)
      as (Hnl & Hn0 & Hnp & Hna & nn & Hnn & _).
    rewrite Hnn. simpl. rewrite Hle.
    destruct (decide (activeLength t >= edgeLength nn pos)) as [Hge|Hlt].
    + (* walkDown *)
      eexists true, _, g.
      split_and!; [reflexivity|done|apply heap_frame_refl|].
      left. split; [apply (inv_rem Hinv)|].
      by apply (case_walk text text_alphabet g t pos F fuel Hinv an ce next nn).
    + destruct (decide (char_at text (start nn + activeLength t) = char_at text pos))
        as [Hsame|Hdiff].
      * (* rule 3 *)
        pose proof (case_rule3 text text_alphabet g t pos F fuel Hinv an ce next nn
                      Han Hce Hch Hnn Hlt Hsame) as Hb.
        pose proof (rule3_before text text_alphabet g t pos F fuel Hinv an ce next nn
                      Han Hce Hch Hnn Hlt) as (Hq & _).
        eexists false, _, g. split; [reflexivity|].
        pose proof (inv_last Hinv) as Hpend.
        destruct (lastCreatedNode t) as [w|] eqn:Hw.
        -- destruct (Hpend w eq_refl) as (Hwl & _).
           destruct (decide (activeNode t ≠ root t)) as [Hr|Hr].
           ++ split_and!; [done|by apply heap_frame_set_link|exact Hb|by eauto].
           ++ split_and!; [done|apply heap_frame_refl|exact Hb|by eauto].
        -- split_and!; [done|apply heap_frame_refl|exact Hb|by eauto].
      * (* split *)
        destruct (char_at_is_Some text pos Hpos) as [cp Hcp].
        destruct (rule3_before text text_alphabet g t pos F fuel Hinv an ce next nn
                    Han Hce Hch Hnn Hlt) as (Hq & _).
        destruct (char_at_is_Some text (start nn + activeLength t)) as [cq Hcq]; [lia|].
        assert (cq ≠ cp) as Hne by congruence.
        rewrite Hcp, Hcq. simpl.
        destruct (case_split text text_alphabet g t pos F fuel Hinv an nn ce cp cq next
                    Han Hce Hch Hnn Hlt Hcp Hcq Hne (pos - activeLength t))
          as (t' & Hnext & Hheap & Hsteps & Hres); [done|].
        exists true, t', (split_ghost g t pos next).
        split_and!; [|done| |done].
        -- unfold split_heap in Hnext.
           match goal with |- ?m ≫= _ = _ =>
             assert (m = Done t') as -> by exact Hnext end.
           done.
        -- rewrite Hheap. eapply split_frame; eauto.
  - (* a new leaf *)
    destruct (case_leaf text text_alphabet g t pos F fuel Hinv an ce Han Hce Hch
                (pos - activeLength t))
      as (t' & Hnext & Hheap & Hsteps & Hres).
    exists true, t', (leaf_ghost g t pos).
    split_and!; [|done| |done].
    + unfold leaf_heap in Hnext.
      match goal with |- ?m ≫= _ = _ =>
        assert (m = Done t') as ->; [|done] end.
      rewrite <- Hnext. f_equal.
      destruct (lastCreatedNode t) as [w|] eqn:Hw; [done|].
      unfold with_heap, with_active. simpl. by rewrite Hw.
    + rewrite Hheap. eapply leaf_frame; eauto.
Qed.
End iter_ok.

(** ** A phase of the construction *)

Section agree_heaps.
Variable text : list Z.
Variables (g : ghost) (h h' : list Node).
Hypothesis Hag : ∀ v, live g v → h' !! v = h !! v.

Lemma dep_agree_heap le v : live g v → dep g h' le v = dep g h le v.
Proof. intros Hv. unfold dep. by rewrite Hag. Qed.

Lemma internal_agree_heap v : live g v → internal h v → internal h' v.
Proof. intros Hv (n & Hn & He). exists n. by rewrite Hag. Qed.

(** The invariants only read the nodes of the live tree. *)
Lemma tree_agree_heap le j last :
  tree text g h le j last → tree text g h' le j last.
Proof.
  intros Ht. pose proof (tr_wf Ht) as Hwf.
  constructor; [constructor|..].
  - apply (wf_le Hwf).
  - destruct (wf_root Hwf) as (H0 & ? & r & ? & ?).
    split_and!; auto. exists r. by rewrite Hag.
  - intros v Hv. rewrite Hag by done. by apply (wf_live Hwf).
  - intros v n Hv Hv0 Hn. rewrite Hag in Hn by done.
    destruct (wf_node Hwf v n Hv Hv0 Hn) as (Hp&?&?&?&?&?&?&?&?&pn&c&?&?&?).
    unfold node_ok. rewrite !dep_agree_heap by done.
    split_and!; auto using internal_agree_heap.
    exists pn, c. by rewrite Hag.
  - intros p pn k c Hp Hpn Hk. rewrite Hag in Hpn by done.
    destruct (wf_child Hwf p pn k c Hp Hpn Hk) as (?&?&?&cn&ch&?&?&?).
    split_and!; auto. exists cn, ch. by rewrite Hag.
  - intros v n Hv Hn. rewrite Hag in Hn by done. by apply (wf_leaf Hwf v).
  - intros v n Hv Hv0 Hn. rewrite Hag in Hn by done. by apply (wf_branch Hwf v).
  - intros v n Hv Hv0 Hn He Hl. rewrite Hag in Hn by done.
    pose proof (tr_link Ht v n Hv Hv0 Hn He Hl) as Hlk.
    unfold link_ok in *. rewrite dep_agree_heap by done.
    destruct (suffixLink n) as [u|]; [|done].
    destruct Hlk as (?&?&?&?). rewrite dep_agree_heap by done.
    split_and!; auto using internal_agree_heap.
  - intros v n u Hv Hn. rewrite Hag in Hn by done. by apply (tr_links Ht v n).
  - intros k Hk. destruct (tr_leaves Ht k Hk) as (l & n & ? & ? & ? & ?).
    exists l, n. by rewrite Hag.
  - intros l n Hv Hn. rewrite Hag in Hn by done. by apply (tr_leaf_hd Ht l n).
Qed.
End agree_heaps.

Section phases.
Variable text : list Z.
Hypothesis text_alphabet : Forall alphabet text.

Lemma heap_frame_trans g g' g'' h h' h'' :
  heap_frame g g' h h' → heap_frame g' g'' h' h'' → heap_frame g g'' h h''.
Proof.
  intros (H1 & H2 & H3) (H1' & H2' & H3'). split_and!.
  - lia.
  - intros v Hv Hnl. rewrite H2', H2; auto; [lia|].
    rewrite H3. intros [?|?]; [done|lia].
  - intros v. rewrite H3', H3. split.
    + intros [[?|?]|?]; [by left|right; lia|right; lia].
    + intros [?|?]; [by left; left|].
      destruct (decide (v < length h')%nat); [left; right; lia|right; lia].
Qed.

Lemma dep_internal g h le le' v : internal h v → dep g h le' v = dep g h le v.
Proof. intros (n & Hn & [e He]). unfold dep, realEnd. by rewrite Hn, He. Qed.

Lemma dep_le_mono g h le v : dep g h le v ≤ dep g h (le + 1) v.
Proof. unfold dep, realEnd. destruct (h !! v) as [n|]; [|done]. destruct (end_ n); lia. Qed.

(** The leaf end moves on: every leaf edge grows by one symbol. *)
Lemma tree_le_succ g h le j last :
  tree text g h le j last → le + 1 < strlen text →
  tree text g h (le + 1) j last.
Proof.
  intros Ht Hle. pose proof (tr_wf Ht) as Hwf.
  constructor; [constructor|..].
  - pose proof (wf_le Hwf). lia.
  - apply (wf_root Hwf).
  - apply (wf_live Hwf).
  - intros v n Hv Hv0 Hn.
    destruct (wf_node Hwf v n Hv Hv0 Hn) as (Hp&Hpi&?&?&?&?&?&He&?&?).
    unfold node_ok. rewrite (dep_internal g h le (le + 1)) by done.
    unfold realEnd in *.
    split_and!; auto; try (destruct (end_ n); lia).
    intros e Hee. specialize (He e Hee). lia.
  - apply (wf_child Hwf).
  - apply (wf_leaf Hwf).
  - apply (wf_branch Hwf).
  - intros v n Hv Hv0 Hn He Hl.
    pose proof (tr_link Ht v n Hv Hv0 Hn He Hl) as Hlk.
    unfold link_ok in *.
    rewrite (dep_internal g h le (le + 1) v) by (exists n; auto).
    destruct (suffixLink n) as [u|]; [|done].
    destruct Hlk as (?&?&?&?).
    rewrite (dep_internal g h le (le + 1) u) by done. auto.
  - apply (tr_links Ht).
  - apply (tr_leaves Ht).
  - apply (tr_leaf_hd Ht).
Qed.

(** The three assignments at the start of [extendSuffixTree(pos)]. *)
Lemma phase_start g t pos F fuel :
  boundary text g pos t F fuel → pos < strlen text →
  inv text g pos
    (with_last None
       (with_remaining (remainingSuffixCount t + 1) (with_leafEnd pos t)))
    F fuel.
Proof.
  intros Hb Hlt. pose proof (bd_core Hb) as Hc.
  pose proof (bd_pos Hb). pose proof (bd_rem Hb).
  destruct (co_an Hc) as [Hl Hi]. destruct (co_al Hc) as [Hal0 Hal].
  assert (tree text g (heap t) pos (pos - remainingSuffixCount t) None) as Ht.
  { replace pos with (pos - 1 + 1) at 1 by lia.
    apply tree_le_succ; [apply (co_tree Hc)|lia]. }
  constructor; simpl; [lia|lia| |done].
  replace (pos + 1 - (remainingSuffixCount t + 1))
    with (pos - remainingSuffixCount t) by lia.
  rewrite <- (dep_internal g (heap t) (pos - 1) pos) in * by done.
  constructor; simpl; auto.
  - apply (co_root Hc).
  - apply (co_j Hc).
  - intros a Ha. destruct (co_imp Hc a Ha) as (c & ? & ? & ?).
    exists c. split_and!; auto.
    pose proof (dep_le_mono g (heap t) (pos - 1) c) as Hm.
    replace (pos - 1 + 1) with pos in Hm by lia. lia.
  - rewrite (dep_internal g (heap t) (pos - 1) pos) by done. apply (co_lbl Hc).
  - rewrite (dep_internal g (heap t) (pos - 1) pos) by done. apply (co_ae Hc).
  - rewrite (dep_internal g (heap t) (pos - 1) pos) by done. apply (co_fuel Hc).
Qed.

(** The loop of [extendSuffixTree] ends within the fuel that the
    potential leaves. *)
Lemma loop_ok F pos : 3 * strlen text ≤ Z.of_nat F →
  ∀ fuel g t, inv text g pos t F fuel →
  ∃ t' fuel' g', extend_loop text fuel pos t = Done (t', fuel')
    ∧ boundary text g' (pos + 1) t' F fuel'
    ∧ steps t' = steps t
    ∧ heap_frame g g' (heap t) (heap t')
    ∧ (0 < remainingSuffixCount t' →
       ∃ q, 0 ≤ q < pos ∧ char_at text q = char_at text pos).
Proof.
  intros HF. induction fuel as [|fuel IH]; intros g t Hinv.
  - exfalso. pose proof (inv_core Hinv) as Hc.
    pose proof (co_fuel Hc). pose proof (co_j Hc). destruct (co_al Hc).
    pose proof (inv_pos Hinv). pose proof (inv_rem Hinv). lia.
  - destruct (iter_ok text text_alphabet g t pos F fuel Hinv)
      as (b & t' & g' & Hit & Hst & Hfr & Hres).
    pose proof (inv_rem Hinv) as Hrem.
    simpl. rewrite decide_True by lia. rewrite Hit. simpl.
    destruct b.
    + destruct Hres as [[Hr Hinv']|[Hr Hb]].
      * destruct (IH g' t' Hinv') as (t'' & fuel' & g'' & Hl & Hb & Hst' & Hfr' & Hq).
        exists t'', fuel', g''. split_and!; auto; [congruence|].
        eapply heap_frame_trans; eauto.
      * exists t', fuel, g'. split_and!; auto; [|lia].
        destruct fuel; simpl; rewrite decide_False by lia; done.
    + destruct Hres as [Hb Hq]. exists t', fuel, g'. split_and!; auto.
Qed.

Lemma phase_ok F pos fuel g t :
  3 * strlen text ≤ Z.of_nat F →
  boundary text g pos t F fuel → pos < strlen text →
  ∃ t' fuel' g', extendSuffixTree text fuel pos t = Done (t', fuel')
    ∧ boundary text g' (pos + 1) t' F fuel'
    ∧ steps t' = steps t
    ∧ heap_frame g g' (heap t) (heap t')
    ∧ (0 < remainingSuffixCount t' →
       ∃ q, 0 ≤ q < pos ∧ char_at text q = char_at text pos).
Proof.
  intros HF Hb Hlt. unfold extendSuffixTree.
  apply (loop_ok F pos HF fuel g _ (phase_start g t pos F fuel Hb Hlt)).
Qed.

End phases.

Lemma get_Some (h : list Node) v n : h !! v = Some n → get h v = Done n.
Proof. unfold get. by intros ->. Qed.

(** ** [cloneNode] and [recordStep] *)

Section mirror_facts.
Variables (h h' h'' : list Node).

Lemma mirror_mono d lo hi lo' hi' v v' :
  (lo' ≤ lo)%nat → (hi ≤ hi')%nat →
  mirror d h h' lo hi v v' → mirror d h h' lo' hi' v v'.
Proof.
  intros Hlo Hhi. revert v v'. induction d as [|d IH]; intros v v'; [done|].
  simpl. intros (n & n' & Hn & Hn' & Hr & ? & ? & ? & ? & Hc & Hc').
  exists n, n'. split_and!; auto; [lia..|].
  intros i c Hi Hi'. destruct (Hc i c Hi Hi') as (c' & ? & ?). eauto.
Qed.

Lemma mirror_ext d lo hi v v' :
  (∀ u, (lo ≤ u < hi)%nat → h'' !! u = h' !! u) →
  mirror d h h' lo hi v v' → mirror d h h'' lo hi v v'.
Proof.
  intros Hag. revert v v'. induction d as [|d IH]; intros v v'; [done|].
  simpl. intros (n & n' & Hn & Hn' & Hr & ? & ? & ? & ? & Hc & Hc').
  exists n, n'. rewrite Hag by done. split_and!; auto; [lia..|].
  intros i c Hi Hi'. destruct (Hc i c Hi Hi') as (c' & ? & ?). eauto.
Qed.

Lemma mirror_range d lo hi v v' : mirror d h h' lo hi v v' → (lo ≤ v' < hi)%nat.
Proof. destruct d; [done|]. simpl. intros (n & n' & _ & _ & Hr & _). done. Qed.
End mirror_facts.

Section clone.
Variable text : list Z.
Hypothesis text_alphabet : Forall alphabet text.
Variables (g : ghost) (h0 : list Node) (le j : Z) (last : option nat).
Hypothesis Ht : tree text g h0 le j last.

Lemma dep_bound v : live g v → dep g h0 le v ≤ le + 1.
Proof.
  intros Hv. pose proof (tr_wf Ht) as Hwf.
  destruct (decide (v = 0%nat)) as [->|Hv0].
  - rewrite (dep_root Hwf). pose proof (wf_le Hwf). lia.
  - destruct (wf_live Hwf v Hv) as [n Hn].
    destruct (wf_node Hwf v n Hv Hv0 Hn) as (_&_&?&_&_&_&?&_).
    rewrite (dep_eq Hn). lia.
Qed.

Lemma cloneNode_S d h v :
  cloneNode (S d) h v =
  get h v ≫= λ n,
    foldM (λ h1 i,
        get h1 v ≫= λ n1,
          match children n1 !! i with
          | Some c => cloneNode d h1 c ≫= λ '(h2, c'),
                        Done (alter (set_child i c') (length h) h2)
          | None => Done h1
          end)
      (alter (set_suffixIndex (suffixIndex n)) (length h)
         (alter (set_suffixLink (suffixLink n)) (length h)
            (h ++ [newNode (start n) (end_ n)]))) slots
    ≫= λ h', Done (h', length h).
Proof. reflexivity. Qed.

Lemma cloneNode_ok depth :
  ∀ h v, (∀ u, live g u → h !! u = h0 !! u) → live g v →
    le + 1 - dep g h0 le v < Z.of_nat depth →
    ∃ h', cloneNode depth h v = Done (h', length h)
      ∧ (length h < length h')%nat
      ∧ (∀ u, (u < length h)%nat → h' !! u = h !! u)
      ∧ mirror depth h0 h' (length h) (length h') v (length h)
      ∧ (∀ u n, (length h ≤ u < length h')%nat → h' !! u = Some n →
           (∀ i c, children n !! i = Some c → (length h ≤ c < length h')%nat)
           ∧ (∀ x, suffixLink n = Some x → live g x)).
Proof.
  pose proof (tr_wf Ht) as Hwf.
  induction depth as [|d IH]; intros h v Hag Hv Hd.
  { pose proof (dep_bound v Hv). lia. }
  destruct (wf_live Hwf v Hv) as [n0 Hn0].
  assert (h !! v = Some n0) as Hnv by (by rewrite Hag).
  pose proof (lookup_lt_Some _ _ _ Hnv) as Hvlt.
  rewrite cloneNode_S. rewrite (get_Some h v n0 Hnv).
  cbn [of_option mbind outcome_bind bind].
  set (r := length h).
  set (hs := alter (set_suffixIndex (suffixIndex n0)) r
               (alter (set_suffixLink (suffixLink n0)) r
                  (h ++ [newNode (start n0) (end_ n0)]))).
  match goal with |- context [foldM ?f _ slots] => set (B := f) end.
  assert (∀ l K h1, NoDup (K ++ l) → (∀ i, i ∈ l → 0 ≤ i < 27) →
            cloning g h0 d h n0 K h1 →
            ∃ h2, foldM B h1 l = Done h2 ∧ cloning g h0 d h n0 (K ++ l) h2) as Hfold.
  { induction l as [|i l IHl]; intros K h1 Hnd Hin HQ.
    { exists h1. rewrite app_nil_r. done. }
    destruct HQ as (Hlen & Hold & (nr & Hnr & Hs & He & Hl & Hi & Hk & Hk') & Hcl).
    assert (h1 !! v = Some n0) as Hv1 by (rewrite Hold by done; done).
    assert (i ∉ K) as HiK.
    { apply NoDup_app in Hnd as (_ & Hd' & _). intros HK.
      apply (Hd' i HK). by left. }
    assert (cloning g h0 d h n0 (K ++ [i])
              (match children n0 !! i with
               | Some c => alter (set_child i (length h1)) r
                             (match cloneNode d h1 c with
                              | Done (h2, _) => h2 | _ => h1 end)
               | None => h1
               end)
            ∧ B h1 i = Done (match children n0 !! i with
               | Some c => alter (set_child i (length h1)) r
                             (match cloneNode d h1 c with
                              | Done (h2, _) => h2 | _ => h1 end)
               | None => h1
               end)) as [HQ' HB].
    { unfold B. rewrite (get_Some h1 v n0 Hv1). cbn [mbind outcome_bind bind].
      destruct (children n0 !! i) as [c|] eqn:Hc.
      - destruct (child_facts text_alphabet Hwf Hv Hn0 Hc)
          as (Hcl' & Hc0 & _ & cn & ch & Hcn & _ & _ & _ & _ & _ & Hdc & Hel & _).
        destruct (IH h1 c) as (h2 & Hcl2 & Hlen2 & Hold2 & Hm2 & Hcl2');
          [|done|lia|].
        { intros u Hu. rewrite Hold; [by apply Hag|].
          destruct (wf_live Hwf u Hu) as [nu Hnu].
          rewrite <- Hag in Hnu by done. by apply lookup_lt_Some in Hnu. }
        rewrite Hcl2. cbn [mbind outcome_bind bind]. split; [|done].
        assert (r < length h1)%nat as Hr1 by (unfold r; lia).
        split_and!.
        + rewrite length_alter. lia.
        + intros u Hu. rewrite list_lookup_alter_ne by (unfold r; lia).
          rewrite Hold2 by lia. by apply Hold.
        + exists (set_child i (length h1) nr).
          split_and!; auto.
          * fold r. rewrite list_lookup_alter_eq, Hold2 by lia.
            fold r in Hnr. by rewrite Hnr.
          * intros i' c0 Hi' Hc0'. simpl. rewrite length_alter.
            apply elem_of_app in Hi' as [Hi'|Hi'%list_elem_of_singleton].
            -- destruct (Hk i' c0 Hi' Hc0') as (c' & lo & hi & Hc' & Hlo & Hhi & Hm).
               exists c', lo, hi. rewrite lookup_insert_ne by (intros ->; done).
               split_and!; [done|done|lia|].
               eapply mirror_ext; [|eapply mirror_ext; [|exact Hm]].
               ++ intros u Hu. rewrite list_lookup_alter_ne; [done|].
                  unfold r. lia.
               ++ intros u Hu. apply Hold2. lia.
            -- subst i'. simplify_eq. exists (length h1), (length h1), (length h2).
               rewrite lookup_insert_eq. split_and!; [done|lia|lia|].
               eapply mirror_ext; [|exact Hm2].
               intros u Hu. rewrite list_lookup_alter_ne; [done|]. unfold r. lia.
          * intros i' c' Hc'. simpl in Hc'.
            destruct (decide (i' = i)) as [->|Hne].
            -- split; [apply Hin; by left|split; [apply elem_of_app; right; by left|eauto]].
            -- rewrite lookup_insert_ne in Hc' by done.
               destruct (Hk' i' c' Hc') as (? & ? & ?).
               split; [done|split; [apply elem_of_app; by left|done]].
        + intros u n Hu Hn. rewrite length_alter in *.
          destruct (decide (u = r)) as [->|Hur].
          * rewrite list_lookup_alter_eq, Hold2 in Hn by lia.
            fold r in Hnr. rewrite Hnr in Hn. simpl in Hn. simplify_eq. simpl.
            split.
            -- intros i' c'. destruct (decide (i' = i)) as [->|Hne].
               ++ rewrite lookup_insert_eq. intros [= <-]. unfold r. lia.
               ++ rewrite lookup_insert_ne by done. intros Hc'.
                  destruct (Hcl r nr) as [Hc1 _]; [unfold r; lia|done|].
                  specialize (Hc1 i' c' Hc'). lia.
            -- intros x Hx. rewrite Hl in Hx. apply (tr_links Ht v n0 x Hv Hn0 Hx).
          * rewrite list_lookup_alter_ne in Hn by done.
            destruct (decide (u < length h1)%nat) as [Hu1|Hu1].
            -- rewrite Hold2 in Hn by done.
               destruct (Hcl u n) as [Hc1 Hc2]; [lia|done|].
               split; [|done]. intros i' c' Hc'. specialize (Hc1 i' c' Hc'). lia.
            -- destruct (Hcl2' u n) as [Hc1 Hc2]; [lia|done|].
               split; [|done]. intros i' c' Hc'. specialize (Hc1 i' c' Hc'). lia.
      - split; [|done]. split_and!; auto.
        exists nr. split_and!; auto.
        + intros i' c0 Hi' Hc0'.
          apply elem_of_app in Hi' as [Hi'|Hi'%list_elem_of_singleton]; [eauto|].
          congruence.
        + intros i' c' Hc'. destruct (Hk' i' c' Hc') as (? & ? & ?).
          split; [done|split; [apply elem_of_app; by left|done]]. }
    cbn [foldM]. rewrite HB. cbn [mbind outcome_bind bind].
    edestruct (IHl (K ++ [i])) as (h2 & Hf & HQ2); [| |exact HQ'|].
    { by rewrite <- app_assoc. }
    { intros i' Hi'. apply Hin. by right. }
    exists h2. split; [done|]. by rewrite <- app_assoc in HQ2. }
  destruct (Hfold slots [] hs) as (h' & Hf & HQ).
  { simpl. apply NoDup_seqZ. }
  { intros i Hi. by apply elem_of_slots. }
  { assert (hs !! r = Some (mkNode (start n0) (end_ n0) ∅ (suffixLink n0) (suffixIndex n0)))
      as Hr.
    { unfold hs. rewrite !list_lookup_alter_eq.
      rewrite lookup_app_r by (unfold r; lia). unfold r. by rewrite Nat.sub_diag. }
    assert (length hs = S r) as Hlen.
    { unfold hs. rewrite !length_alter, length_app. simpl. unfold r. lia. }
    split_and!.
    - fold r. lia.
    - intros u Hu. unfold hs. rewrite !list_lookup_alter_ne by (unfold r; lia).
      by rewrite lookup_app_l.
    - eexists. split; [exact Hr|]. simpl. split_and!; auto.
      + intros i c Hi. set_solver.
      + intros i c'. by rewrite lookup_empty.
    - intros u n Hu Hn. fold r in Hu. rewrite Hlen in Hu.
      assert (u = r) as -> by lia. rewrite Hr in Hn. simplify_eq. simpl.
      split; [intros i c; by rewrite lookup_empty|].
      intros x Hx. apply (tr_links Ht v n0 x Hv Hn0 Hx). }
  simpl in HQ.
  destruct HQ as (Hlen & Hold & (nr & Hnr & Hs & He & Hl & Hi & Hk & Hk') & Hcl).
  exists h'. rewrite Hf. cbn [mbind outcome_bind bind]. split_and!; auto.
  cbn [mirror]. exists n0, nr. split_and!; auto.
  - intros i c Hc Hi'. destruct (Hk i c) as (c' & lo & hi & Hc' & Hlo & Hhi & Hm);
      [by apply elem_of_slots|done|].
    exists c'. split; [done|]. eapply mirror_mono; [| |exact Hm]; lia.
  - intros i c' Hc'. destruct (Hk' i c' Hc') as (? & ? & ?). done.
Qed.

End clone.

Section record.
Variable text : list Z.
Hypothesis text_alphabet : Forall alphabet text.

Lemma live_lt_heap g h le v : wf text g h le → live g v → (v < length h)%nat.
Proof.
  intros Hwf Hv. destruct (wf_live Hwf v Hv) as [n Hn].
  by apply lookup_lt_Some in Hn.
Qed.

Lemma core_agree_heap g t le pos j last F fuel h' s :
  core text g t le pos j last F fuel →
  (∀ v, live g v → h' !! v = heap t !! v) →
  core text g (with_steps s (with_heap h' t)) le pos j last F fuel.
Proof.
  intros Hc Hag. destruct (co_an Hc) as [Hl Hi].
  constructor; simpl; rewrite ?(dep_agree_heap g (heap t) h' Hag) by done.
  - apply (co_root Hc).
  - apply (co_le Hc).
  - apply (co_j Hc).
  - apply (tree_agree_heap text g (heap t) h' Hag), (co_tree Hc).
  - intros a Ha. destruct (co_imp Hc a Ha) as (c & ? & ? & ?).
    exists c. rewrite (dep_agree_heap g (heap t) h' Hag) by done. auto.
  - split; [done|]. by apply (internal_agree_heap g (heap t) h' Hag).
  - apply (co_al Hc).
  - apply (co_lbl Hc).
  - apply (co_ae Hc).
  - apply (co_fuel Hc).
Qed.

Lemma snapshot_range_frame g g' h h' lo hi :
  heap_frame g g' h h' → snapshot_range g h lo hi →
  snapshot_range g' h' lo hi.
Proof.
  intros (H1 & H2 & H3) (Hhi & Hr). split; [lia|].
  intros v n Hv Hn.
  destruct (lookup_lt_is_Some_2 h v) as [n0 Hn0]; [lia|].
  destruct (Hr v n0 Hv Hn0) as (Hnl & Hc & Hl).
  rewrite H2 in Hn by (done || lia). simplify_eq.
  split_and!; [|done|].
  - rewrite H3. intros [?|?]; [done|lia].
  - intros u Hu. apply H3. left. auto.
Qed.

Lemma snapshot_range_ext g h h' lo hi :
  (length h ≤ length h')%nat →
  (∀ u, (u < length h)%nat → h' !! u = h !! u) →
  snapshot_range g h lo hi → snapshot_range g h' lo hi.
Proof.
  intros Hlen Hag (Hhi & Hr). split; [lia|].
  intros v n Hv Hn. rewrite Hag in Hn by lia. eauto.
Qed.

(** [recordStep] appends one snapshot: a copy of the tree in fresh
    nodes, whose suffix links lead into the live tree. *)
Lemma recordStep_ok g pos t F fuel msg :
  3 * strlen text ≤ Z.of_nat F →
  boundary text g pos t F fuel → 1 ≤ pos →
  ∃ t' s, recordStep F msg t = Done t'
    ∧ boundary text g pos t' F fuel
    ∧ remainingSuffixCount t' = remainingSuffixCount t
    ∧ steps t' = steps t ++ [s]
    ∧ snapshotRoot s = length (heap t)
    ∧ (length (heap t) < length (heap t'))%nat
    ∧ (∀ u, (u < length (heap t))%nat → heap t' !! u = heap t !! u)
    ∧ snapshot_range g (heap t') (length (heap t)) (length (heap t'))
    ∧ mirror F (heap t) (heap t') (length (heap t)) (length (heap t'))
        (root t) (snapshotRoot s).
Proof.
  intros HF Hb Hpos. pose proof (bd_core Hb) as Hc.
  pose proof (co_tree Hc) as Ht. pose proof (tr_wf Ht) as Hwf.
  pose proof (bd_pos Hb) as Hp. destruct (wf_root Hwf) as (Hrl & _).
  destruct (co_an Hc) as [Hal (an & Han & _)].
  destruct (cloneNode_ok text text_alphabet g (heap t) (pos - 1)
              (pos - remainingSuffixCount t) None Ht F (heap t) 0%nat)
    as (h' & Hcl & Hlen & Hold & Hm & Hclosed); auto.
  { rewrite (dep_root Hwf). lia. }
  assert (∀ v, live g v → h' !! v = heap t !! v) as Hag.
  { intros v Hv. apply Hold. by eapply live_lt_heap. }
  unfold recordStep. rewrite (co_root Hc), Hcl. simpl.
  unfold get. rewrite Hag, Han by done. simpl.
  do 2 eexists. split; [reflexivity|]. simpl.
  split_and!; auto.
  - constructor; simpl; [done|apply (bd_rem Hb)|].
    by apply core_agree_heap.
  - split; [done|]. intros v n Hv Hn. destruct (Hclosed v n Hv Hn) as [? ?].
    split_and!; auto. intros Hlv. apply (live_lt_heap _ _ _ _ Hwf) in Hlv. lia.
Qed.

End record.

(** ** The loop over the positions of the text *)

Section build_loop.
Variable text : list Z.
Hypothesis text_alphabet : Forall alphabet text.
Variable F : nat.
Hypothesis HF : 3 * strlen text ≤ Z.of_nat F.

Lemma build_inv_init : build_inv text F 0 init_tree F.
Proof.
  exists (mkGhost (λ _, 0) (λ _, 0%nat) (λ v, v = 0%nat)).
  pose proof (strlen_nonneg text).
  split_and!; [|done|by constructor|simpl; lia].
  constructor; simpl; [lia|lia|].
  constructor; simpl; auto; try lia.
  - constructor; [constructor|..]; simpl.
    + lia.
    + split_and!; auto. eexists. split; [reflexivity|]. done.
    + intros v ->. eauto.
    + intros v n -> Hv. done.
    + intros p pn k c -> [= <-]. simpl. by rewrite lookup_empty.
    + intros v n -> [= <-]. done.
    + intros v n -> Hv. done.
    + intros v n -> Hv. done.
    + intros v n u -> [= <-]. done.
    + intros k Hk. lia.
    + intros l n -> [= <-]. done.
  - intros a Ha. exists 0%nat. simpl. split_and!; auto.
    + unfold dep, realEnd. simpl. lia.
    + intros k Hk. lia.
  - split; [done|]. eexists. split; [reflexivity|]. simpl. eauto.
  - unfold dep, realEnd. simpl. lia.
  - unfold dep, realEnd. simpl. intros k Hk. lia.
  - unfold dep, realEnd. simpl. lia.
Qed.

Lemma build_step pos t fuel :
  build_inv text F pos t fuel → pos < strlen text →
  ∃ t' fuel',
    (extendSuffixTree text fuel pos t ≫= λ '(t1, fl),
       recordStep F (char_at text pos, pos) t1 ≫= λ t2, Done (t2, fl))
    = Done (t', fuel')
    ∧ build_inv text F (pos + 1) t' fuel'.
Proof.
  intros (g & Hb & Hsteps & Hsnap & _) Hlt.
  pose proof (bd_pos Hb) as Hp.
  destruct (phase_ok text text_alphabet F pos fuel g t HF Hb Hlt)
    as (t1 & fl & g1 & Hext & Hb1 & Hst1 & Hfr & Hq).
  destruct (recordStep_ok text text_alphabet g1 (pos + 1) t1 F fl
              (char_at text pos, pos) HF Hb1)
    as (t2 & s & Hrec & Hb2 & Hrem & Hst2 & Hroot & Hlen & Hold & Hrange & Hm); [lia|].
  exists t2, fl. rewrite Hext. simpl. rewrite Hrec. simpl.
  split; [done|]. exists g1. split_and!; auto.
  - rewrite Hst2, Hst1, length_app. simpl. lia.
  - rewrite Hst2, Hst1. apply Forall_app. split.
    + eapply Forall_impl; [exact Hsnap|]. simpl.
      intros s0 (lo & hi & ? & Hr). exists lo, hi. split; [done|].
      eapply snapshot_range_ext; [| |eapply snapshot_range_frame; eauto]; [lia|done].
    + constructor; [|constructor].
      exists (length (heap t1)), (length (heap t2)). split; [lia|done].
  - rewrite Hrem. replace (pos + 1 - 1) with pos by lia. done.
Qed.

Lemma build_loop_ok (n : nat) :
  ∀ pos t fuel, build_inv text F pos t fuel →
    pos + Z.of_nat n = strlen text →
    ∃ t' fuel',
      foldM (λ '(t, fuel_left) i,
          extendSuffixTree text fuel_left i t ≫= λ '(t, fuel_left),
            recordStep F (char_at text i, i) t ≫= λ t, Done (t, fuel_left))
        (t, fuel) (seqZ pos (Z.of_nat n)) = Done (t', fuel')
      ∧ build_inv text F (strlen text) t' fuel'.
Proof.
  induction n as [|n IH]; intros pos t fuel Hinv Hn.
  - exists t, fuel. simpl. split; [done|].
    replace (strlen text) with pos by lia. done.
  - rewrite seqZ_cons by lia. cbn [foldM].
    destruct (build_step pos t fuel Hinv) as (t' & fuel' & Hs & Hinv'); [lia|].
    rewrite Hs. cbn [mbind outcome_bind bind].
    replace (Z.pred (Z.of_nat (S n))) with (Z.of_nat n) by lia.
    apply (IH (Z.succ pos) t' fuel').
    + by replace (Z.succ pos) with (pos + 1) by lia.
    + lia.
Qed.

(** The construction ends, within [F] iterations of the loop of
    [extendSuffixTree] over all phases. *)
Lemma buildSteps_ok :
  ∃ t fuel', buildSuffixTreeStepByStep text F = Done (t, fuel')
    ∧ build_inv text F (strlen text) t fuel'.
Proof.
  unfold buildSuffixTreeStepByStep.
  apply (build_loop_ok (length text) 0 init_tree F build_inv_init).
  unfold strlen. lia.
Qed.

End build_loop.

(** ** The rounds of the loop and their snapshots *)

Lemma foldM_app {A B} (f : A → B → outcome A) (l1 l2 : list B) :
  ∀ a, foldM f a (l1 ++ l2) = foldM f a l1 ≫= λ a', foldM f a' l2.
Proof.
  induction l1 as [|x l1 IH]; intros a; [done|].
  simpl. destruct (f a x) as [a'| |]; simpl; [apply IH|done..].
Qed.

Section phases_facts.
Variable text : list Z.
Hypothesis text_alphabet : Forall alphabet text.
Variable F : nat.
Hypothesis HF : 3 * strlen text ≤ Z.of_nat F.

Lemma phases_all : buildSuffixTreeStepByStep text F = phases text F (length text).
Proof. reflexivity. Qed.

Lemma phases_S (k : nat) :
  phases text F (S k)
  = phases text F k ≫= λ '(t, fuel_left),
      extendSuffixTree text fuel_left (Z.of_nat k) t ≫= λ '(t1, fl),
        recordStep F (char_at text (Z.of_nat k), Z.of_nat k) t1 ≫= λ t2,
          Done (t2, fl).
Proof.
  unfold phases. replace (Z.of_nat (S k)) with (Z.of_nat k + 1) by lia.
  rewrite seqZ_app by lia. rewrite foldM_app.
  destruct (foldM _ _ (seqZ 0 (Z.of_nat k))) as [[t fl]| |]; [|done..].
  cbn [mbind outcome_bind bind]. rewrite seqZ_cons by lia.
  rewrite seqZ_nil by lia. cbn [foldM]. rewrite Z.add_0_l.
  destruct (extendSuffixTree text fl (Z.of_nat k) t) as [[t1 fl1]| |]; [|done..].
  cbn [mbind outcome_bind bind].
  destruct (recordStep F _ t1); done.
Qed.

(** The state after [k] rounds. *)
Lemma phases_ok (k : nat) :
  (k ≤ length text)%nat →
  ∃ t fl, phases text F k = Done (t, fl) ∧ build_inv text F (Z.of_nat k) t fl.
Proof.
  induction k as [|k IH]; intros Hk.
  - exists init_tree, F. split; [done|]. by apply build_inv_init.
  - destruct IH as (t & fl & Hrun & Hinv); [lia|].
    destruct (build_step text text_alphabet F HF (Z.of_nat k) t fl Hinv)
      as (t' & fl' & Hs & Hinv'); [unfold strlen; lia|].
    exists t', fl'. rewrite phases_S, Hrun. cbn [mbind outcome_bind bind].
    split; [exact Hs|]. by replace (Z.of_nat (S k)) with (Z.of_nat k + 1) by lia.
Qed.

(** The round [k]: after the extension, [recordStep] adds one record,
    whose snapshot is a copy of the tree in fresh nodes; the nodes of the
    tree stay as they are. *)
Lemma phase_snapshot (k : nat) :
  (k < length text)%nat →
  ∃ t fl t1 fl1 t2 s,
    phases text F k = Done (t, fl)
    ∧ extendSuffixTree text fl (Z.of_nat k) t = Done (t1, fl1)
    ∧ recordStep F (char_at text (Z.of_nat k), Z.of_nat k) t1 = Done t2
    ∧ phases text F (S k) = Done (t2, fl1)
    ∧ steps t1 = steps t ∧ steps t2 = steps t1 ++ [s]
    ∧ (∀ u, (u < length (heap t1))%nat → heap t2 !! u = heap t1 !! u)
    ∧ mirror F (heap t1) (heap t2) (length (heap t1)) (length (heap t2))
        (root t1) (snapshotRoot s).
Proof.
  intros Hk. destruct (phases_ok k) as (t & fl & Hrun & g & Hb & _); [lia|].
  destruct (phase_ok text text_alphabet F (Z.of_nat k) fl g t HF Hb)
    as (t1 & fl1 & g1 & Hext & Hb1 & Hst1 & _); [unfold strlen; lia|].
  destruct (recordStep_ok text text_alphabet g1 (Z.of_nat k + 1) t1 F fl1
              (char_at text (Z.of_nat k), Z.of_nat k) HF Hb1)
    as (t2 & s & Hrec & _ & _ & Hst2 & _ & _ & Hold & _ & Hm); [lia|].
  exists t, fl, t1, fl1, t2, s. split_and!; auto.
  rewrite phases_S, Hrun. cbn [mbind outcome_bind bind].
  rewrite Hext. cbn [mbind outcome_bind bind]. by rewrite Hrec.
Qed.
End phases_facts.

(** ** [setSuffixIndexByDFS] *)

Section indexing.
Variable text : list Z.
Hypothesis text_alphabet : Forall alphabet text.
Variables (g : ghost) (h0 : list Node) (le j : Z) (last : option nat).
Hypothesis Ht : tree text g h0 le j last.

Local Abbreviation R := (indexed text g h0 le).
Local Abbreviation below := (indexed_below text g h0 le).

Lemma indexed_refl h : R h h.
Proof. split; [done|]. intros u n Hn. exists n. split_and!; auto. Qed.

Lemma indexed_trans h1 h2 h3 : R h1 h2 → R h2 h3 → R h1 h3.
Proof.
  intros [Hl1 H1] [Hl2 H2]. split; [congruence|]. intros u n1 Hn1.
  destruct (H1 u n1 Hn1) as (n2 & Hn2 & Hs & He & Hc & Hk & Hi).
  destruct (H2 u n2 Hn2) as (n3 & Hn3 & Hs' & He' & Hc' & Hk' & Hi').
  exists n3. split_and!; try congruence.
  destruct Hi' as [Hi'|(? & ? & ?)].
  - destruct Hi as [Hi|(? & ? & ?)]; [left; congruence|].
    right. split_and!; auto. congruence.
  - right. split_and!; auto. congruence.
Qed.

Lemma indexed_struct h1 h2 : R h1 h2 → same_struct h1 h2.
Proof.
  intros [Hl H]. split; [done|]. intros u n Hn.
  destruct (H u n Hn) as (n2 & ? & ? & ? & ? & _). eauto.
Qed.

Lemma indexed_below_step v h1 h2 : R h1 h2 → below v h1 → below v h2.
Proof.
  intros [Hl H] Hb u n2 Hu Ha Hn2 Hc.
  destruct (lookup_lt_is_Some_2 h1 u) as [n1 Hn1].
  { rewrite Hl. by apply lookup_lt_Some in Hn2. }
  destruct (H u n1 Hn1) as (n2' & Hn2' & _ & _ & Hc' & _ & Hi). simplify_eq.
  destruct Hi as [Hi|(_ & _ & Hi)]; [|done].
  rewrite Hi. apply (Hb u n1 Hu Ha Hn1). congruence.
Qed.

Lemma indexed_set_leaf h1 v n :
  live g v → h1 !! v = Some n → children n = ∅ →
  R h1 (alter (set_suffixIndex (strlen text - dep g h0 le v)) v h1).
Proof.
  intros Hv Hn Hc. split; [by rewrite length_alter|]. intros u n1 Hn1.
  destruct (decide (u = v)) as [->|Hne].
  - rewrite list_lookup_alter_eq, Hn1. simplify_eq. eexists. split; [done|].
    simpl. split_and!; auto.
  - rewrite list_lookup_alter_ne by done. exists n1. split_and!; auto.
Qed.

Lemma setSuffixIndexByDFS_S d h v lh :
  setSuffixIndexByDFS text (S d) le h v lh =
  foldM (λ '(h1, isLeaf) i,
      get h1 v ≫= λ n,
        match children n !! i with
        | Some c =>
            get h1 c ≫= λ cn,
              setSuffixIndexByDFS text d le h1 c (lh + edgeLength cn le) ≫= λ h2,
                Done (h2, false)
        | None => Done (h1, isLeaf)
        end) (h, true) slots
  ≫= λ '(h1, isLeaf),
       if isLeaf : bool
       then Done (alter (set_suffixIndex (strlen text - lh)) v h1)
       else Done h1.
Proof. reflexivity. Qed.

(** A leaf of the live tree has no node below it. *)
Lemma below_leaf v n u :
  live g v → h0 !! v = Some n → children n = ∅ → live g u → anc g v u → u = v.
Proof.
  intros Hv Hn Hc Hu Ha. pose proof (tr_wf Ht) as Hwf.
  destruct (decide (v = u)) as [|Hne]; [done|exfalso].
  destruct (anc_child Hwf Ha Hu Hne) as (c & Hcl & Hc0 & Hcp & _).
  destruct (wf_live Hwf c Hcl) as [cn Hcn].
  destruct (child_key Hwf c cn Hcl Hc0 Hcn) as (pn & ch & Hpn & _ & Hk).
  rewrite Hcp, Hn in Hpn. injection Hpn as <-.
  rewrite Hc in Hk. by rewrite lookup_empty in Hk.
Qed.

Lemma setSuffixIndexByDFS_ok depth :
  ∀ h v, R h0 h → live g v →
    le + 1 - dep g h0 le v < Z.of_nat depth →
    ∃ h', setSuffixIndexByDFS text depth le h v (dep g h0 le v) = Done h'
      ∧ R h h' ∧ below v h'.
Proof.
  pose proof (tr_wf Ht) as Hwf.
  induction depth as [|d IH]; intros h v Hh Hv Hd.
  { pose proof (dep_bound text g h0 le j last Ht v Hv). lia. }
  destruct (wf_live Hwf v Hv) as [n0 Hn0].
  rewrite setSuffixIndexByDFS_S.
  match goal with |- context [foldM ?f _ slots] => set (B := f) end.
  assert (∀ l K h1 (b : bool), (∀ i, i ∈ l → 0 ≤ i < 27) →
            R h h1 → (b = true ↔ ∀ i, i ∈ K → children n0 !! i = None) →
            (∀ i c, i ∈ K → children n0 !! i = Some c → below c h1) →
            ∃ h2 b', foldM B (h1, b) l = Done (h2, b')
              ∧ R h h2
              ∧ (b' = true ↔ ∀ i, i ∈ K ++ l → children n0 !! i = None)
              ∧ (∀ i c, i ∈ K ++ l → children n0 !! i = Some c → below c h2))
    as Hfold.
  { induction l as [|i l IHl]; intros K h1 b Hin HR Hb Hbel.
    { exists h1, b. rewrite app_nil_r. done. }
    pose proof (indexed_trans _ _ _ Hh HR) as HR0.
    destruct (proj2 HR0 v n0 Hn0) as (n1 & Hn1 & _ & _ & Hc1 & _).
    cbn [foldM]. set (X := B (h1, b) i). unfold B in X. subst X.
    cbn beta iota. rewrite (get_Some h1 v n1 Hn1).
    cbn [mbind outcome_bind bind]. rewrite Hc1.
    destruct (children n0 !! i) as [c|] eqn:Hc.
    - destruct (child_facts text_alphabet Hwf Hv Hn0 Hc)
        as (Hcl & Hc0 & _ & cn & ch & Hcn & _ & _ & _ & _ & _ & Hdc & Hel & _).
      destruct (proj2 HR0 c cn Hcn) as (cn1 & Hcn1 & Hs1 & He1 & _).
      rewrite (get_Some h1 c cn1 Hcn1). cbn [mbind outcome_bind bind].
      replace (edgeLength cn1 le) with (edgeLength cn le)
        by (unfold edgeLength, realEnd; by rewrite Hs1, He1).
      rewrite <- Hdc.
      destruct (IH h1 c HR0 Hcl) as (h2 & Hrun & HR2 & Hbel2); [lia|].
      rewrite Hrun. cbn [mbind outcome_bind bind].
      destruct (IHl (K ++ [i]) h2 false) as (h3 & b' & Hf & HR3 & Hb3 & Hbel3).
      + intros i' Hi'. apply Hin. by right.
      + by eapply indexed_trans.
      + split; [done|]. intros Hall. specialize (Hall i).
        rewrite Hc in Hall. discriminate Hall. apply elem_of_app. right. by left.
      + intros i' c' Hi' Hc'.
        apply elem_of_app in Hi' as [Hi'|Hi'%list_elem_of_singleton].
        * eapply indexed_below_step; [exact HR2|]. eauto.
        * subst i'. by simplify_eq.
      + exists h3, b'. rewrite <- app_assoc in Hb3, Hbel3. done.
    - destruct (IHl (K ++ [i]) h1 b) as (h3 & b' & Hf & HR3 & Hb3 & Hbel3).
      + intros i' Hi'. apply Hin. by right.
      + done.
      + rewrite Hb. split; intros Hall i' Hi'.
        * apply elem_of_app in Hi' as [Hi'|Hi'%list_elem_of_singleton]; [auto|].
          by subst.
        * apply Hall. apply elem_of_app. by left.
      + intros i' c' Hi' Hc'.
        apply elem_of_app in Hi' as [Hi'|Hi'%list_elem_of_singleton]; [eauto|].
        subst. congruence.
      + exists h3, b'. rewrite <- app_assoc in Hb3, Hbel3. done. }
  destruct (Hfold slots [] h true) as (h1 & b & Hf & HR & Hb & Hbel).
  { intros i Hi. by apply elem_of_slots. }
  { apply indexed_refl. }
  { split; [|done]. intros _ i Hi. by apply elem_of_nil in Hi. }
  { intros i c Hi. by apply elem_of_nil in Hi. }
  simpl in Hb, Hbel. rewrite Hf. cbn [mbind outcome_bind bind].
  pose proof (indexed_trans _ _ _ Hh HR) as HR0.
  destruct (proj2 HR0 v n0 Hn0) as (n1 & Hn1 & _ & _ & Hc1 & _).
  destruct b.
  - assert (children n0 = ∅) as Hempty.
    { apply map_eq. intros i. rewrite lookup_empty.
      destruct (children n0 !! i) as [c|] eqn:Hc; [|done].
      destruct (child_facts text_alphabet Hwf Hv Hn0 Hc)
        as (_ & _ & _ & cn & ch & _ & _ & _ & _ & _ & Hi & _).
      rewrite <- Hc. apply (proj1 Hb eq_refl). by apply elem_of_slots. }
    eexists. split; [done|]. split.
    + eapply indexed_trans; [exact HR|].
      apply (indexed_set_leaf h1 v n1); auto. congruence.
    + intros u nu Hu Ha Hnu Hcu.
      assert (u = v) as -> by (by eapply below_leaf).
      rewrite list_lookup_alter_eq, Hn1 in Hnu. simpl in Hnu.
      by injection Hnu as <-.
  - exists h1. split; [done|]. split; [done|].
    intros u nu Hu Ha Hnu Hcu.
    destruct (decide (v = u)) as [<-|Hne].
    + exfalso. simplify_eq.
      assert (false = true) as Hx; [|discriminate Hx].
      apply Hb. intros i _. rewrite <- Hc1, Hcu. apply lookup_empty.
    + destruct (anc_child Hwf Ha Hu Hne) as (c & Hcl & Hc0 & Hcp & Hca).
      destruct (wf_live Hwf c Hcl) as [cn Hcn].
      destruct (child_key Hwf c cn Hcl Hc0 Hcn) as (pn & ch & Hpn & Hch & Hk).
      rewrite Hcp, Hn0 in Hpn. injection Hpn as <-.
      destruct (child_facts text_alphabet Hwf Hv Hn0 Hk)
        as (_ & _ & _ & cn' & ch' & _ & _ & _ & _ & _ & Hi & _).
      apply (Hbel (charToIndex ch) c); auto. by apply elem_of_slots.
Qed.

End indexing.

(** ** The constructor *)

Section build_final.
Variable text : list Z.
Hypothesis text_alphabet : Forall alphabet text.
Variable F : nat.
Hypothesis HF : 3 * strlen text < Z.of_nat F.

Lemma indexed_tree g h0 le j h :
  tree text g h0 le j None → indexed text g h0 le h0 h →
  tree text g h le j None.
Proof.
  intros Ht HR.
  apply (tree_struct (indexed_struct text g h0 le h0 h HR) None Ht).
  - intros v n n' Hv Hv0 Hn Hn' He _. left. split; [done|].
    destruct (proj2 HR v n Hn) as (n2 & Hn2 & _ & _ & _ & Hl & _). congruence.
  - intros v n n' u Hv Hn Hn' Hu. left.
    destruct (proj2 HR v n Hn) as (n2 & Hn2 & _ & _ & _ & Hl & _). congruence.
Qed.

Lemma indexed_dead g h0 le h v :
  indexed text g h0 le h0 h → ¬ live g v → h !! v = h0 !! v.
Proof.
  intros [Hlen HR] Hv. destruct (h0 !! v) as [n|] eqn:Hn.
  - destruct (HR v n Hn) as (n2 & Hn2 & Hs & He & Hc & Hl & [Hi|(? & _)]); [|done].
    rewrite Hn2. f_equal. destruct n, n2. simpl in *. by subst.
  - apply lookup_ge_None. rewrite <- Hlen. by apply lookup_ge_None.
Qed.

Lemma snapshot_range_indexed g h0 le h lo hi :
  indexed text g h0 le h0 h → snapshot_range g h0 lo hi →
  snapshot_range g h lo hi.
Proof.
  intros HR (Hhi & Hr). split; [rewrite <- (proj1 HR); lia|].
  intros v n Hv Hn.
  destruct (lookup_lt_is_Some_2 h0 v) as [n0 Hn0]; [lia|].
  destruct (Hr v n0 Hv Hn0) as (Hnl & Hc & Hl).
  rewrite (indexed_dead g h0 le h v HR Hnl), Hn0 in Hn. by simplify_eq.
Qed.

(** [new SuffixTree(text)] returns for every text over the alphabet,
    with one snapshot for each position of the text. *)
Lemma build_ok :
  ∃ t g j fuel', build text F = Done t
    ∧ tree text g (heap t) (strlen text - 1) j None
    ∧ 0 ≤ j ≤ strlen text
    ∧ root t = 0%nat ∧ leafEnd t = strlen text - 1
    ∧ remainingSuffixCount t = strlen text - j
    ∧ indexed_below text g (heap t) (strlen text - 1) 0%nat (heap t)
    ∧ length (steps t) = length text
    ∧ Forall (λ s, ∃ lo hi, (lo ≤ snapshotRoot s < hi)%nat
                     ∧ snapshot_range g (heap t) lo hi) (steps t)
    ∧ (0 < strlen text - j →
       ∃ q, 0 ≤ q < strlen text - 1
            ∧ char_at text q = char_at text (strlen text - 1))
    ∧ (Z.of_nat F - Z.of_nat fuel' ≤ 3 * strlen text).
Proof.
  destruct (buildSteps_ok text text_alphabet F) as (t & fuel' & Hb & g & Hbd & Hst & Hsn & Hq);
    [lia|].
  pose proof (bd_core Hbd) as Hc. pose proof (co_tree Hc) as Ht.
  pose proof (tr_wf Ht) as Hwf. destruct (wf_root Hwf) as (Hrl & _).
  destruct (setSuffixIndexByDFS_ok text text_alphabet g (heap t) (strlen text - 1)
              _ None Ht F (heap t) 0%nat)
    as (h' & Hdfs & HR & Hbel); auto.
  { apply indexed_refl. }
  { rewrite (dep_root Hwf). lia. }
  rewrite (dep_root Hwf) in Hdfs.
  exists (with_heap h' t), g, (strlen text - remainingSuffixCount t), fuel'.
  unfold build. rewrite Hb. cbn [mbind outcome_bind bind].
  rewrite (co_le Hc), (co_root Hc), Hdfs. cbn [mbind outcome_bind bind]. simpl.
  pose proof (co_j Hc). pose proof (bd_rem Hbd). pose proof (strlen_nonneg text).
  split_and!; auto; try lia.
  - by apply (indexed_tree g (heap t)).
  - apply (co_root Hc).
  - apply (co_le Hc).
  - intros u nu Hu Ha Hnu Hcu.
    rewrite (Hbel u nu Hu Ha Hnu Hcu). f_equal.
    symmetry. apply dep_struct. by eapply indexed_struct.
  - unfold strlen in Hst. lia.
  - eapply Forall_impl; [exact Hsn|]. simpl.
    intros s (lo & hi & ? & Hr). exists lo, hi. split; [done|].
    by eapply snapshot_range_indexed.
  - intros Hrem. apply Hq. lia.
  - pose proof (co_fuel Hc) as Hfu. destruct (co_al Hc) as [Hal0 Hal].
    pose proof (dep_nonneg Hwf _ (proj1 (co_an Hc))). lia.
Qed.

End build_final.

Lemma char_at_app_l (a b : list Z) i :
  0 ≤ i < strlen a → char_at (a ++ b) i = char_at a i.
Proof.
  unfold char_at, strlen. intros Hi. rewrite !decide_True by lia.
  apply lookup_app_l. lia.
Qed.

Lemma char_at_app_last (a : list Z) c : char_at (a ++ [c]) (strlen a) = Some c.
Proof.
  unfold char_at, strlen. rewrite decide_True by lia.
  rewrite lookup_app_r by lia. by rewrite Nat2Z.id, Nat.sub_diag.
Qed.

(** ** Valid texts *)

Section valid_texts.
Variable text : list Z.
Hypothesis text_valid : valid_text text.

Lemma valid_alphabet : Forall alphabet text.
Proof.
  destruct text_valid as (body & -> & Hb). apply Forall_app. split.
  - eapply Forall_impl; [exact Hb|]. intros c Hc. by right.
  - constructor; [by left|constructor].
Qed.

Lemma valid_strlen : 1 ≤ strlen text.
Proof.
  destruct text_valid as (body & -> & Hb). rewrite strlen_app.
  pose proof (strlen_nonneg body). unfold strlen at 2. simpl. lia.
Qed.

Lemma valid_last_unique q :
  0 ≤ q < strlen text - 1 → char_at text q ≠ char_at text (strlen text - 1).
Proof.
  destruct text_valid as (body & -> & Hb). rewrite strlen_app.
  replace (strlen [DOLLAR]) with 1 by done. intros Hq.
  replace (strlen body + 1 - 1) with (strlen body) by lia.
  rewrite char_at_app_l, char_at_app_last by lia.
  destruct (char_at body q) as [c|] eqn:Hc; [|done].
  apply char_at_elem in Hc. rewrite Forall_forall in Hb.
  specialize (Hb c Hc). unfold DOLLAR, CODE_A, CODE_Z in *. intros [= ->]. lia.
Qed.

Lemma valid_dollar i :
  char_at text i = Some DOLLAR ↔ i = strlen text - 1.
Proof.
  pose proof valid_strlen as Hlen.
  assert (char_at text (strlen text - 1) = Some DOLLAR) as Hlast.
  { destruct text_valid as (body & -> & Hb). rewrite strlen_app.
    replace (strlen [DOLLAR]) with 1 by done.
    replace (strlen body + 1 - 1) with (strlen body) by lia.
    apply char_at_app_last. }
  split; [|by intros ->].
  intros Hi. pose proof (char_at_Some _ _ _ Hi) as Hr.
  destruct (decide (i = strlen text - 1)) as [|Hne]; [done|exfalso].
  apply (valid_last_unique i); [lia|]. congruence.
Qed.

(** The tree that [new SuffixTree(text)] returns for a valid text. *)
Lemma build_valid F :
  3 * strlen text < Z.of_nat F →
  ∃ t g, build text F = Done t ∧ suffix_tree text g t
    ∧ length (steps t) = length text
    ∧ Forall (λ s, ∃ lo hi, (lo ≤ snapshotRoot s < hi)%nat
                     ∧ snapshot_range g (heap t) lo hi) (steps t).
Proof.
  intros HF. pose proof valid_alphabet as Halph. pose proof valid_strlen as Hlen.
  destruct (build_ok text Halph F HF)
    as (t & g & j & fuel' & Hb & Ht & Hj & Hroot & Hle & Hrem & Hbel & Hst & Hsn & Hq & _).
  assert (j = strlen text) as ->.
  { destruct (decide (0 < strlen text - j)) as [Hp|]; [|lia].
    destruct (Hq Hp) as (q & Hq1 & Hq2). by apply valid_last_unique in Hq2. }
  exists t, g. split_and!; auto.
  pose proof (tr_wf Ht) as Hwf.
  constructor; auto.
  intros l n Hl Hn Hc.
  rewrite (Hbel l n Hl (anc_root Hwf l Hl) Hn Hc), (dep_eq Hn).
  destruct (end_ n) as [e|] eqn:He.
  - exfalso. destruct (decide (l = 0%nat)) as [->|Hl0].
    + destruct (tr_leaves Ht 0) as (l0 & n0 & Hl0 & Hn0 & He0 & _); [lia|].
      destruct (wf_root Hwf) as (_ & _ & r & Hr & _ & Hre).
      assert (0%nat ≠ l0) as Hne by (intros <-; congruence).
      destruct (anc_child Hwf (anc_root Hwf l0 Hl0) Hl0 Hne) as (c & Hcl & Hc0 & Hcp & _).
      destruct (wf_live Hwf c Hcl) as [cn Hcn].
      destruct (child_key Hwf c cn Hcl Hc0 Hcn) as (pn & ch & Hpn & _ & Hk).
      rewrite Hcp, Hn in Hpn. injection Hpn as <-.
      rewrite Hc in Hk. by rewrite lookup_empty in Hk.
    + destruct (wf_branch Hwf l n Hl Hl0 Hn) as (k1 & _ & _ & [c1 Hc1] & _); [eauto|].
      rewrite Hc in Hc1. by rewrite lookup_empty in Hc1.
  - unfold realEnd. rewrite He. lia.
Qed.

End valid_texts.

(** ** Strings and occurrences *)

Lemma substring_in (s : list Z) (a b : Z) :
  0 ≤ a → a ≤ b → b ≤ strlen s →
  substring s a b = take (Z.to_nat (b - a)) (drop (Z.to_nat a) s).
Proof.
  intros Ha Hab Hb. unfold substring, clamp.
  pose proof (strlen_nonneg s).
  replace (Z.max 0 (Z.min a (strlen s))) with a by lia.
  replace (Z.max 0 (Z.min b (strlen s))) with b by lia.
  replace (Z.min a b) with a by lia. replace (Z.max a b) with b by lia. done.
Qed.

Lemma strlen_substring (s : list Z) (a b : Z) :
  0 ≤ a → a ≤ b → b ≤ strlen s → strlen (substring s a b) = b - a.
Proof.
  intros Ha Hab Hb. rewrite substring_in by done. unfold strlen in *.
  rewrite length_take, length_drop. lia.
Qed.

Lemma char_at_substring (s : list Z) (a b k : Z) :
  0 ≤ a → a ≤ b → b ≤ strlen s → 0 ≤ k < b - a →
  char_at (substring s a b) k = char_at s (a + k).
Proof.
  intros Ha Hab Hb Hk. rewrite substring_in by done. unfold char_at.
  rewrite !decide_True by lia.
  rewrite lookup_take_lt by lia. rewrite lookup_drop. f_equal. lia.
Qed.

Lemma str_eq_char_at (s1 s2 : list Z) :
  strlen s1 = strlen s2 →
  (∀ k, 0 ≤ k < strlen s1 → char_at s1 k = char_at s2 k) → s1 = s2.
Proof.
  intros Hl H. apply list_eq. intros i.
  destruct (decide (i < length s1)%nat) as [Hi|Hi].
  - specialize (H (Z.of_nat i)). unfold char_at, strlen in *.
    rewrite !decide_True, !Nat2Z.id in H by lia. apply H. lia.
  - unfold strlen in *. rewrite !lookup_ge_None_2; [done|lia..].
Qed.

Lemma substring_reads (text p : list Z) (i : Z) :
  0 ≤ i → i + strlen p ≤ strlen text →
  substring text i (i + strlen p) = p ↔ reads text p i.
Proof.
  intros Hi Hb. pose proof (strlen_nonneg p). split.
  - intros Hs k Hk. rewrite <- Hs at 1.
    rewrite char_at_substring by lia. done.
  - intros Hr. apply str_eq_char_at.
    + rewrite strlen_substring by lia. lia.
    + intros k Hk. rewrite strlen_substring in Hk by lia.
      rewrite char_at_substring by lia. symmetry. apply Hr. lia.
Qed.

Lemma reads_bound (text p : list Z) (i : Z) :
  0 ≤ i → reads text p i → 0 < strlen p → i + strlen p ≤ strlen text.
Proof.
  intros Hi Hr Hp. specialize (Hr (strlen p - 1)).
  destruct (char_at_is_Some p (strlen p - 1)) as [c Hc]; [lia|].
  rewrite Hc in Hr. specialize (Hr ltac:(lia)).
  symmetry in Hr. apply char_at_Some in Hr. lia.
Qed.

Lemma occurs_at_reads (text p : list Z) (i : Z) :
  occurs_at text p i ↔
  0 ≤ i < strlen text ∧ i + strlen p ≤ strlen text ∧ reads text p i.
Proof.
  unfold occurs_at. split.
  - intros (Hi & Hs & Hb). split_and!; try lia. by apply substring_reads; [lia..|].
  - intros (Hi & Hb & Hr). split_and!; try lia. by apply substring_reads; [lia..|].
Qed.

Lemma is_substring_reads (text p : list Z) :
  is_substring text p ↔
  ∃ i, 0 ≤ i ∧ i + strlen p ≤ strlen text ∧ reads text p i.
Proof.
  unfold is_substring. split; intros (i & Hi & Hb & H); exists i; split_and!; auto.
  - by apply substring_reads.
  - by apply substring_reads.
Qed.

(** ** Locating a pattern *)

Section scan.
Variable text : list Z.

Lemma scan_edge_spec (k : nat) (p : list Z) (cs : Z) :
  ∀ i pos,
  match scan_edge text k p cs i pos with
  | Some pos' =>
      pos' = Z.min (pos + Z.of_nat k) (Z.max pos (strlen p))
      ∧ ∀ m, 0 ≤ m < pos' - pos →
          char_at text (cs + i + m) = char_at p (pos + m)
  | None =>
      ∃ m, 0 ≤ m < Z.of_nat k ∧ pos + m < strlen p
        ∧ char_at text (cs + i + m) ≠ char_at p (pos + m)
  end.
Proof.
  induction k as [|k IH]; intros i pos; simpl.
  - split; [lia|]. intros; lia.
  - destruct (decide (pos < strlen p)) as [Hp|Hp].
    + destruct (decide (char_at text (cs + i) ≠ char_at p pos)) as [Hne|Heq].
      * exists 0. rewrite !Z.add_0_r. split_and!; auto; lia.
      * apply dec_stable in Heq. specialize (IH (i + 1) (pos + 1)).
        destruct (scan_edge text k p cs (i + 1) (pos + 1)) as [pos'|].
        -- destruct IH as [-> IH]. split; [lia|]. intros m Hm.
           destruct (decide (m = 0)) as [->|Hm0].
           ++ by rewrite !Z.add_0_r.
           ++ specialize (IH (m - 1)).
              replace (cs + (i + 1) + (m - 1)) with (cs + i + m) in IH by lia.
              replace (pos + 1 + (m - 1)) with (pos + m) in IH by lia.
              apply IH. lia.
        -- destruct IH as (m & Hm & Hlt & Hne). exists (m + 1).
           replace (cs + i + (m + 1)) with (cs + (i + 1) + m) by lia.
           replace (pos + (m + 1)) with (pos + 1 + m) by lia.
           split_and!; auto; lia.
    + split; [lia|]. intros; lia.
Qed.
End scan.

Lemma st_wf (text : list Z) (g : ghost) (t : SuffixTree) :
  suffix_tree text g t → wf text g (heap t) (strlen text - 1).
Proof. intros Hst. exact (tr_wf (st_tree Hst)). Qed.

Section locate.
Variable text : list Z.
Hypothesis text_alphabet : Forall alphabet text.
Variables (g : ghost) (t : SuffixTree).
Hypothesis Hwf : wf text g (heap t) (strlen text - 1).
Hypothesis HleafEnd : leafEnd t = strlen text - 1.

Local Abbreviation h := (heap t).
Local Abbreviation le := (strlen text - 1).
Local Abbreviation D := (dep g (heap t) (strlen text - 1)).

(** The label of a node can be read in the text. *)
Lemma dep_size v : live g v → 0 ≤ hd g v ∧ hd g v + D v ≤ strlen text.
Proof.
  intros Hv.
  destruct (decide (v = 0%nat)) as [->|Hv0].
  - rewrite (dep_root Hwf). destruct (wf_root Hwf) as (_ & -> & _).
    pose proof (strlen_nonneg text). lia.
  - destruct (wf_live Hwf v Hv) as [n Hn].
    destruct (wf_node Hwf v n Hv Hv0 Hn) as (_&_&?&?&_&?&?&_).
    rewrite (dep_eq Hn). lia.
Qed.

(** A node below [u] whose label starts with [p], longer than the label
    of [u], lies below the child of [u] for the next symbol of [p]. *)
Lemma reads_child u un p l cp :
  live g u → h !! u = Some un → live g l → anc g u l →
  D u < strlen p → strlen p ≤ D l → reads text p (hd g l) →
  char_at p (D u) = Some cp →
  ∃ x, children un !! charToIndex cp = Some x ∧ live g x ∧ anc g x l.
Proof.
  intros Hu Hun Hl Ha Hlt Hle Hr Hcp.
  destruct (descend Hwf u un l) as (x & ch & Hch & Hk & Hx & Hxl); auto.
  { lia. } { by apply (anc_agree Hwf). }
  pose proof (dep_nonneg Hwf u Hu).
  rewrite <- Hr, Hcp in Hch by lia. injection Hch as <-. eauto.
Qed.

Lemma findNode_loop_ok (p : list Z) (fuel : nat) :
  ∀ cur pos,
    live g cur → 0 ≤ pos ≤ strlen p → reads text (take (Z.to_nat pos) p) (hd g cur) →
    (pos < strlen p → pos = D cur) → pos ≤ D cur →
    strlen p - pos ≤ Z.of_nat fuel →
    ∃ r, findNode_loop text t fuel p cur pos = Done r ∧
      match r with
      | Some c => live g c ∧ anc g cur c ∧ strlen p ≤ D c
                  ∧ reads text p (hd g c)
                  ∧ (c ≠ cur → D (par g c) < strlen p)
      | None => ∀ l, live g l → anc g cur l → strlen p ≤ D l →
                     ¬ reads text p (hd g l)
      end.
Proof.
  induction fuel as [|fuel IH]; intros cur pos Hcur Hpos Hm Hat Hle Hfuel.
  - exists (Some cur). assert (pos = strlen p) as -> by (simpl in Hfuel; lia).
    simpl. rewrite decide_False by lia. split; [done|].
    split_and!; auto; [constructor| |done].
    unfold strlen in Hm. rewrite Nat2Z.id, firstn_all in Hm. done.
  - simpl. destruct (decide (pos < strlen p)) as [Hlt|Hge].
    2:{ exists (Some cur). assert (pos = strlen p) as -> by lia.
        split; [done|]. split_and!; auto; [constructor| |done].
        unfold strlen in Hm. rewrite Nat2Z.id, firstn_all in Hm. done. }
    specialize (Hat Hlt).
    destruct (char_at_is_Some p pos) as [cp Hcp]; [lia|].
    unfold charToIndex_at. rewrite Hcp. cbn [of_option mbind outcome_bind bind].
    destruct (wf_live Hwf cur Hcur) as [cn0 Hcn0].
    rewrite (get_Some _ _ _ Hcn0). cbn [mbind outcome_bind bind].
    destruct (children cn0 !! charToIndex cp) as [child|] eqn:Hch.
    2:{ exists None. split; [done|]. intros l Hl Ha Hdl Hr.
        destruct (reads_child cur cn0 p l cp) as (x & Hx & _); auto; try lia.
        { by rewrite <- Hat. } congruence. }
    destruct (child_facts text_alphabet Hwf Hcur Hcn0 Hch)
      as (Hc & Hc0 & Hpar & cn & ch & Hcn & Hs & Hchs & Hidx & _ & _ & Hdc
          & Hel & _ & _ & Hag).
    rewrite (get_Some _ _ _ Hcn). cbn [mbind outcome_bind bind].
    rewrite HleafEnd.
    pose proof (scan_edge_spec text (Z.to_nat (edgeLength cn le)) p (start cn) 0 pos)
      as Hscan.
    destruct (scan_edge text (Z.to_nat (edgeLength cn le)) p (start cn) 0 pos)
      as [pos'|].
    2:{ exists None. split; [done|]. intros l Hl Ha Hdl Hr.
        destruct Hscan as (m & Hm1 & Hm2 & Hne).
        destruct (reads_child cur cn0 p l cp) as (x & Hx & Hxl & Hxa); auto; try lia.
        { by rewrite <- Hat. }
        assert (x = child) as -> by congruence.
        pose proof (anc_agree Hwf Hxa Hl) as Hag'.
        apply Hne. rewrite Hr by lia. rewrite Hs, <- Hat.
        replace (hd g child + pos + 0 + m) with (hd g child + (pos + m)) by lia.
        rewrite (agree_at Hag') by lia. done. }
    destruct Hscan as [Hp' Hsc].
    rewrite Z2Nat.id in Hp' by lia.
    assert (pos' = Z.min (pos + edgeLength cn le) (strlen p)) as Hpe by lia.
    clear Hp'.
    destruct (IH child pos') as (r & Hr & Hpost); auto; try lia.
    { intros k Hk. unfold strlen in Hk. rewrite length_take in Hk.
      assert (char_at (take (Z.to_nat pos') p) k = char_at p k) as ->.
      { unfold char_at. rewrite !decide_True by lia.
        apply lookup_take_lt. lia. }
      destruct (decide (k < pos)) as [Hkp|Hkp].
      - rewrite <- (agree_at Hag) by lia.
        rewrite <- Hm.
        + unfold char_at. rewrite !decide_True by lia.
          symmetry. apply lookup_take_lt. lia.
        + unfold strlen. rewrite length_take. lia.
      - specialize (Hsc (k - pos)).
        replace (pos + (k - pos)) with k in Hsc by lia.
        rewrite <- Hsc by lia. f_equal. lia. }
    exists r. split; [done|].
    assert (anc g cur child) as Hcc.
    { apply anc_up; [done|]. rewrite Hpar. constructor. }
    destruct r as [c|].
    + destruct Hpost as (Hlc & Hac & Hdc' & Hrc & Hpc).
      split_and!; auto.
      * eapply anc_trans; eauto.
      * intros _. destruct (decide (c = child)) as [->|Hne]; [|auto].
        rewrite Hpar. lia.
    + intros l Hl Ha Hdl Hr'.
      destruct (reads_child cur cn0 p l cp) as (x & Hx & Hxl & Hxa); auto; try lia.
      { by rewrite <- Hat. }
      assert (x = child) as -> by congruence.
      by apply (Hpost l).
Qed.

Lemma search_loop_findNode (p : list Z) (fuel : nat) :
  ∀ cur pos,
    search_loop text t fuel p cur pos
    = r ← findNode_loop text t fuel p cur pos; Done (bool_decide (is_Some r)).
Proof.
  induction fuel as [|fuel IH]; intros cur pos; simpl.
  - destruct (decide (pos < strlen p)); [done|]. simpl. done.
  - destruct (decide (pos < strlen p)); [|done].
    destruct (charToIndex_at p pos) as [idx| |]; try done.
    cbn [mbind outcome_bind bind].
    destruct (get h cur) as [cn0| |]; try done.
    cbn [mbind outcome_bind bind].
    destruct (children cn0 !! idx) as [child|]; [|done].
    destruct (get h child) as [cn| |]; try done.
    cbn [mbind outcome_bind bind].
    destruct (scan_edge _ _ _ _ _ _); [|done]. apply IH.
Qed.
End locate.

(** ** The leaves below a node *)

Section leaves.
Variable text : list Z.
Hypothesis text_alphabet : Forall alphabet text.
Hypothesis text_nonempty : 0 < strlen text.
Variables (g : ghost) (t : SuffixTree).
Hypothesis Hst : suffix_tree text g t.

Local Abbreviation h := (heap t).
Local Abbreviation le := (strlen text - 1).
Local Abbreviation D := (dep g (heap t) (strlen text - 1)).

Lemma anc_inv a b : anc g a b → a = b ∨ (b ≠ 0%nat ∧ anc g a (par g b)).
Proof. destruct 1; auto. Qed.

Lemma anc_comparable a b l : anc g a l → anc g b l → anc g a b ∨ anc g b a.
Proof.
  induction 1 as [|a l Hl Ha IH]; intros Hb; [by right|].
  destruct (anc_inv _ _ Hb) as [->|[_ Hb']]; [|auto].
  left. by apply anc_up.
Qed.

(** The trees of two children of a node share no node. *)
Lemma siblings_disjoint v n k1 k2 c1 c2 l :
  live g v → h !! v = Some n → k1 ≠ k2 →
  children n !! k1 = Some c1 → children n !! k2 = Some c2 →
  live g l → anc g c1 l → anc g c2 l → False.
Proof.
  intros Hv Hn Hk H1 H2 Hl Ha1 Ha2.
  pose proof (st_wf text g t Hst) as Hwf.
  destruct (wf_child Hwf v n k1 c1 Hv Hn H1) as (Hl1 & H10 & Hp1 & n1 & ch1 & Hn1 & Hc1 & Hi1).
  destruct (wf_child Hwf v n k2 c2 Hv Hn H2) as (Hl2 & H20 & Hp2 & n2 & ch2 & Hn2 & Hc2 & Hi2).
  assert (c1 ≠ c2) as Hne by (intros <-; simplify_eq).
  pose proof (dep_par Hwf c1 Hl1 H10) as Hd1.
  pose proof (dep_par Hwf c2 Hl2 H20) as Hd2.
  rewrite Hp1 in Hd1. rewrite Hp2 in Hd2.
  destruct (anc_comparable _ _ _ Ha1 Ha2) as [Ha|Ha];
    destruct (anc_inv _ _ Ha) as [?|[_ Ha']]; try done.
  - rewrite Hp2 in Ha'. pose proof (anc_dep Hwf Ha' Hv). lia.
  - rewrite Hp1 in Ha'. pose proof (anc_dep Hwf Ha' Hv). lia.
Qed.

Lemma collect_S d v arr :
  _collectLeafIndices t (S d) v arr
  = get h v ≫= λ n,
      foldM (λ '(arr, isLeaf) i,
             match children n !! i with
             | Some c =>
                 arr ← _collectLeafIndices t d c arr;
                 Done (arr, false)
             | None => Done (arr, isLeaf)
             end) (arr, true) slots
      ≫= λ '(arr, isLeaf),
        if (isLeaf : bool) && bool_decide (suffixIndex n ≠ -1)
        then Done (arr ++ [suffixIndex n])
        else Done arr.
Proof. reflexivity. Qed.

Lemma collect_ok depth :
  ∀ v arr, live g v → le + 1 - D v < Z.of_nat depth →
    ∃ ls, _collectLeafIndices t depth v arr = Done (arr ++ (hd g <$> ls))
      ∧ NoDup ls ∧ ∀ l, l ∈ ls ↔ leaf_below g t v l.
Proof.
  pose proof (st_wf text g t Hst) as Hwf. pose proof (st_tree Hst) as Ht.
  induction depth as [|d IH]; intros v arr Hv Hd.
  { pose proof (dep_bound text g h le _ _ Ht v Hv). lia. }
  destruct (wf_live Hwf v Hv) as [n Hn].
  rewrite collect_S, (get_Some _ _ _ Hn). cbn [mbind outcome_bind bind].
  match goal with |- context [foldM ?f _ slots] => set (B := f) end.
  assert (∀ ks, NoDup ks → (∀ i, i ∈ ks → 0 ≤ i < 27) → ∀ K arr1 (b : bool),
            (∀ i, i ∈ K → i ∉ ks) →
            (b = true ↔ ∀ i, i ∈ K → children n !! i = None) →
            ∃ ls b', foldM B (arr1, b) ks = Done (arr1 ++ (hd g <$> ls), b')
              ∧ NoDup ls
              ∧ (b' = true ↔ ∀ i, i ∈ K ++ ks → children n !! i = None)
              ∧ ∀ l, l ∈ ls ↔ ∃ k c, k ∈ ks ∧ children n !! k = Some c
                                      ∧ leaf_below g t c l) as Hfold.
  { induction ks as [|i ks IHks]; intros Hnd Hin K arr1 b HK Hb.
    { exists [], b. rewrite !app_nil_r. split_and!; auto; [constructor|].
      intros l. split; [by intros ?%elem_of_nil|].
      by intros (k & c & ?%elem_of_nil & _). }
    apply NoDup_cons in Hnd as [Hi Hnd].
    cbn [foldM]. set (X := B (arr1, b) i). unfold B in X. subst X.
    cbn beta iota.
    destruct (children n !! i) as [c|] eqn:Hc.
    - destruct (child_facts text_alphabet Hwf Hv Hn Hc)
        as (Hcl & Hc0 & _ & cn & ch & Hcn & _ & _ & _ & _ & _ & Hdc & Hel & _).
      destruct (IH c arr1 Hcl) as (ls1 & Hrun & Hnd1 & Hls1); [lia|].
      rewrite Hrun. cbn [mbind outcome_bind bind].
      destruct (IHks Hnd (λ i' Hi', Hin i' (list_elem_of_further _ _ _ Hi'))
                  (K ++ [i]) (arr1 ++ (hd g <$> ls1)) false)
        as (ls2 & b' & Hf & Hnd2 & Hb2 & Hls2).
      + intros i' [Hi'|Hi'%list_elem_of_singleton]%elem_of_app.
        * intros Hx. apply (HK i' Hi'). by right.
        * by subst.
      + split; [done|]. intros Hall. specialize (Hall i).
        rewrite Hc in Hall. discriminate Hall. apply elem_of_app. right. by left.
      + exists (ls1 ++ ls2), b'. rewrite Hf, fmap_app, app_assoc.
        rewrite <- app_assoc in Hb2. split_and!; auto.
        * apply NoDup_app. split_and!; auto.
          intros l Hl1 Hl2. apply Hls1 in Hl1 as (Hll & Ha1 & _).
          apply Hls2 in Hl2 as (k & c' & Hk & Hc' & (_ & Ha2 & _)).
          eapply (siblings_disjoint v n i k c c' l); eauto.
          intros <-. done.
        * intros l. rewrite elem_of_app, Hls1, Hls2. split.
          -- intros [Hl|(k & c' & Hk & Hc' & Hl)].
             ++ exists i, c. split_and!; auto. by left.
             ++ exists k, c'. split_and!; auto. by right.
          -- intros (k & c' & [->|Hk]%elem_of_cons & Hc' & Hl).
             ++ left. by simplify_eq.
             ++ right. eauto.
    - destruct (IHks Hnd (λ i' Hi', Hin i' (list_elem_of_further _ _ _ Hi'))
                  (K ++ [i]) arr1 b)
        as (ls2 & b' & Hf & Hnd2 & Hb2 & Hls2).
      + intros i' [Hi'|Hi'%list_elem_of_singleton]%elem_of_app.
        * intros Hx. apply (HK i' Hi'). by right.
        * by subst.
      + rewrite Hb. split; intros Hall i' Hi'.
        * apply elem_of_app in Hi' as [Hi'|Hi'%list_elem_of_singleton]; [auto|].
          by subst.
        * apply Hall. apply elem_of_app. by left.
      + exists ls2, b'. rewrite <- app_assoc in Hb2. split_and!; auto.
        intros l. rewrite Hls2. split.
        * intros (k & c' & Hk & Hc' & Hl). exists k, c'. split_and!; auto. by right.
        * intros (k & c' & [->|Hk]%elem_of_cons & Hc' & Hl); [congruence|eauto]. }
  destruct (Hfold slots (NoDup_seqZ _ _) (λ i, proj1 (elem_of_slots i)) [] arr true)
    as (ls & b & Hf & Hnd & Hb & Hls).
  { intros i Hi. by apply elem_of_nil in Hi. }
  { split; [|done]. intros _ i Hi. by apply elem_of_nil in Hi. }
  simpl in Hb. rewrite Hf. cbn [mbind outcome_bind bind].
  destruct b.
  - assert (children n = ∅) as Hempty.
    { apply map_eq. intros i. rewrite lookup_empty.
      destruct (children n !! i) as [c|] eqn:Hc; [|done].
      destruct (child_facts text_alphabet Hwf Hv Hn Hc)
        as (_ & _ & _ & cn & ch & _ & _ & _ & _ & _ & Hi & _).
      rewrite <- Hc. apply (proj1 Hb eq_refl). by apply elem_of_slots. }
    assert (ls = []) as ->.
    { destruct ls as [|l ls]; [done|exfalso].
      destruct (proj1 (Hls l)) as (k & c & _ & Hc & _); [by left|].
      rewrite Hempty in Hc. by rewrite lookup_empty in Hc. }
    pose proof (st_index Hst v n Hv Hn Hempty) as Hidx.
    pose proof (dep_size text g t (st_wf text g t Hst) v Hv) as [Hhd _].
    rewrite Hidx. rewrite bool_decide_true by lia. cbn [andb].
    exists [v]. rewrite app_nil_r. split_and!; auto.
    + apply NoDup_singleton.
    + intros l. rewrite list_elem_of_singleton. split.
      * intros ->. split_and!; auto; [constructor|]. eauto.
      * intros (Hl & Ha & _).
        by eapply (below_leaf text g h le _ _ Ht v n l).
  - cbn [andb]. exists ls. split_and!; auto.
    intros l. rewrite Hls. split.
    + intros (k & c & Hk & Hc & Hl & Ha & Hleaf).
      destruct (wf_child Hwf v n k c Hv Hn Hc) as (Hcl & Hc0 & Hp & _).
      split_and!; auto. eapply anc_trans; [|exact Ha].
      apply anc_up; [done|]. rewrite Hp. constructor.
    + intros (Hl & Ha & nl & Hnl & Hcl).
      destruct (decide (v = l)) as [<-|Hne].
      * exfalso. simplify_eq.
        assert (false = true) as Hx; [|discriminate Hx].
        apply Hb. intros i _. rewrite Hcl. apply lookup_empty.
      * destruct (anc_child Hwf Ha Hl Hne) as (c & Hcl' & Hc0 & Hcp & Hca).
        destruct (wf_live Hwf c Hcl') as [cn Hcn].
        destruct (child_key Hwf c cn Hcl' Hc0 Hcn) as (pn & ch & Hpn & Hch & Hk).
        rewrite Hcp, Hn in Hpn. injection Hpn as <-.
        destruct (child_facts text_alphabet Hwf Hv Hn Hk)
          as (_ & _ & _ & cn' & ch' & _ & _ & _ & _ & _ & Hi & _).
        exists (charToIndex ch), c. split_and!; eauto.
        { by apply elem_of_slots. }
        split_and!; eauto.
Qed.
End leaves.

(** ** Occurrences and leaves *)

Lemma sorted_filter_seqZ (P : Z → Prop) `{∀ x, Decision (P x)} (n : nat) :
  ∀ m, StronglySorted Z.lt (filter P (seqZ m (Z.of_nat n))).
Proof.
  induction n as [|n IH]; intros m.
  - rewrite seqZ_nil by lia. constructor.
  - rewrite seqZ_cons by lia.
    replace (Z.pred (Z.of_nat (S n))) with (Z.of_nat n) by lia.
    rewrite filter_cons. destruct (decide (P m)); [|apply IH].
    constructor; [apply IH|]. apply Forall_forall. intros x Hx.
    apply list_elem_of_filter in Hx as [_ Hx]. apply elem_of_seqZ in Hx. lia.
Qed.

Lemma occurrences_sorted (text p : list Z) :
  StronglySorted Z.lt (occurrences text p).
Proof.
  unfold occurrences, strlen. apply sorted_filter_seqZ.
Qed.

Lemma elem_of_occurrences (text p : list Z) (i : Z) :
  i ∈ occurrences text p ↔ occurs_at text p i.
Proof.
  unfold occurrences. rewrite list_elem_of_filter, elem_of_seqZ.
  unfold occurs_at. intuition lia.
Qed.

Lemma sorted_lt_le (l : list Z) : StronglySorted Z.lt l → Sorted Z.le l.
Proof.
  intros Hs. apply StronglySorted_Sorted.
  induction Hs as [|x l Hs IH Hx]; constructor; auto.
  eapply Forall_impl; [exact Hx|]. intros; lia.
Qed.

Lemma sorted_lt_NoDup (l : list Z) : StronglySorted Z.lt l → NoDup l.
Proof.
  induction 1 as [|x l Hs IH Hx]; constructor; auto.
  intros Hin. rewrite Forall_forall in Hx. specialize (Hx x Hin). lia.
Qed.

(** A list without duplicates holding exactly the occurrences becomes,
    sorted, the list of the occurrences. *)
Lemma sort_occurrences (text p xs : list Z) :
  NoDup xs → (∀ i, i ∈ xs ↔ occurs_at text p i) →
  merge_sort Z.le xs = occurrences text p.
Proof.
  intros Hnd Hin. apply (Sorted_unique Z.le).
  - apply (Sorted_merge_sort Z.le).
  - apply sorted_lt_le, occurrences_sorted.
  - rewrite merge_sort_Permutation. apply NoDup_Permutation; auto.
    + apply sorted_lt_NoDup, occurrences_sorted.
    + intros i. by rewrite Hin, elem_of_occurrences.
Qed.

Section matches.
Variable text : list Z.
Hypothesis text_alphabet : Forall alphabet text.
Hypothesis text_nonempty : 0 < strlen text.
Variables (g : ghost) (t : SuffixTree).
Hypothesis Hst : suffix_tree text g t.

Local Abbreviation h := (heap t).
Local Abbreviation le := (strlen text - 1).
Local Abbreviation D := (dep g (heap t) (strlen text - 1)).

(** The leaf of the suffix [k]. *)
Lemma leaf_at k :
  0 ≤ k < strlen text →
  ∃ l n, live g l ∧ h !! l = Some n ∧ end_ n = None ∧ children n = ∅
    ∧ hd g l = k ∧ D l = strlen text - k.
Proof.
  intros Hk. pose proof (st_wf text g t Hst) as Hwf.
  destruct (tr_leaves (st_tree Hst) k Hk) as (l & n & Hl & Hn & He & Hhd).
  exists l, n. split_and!; auto.
  - by apply (wf_leaf Hwf l n).
  - rewrite (dep_eq Hn). unfold realEnd. rewrite He. lia.
Qed.

Lemma root_children r : h !! 0%nat = Some r → children r ≠ ∅.
Proof.
  intros Hr Hempty. pose proof (st_wf text g t Hst) as Hwf.
  destruct (leaf_at 0) as (l & n & Hl & Hn & He & _); [lia|].
  destruct (wf_root Hwf) as (H0 & _ & r' & Hr' & _ & He').
  assert (l = 0%nat) as ->.
  { eapply (below_leaf text g h le _ _ (st_tree Hst) 0%nat r l); eauto.
    by apply (anc_root Hwf). }
  simplify_eq.
Qed.

(** A node without children is the leaf of a suffix. *)
Lemma leaf_end l n :
  live g l → h !! l = Some n → children n = ∅ → end_ n = None.
Proof.
  intros Hl Hn Hc. pose proof (st_wf text g t Hst) as Hwf.
  destruct (end_ n) as [e|] eqn:He; [exfalso|done].
  destruct (decide (l = 0%nat)) as [->|Hl0].
  - by eapply root_children.
  - destruct (wf_branch Hwf l n Hl Hl0 Hn) as (k1 & _ & _ & [c Hk] & _).
    { by rewrite He. }
    rewrite Hc in Hk. by rewrite lookup_empty in Hk.
Qed.

Lemma leaf_facts l n :
  live g l → h !! l = Some n → children n = ∅ →
  0 ≤ hd g l < strlen text ∧ D l = strlen text - hd g l
  ∧ suffixIndex n = hd g l.
Proof.
  intros Hl Hn Hc. pose proof (leaf_end l n Hl Hn Hc) as He.
  split_and!.
  - apply (tr_leaf_hd (st_tree Hst) l n Hl Hn He).
  - apply (tr_leaf_hd (st_tree Hst) l n Hl Hn He).
  - rewrite (dep_eq Hn). unfold realEnd. rewrite He. lia.
  - by apply (st_index Hst).
Qed.

(** Two leaves of the same suffix are the same node. *)
Lemma leaf_inj l1 l2 n1 n2 :
  live g l1 → live g l2 → h !! l1 = Some n1 → h !! l2 = Some n2 →
  children n1 = ∅ → children n2 = ∅ → hd g l1 = hd g l2 → l1 = l2.
Proof.
  intros Hl1 Hl2 Hn1 Hn2 Hc1 Hc2 Hhd. pose proof (st_wf text g t Hst) as Hwf.
  destruct (leaf_facts l1 n1) as (_ & Hd1 & _); auto.
  destruct (leaf_facts l2 n2) as (_ & Hd2 & _); auto.
  apply (anc_antisym Hwf); auto; [|lia].
  apply (prefix_anc Hwf); auto; [lia|]. rewrite Hhd. apply agree_refl.
Qed.

(** The leaves below the node that [_findNode] returns are the
    occurrences of the pattern. *)
Lemma locus_leaves c p :
  live g c → strlen p ≤ D c → reads text p (hd g c) →
  (c ≠ 0%nat → D (par g c) < strlen p) →
  ∀ i, occurs_at text p i ↔ ∃ l, leaf_below g t c l ∧ hd g l = i.
Proof.
  intros Hc Hd Hr Hp i. pose proof (st_wf text g t Hst) as Hwf. split.
  - intros (Hi & Hb & Hrd)%occurs_at_reads.
    destruct (leaf_at i Hi) as (l & n & Hl & Hn & He & Hch & Hhd & Hdl).
    exists l. split; [|done]. split_and!; eauto.
    destruct (decide (c = 0%nat)) as [->|Hc0]; [by apply (anc_root Hwf)|].
    specialize (Hp Hc0).
    pose proof (live_par Hwf c Hc Hc0) as Hpl.
    pose proof (agree_par Hwf c Hc Hc0) as Hpa.
    pose proof (dep_nonneg Hwf _ Hpl) as Hp0.
    destruct (wf_live Hwf _ Hpl) as [pn Hpn].
    destruct (wf_live Hwf _ Hc) as [cn Hcn].
    destruct (descend Hwf (par g c) pn l) as (x & ch & Hch' & Hk & Hx & Hxl);
      auto; [lia| |].
    { intros k Hk. rewrite (agree_at Hpa) by lia.
      rewrite <- Hr by lia. rewrite Hhd. apply Hrd. lia. }
    destruct (child_key Hwf c cn Hc Hc0 Hcn) as (pn' & ch2 & Hpn' & Hch2 & Hk2).
    rewrite Hhd, <- Hrd, Hr, Hch2 in Hch' by lia.
    simplify_eq. done.
  - intros (l & (Hl & Ha & n & Hn & Hch) & <-).
    destruct (leaf_facts l n) as (Hhd & Hdl & _); auto.
    pose proof (anc_dep Hwf Ha Hl) as Hcd.
    pose proof (anc_agree Hwf Ha Hl) as Hag.
    apply occurs_at_reads. split_and!; [lia..|].
    intros k Hk. rewrite Hr by done. apply (agree_at Hag). lia.
Qed.

(** [findAllMatches] is the brute-force scan. *)
Lemma findAllMatches_ok (fuel : nat) (p : list Z) :
  strlen text < Z.of_nat fuel → strlen p ≤ Z.of_nat fuel →
  findAllMatches text t fuel p = Done (occurrences text p).
Proof.
  intros Hf1 Hf2. pose proof (st_wf text g t Hst) as Hwf.
  destruct (wf_root Hwf) as (H0 & Hhd0 & _).
  unfold findAllMatches, _findNode. rewrite (st_root Hst).
  destruct (findNode_loop_ok text text_alphabet g t (st_wf text g t Hst) (st_le Hst) p fuel 0%nat 0)
    as (r & Hrun & Hpost); auto.
  { pose proof (strlen_nonneg p). lia. }
  { intros k Hk. simpl in Hk. unfold strlen in Hk. simpl in Hk. lia. }
  { intros _. by rewrite (dep_root Hwf). }
  { by rewrite (dep_root Hwf). }
  { lia. }
  rewrite Hrun. cbn [mbind outcome_bind bind].
  destruct r as [c|].
  - destruct Hpost as (Hc & _ & Hd & Hr & Hp).
    destruct (collect_ok text text_alphabet g t Hst fuel c [])
      as (ls & Hcol & Hnd & Hls); auto.
    { pose proof (dep_nonneg Hwf c Hc). lia. }
    rewrite Hcol. cbn [mbind outcome_bind bind]. f_equal. simpl.
    apply sort_occurrences.
    + apply NoDup_fmap_2_strong; [|done].
      intros l1 l2 H1 H2 Hhd.
      apply Hls in H1 as (Hl1 & _ & n1 & Hn1 & Hc1).
      apply Hls in H2 as (Hl2 & _ & n2 & Hn2 & Hc2).
      by eapply leaf_inj.
    + intros i. rewrite (locus_leaves c p Hc Hd Hr Hp i).
      rewrite list_elem_of_fmap. split.
      * intros (l & -> & Hl). exists l. split; [|done]. by apply Hls.
      * intros (l & Hl & <-). exists l. split; [done|]. by apply Hls.
  - f_equal. symmetry.
    destruct (occurrences text p) as [|i l] eqn:Ho; [done|exfalso].
    assert (occurs_at text p i) as Hocc.
    { apply elem_of_occurrences. rewrite Ho. by left. }
    apply occurs_at_reads in Hocc as (Hi & Hb & Hrd).
    destruct (leaf_at i Hi) as (l' & n & Hl & Hn & He & Hch & Hhd & Hdl).
    apply (Hpost l'); auto.
    + by apply (anc_root Hwf).
    + lia.
    + by rewrite Hhd.
Qed.

(** [search] decides whether the pattern is a substring. *)
Lemma search_ok (fuel : nat) (p : list Z) :
  strlen p ≤ Z.of_nat fuel →
  ∃ b, search text t fuel p = Done b ∧ (b = true ↔ is_substring text p).
Proof.
  intros Hf. pose proof (st_wf text g t Hst) as Hwf.
  destruct (wf_root Hwf) as (H0 & Hhd0 & _).
  unfold search. rewrite search_loop_findNode, (st_root Hst).
  destruct (findNode_loop_ok text text_alphabet g t (st_wf text g t Hst) (st_le Hst) p fuel 0%nat 0)
    as (r & Hrun & Hpost); auto.
  { pose proof (strlen_nonneg p). lia. }
  { intros k Hk. simpl in Hk. unfold strlen in Hk. simpl in Hk. lia. }
  { intros _. by rewrite (dep_root Hwf). }
  { by rewrite (dep_root Hwf). }
  { lia. }
  rewrite Hrun. cbn [mbind outcome_bind bind].
  eexists. split; [done|].
  destruct r as [c|].
  - destruct Hpost as (Hc & _ & Hd & Hr & Hp).
    rewrite bool_decide_true by eauto. split; [intros _|done].
    apply is_substring_reads. exists (hd g c).
    destruct (dep_size text g t (st_wf text g t Hst) c Hc). split_and!; auto; lia.
  - rewrite bool_decide_false by (by intros [? ?]).
    split; [done|]. intros (i & Hi & Hb & Hrd)%is_substring_reads. exfalso.
    destruct (decide (strlen p = 0)) as [Hp0|Hp0].
    + apply (Hpost 0%nat); auto; [constructor|rewrite (dep_root Hwf); lia|].
      intros k Hk. lia.
    + pose proof (strlen_nonneg p).
      destruct (leaf_at i) as (l' & n & Hl & Hn & He & Hch & Hhd & Hdl); [lia|].
      apply (Hpost l'); auto.
      * by apply (anc_root Hwf).
      * lia.
      * by rewrite Hhd.
Qed.
End matches.

(** ** The shape of the finished tree *)

Lemma childCount_two (n : Node) (k1 k2 : Z) :
  k1 ≠ k2 → 0 ≤ k1 < 27 → 0 ≤ k2 < 27 →
  is_Some (children n !! k1) → is_Some (children n !! k2) →
  2 ≤ childCount n.
Proof.
  intros Hne H1 H2 Hc1 Hc2. unfold childCount.
  assert ([k1; k2] ⊆+ filter (λ i, is_Some (children n !! i)) slots) as Hsub.
  { apply NoDup_submseteq.
    - apply NoDup_cons. split; [by intros ?%list_elem_of_singleton|].
      apply NoDup_singleton.
    - intros x Hx. apply list_elem_of_filter.
      apply elem_of_cons in Hx as [Hx|Hx%list_elem_of_singleton]; subst x;
        (split; [done|by apply elem_of_slots]). }
  apply submseteq_length in Hsub. simpl in Hsub. lia.
Qed.

Section shape.
Variable text : list Z.
Hypothesis text_alphabet : Forall alphabet text.
Hypothesis text_nonempty : 0 < strlen text.
Variables (g : ghost) (t : SuffixTree).
Hypothesis Hst : suffix_tree text g t.

Local Abbreviation h := (heap t).
Local Abbreviation le := (strlen text - 1).

(** The nodes of the tree are the nodes reached from the root. *)
Lemma reach_live v : reach h 0%nat v → live g v.
Proof.
  pose proof (st_wf text g t Hst) as Hwf.
  induction 1 as [|p pn i c _ IH Hpn Hc].
  - apply (wf_root Hwf).
  - by destruct (wf_child Hwf p pn i c IH Hpn Hc).
Qed.

Lemma anc_reach u v : anc g u v → live g v → reach h u v.
Proof.
  pose proof (st_wf text g t Hst) as Hwf.
  induction 1 as [|u v Hv Ha IH]; intros Hl; [constructor|].
  destruct (wf_live Hwf v Hl) as [n Hn].
  destruct (child_key Hwf v n Hl Hv Hn) as (pn & ch & Hpn & _ & Hk).
  eapply reach_child; [|exact Hpn|exact Hk].
  apply IH. by apply (live_par Hwf).
Qed.

Lemma live_reach v : live g v → reach h 0%nat v.
Proof.
  intros Hv. apply anc_reach; [|done].
  by apply (anc_root (st_wf text g t Hst)).
Qed.

(** Every node with a child, other than the root, has two of them. *)
Lemma branching v n :
  reach h 0%nat v → v ≠ 0%nat → h !! v = Some n → children n ≠ ∅ →
  2 ≤ childCount n.
Proof.
  intros Hv%reach_live Hv0 Hn Hc. pose proof (st_wf text g t Hst) as Hwf.
  destruct (end_ n) as [e|] eqn:He.
  - destruct (wf_branch Hwf v n Hv Hv0 Hn) as (k1 & k2 & Hne & [c1 H1] & [c2 H2]).
    { by rewrite He. }
    destruct (child_facts text_alphabet Hwf Hv Hn H1)
      as (_ & _ & _ & ? & ? & _ & _ & _ & _ & _ & Hi1 & _).
    destruct (child_facts text_alphabet Hwf Hv Hn H2)
      as (_ & _ & _ & ? & ? & _ & _ & _ & _ & _ & Hi2 & _).
    eapply childCount_two; eauto.
  - destruct Hc. by apply (wf_leaf Hwf v n).
Qed.

(** One leaf for every suffix, with the position of the suffix as its
    suffix index. *)
Lemma leaves_suffixes :
  ∃ ls, NoDup ls ∧ (∀ v, v ∈ ls ↔ is_leaf t v)
    ∧ suffixIndex_of t <$> ls ≡ₚ seqZ 0 (strlen text).
Proof.
  pose proof (st_wf text g t Hst) as Hwf.
  destruct (wf_root Hwf) as (H0 & _).
  destruct (collect_ok text text_alphabet g t Hst
              (S (Z.to_nat (strlen text))) 0%nat [] H0)
    as (ls & _ & Hnd & Hls).
  { rewrite (dep_root Hwf). lia. }
  assert (∀ v, v ∈ ls ↔ is_leaf t v) as Hleaf.
  { intros v. rewrite Hls. unfold is_leaf, leaf_below. rewrite (st_root Hst).
    split.
    - intros (Hl & _ & Hn). split; [by apply live_reach|done].
    - intros (Hr & Hn). pose proof (reach_live v Hr).
      split_and!; auto. by apply (anc_root Hwf). }
  exists ls. split_and!; auto.
  apply NoDup_Permutation.
  - apply NoDup_fmap_2_strong; [|done].
    intros l1 l2 H1 H2 Hidx.
    apply Hls in H1 as (Hl1 & _ & n1 & Hn1 & Hc1).
    apply Hls in H2 as (Hl2 & _ & n2 & Hn2 & Hc2).
    unfold suffixIndex_of in Hidx. rewrite Hn1, Hn2 in Hidx. simpl in Hidx.
    destruct (leaf_facts text text_nonempty g t Hst l1 n1) as (_ & _ & Hi1); auto.
    destruct (leaf_facts text text_nonempty g t Hst l2 n2) as (_ & _ & Hi2); auto.
    eapply (leaf_inj text text_nonempty g t Hst l1 l2); eauto. congruence.
  - apply NoDup_seqZ.
  - intros i. rewrite list_elem_of_fmap, elem_of_seqZ. split.
    + intros (l & -> & Hl). apply Hls in Hl as (Hl & _ & n & Hn & Hc).
      unfold suffixIndex_of. rewrite Hn. simpl.
      destruct (leaf_facts text text_nonempty g t Hst l n) as (? & _ & ->); auto.
    + intros Hi.
      destruct (leaf_at text g t Hst i) as (l & n & Hl & Hn & _ & Hc & Hhd & _);
        [lia|].
      exists l. split.
      * unfold suffixIndex_of. rewrite Hn. simpl.
        destruct (leaf_facts text text_nonempty g t Hst l n) as (_ & _ & ->); auto.
      * apply Hls. split_and!; eauto. by apply (anc_root Hwf).
Qed.
End shape.

(** ** Branching nodes and repeated substrings *)

Lemma lex_leb_refl (a : list Z) : lex_leb a a = true.
Proof.
  induction a as [|x a IH]; [done|]. simpl.
  rewrite decide_False by lia. by rewrite decide_True.
Qed.

Lemma lex_leb_diff (d : nat) :
  ∀ (a b : list Z) x y,
    (∀ k, (k < d)%nat → a !! k = b !! k) →
    a !! d = Some x → b !! d = Some y → x < y → lex_leb a b = true.
Proof.
  induction d as [|d IH]; intros a b x y Hpre Ha Hb Hlt.
  - destruct a as [|x' a]; [done|]. destruct b as [|y' b]; [done|].
    simpl in *. simplify_eq. by rewrite decide_True.
  - destruct a as [|x' a]; [done|]. destruct b as [|y' b]; [done|].
    simpl in *. pose proof (Hpre 0%nat ltac:(lia)) as H0. simpl in H0.
    injection H0 as <-. rewrite decide_False by lia. rewrite decide_True by done.
    apply (IH a b x y); auto. intros k Hk. apply (Hpre (S k)). lia.
Qed.

Lemma idx_le_refl (a : list Z) : idx_le a a.
Proof. apply lex_leb_refl. Qed.

(** Two strings that differ first at [d], the first with the symbol of
    the lesser index. *)
Lemma idx_le_diff (a b : list Z) (d x y : Z) :
  0 ≤ d → (∀ k, 0 ≤ k < d → char_at a k = char_at b k) →
  char_at a d = Some x → char_at b d = Some y →
  charToIndex x < charToIndex y → idx_le a b.
Proof.
  intros Hd Hpre Ha Hb Hlt. unfold idx_le, lex_le.
  apply (lex_leb_diff (Z.to_nat d) _ _ (charToIndex x) (charToIndex y)); auto.
  - intros k Hk. rewrite !list_lookup_fmap.
    specialize (Hpre (Z.of_nat k) ltac:(lia)). unfold char_at in Hpre.
    rewrite !decide_True, !Nat2Z.id in Hpre by lia. by rewrite Hpre.
  - rewrite list_lookup_fmap. unfold char_at in Ha.
    rewrite decide_True in Ha by lia. by rewrite Ha.
  - rewrite list_lookup_fmap. unfold char_at in Hb.
    rewrite decide_True in Hb by lia. by rewrite Hb.
Qed.

Lemma char_at_app_r (a b : list Z) i :
  strlen a ≤ i → char_at (a ++ b) i = char_at b (i - strlen a).
Proof.
  unfold char_at, strlen. intros Hi. pose proof (Zle_0_nat (length a)).
  rewrite !decide_True by lia.
  rewrite lookup_app_r by lia. f_equal. lia.
Qed.

Lemma childCount_two_inv (n : Node) :
  2 ≤ childCount n →
  ∃ k1 k2, k1 ≠ k2 ∧ is_Some (children n !! k1) ∧ is_Some (children n !! k2).
Proof.
  unfold childCount. intros Hc.
  pose proof (NoDup_filter (λ i, is_Some (children n !! i)) slots
                (NoDup_seqZ _ _)) as Hnd.
  assert (∀ k, k ∈ filter (λ i, is_Some (children n !! i)) slots →
               is_Some (children n !! k)) as Hin.
  { intros k Hk. by apply list_elem_of_filter in Hk as [? _]. }
  destruct (filter _ slots) as [|k1 [|k2 l]]; simpl in Hc; [lia..|].
  exists k1, k2. split_and!.
  - apply NoDup_cons in Hnd as [Hni _]. intros ->. apply Hni. by left.
  - apply Hin. by left.
  - apply Hin. right. by left.
Qed.

Section repeats.
Variable text : list Z.
Hypothesis text_alphabet : Forall alphabet text.
Hypothesis text_nonempty : 0 < strlen text.
Variables (g : ghost) (t : SuffixTree).
Hypothesis Hst : suffix_tree text g t.

Local Abbreviation h := (heap t).
Local Abbreviation le := (strlen text - 1).
Local Abbreviation D := (dep g (heap t) (strlen text - 1)).

(** Below every node there is a leaf. *)
Lemma leaf_exists (m : nat) :
  ∀ v, live g v → le + 1 - D v < Z.of_nat m → ∃ l, leaf_below g t v l.
Proof.
  pose proof (st_wf text g t Hst) as Hwf.
  induction m as [|m IH]; intros v Hv Hm.
  { pose proof (dep_bound text g h le _ _ (st_tree Hst) v Hv). lia. }
  destruct (wf_live Hwf v Hv) as [n Hn].
  destruct (map_choose_or_empty (children n)) as [(k & c & Hc)|Hempty].
  - destruct (child_facts text_alphabet Hwf Hv Hn Hc)
      as (Hcl & Hc0 & Hp & cn & ch & Hcn & _ & _ & _ & _ & _ & Hdc & Hel & _).
    destruct (IH c Hcl) as (l & Hl & Ha & Hleaf); [lia|].
    exists l. split_and!; auto. eapply anc_trans; [|exact Ha].
    apply anc_up; [done|]. rewrite Hp. constructor.
  - exists v. split_and!; eauto. constructor.
Qed.

(** The label of a node can be read at every leaf below it. *)
Lemma label_below v s l :
  live g v → path_label text g t v s → leaf_below g t v l →
  occurs_at text s (hd g l).
Proof.
  intros Hv [Hlen Hr] (Hl & Ha & n & Hn & Hc).
  pose proof (st_wf text g t Hst) as Hwf.
  destruct (leaf_facts text text_nonempty g t Hst l n) as (Hhd & Hdl & _); auto.
  pose proof (anc_dep Hwf Ha Hl). pose proof (anc_agree Hwf Ha Hl) as Hag.
  apply occurs_at_reads. split_and!; [lia..|].
  intros k Hk. rewrite Hr by done. apply (agree_at Hag). lia.
Qed.

(** A branching node is read at two positions. *)
Lemma branches_repeated v s :
  branches g t v → path_label text g t v s →
  ∃ i j, i ≠ j ∧ occurs_at text s i ∧ occurs_at text s j.
Proof.
  intros (Hv & n & Hn & Hcc) Hs. pose proof (st_wf text g t Hst) as Hwf.
  destruct (childCount_two_inv n Hcc) as (k1 & k2 & Hne & [c1 H1] & [c2 H2]).
  destruct (child_facts text_alphabet Hwf Hv Hn H1)
    as (Hl1 & H10 & Hp1 & _).
  destruct (child_facts text_alphabet Hwf Hv Hn H2)
    as (Hl2 & H20 & Hp2 & _).
  pose proof (dep_nonneg Hwf c1 Hl1). pose proof (dep_nonneg Hwf c2 Hl2).
  destruct (leaf_exists (S (Z.to_nat (strlen text))) c1 Hl1) as [l1 Hb1]; [lia|].
  destruct (leaf_exists (S (Z.to_nat (strlen text))) c2 Hl2) as [l2 Hb2]; [lia|].
  assert (anc g v c1) as Ha1 by (apply anc_up; [done|rewrite Hp1; constructor]).
  assert (anc g v c2) as Ha2 by (apply anc_up; [done|rewrite Hp2; constructor]).
  exists (hd g l1), (hd g l2). split_and!.
  - intros Hhd. destruct Hb1 as (Hll1 & Hal1 & n1 & Hn1 & Hc1).
    destruct Hb2 as (Hll2 & Hal2 & n2 & Hn2 & Hc2).
    assert (l1 = l2) as -> by (by eapply (leaf_inj text text_nonempty g t Hst)).
    exact (siblings_disjoint text g t Hst v n k1 k2 c1 c2 l2
             Hv Hn Hne H1 H2 Hll2 Hal1 Hal2).
  - apply (label_below v s l1); auto.
    destruct Hb1 as (Hx & Hy & Hz). split; [done|].
    split; [exact (anc_trans Ha1 Hy)|done].
  - apply (label_below v s l2); auto.
    destruct Hb2 as (Hx & Hy & Hz). split; [done|].
    split; [exact (anc_trans Ha2 Hy)|done].
Qed.

(** Two nodes of the tree: one is above the other, or they hang below
    two children of a node. *)
Lemma fork a :
  anc g 0%nat a → ∀ b, live g a → live g b →
  anc g a b ∨ anc g b a
  ∨ ∃ u c1 c2, live g u ∧ live g c1 ∧ live g c2 ∧ c1 ≠ 0%nat ∧ c2 ≠ 0%nat
      ∧ par g c1 = u ∧ par g c2 = u ∧ c1 ≠ c2 ∧ anc g c1 a ∧ anc g c2 b.
Proof.
  pose proof (st_wf text g t Hst) as Hwf.
  intros H0a. remember 0%nat as r eqn:Hr.
  induction H0a as [r|r a Ha0 Hra IH]; intros b Ha Hb; subst r.
  { left. by apply (anc_root Hwf). }
  specialize (IH eq_refl).
  pose proof (live_par Hwf a Ha Ha0) as Hpl.
  assert (anc g (par g a) a) as Hpa by (apply anc_up; [done|constructor]).
  destruct (IH b Hpl Hb) as [Hab|[Hba|(u & c1 & c2 & Hu & H1 & H2 & H10 & H20
                                        & Hp1 & Hp2 & Hne & Ha1 & Ha2)]].
  - destruct (decide (par g a = b)) as [<-|Hne]; [by right; left|].
    destruct (anc_child Hwf Hab Hb Hne) as (c & Hc & Hc0 & Hcp & Hcb).
    destruct (decide (c = a)) as [->|Hca]; [by left|].
    right. right. exists (par g a), a, c. split_and!; auto. constructor.
  - right. left. by eapply anc_trans.
  - right. right. exists u, c1, c2. split_and!; auto. by eapply anc_trans.
Qed.

(** A string read at two positions is a prefix of the label of a
    branching node. *)
Lemma repeated_branches s i j :
  i ≠ j → occurs_at text s i → occurs_at text s j →
  ∃ u, branches g t u ∧ strlen s ≤ D u ∧ reads text s (hd g u).
Proof.
  intros Hij (Hi & Hbi & Hri)%occurs_at_reads (Hj & Hbj & Hrj)%occurs_at_reads.
  pose proof (st_wf text g t Hst) as Hwf.
  destruct (leaf_at text g t Hst i Hi) as (l1 & n1 & Hl1 & Hn1 & _ & Hc1 & Hhd1 & Hd1).
  destruct (leaf_at text g t Hst j Hj) as (l2 & n2 & Hl2 & Hn2 & _ & Hc2 & Hhd2 & Hd2).
  destruct (fork l1 (anc_root Hwf l1 Hl1) l2 Hl1 Hl2)
    as [Hab|[Hba|(u & c1 & c2 & Hu & Hcl1 & Hcl2 & H10 & H20
                  & Hp1 & Hp2 & Hne & Ha1 & Ha2)]].
  - pose proof (below_leaf text g h le _ _ (st_tree Hst) l1 n1 l2 Hl1 Hn1 Hc1 Hl2 Hab).
    congruence.
  - pose proof (below_leaf text g h le _ _ (st_tree Hst) l2 n2 l1 Hl2 Hn2 Hc2 Hl1 Hba).
    congruence.
  - pose proof (anc_agree Hwf Ha1 Hl1) as Hag1.
    pose proof (anc_agree Hwf Ha2 Hl2) as Hag2.
    pose proof (anc_dep Hwf Ha1 Hl1) as Hdd1.
    pose proof (anc_dep Hwf Ha2 Hl2) as Hdd2.
    pose proof (dep_par Hwf c1 Hcl1 H10) as Hdp1.
    pose proof (dep_par Hwf c2 Hcl2 H20) as Hdp2.
    pose proof (agree_par Hwf c1 Hcl1 H10) as Hap1.
    pose proof (dep_nonneg Hwf u Hu) as Hu0.
    rewrite Hp1 in Hdp1, Hap1. rewrite Hp2 in Hdp2.
    assert (strlen s ≤ D u) as Hlen.
    { destruct (decide (strlen s ≤ D u)) as [|Hlt]; [done|exfalso].
      apply Hne. apply (child_unique Hwf); auto; [congruence|].
      rewrite Hp1. rewrite (agree_at Hag1), (agree_at Hag2) by lia.
      rewrite Hhd1, Hhd2, <- Hri, <- Hrj by lia. done. }
    exists u. split_and!; auto.
    + split; [done|]. destruct (wf_live Hwf u Hu) as [un Hun].
      exists un. split; [done|].
      destruct (wf_live Hwf c1 Hcl1) as [cn1 Hcn1].
      destruct (wf_live Hwf c2 Hcl2) as [cn2 Hcn2].
      destruct (child_key Hwf c1 cn1 Hcl1 H10 Hcn1) as (pn1 & ch1 & Hpn1 & _ & Hk1).
      destruct (child_key Hwf c2 cn2 Hcl2 H20 Hcn2) as (pn2 & ch2 & Hpn2 & _ & Hk2).
      rewrite Hp1, Hun in Hpn1. rewrite Hp2, Hun in Hpn2.
      injection Hpn1 as <-. injection Hpn2 as <-.
      destruct (child_facts text_alphabet Hwf Hu Hun Hk1)
        as (_ & _ & _ & ? & ? & _ & _ & _ & _ & _ & Hi1 & _).
      destruct (child_facts text_alphabet Hwf Hu Hun Hk2)
        as (_ & _ & _ & ? & ? & _ & _ & _ & _ & _ & Hi2 & _).
      eapply (childCount_two un (charToIndex ch1) (charToIndex ch2)); eauto.
      intros Heq. rewrite Heq in Hk1. congruence.
    + intros k Hk. rewrite Hri by done. rewrite <- Hhd1.
      rewrite (agree_at Hap1) by lia. symmetry. apply (agree_at Hag1). lia.
Qed.
End repeats.

(** ** The longest repeated substring *)

Lemma lrs_post_on_ext text g t (S S' : nat → Prop) lrs r :
  (∀ u, live g u → (S u ↔ S' u)) →
  lrs_post_on text g t S lrs r → lrs_post_on text g t S' lrs r.
Proof.
  intros HS (H1 & H2 & H3). split; [done|]. split.
  - intros u Hu HSu. apply H2; [done|]. apply HS; [apply Hu|done].
  - destruct H3 as [->|(Hlt & (u & Hu & HSu & Hp) & Htie)]; [by left|right].
    split; [done|]. split.
    + exists u. split_and!; auto. apply HS; [apply Hu|done].
    + intros u' s Hu' HSu'. apply Htie; [done|]. apply HS; [apply Hu'|done].
Qed.

Section lrs.
Variable text : list Z.
Hypothesis text_alphabet : Forall alphabet text.
Hypothesis text_nonempty : 0 < strlen text.
Variables (g : ghost) (t : SuffixTree).
Hypothesis Hst : suffix_tree text g t.

Local Abbreviation h := (heap t).
Local Abbreviation le := (strlen text - 1).
Local Abbreviation D := (dep g (heap t) (strlen text - 1)).

(** [path + edgeStr] is the label of the child. *)
Lemma path_label_child v n k c cn path :
  live g v → h !! v = Some n → children n !! k = Some c →
  h !! c = Some cn → path_label text g t v path →
  path_label text g t c (path ++ edgeStr text t cn).
Proof.
  intros Hv Hn Hk Hcn [Hlen Hr]. pose proof (st_wf text g t Hst) as Hwf.
  destruct (child_facts text_alphabet Hwf Hv Hn Hk)
    as (Hc & Hc0 & Hp & cn' & ch & Hcn' & Hs & _ & _ & _ & _ & Hdc & Hel
        & Hre & Hhd & Hag).
  assert (cn' = cn) as -> by congruence.
  pose proof (dep_nonneg Hwf v Hv) as Hd0.
  unfold edgeStr. rewrite (st_le Hst).
  assert (start cn + edgeLength cn le ≤ strlen text) as Hb
    by (unfold edgeLength in *; lia).
  split.
  - rewrite strlen_app, strlen_substring by lia. lia.
  - intros i Hi. rewrite strlen_app, strlen_substring in Hi by lia.
    destruct (decide (i < strlen path)) as [Hlt|Hge].
    + rewrite char_at_app_l by lia. rewrite Hr by lia.
      apply (agree_at Hag). lia.
    + rewrite char_at_app_r by lia.
      rewrite char_at_substring by lia. f_equal. lia.
Qed.

(** The labels below a child of a lesser slot come first. *)
Lemma sibling_order v n k1 k2 c1 c2 u1 u2 s1 s2 :
  live g v → h !! v = Some n → k1 < k2 →
  children n !! k1 = Some c1 → children n !! k2 = Some c2 →
  live g u1 → live g u2 → anc g c1 u1 → anc g c2 u2 →
  path_label text g t u1 s1 → path_label text g t u2 s2 → idx_le s1 s2.
Proof.
  intros Hv Hn Hlt H1 H2 Hu1 Hu2 Ha1 Ha2 [Hl1 Hr1] [Hl2 Hr2].
  pose proof (st_wf text g t Hst) as Hwf.
  destruct (child_facts text_alphabet Hwf Hv Hn H1)
    as (Hc1 & _ & _ & cn1 & ch1 & _ & Hs1 & Hch1 & Hi1 & _ & _ & Hd1 & He1
        & _ & _ & Hag1).
  destruct (child_facts text_alphabet Hwf Hv Hn H2)
    as (Hc2 & _ & _ & cn2 & ch2 & _ & Hs2 & Hch2 & Hi2 & _ & _ & Hd2 & He2
        & _ & _ & Hag2).
  pose proof (anc_agree Hwf Ha1 Hu1) as Hb1.
  pose proof (anc_agree Hwf Ha2 Hu2) as Hb2.
  pose proof (anc_dep Hwf Ha1 Hu1). pose proof (anc_dep Hwf Ha2 Hu2).
  pose proof (dep_nonneg Hwf v Hv) as Hd0.
  apply (idx_le_diff s1 s2 (D v) ch1 ch2); auto.
  - intros i Hi. rewrite Hr1, Hr2 by lia.
    rewrite <- (agree_at Hb1), <- (agree_at Hb2) by lia.
    rewrite <- (agree_at Hag1), <- (agree_at Hag2) by lia. done.
  - rewrite Hr1 by lia. rewrite <- (agree_at Hb1) by lia. by rewrite <- Hs1.
  - rewrite Hr2 by lia. rewrite <- (agree_at Hb2) by lia. by rewrite <- Hs2.
  - lia.
Qed.

(** The visit of the child of the slot [a]. *)
Lemma lrs_step v n a c lrs r r' :
  live g v → h !! v = Some n → children n !! a = Some c → 0 ≤ a →
  lrs_post_on text g t (lrs_scope g n v a) lrs r →
  lrs_post_on text g t (anc g c) r r' →
  lrs_post_on text g t (lrs_scope g n v (a + 1)) lrs r'.
Proof.
  intros Hv Hn Hc Ha0 (A1 & A2 & A3) (B1 & B2 & B3).
  pose proof (st_wf text g t Hst) as Hwf.
  destruct (child_facts text_alphabet Hwf Hv Hn Hc)
    as (Hcl & Hc0 & Hp & cn & ch & Hcn & _ & _ & _ & _ & _ & Hdc & Hel & _).
  assert (∀ u, lrs_scope g n v (a + 1) u →
               lrs_scope g n v a u ∨ anc g c u) as Hsplit.
  { intros u [->|(k & c' & Hk & Hc' & Hu)]; [left; by left|].
    destruct (decide (k = a)) as [->|Hka].
    - right. congruence.
    - left. right. exists k, c'. split_and!; auto; lia. }
  assert (∀ u, lrs_scope g n v a u → lrs_scope g n v (a + 1) u) as Hmono.
  { intros u [->|(k & c' & Hk & Hc' & Hu)]; [by left|].
    right. exists k, c'. split_and!; auto; lia. }
  assert (∀ u, anc g c u → lrs_scope g n v (a + 1) u) as Hnew.
  { intros u Hu. right. exists a, c. split_and!; auto; lia. }
  split; [lia|]. split.
  - intros u Hu [HS|HS]%Hsplit.
    + specialize (A2 u Hu HS). lia.
    + by apply B2.
  - destruct B3 as [->|(Hlt & (u' & Hu' & Hcu' & Hp') & Htie')].
    + destruct A3 as [->|(Hlt & (u0 & Hu0 & HS0 & Hp0) & Htie)]; [by left|right].
      split; [done|]. split; [exists u0; auto|].
      intros u s Hu [HS|HS]%Hsplit Hps Hlen; [by apply (Htie u)|].
      destruct HS0 as [->|(k & c' & Hk & Hc' & Hcu0)].
      * exfalso. destruct Hp0 as [Hl0 _]. destruct Hps as [Hls _].
        pose proof (anc_dep Hwf HS (proj1 Hu)). lia.
      * eapply (sibling_order v n k a c' c u0 u r s); eauto;
          [lia|apply Hu0|apply Hu].
    + right. split; [lia|]. split; [exists u'; auto|].
      intros u s Hu [HS|HS]%Hsplit Hps Hlen; [|by apply (Htie' u)].
      exfalso. specialize (A2 u Hu HS). destruct Hps as [Hls _]. lia.
Qed.

Lemma lrs_dfs_S d v path lrs :
  lrs_dfs text t (S d) v path lrs
  = get h v ≫= λ n,
      foldM (λ lrs i,
          match children n !! i with
          | Some c =>
              cn ← get h c;
              lrs_dfs text t d c (path ++ edgeStr text t cn) lrs
          | None => Done lrs
          end)
        (if decide (childCount n >= 2 ∧ strlen path > strlen lrs)
         then path else lrs) slots.
Proof. reflexivity. Qed.

Lemma lrs_dfs_ok depth :
  ∀ v path lrs, live g v → path_label text g t v path →
    le + 1 - D v < Z.of_nat depth →
    ∃ r, lrs_dfs text t depth v path lrs = Done r
      ∧ lrs_post_on text g t (anc g v) lrs r.
Proof.
  pose proof (st_wf text g t Hst) as Hwf.
  induction depth as [|d IH]; intros v path lrs Hv Hpath Hd.
  { pose proof (dep_bound text g h le _ _ (st_tree Hst) v Hv). lia. }
  destruct (wf_live Hwf v Hv) as [n Hn].
  rewrite lrs_dfs_S, (get_Some _ _ _ Hn). cbn [mbind outcome_bind bind].
  match goal with |- context [foldM ?f _ slots] => set (B := f) end.
  set (lrs1 := if decide (childCount n >= 2 ∧ strlen path > strlen lrs)
               then path else lrs).
  assert (lrs_post_on text g t (lrs_scope g n v 0) lrs lrs1) as Hinit.
  { assert (∀ u, lrs_scope g n v 0 u → u = v) as Hsc.
    { intros u [->|(k & c' & Hk & _)]; [done|lia]. }
    unfold lrs1. destruct (decide _) as [[Hcc Hlt]|Hno].
    - split; [lia|]. split.
      + intros u _ ->%Hsc. destruct Hpath as [-> _]. lia.
      + right. split; [lia|]. split.
        * exists v. split_and!; auto; [|by left].
          split; [done|]. exists n. split; [done|lia].
        * intros u s _ ->%Hsc [Hl Hr] _. destruct Hpath as [Hl' Hr'].
          assert (s = path) as ->; [|apply idx_le_refl].
          apply str_eq_char_at; [lia|]. intros k Hk.
          rewrite Hr, Hr' by lia. done.
    - split; [lia|]. split; [|by left].
      intros u (_ & n' & Hn' & Hcc) ->%Hsc. destruct Hpath as [Hl _].
      assert (n' = n) as -> by congruence.
      destruct (decide (D v ≤ strlen lrs)); [done|]. destruct Hno. lia. }
  clearbody lrs1.
  assert (∀ m a r, a + Z.of_nat m = 27 → 0 ≤ a →
            lrs_post_on text g t (lrs_scope g n v a) lrs r →
            ∃ r', foldM B r (seqZ a (Z.of_nat m)) = Done r'
              ∧ lrs_post_on text g t (lrs_scope g n v 27) lrs r') as Hfold.
  { induction m as [|m IHm]; intros a r Ham Ha0 Hpost.
    { rewrite seqZ_nil by lia. exists r. split; [done|].
      by replace 27 with a by lia. }
    rewrite seqZ_cons by lia.
    replace (Z.pred (Z.of_nat (S m))) with (Z.of_nat m) by lia.
    cbn [foldM]. set (X := B r a). unfold B in X. subst X. cbn beta.
    destruct (children n !! a) as [c|] eqn:Hc.
    - destruct (child_facts text_alphabet Hwf Hv Hn Hc)
        as (Hcl & Hc0 & _ & cn & ch & Hcn & _ & _ & _ & _ & _ & Hdc & Hel & _).
      rewrite (get_Some _ _ _ Hcn). cbn [mbind outcome_bind bind].
      destruct (IH c (path ++ edgeStr text t cn) r Hcl) as (r1 & Hrun & Hp1).
      { exact (path_label_child v n a c cn path Hv Hn Hc Hcn Hpath). } { lia. }
      rewrite Hrun. cbn [mbind outcome_bind bind].
      apply IHm; [lia..|]. replace (Z.succ a) with (a + 1) by lia.
      exact (lrs_step v n a c lrs r r1 Hv Hn Hc Ha0 Hpost Hp1).
    - cbn [mbind outcome_bind bind]. apply IHm; [lia..|].
      eapply lrs_post_on_ext; [|exact Hpost].
      intros u _. unfold lrs_scope. split.
      + intros [->|(k & c' & Hk & Hc' & Hu)]; [by left|].
        right. exists k, c'. split_and!; auto; lia.
      + intros [->|(k & c' & Hk & Hc' & Hu)]; [by left|].
        destruct (decide (k = a)) as [->|]; [congruence|].
        right. exists k, c'. split_and!; auto; lia. }
  destruct (Hfold 27%nat 0 lrs1) as (r & Hrun & Hpost); [lia..|done|].
  exists r. split; [exact Hrun|].
  eapply lrs_post_on_ext; [|exact Hpost].
  intros u Hu. split.
  - intros [->|(k & c & Hk & Hc & Ha)]; [constructor|].
    destruct (wf_child Hwf v n k c Hv Hn Hc) as (_ & Hc0 & Hp & _).
    eapply anc_trans; [|exact Ha]. apply anc_up; [done|]. rewrite Hp. constructor.
  - intros Ha. destruct (decide (v = u)) as [<-|Hne]; [by left|right].
    destruct (anc_child Hwf Ha Hu Hne) as (c & Hcl' & Hc0 & Hcp & Hca).
    destruct (wf_live Hwf c Hcl') as [cn Hcn].
    destruct (child_key Hwf c cn Hcl' Hc0 Hcn) as (pn & ch & Hpn & Hch & Hk).
    rewrite Hcp, Hn in Hpn. injection Hpn as <-.
    destruct (child_facts text_alphabet Hwf Hv Hn Hk)
      as (_ & _ & _ & cn' & ch' & _ & _ & _ & _ & _ & Hi & _).
    exists (charToIndex ch), c. split_and!; auto; lia.
Qed.

(** [longestRepeatedSubstring]: the result is read at two positions
    unless it is empty, no string read at two positions is longer, and
    among those of its length it is the first. *)
Lemma longestRepeatedSubstring_ok (fuel : nat) :
  strlen text < Z.of_nat fuel →
  ∃ r, longestRepeatedSubstring text t fuel = Done r
    ∧ (r ≠ [] → ∃ i j, i ≠ j ∧ occurs_at text r i ∧ occurs_at text r j)
    ∧ (∀ s i j, i ≠ j → occurs_at text s i → occurs_at text s j →
         strlen s ≤ strlen r ∧ (strlen s = strlen r → idx_le r s)).
Proof.
  intros Hf. pose proof (st_wf text g t Hst) as Hwf.
  destruct (wf_root Hwf) as (H0 & Hhd0 & _).
  unfold longestRepeatedSubstring. rewrite (st_root Hst).
  destruct (lrs_dfs_ok fuel 0%nat [] [] H0) as (r & Hrun & H1 & H2 & H3).
  { split; [by rewrite (dep_root Hwf)|]. intros k Hk.
    unfold strlen in Hk. simpl in Hk. lia. }
  { rewrite (dep_root Hwf). lia. }
  exists r. split; [done|]. split.
  - intros Hr. destruct H3 as [->|(_ & (u & Hu & _ & Hp) & _)]; [done|].
    by apply (branches_repeated text text_alphabet text_nonempty g t Hst u).
  - intros s i j Hij Hi Hj.
    destruct (repeated_branches text text_alphabet g t Hst s i j Hij Hi Hj)
      as (u & Hu & Hlen & Hrd).
    pose proof (H2 u Hu (anc_root Hwf u (proj1 Hu))) as Hur.
    split; [lia|]. intros Heq.
    destruct H3 as [->|(_ & _ & Htie)].
    + assert (s = []) as ->; [|apply idx_le_refl].
      destruct s; [done|]. unfold strlen in Heq. simpl in Heq. lia.
    + apply (Htie u s Hu); auto; [by apply (anc_root Hwf), Hu|].
      split; [lia|done].
Qed.
End lrs.

(** ** The snapshots in the finished tree *)

(** From the root of a snapshot only nodes of the snapshot are reached. *)
Lemma reach_snapshot (g : ghost) (h : list Node) (lo hi r v : nat) :
  snapshot_range g h lo hi → (lo ≤ r < hi)%nat → reach h r v →
  (lo ≤ v < hi)%nat.
Proof.
  intros [Hhi Hr] Hlo. induction 1 as [|p pn i c _ IH Hpn Hc]; [done|].
  destruct (Hr p pn IH Hpn) as (_ & Hch & _). by apply (Hch i).
Qed.

Lemma reach_lookup (h : list Node) (r v : nat) :
  is_Some (h !! r) → reach h r v → (∀ p pn i c, h !! p = Some pn →
    children pn !! i = Some c → is_Some (h !! c)) → is_Some (h !! v).
Proof. intros Hr Hv Hc. induction Hv; eauto. Qed.

Lemma filter_all {A} (P : A → Prop) `{∀ x, Decision (P x)} (l : list A) :
  Forall P l → filter P l = l.
Proof.
  induction 1 as [|x l Hx Hl IH]; [done|].
  rewrite filter_cons_True by done. by rewrite IH.
Qed.

(** The empty string occurs at every position. *)
Lemma occurrences_empty (text : list Z) :
  occurrences text [] = seqZ 0 (strlen text).
Proof.
  unfold occurrences. apply filter_all. apply Forall_forall.
  intros i Hi%elem_of_seqZ. apply occurs_at_reads.
  replace (strlen []) with 0 by done. split_and!; [lia..|].
  intros k Hk. replace (strlen []) with 0 in Hk by done. lia.
Qed.

(** The nodes of the snapshots of a finished tree. *)
Lemma snapshot_nodes (text : list Z) (g : ghost) (t : SuffixTree) :
  suffix_tree text g t →
  Forall (λ s, ∃ lo hi, (lo ≤ snapshotRoot s < hi)%nat
                 ∧ snapshot_range g (heap t) lo hi) (steps t) →
  ∀ s v n, s ∈ steps t → reach (heap t) (snapshotRoot s) v →
    heap t !! v = Some n →
    ¬ reach (heap t) (root t) v
    ∧ ∀ u, suffixLink n = Some u →
        reach (heap t) (root t) u ∧ ¬ reach (heap t) (snapshotRoot s) u.
Proof.
  intros Hst Hsn s v n Hs Hr Hn.
  rewrite Forall_forall in Hsn. destruct (Hsn s Hs) as (lo & hi & Hlo & Hrange).
  pose proof (reach_snapshot g (heap t) lo hi _ v Hrange Hlo Hr) as Hin.
  destruct Hrange as [Hhi Hnodes].
  destruct (Hnodes v n Hin Hn) as (Hdead & _ & Hlink).
  rewrite (st_root Hst). split.
  - intros Hlive. apply Hdead. by apply (reach_live text g t Hst).
  - intros u Hu. specialize (Hlink u Hu). split.
    + by apply (live_reach text g t Hst).
    + intros Hru.
      pose proof (reach_snapshot g (heap t) lo hi _ u (conj Hhi Hnodes) Hlo Hru)
        as Huin.
      destruct (lookup_lt_is_Some_2 (heap t) u) as [un Hun]; [lia|].
      by destruct (Hnodes u un Huin Hun) as (Hud & _).
Qed.

(** * The properties of the interface *)

Section finished_tree.
Variable text : list Z.
Hypothesis text_valid : valid_text text.

(** The finished tree of a valid text. *)
Lemma built (F : nat) :
  3 * strlen text < Z.of_nat F →
  ∃ t g, build text F = Done t ∧ suffix_tree text g t
    ∧ Forall alphabet text ∧ 0 < strlen text
    ∧ length (steps t) = length text
    ∧ Forall (λ s, ∃ lo hi, (lo ≤ snapshotRoot s < hi)%nat
                     ∧ snapshot_range g (heap t) lo hi) (steps t).
Proof.
  intros HF. destruct (build_valid text text_valid F HF) as (t & g & ? & ? & ? & ?).
  exists t, g. pose proof (valid_strlen text text_valid).
  split_and!; auto; [by apply valid_alphabet|lia].
Qed.
End finished_tree.

(** C1. For a valid text and every pattern [p], [findAllMatches(p)] on
    the finished tree is the list of all positions [i] with
    [text[i .. i + len p) = p], in ascending order and without
    duplicates; it is empty when [p] does not occur. *)
Theorem findAllMatches_occurrences (text p : list Z) (fuel : nat) :
  valid_text text → 3 * strlen text + strlen p < Z.of_nat fuel →
  run text fuel (λ tx t f, findAllMatches tx t f p) = Done (occurrences text p)
  ∧ StronglySorted Z.lt (occurrences text p)
  ∧ (∀ i, i ∈ occurrences text p ↔
          0 ≤ i < strlen text ∧ substring text i (i + strlen p) = p
          ∧ i + strlen p ≤ strlen text)
  ∧ (¬ is_substring text p → occurrences text p = []).
Proof.
  intros Hv Hf. pose proof (strlen_nonneg p). pose proof (strlen_nonneg text).
  destruct (built text Hv fuel) as (t & g & Hb & Hst & Ha & Hne & _); [lia|].
  split_and!.
  - unfold run. rewrite Hb. cbn [mbind outcome_bind bind].
    apply (findAllMatches_ok text Ha Hne g t Hst); lia.
  - apply occurrences_sorted.
  - intros i. apply elem_of_occurrences.
  - intros Hno. destruct (occurrences text p) as [|i l] eqn:Ho; [done|].
    destruct Hno. assert (occurs_at text p i) as (Hi & Hs & Hbd).
    { apply elem_of_occurrences. rewrite Ho. by left. }
    exists i. split_and!; auto; lia.
Qed.

(** C2. For a valid text, [search(s)] on the finished tree returns for
    every string [s], whatever its symbols: [true] when [s] is a substring
    of the text, [false] when it is not. *)
Theorem search_substring (text s : list Z) (fuel : nat) :
  valid_text text → 3 * strlen text + strlen s < Z.of_nat fuel →
  ∃ b, run text fuel (λ tx t f, search tx t f s) = Done b
    ∧ (is_substring text s → b = true)
    ∧ (¬ is_substring text s → b = false).
Proof.
  intros Hv Hf. pose proof (strlen_nonneg s). pose proof (strlen_nonneg text).
  destruct (built text Hv fuel) as (t & g & Hb & Hst & Ha & Hne & _); [lia|].
  destruct (search_ok text Ha g t Hst fuel s) as (b & Hrun & Hiff); [lia|].
  exists b. split_and!.
  - unfold run. rewrite Hb. cbn [mbind outcome_bind bind]. exact Hrun.
  - apply Hiff.
  - intros Hno. destruct b; [|done]. destruct Hno. by apply Hiff.
Qed.

(** C10. For a valid text, the empty pattern is found: [search("")] is
    [true], and [findAllMatches("")] is the list of all positions
    [0 .. strlen text - 1], the position of the terminal included. *)
Theorem empty_pattern (text : list Z) (fuel : nat) :
  valid_text text → 3 * strlen text < Z.of_nat fuel →
  run text fuel (λ tx t f, search tx t f []) = Done true
  ∧ run text fuel (λ tx t f, findAllMatches tx t f []) = Done (seqZ 0 (strlen text)).
Proof.
  intros Hv Hf. pose proof (strlen_nonneg text).
  destruct (built text Hv fuel) as (t & g & Hb & Hst & Ha & Hne & _); [lia|].
  unfold run. rewrite Hb. cbn [mbind outcome_bind bind]. split.
  - destruct fuel; [simpl in Hf; lia|]. reflexivity.
  - rewrite (findAllMatches_ok text Ha Hne g t Hst);
      [|lia|replace (strlen []) with 0 by done; lia].
    f_equal. apply occurrences_empty.
Qed.

(** C4. The finished tree of a valid text has one leaf for every suffix:
    the suffix indices of its leaves are, each once, the positions
    [0 .. strlen text - 1] (so there are [strlen text] leaves), and every
    node with a child, other than the root, has two children or more. *)
Theorem leaves_cover_suffixes (text : list Z) (fuel : nat) :
  valid_text text → 3 * strlen text < Z.of_nat fuel →
  ∃ t, build text fuel = Done t
    ∧ (∃ ls, NoDup ls ∧ (∀ v, v ∈ ls ↔ is_leaf t v)
         ∧ length ls = length text
         ∧ suffixIndex_of t <$> ls ≡ₚ seqZ 0 (strlen text))
    ∧ (∀ v n, reach (heap t) (root t) v → v ≠ root t →
         heap t !! v = Some n → children n ≠ ∅ → 2 ≤ childCount n).
Proof.
  intros Hv Hf.
  destruct (built text Hv fuel) as (t & g & Hb & Hst & Ha & Hne & _); [lia|].
  exists t. split; [done|]. split.
  - destruct (leaves_suffixes text Ha Hne g t Hst) as (ls & Hnd & Hls & Hperm).
    exists ls. split_and!; auto.
    apply Permutation_length in Hperm.
    rewrite length_fmap, length_seqZ in Hperm. unfold strlen in Hperm. lia.
  - rewrite (st_root Hst). apply (branching text Ha g t Hst).
Qed.

(** C6. For a valid text, [longestRepeatedSubstring()] returns a string
    [r]: unless it is empty, [r] occurs at two positions; no string that
    occurs at two positions is longer, and among those of its length [r]
    is the first in the order of the slots; [r] is empty exactly when no
    string other than the empty one occurs at two positions. *)
Theorem longestRepeatedSubstring_spec (text : list Z) (fuel : nat) :
  valid_text text → 3 * strlen text < Z.of_nat fuel →
  ∃ r, run text fuel (λ tx t f, longestRepeatedSubstring tx t f) = Done r
    ∧ (r ≠ [] → ∃ i j, i ≠ j ∧ occurs_at text r i ∧ occurs_at text r j)
    ∧ (∀ s i j, i ≠ j → occurs_at text s i → occurs_at text s j →
         strlen s ≤ strlen r ∧ (strlen s = strlen r → idx_le r s))
    ∧ (r = [] ↔ ∀ s i j, i ≠ j → occurs_at text s i → occurs_at text s j →
                  s = []).
Proof.
  intros Hv Hf. pose proof (strlen_nonneg text).
  destruct (built text Hv fuel) as (t & g & Hb & Hst & Ha & Hne & _); [lia|].
  destruct (longestRepeatedSubstring_ok text Ha Hne g t Hst fuel)
    as (r & Hrun & Hrep & Hmax); [lia|].
  exists r. split; [|split; [exact Hrep|split; [exact Hmax|split]]].
  - unfold run. rewrite Hb. cbn [mbind outcome_bind bind]. exact Hrun.
  - intros -> s i j Hij Hi Hj. destruct (Hmax s i j Hij Hi Hj) as [Hlen _].
    destruct s; [done|]. unfold strlen in Hlen. simpl in Hlen. lia.
  - intros Hnone. destruct r as [|c r]; [done|exfalso].
    destruct Hrep as (i & j & Hij & Hi & Hj); [done|].
    by pose proof (Hnone _ i j Hij Hi Hj).
Qed.

(** C8. For a valid text the construction returns: over all the phases
    the loop of [extendSuffixTree] runs at most [3 * strlen text] times,
    and [new SuffixTree(text)] yields a tree. *)
Theorem construction_terminates (text : list Z) (fuel : nat) :
  valid_text text → 3 * strlen text < Z.of_nat fuel →
  (∃ t fuel_left, buildSuffixTreeStepByStep text fuel = Done (t, fuel_left)
     ∧ Z.of_nat fuel - Z.of_nat fuel_left ≤ 3 * strlen text)
  ∧ ∃ t, build text fuel = Done t.
Proof.
  intros Hv Hf. pose proof (valid_alphabet text Hv) as Ha. split.
  - destruct (buildSteps_ok text Ha fuel) as (t & fl & Hb & g & Hbd & _); [lia|].
    exists t, fl. split; [done|].
    pose proof (bd_core Hbd) as Hc. pose proof (co_fuel Hc) as Hfu.
    pose proof (co_al Hc). pose proof (co_j Hc). pose proof (bd_rem Hbd).
    lia.
  - destruct (built text Hv fuel) as (t & g & Hb & _); [lia|]. eauto.
Qed.

(** C3, as the code has it.  [new SuffixTree(text)] checks nothing: for
    every text of symbols of the alphabet, wherever and however often the
    terminal occurs in it, the construction returns a tree, with one
    snapshot for each position. *)
Theorem build_accepts_alphabet (text : list Z) (fuel : nat) :
  Forall alphabet text → 3 * strlen text < Z.of_nat fuel →
  ∃ t, build text fuel = Done t ∧ length (steps t) = length text.
Proof.
  intros Ha Hf.
  destruct (build_ok text Ha fuel Hf)
    as (t & g & j & fl & Hb & _ & _ & _ & _ & _ & _ & Hst & _).
  eauto.
Qed.

(** C9, in the copy of the class whose [recordStep] clones with
    [cloneNode].  Every round of the loop of
    [buildSuffixTreeStepByStep()] adds one record, so the finished tree of
    a valid text holds one snapshot for each position of the text.  The
    snapshot of a round is a copy of the tree of that moment in fresh
    nodes, which leaves the nodes of the tree as they are: node by node
    the numbers and the children of the slots are copied.  The suffix
    links are not remapped: the suffix link of a copy is the reference of
    its original.  So in the finished tree the nodes reached from the
    root of a snapshot are not nodes of the tree, and every suffix link
    stored in them leads to a node of the tree, never to a node of the
    snapshot.  The copy of the class that clones with
    [cloneTreeWithSuffixLinks] looks the link up among the clones. *)
Theorem snapshots_spec (text : list Z) (fuel : nat) :
  valid_text text → 3 * strlen text < Z.of_nat fuel →
  (∃ t, build text fuel = Done t
     ∧ length (steps t) = length text
     ∧ ∀ s v n, s ∈ steps t → reach (heap t) (snapshotRoot s) v →
         heap t !! v = Some n →
         ¬ reach (heap t) (root t) v
         ∧ ∀ u, suffixLink n = Some u →
             reach (heap t) (root t) u ∧ ¬ reach (heap t) (snapshotRoot s) u)
  ∧ ∀ k, (k < length text)%nat →
      ∃ t fl t1 fl1 t2 s,
        phases text fuel k = Done (t, fl)
        ∧ extendSuffixTree text fl (Z.of_nat k) t = Done (t1, fl1)
        ∧ recordStep fuel (char_at text (Z.of_nat k), Z.of_nat k) t1 = Done t2
        ∧ phases text fuel (S k) = Done (t2, fl1)
        ∧ steps t1 = steps t ∧ steps t2 = steps t1 ++ [s]
        ∧ (∀ u, (u < length (heap t1))%nat → heap t2 !! u = heap t1 !! u)
        ∧ mirror fuel (heap t1) (heap t2) (length (heap t1)) (length (heap t2))
            (root t1) (snapshotRoot s).
Proof.
  intros Hv Hf. split.
  - destruct (built text Hv fuel) as (t & g & Hb & Hst & Ha & Hne & Hlen & Hsn);
      [lia|].
    exists t. split_and!; auto. by apply (snapshot_nodes text g t).
  - intros k Hk. apply phase_snapshot; [by apply valid_alphabet|lia|done].
Qed.

(** ** Concrete texts *)

Lemma valid_text_str (body : list Z) :
  forallb (λ c, bool_decide (CODE_A ≤ c ≤ CODE_Z)) body = true →
  valid_text (body ++ [DOLLAR]).
Proof.
  intros Hb. exists body. split; [done|]. apply Forall_forall. intros c Hc.
  rewrite forallb_forall in Hb. apply list_elem_of_In in Hc.
  specialize (Hb c Hc). by apply bool_decide_eq_true in Hb.
Qed.

Lemma valid_BANANA : valid_text (str "BANANA$"%string).
Proof. apply (valid_text_str (str "BANANA"%string)). reflexivity. Qed.

Lemma valid_AA : valid_text (str "AA$"%string).
Proof. apply (valid_text_str (str "AA"%string)). reflexivity. Qed.

(** C7. On the valid text [AA$] the two variants of
    [shortestUniqueSubstring()] return different strings: the one that
    enumerates the substrings returns [AA], the one that walks the tree
    returns [A]. *)
Theorem sus_variants_differ :
  ∃ text r1 r2, valid_text text
    ∧ run text 20 (λ tx t f, shortestUniqueSubstring tx t f) = Done r1
    ∧ run text 20 (λ tx t f, shortestUniqueSubstring_dfs tx t f) = Done r2
    ∧ r1 ≠ r2.
Proof.
  exists (str "AA$"%string), (str "AA"%string), (str "A"%string).
  split; [exact valid_AA|]. split; [vm_compute; reflexivity|].
  split; [vm_compute; reflexivity|]. discriminate.
Qed.

(** C5, on the text [BANANA$]: the variant of
    [shortestUniqueSubstring()] that walks the tree returns [A], which
    occurs at three positions; the variant that enumerates the substrings
    returns [B], which occurs once. *)
Theorem sus_dfs_not_unique :
  run (str "BANANA$"%string) 30 (λ tx t f, shortestUniqueSubstring_dfs tx t f)
  = Done (str "A"%string)
  ∧ occurrences (str "BANANA$"%string) (str "A"%string) = [1; 3; 5]
  ∧ run (str "BANANA$"%string) 30 (λ tx t f, shortestUniqueSubstring tx t f)
    = Done (str "B"%string)
  ∧ occurrences (str "BANANA$"%string) (str "B"%string) = [0].
Proof. split_and!; vm_compute; reflexivity. Qed.

(** C3, counterexample: the texts [A$B], with the terminal in the
    middle, and [a$], with a symbol outside the alphabet, are no valid
    texts, and [new SuffixTree] returns a tree for them, with its
    snapshots. *)
Lemma build_accepts_malformed :
  (∃ t, build (str "A$B"%string) 10 = Done t ∧ length (steps t) = 3%nat)
  ∧ (∃ t, build (str "a$"%string) 10 = Done t ∧ length (steps t) = 2%nat)
  ∧ ¬ valid_text (str "A$B"%string) ∧ ¬ valid_text (str "a$"%string).
Proof.
  split_and!.
  - eexists. split; [vm_compute; reflexivity|reflexivity].
  - eexists. split; [vm_compute; reflexivity|reflexivity].
  - intros (body & Heq & _). apply (f_equal last) in Heq.
    rewrite last_snoc in Heq. discriminate Heq.
  - intros (body & Heq & Hb). destruct body as [|c [|c' body]].
    + discriminate Heq.
    + injection Heq as <-. apply Forall_inv in Hb.
      unfold CODE_A, CODE_Z in Hb. vm_compute in Hb. intuition congruence.
    + apply (f_equal length) in Heq. simpl in Heq. rewrite length_app in Heq.
      simpl in Heq. lia.
Qed.

(** C9, on the text [AA$]: in the last snapshot, the copy of the node of
    [A] has the root of the tree as its suffix link, and the root is no
    node of the snapshot. *)
Lemma snapshot_link_into_tree :
  ∃ t s c cn, build (str "AA$"%string) 20 = Done t
    ∧ steps t !! 2%nat = Some s
    ∧ reach (heap t) (snapshotRoot s) c
    ∧ heap t !! c = Some cn
    ∧ suffixLink cn = Some (root t)
    ∧ ¬ reach (heap t) (snapshotRoot s) (root t).
Proof.
  destruct (built (str "AA$"%string) valid_AA 20)
    as (t & g & Hb & Hst & _ & _ & _ & Hsn); [vm_compute; reflexivity|].
  vm_compute in Hb. injection Hb as <-.
  eexists _, _, 10%nat, _. split; [vm_compute; reflexivity|].
  split; [reflexivity|]. split_and!.
  - eapply (reach_child _ _ 9%nat _ 0 10%nat); [constructor|reflexivity..].
  - reflexivity.
  - reflexivity.
  - eapply (snapshot_nodes _ g _ Hst Hsn _ 10%nat); [|
      eapply (reach_child _ _ 9%nat _ 0 10%nat); [constructor|reflexivity..]
      |reflexivity|reflexivity].
    apply list_elem_of_lookup. by exists 2%nat.
Qed.

Lemma alphabet_str (l : list Z) :
  forallb (λ c, bool_decide (c = DOLLAR ∨ CODE_A ≤ c ≤ CODE_Z)) l = true →
  Forall alphabet l.
Proof.
  intros Hb. apply Forall_forall. intros c Hc.
  rewrite forallb_forall in Hb. apply list_elem_of_In in Hc.
  specialize (Hb c Hc). by apply bool_decide_eq_true in Hb.
Qed.

(** ** The theorems at concrete texts *)

(** [findAllMatches("ANA")] on the tree of [BANANA$] is [[1, 3]]. *)
Lemma findAllMatches_occurrences_witness :
  valid_text (str "BANANA$"%string)
  ∧ 3 * strlen (str "BANANA$"%string) + strlen (str "ANA"%string) < Z.of_nat 30
  ∧ run (str "BANANA$"%string) 30
      (λ tx t f, findAllMatches tx t f (str "ANA"%string)) = Done [1; 3].
Proof.
  assert (3 * strlen (str "BANANA$"%string) + strlen (str "ANA"%string)
          < Z.of_nat 30) as Hf by (vm_compute; reflexivity).
  split; [exact valid_BANANA|]. split; [exact Hf|].
  rewrite (proj1 (findAllMatches_occurrences _ _ 30 valid_BANANA Hf)).
  vm_compute. reflexivity.
Defined.

(** [search("ANA")] on the tree of [BANANA$]. *)
Lemma search_substring_witness :
  valid_text (str "BANANA$"%string)
  ∧ 3 * strlen (str "BANANA$"%string) + strlen (str "ANA"%string) < Z.of_nat 30
  ∧ ∃ b, run (str "BANANA$"%string) 30
           (λ tx t f, search tx t f (str "ANA"%string)) = Done b
      ∧ (is_substring (str "BANANA$"%string) (str "ANA"%string) → b = true)
      ∧ (¬ is_substring (str "BANANA$"%string) (str "ANA"%string) → b = false).
Proof.
  assert (3 * strlen (str "BANANA$"%string) + strlen (str "ANA"%string)
          < Z.of_nat 30) as Hf by (vm_compute; reflexivity).
  split; [exact valid_BANANA|]. split; [exact Hf|].
  exact (search_substring _ _ 30 valid_BANANA Hf).
Defined.

(** The empty pattern on the tree of [AA$]. *)
Lemma empty_pattern_witness :
  valid_text (str "AA$"%string)
  ∧ 3 * strlen (str "AA$"%string) < Z.of_nat 20
  ∧ run (str "AA$"%string) 20 (λ tx t f, search tx t f []) = Done true
  ∧ run (str "AA$"%string) 20 (λ tx t f, findAllMatches tx t f [])
    = Done [0; 1; 2].
Proof.
  assert (3 * strlen (str "AA$"%string) < Z.of_nat 20) as Hf
    by (vm_compute; reflexivity).
  split; [exact valid_AA|]. split; [exact Hf|].
  exact (empty_pattern _ 20 valid_AA Hf).
Defined.

(** The leaves of the tree of [BANANA$]. *)
Lemma leaves_cover_suffixes_witness :
  valid_text (str "BANANA$"%string)
  ∧ 3 * strlen (str "BANANA$"%string) < Z.of_nat 30
  ∧ ∃ t, build (str "BANANA$"%string) 30 = Done t
      ∧ (∃ ls, NoDup ls ∧ (∀ v, v ∈ ls ↔ is_leaf t v)
           ∧ length ls = 7%nat
           ∧ suffixIndex_of t <$> ls ≡ₚ [0; 1; 2; 3; 4; 5; 6])
      ∧ (∀ v n, reach (heap t) (root t) v → v ≠ root t →
           heap t !! v = Some n → children n ≠ ∅ → 2 ≤ childCount n).
Proof.
  assert (3 * strlen (str "BANANA$"%string) < Z.of_nat 30) as Hf
    by (vm_compute; reflexivity).
  split; [exact valid_BANANA|]. split; [exact Hf|].
  exact (leaves_cover_suffixes _ 30 valid_BANANA Hf).
Defined.

(** [longestRepeatedSubstring()] on the tree of [BANANA$]. *)
Lemma longestRepeatedSubstring_spec_witness :
  valid_text (str "BANANA$"%string)
  ∧ 3 * strlen (str "BANANA$"%string) < Z.of_nat 30
  ∧ ∃ r, run (str "BANANA$"%string) 30
           (λ tx t f, longestRepeatedSubstring tx t f) = Done r
      ∧ (r ≠ [] → ∃ i j, i ≠ j ∧ occurs_at (str "BANANA$"%string) r i
                         ∧ occurs_at (str "BANANA$"%string) r j)
      ∧ (∀ s i j, i ≠ j → occurs_at (str "BANANA$"%string) s i →
           occurs_at (str "BANANA$"%string) s j →
           strlen s ≤ strlen r ∧ (strlen s = strlen r → idx_le r s))
      ∧ (r = [] ↔ ∀ s i j, i ≠ j → occurs_at (str "BANANA$"%string) s i →
                    occurs_at (str "BANANA$"%string) s j → s = []).
Proof.
  assert (3 * strlen (str "BANANA$"%string) < Z.of_nat 30) as Hf
    by (vm_compute; reflexivity).
  split; [exact valid_BANANA|]. split; [exact Hf|].
  exact (longestRepeatedSubstring_spec _ 30 valid_BANANA Hf).
Defined.

(** The construction of the tree of [BANANA$]. *)
Lemma construction_terminates_witness :
  valid_text (str "BANANA$"%string)
  ∧ 3 * strlen (str "BANANA$"%string) < Z.of_nat 30
  ∧ (∃ t fuel_left,
       buildSuffixTreeStepByStep (str "BANANA$"%string) 30 = Done (t, fuel_left)
       ∧ Z.of_nat 30 - Z.of_nat fuel_left ≤ 3 * strlen (str "BANANA$"%string))
  ∧ ∃ t, build (str "BANANA$"%string) 30 = Done t.
Proof.
  assert (3 * strlen (str "BANANA$"%string) < Z.of_nat 30) as Hf
    by (vm_compute; reflexivity).
  split; [exact valid_BANANA|]. split; [exact Hf|].
  exact (construction_terminates _ 30 valid_BANANA Hf).
Defined.

(** The construction for the text [A$B]. *)
Lemma build_accepts_alphabet_witness :
  Forall alphabet (str "A$B"%string)
  ∧ 3 * strlen (str "A$B"%string) < Z.of_nat 10
  ∧ ∃ t, build (str "A$B"%string) 10 = Done t
      ∧ length (steps t) = length (str "A$B"%string).
Proof.
  assert (Forall alphabet (str "A$B"%string)) as Ha
    by (apply alphabet_str; reflexivity).
  assert (3 * strlen (str "A$B"%string) < Z.of_nat 10) as Hf
    by (vm_compute; reflexivity).
  split; [exact Ha|]. split; [exact Hf|].
  exact (build_accepts_alphabet _ 10 Ha Hf).
Defined.

(** The snapshots of the tree of [AA$]. *)
Lemma snapshots_spec_witness :
  valid_text (str "AA$"%string)
  ∧ 3 * strlen (str "AA$"%string) < Z.of_nat 20
  ∧ (∃ t, build (str "AA$"%string) 20 = Done t
       ∧ length (steps t) = 3%nat
       ∧ ∀ s v n, s ∈ steps t → reach (heap t) (snapshotRoot s) v →
           heap t !! v = Some n →
           ¬ reach (heap t) (root t) v
           ∧ ∀ u, suffixLink n = Some u →
               reach (heap t) (root t) u
               ∧ ¬ reach (heap t) (snapshotRoot s) u)
  ∧ ∀ k, (k < 3)%nat →
      ∃ t fl t1 fl1 t2 s,
        phases (str "AA$"%string) 20 k = Done (t, fl)
        ∧ extendSuffixTree (str "AA$"%string) fl (Z.of_nat k) t = Done (t1, fl1)
        ∧ recordStep 20 (char_at (str "AA$"%string) (Z.of_nat k), Z.of_nat k) t1
          = Done t2
        ∧ phases (str "AA$"%string) 20 (S k) = Done (t2, fl1)
        ∧ steps t1 = steps t ∧ steps t2 = steps t1 ++ [s]
        ∧ (∀ u, (u < length (heap t1))%nat → heap t2 !! u = heap t1 !! u)
        ∧ mirror 20 (heap t1) (heap t2) (length (heap t1)) (length (heap t2))
            (root t1) (snapshotRoot s).
Proof.
  assert (3 * strlen (str "AA$"%string) < Z.of_nat 20) as Hf
    by (vm_compute; reflexivity).
  split; [exact valid_AA|]. split; [exact Hf|].
  exact (snapshots_spec _ 20 valid_AA Hf).
Defined.

(** ** The shortest unique substring, by enumeration *)

Lemma lex_leb_total (a : list Z) : ∀ b, lex_leb a b = true ∨ lex_leb b a = true.
Proof.
  induction a as [|x a IH]; intros [|y b]; simpl; auto.
  destruct (decide (x < y)); [by left|].
  destruct (decide (y < x)); [by right|].
  rewrite !decide_True by lia. apply IH.
Qed.

Lemma lex_leb_trans (a : list Z) :
  ∀ b c, lex_leb a b = true → lex_leb b c = true → lex_leb a c = true.
Proof.
  induction a as [|x a IH]; intros [|y b] [|z c]; simpl; try done.
  intros H1 H2. repeat case_decide; subst; try done; try lia. by eapply IH.
Qed.

#[global] Instance lex_le_total : Total lex_le.
Proof. intros a b. apply lex_leb_total. Qed.

#[global] Instance lex_le_trans : Transitive lex_le.
Proof. intros a b c. apply lex_leb_trans. Qed.

(** [candidates.sort()] puts the least candidate first. *)
Lemma sort_head (cs : list (list Z)) :
  cs ≠ [] →
  ∃ r, head (merge_sort lex_le cs) = Some r ∧ r ∈ cs ∧ ∀ s, s ∈ cs → lex_le r s.
Proof.
  intros Hne.
  pose proof (StronglySorted_merge_sort lex_le cs) as Hs.
  pose proof (merge_sort_Permutation lex_le cs) as Hp.
  destruct (merge_sort lex_le cs) as [|r l].
  - symmetry in Hp. by apply Permutation_nil_r in Hp.
  - exists r. split; [done|]. split.
    + rewrite <- Hp. by left.
    + intros s Hin. rewrite <- Hp in Hin.
      apply StronglySorted_inv in Hs as [_ Hall].
      apply elem_of_cons in Hin as [->|Hin]; [apply lex_leb_refl|].
      rewrite Forall_forall in Hall. by apply Hall.
Qed.

Section sus.
Variable text : list Z.
Hypothesis text_alphabet : Forall alphabet text.
Hypothesis text_nonempty : 0 < strlen text.
Variables (g : ghost) (t : SuffixTree).
Hypothesis Hst : suffix_tree text g t.
Variable fuel : nat.
Hypothesis Hfuel : strlen text < Z.of_nat fuel.

Lemma unique_bound s : unique_in text s → 1 ≤ strlen s ≤ strlen text.
Proof.
  intros (Hne & _ & i & Hi).
  assert (occurs_at text s i) as (? & _ & ?).
  { apply elem_of_occurrences. rewrite Hi. by left. }
  destruct s; [done|]. unfold strlen in *. simpl in *. lia.
Qed.

(** The candidates of one length are the unique substrings of that
    length. *)
Lemma unique_candidates_ok len :
  1 ≤ len ≤ strlen text →
  ∃ cs, unique_candidates text t fuel len = Done cs
    ∧ ∀ s, s ∈ cs ↔ strlen s = len ∧ unique_in text s.
Proof.
  intros Hlen. unfold unique_candidates.
  match goal with |- context [foldM ?f _ _] => set (B := f) end.
  set (f := λ i, substring text i (i + len)).
  set (P := λ c : list Z, (DOLLAR ∉ c) ∧ length (occurrences text c) = 1%nat).
  assert (∀ l acc, (∀ i, i ∈ l → 0 ≤ i ∧ i + len ≤ strlen text) →
            foldM B acc l = Done (acc ++ filter P (f <$> l))) as Hfold.
  { induction l as [|i l IH]; intros acc Hl.
    { simpl. by rewrite app_nil_r. }
    destruct (Hl i) as [Hi0 Hi1]; [by left|].
    cbn [foldM]. set (X := B acc i). unfold B in X. subst X. cbn beta zeta.
    fold (f i). rewrite fmap_cons, filter_cons. unfold includes_dollar.
    destruct (decide (DOLLAR ∈ f i)) as [Hd|Hd].
    - rewrite bool_decide_true by done. cbn [mbind outcome_bind bind].
      rewrite decide_False by (by intros [? _]).
      apply IH. intros i' Hi'. apply Hl. by right.
    - rewrite bool_decide_false by done.
      rewrite (findAllMatches_ok text text_alphabet text_nonempty g t Hst);
        [|lia|unfold f; rewrite strlen_substring by lia; lia].
      cbn [mbind outcome_bind bind].
      destruct (decide (length (occurrences text (f i)) = 1%nat)) as [Ho|Ho];
        cbn [mbind outcome_bind bind].
      + rewrite decide_True by (by split). rewrite IH.
        * by rewrite <- app_assoc.
        * intros i' Hi'. apply Hl. by right.
      + rewrite decide_False by (by intros [_ ?]).
        apply IH. intros i' Hi'. apply Hl. by right. }
  rewrite Hfold.
  2:{ intros i Hi%elem_of_seqZ. lia. }
  eexists. split; [done|]. intros s. simpl.
  rewrite list_elem_of_filter, list_elem_of_fmap. unfold P, f. split.
  - intros ((Hd & Ho) & i & -> & Hi%elem_of_seqZ).
    split; [rewrite strlen_substring by lia; lia|].
    split_and!; auto.
    + intros Hnil. apply (f_equal strlen) in Hnil.
      rewrite strlen_substring in Hnil by lia.
      replace (strlen []) with 0 in Hnil by done. lia.
    + destruct (occurrences text _) as [|j [|? ?]]; simpl in Ho; try lia. eauto.
  - intros (Hl & Hne & Hd & i & Hi). split; [by rewrite Hi|].
    assert (occurs_at text s i) as (Hi0 & Hsub & Hb).
    { apply elem_of_occurrences. rewrite Hi. by left. }
    exists i. rewrite Hl in Hsub, Hb. split; [done|].
    apply elem_of_seqZ. lia.
Qed.

Lemma sus_lengths_ok (m : nat) :
  ∀ a, 1 ≤ a → a + Z.of_nat m = strlen text + 1 →
    (∀ s, unique_in text s → a ≤ strlen s) →
    ∃ r, sus_lengths text t fuel (seqZ a (Z.of_nat m)) = Done r
      ∧ (r ≠ [] → unique_in text r)
      ∧ (∀ s, unique_in text s →
           r ≠ [] ∧ strlen r ≤ strlen s
           ∧ (strlen s = strlen r → lex_le r s)).
Proof.
  induction m as [|m IH]; intros a Ha Ham Hlow.
  { rewrite seqZ_nil by lia. exists []. split; [done|]. split; [done|].
    intros s Hs. pose proof (Hlow s Hs). pose proof (unique_bound s Hs). lia. }
  rewrite seqZ_cons by lia.
  replace (Z.pred (Z.of_nat (S m))) with (Z.of_nat m) by lia.
  cbn [sus_lengths].
  destruct (unique_candidates_ok a) as (cs & -> & Hcs); [lia|].
  cbn [mbind outcome_bind bind].
  destruct cs as [|c cs].
  - apply IH; [lia..|]. intros s Hs. pose proof (Hlow s Hs).
    destruct (decide (strlen s = a)) as [Heq|]; [|lia].
    assert (s ∈ ([] : list (list Z))) as Hin by (by apply Hcs).
    by apply elem_of_nil in Hin.
  - destruct (sort_head (c :: cs)) as (r & Hhd & Hin & Hmin); [done|].
    rewrite Hhd. simpl. apply Hcs in Hin as [Hrl Hru].
    exists r. split; [done|]. split; [done|].
    intros s Hs. pose proof (Hlow s Hs). split_and!.
    + apply Hru.
    + lia.
    + intros Heq. apply Hmin. apply Hcs. split; [lia|done].
Qed.

(** The variant of [shortestUniqueSubstring()] that enumerates the
    substrings returns the least of the shortest unique substrings, and
    the empty string when there is none. *)
Lemma shortestUniqueSubstring_ok :
  ∃ r, shortestUniqueSubstring text t fuel = Done r
    ∧ (r ≠ [] → unique_in text r)
    ∧ (∀ s, unique_in text s →
         r ≠ [] ∧ strlen r ≤ strlen s ∧ (strlen s = strlen r → lex_le r s)).
Proof.
  unfold shortestUniqueSubstring.
  replace (strlen text) with (Z.of_nat (length text)) at 1 by done.
  apply sus_lengths_ok; [lia|unfold strlen; lia|].
  intros s Hs. pose proof (unique_bound s Hs). lia.
Qed.
End sus.

(** For a valid text, the variant of [shortestUniqueSubstring()] that
    enumerates the substrings returns a string [r]: unless it is empty,
    [r] is not empty, has no terminal and occurs at one position only; no
    such string is shorter, and among those of its length [r] is the
    first; [r] is empty only when there is no such string. *)
Theorem shortestUniqueSubstring_spec (text : list Z) (fuel : nat) :
  valid_text text → 3 * strlen text < Z.of_nat fuel →
  ∃ r, run text fuel (λ tx t f, shortestUniqueSubstring tx t f) = Done r
    ∧ (r ≠ [] → unique_in text r)
    ∧ (∀ s, unique_in text s →
         r ≠ [] ∧ strlen r ≤ strlen s ∧ (strlen s = strlen r → lex_le r s)).
Proof.
  intros Hv Hf. pose proof (strlen_nonneg text).
  destruct (built text Hv fuel) as (t & g & Hb & Hst & Ha & Hne & _); [lia|].
  destruct (shortestUniqueSubstring_ok text Ha Hne g t Hst fuel)
    as (r & Hrun & Hr); [lia|].
  exists r. split; [|exact Hr].
  unfold run. rewrite Hb. cbn [mbind outcome_bind bind]. exact Hrun.
Qed.

(** [shortestUniqueSubstring()], by enumeration, on the tree of
    [BANANA$]. *)
Lemma shortestUniqueSubstring_spec_witness :
  valid_text (str "BANANA$"%string)
  ∧ 3 * strlen (str "BANANA$"%string) < Z.of_nat 30
  ∧ ∃ r, run (str "BANANA$"%string) 30
           (λ tx t f, shortestUniqueSubstring tx t f) = Done r
      ∧ (r ≠ [] → unique_in (str "BANANA$"%string) r)
      ∧ (∀ s, unique_in (str "BANANA$"%string) s →
           r ≠ [] ∧ strlen r ≤ strlen s
           ∧ (strlen s = strlen r → lex_le r s)).
Proof.
  assert (3 * strlen (str "BANANA$"%string) < Z.of_nat 30) as Hf
    by (vm_compute; reflexivity).
  split; [exact valid_BANANA|]. split; [exact Hf|].
  exact (shortestUniqueSubstring_spec _ 30 valid_BANANA Hf).
Defined.

(** * Further properties of the code *)

(** ** The constructor, step by step *)

Section build_state.
Variable text : list Z.
Hypothesis text_alphabet : Forall alphabet text.
Variable F : nat.
Hypothesis HF : 3 * strlen text < Z.of_nat F.

(** [new SuffixTree(text)]: the state [t0] after the loop, with its
    invariant, and the heap [h'] after the suffix indices were set. *)
Lemma build_state :
  ∃ t0 fuel' g h',
    buildSuffixTreeStepByStep text F = Done (t0, fuel')
    ∧ boundary text g (strlen text) t0 F fuel'
    ∧ setSuffixIndexByDFS text F (strlen text - 1) (heap t0) 0%nat 0 = Done h'
    ∧ indexed text g (heap t0) (strlen text - 1) (heap t0) h'
    ∧ build text F = Done (with_heap h' t0).
Proof.
  destruct (buildSteps_ok text text_alphabet F)
    as (t & fuel' & Hb & g & Hbd & Hst & Hsn & Hq); [lia|].
  pose proof (bd_core Hbd) as Hc. pose proof (co_tree Hc) as Ht.
  pose proof (tr_wf Ht) as Hwf. destruct (wf_root Hwf) as (Hrl & _).
  destruct (setSuffixIndexByDFS_ok text text_alphabet g (heap t) (strlen text - 1)
              _ None Ht F (heap t) 0%nat)
    as (h' & Hdfs & HR & Hbel); auto.
  { apply indexed_refl. }
  { rewrite (dep_root Hwf). lia. }
  rewrite (dep_root Hwf) in Hdfs.
  exists t, fuel', g, h'. split_and!; auto.
  unfold build. rewrite Hb. cbn [mbind outcome_bind bind].
  rewrite (co_le Hc), (co_root Hc), Hdfs. done.
Qed.

(** Every suffix of the text can be read in the tree that the
    constructor returns. *)
Lemma build_words :
  ∃ t g, build text F = Done t ∧ word_tree text g t.
Proof.
  destruct build_state as (t0 & fuel' & g & h' & _ & Hbd & _ & HR & Hb).
  pose proof (bd_core Hbd) as Hc. pose proof (co_tree Hc) as Ht.
  pose proof (tr_wf Ht) as Hwf.
  pose proof (indexed_struct text g (heap t0) (strlen text - 1) _ _ HR) as Hss.
  exists (with_heap h' t0), g. split; [done|]. constructor; simpl.
  - apply (co_root Hc).
  - apply (co_le Hc).
  - by apply (wf_struct Hss).
  - intros a Ha.
    destruct (core_word Hc ltac:(lia) a Ha) as (c & Hcl & Hd & Hag).
    exists c. rewrite (dep_struct Hss). auto.
Qed.
End build_state.

(** ** Searching a text without a terminal *)

Section word_search.
Variable text : list Z.
Hypothesis text_alphabet : Forall alphabet text.
Variables (g : ghost) (t : SuffixTree).
Hypothesis Hwt : word_tree text g t.

Lemma word_search_ok (fuel : nat) (p : list Z) :
  strlen p ≤ Z.of_nat fuel →
  ∃ b, search text t fuel p = Done b ∧ (b = true ↔ is_substring text p).
Proof.
  intros Hf. pose proof (wt_wf Hwt) as Hwf.
  destruct (wf_root Hwf) as (H0 & Hhd0 & _).
  unfold search. rewrite search_loop_findNode, (wt_root Hwt).
  destruct (findNode_loop_ok text text_alphabet g t Hwf (wt_le Hwt) p fuel 0%nat 0)
    as (r & Hrun & Hpost); auto.
  { pose proof (strlen_nonneg p). lia. }
  { intros k Hk. simpl in Hk. unfold strlen in Hk. simpl in Hk. lia. }
  { intros _. by rewrite (dep_root Hwf). }
  { by rewrite (dep_root Hwf). }
  { lia. }
  rewrite Hrun. cbn [mbind outcome_bind bind].
  eexists. split; [done|].
  destruct r as [c|].
  - destruct Hpost as (Hc & _ & Hd & Hr & Hp).
    rewrite bool_decide_true by eauto. split; [intros _|done].
    apply is_substring_reads. exists (hd g c).
    destruct (dep_size text g t Hwf c Hc). split_and!; auto; lia.
  - rewrite bool_decide_false by (by intros [? ?]).
    split; [done|]. intros (i & Hi & Hb & Hrd)%is_substring_reads. exfalso.
    pose proof (strlen_nonneg p).
    destruct (wt_words Hwt i) as (c & Hc & Hd & Hag); [lia|].
    apply (Hpost c); auto.
    + by apply (anc_root Hwf).
    + lia.
    + intros k Hk. rewrite Hrd by done. symmetry. apply (agree_at Hag). lia.
Qed.
End word_search.

(** X2. For every text of symbols of the alphabet, with the terminal at
    its end, elsewhere or nowhere, the constructor returns a tree on which
    [search(s)] answers for every string [s] whether [s] is a substring
    of the text, within [len(s)] rounds of its outer loop, whatever the
    length of the text: the fuel of [search] counts these rounds. *)
Theorem search_any_text (text : list Z) (F : nat) :
  Forall alphabet text → 3 * strlen text < Z.of_nat F →
  ∃ t, build text F = Done t
    ∧ ∀ s fuel, strlen s ≤ Z.of_nat fuel →
        ∃ b, search text t fuel s = Done b
             ∧ (b = true ↔ is_substring text s).
Proof.
  intros Ha Hf.
  destruct (build_words text Ha F Hf) as (t & g & Hb & Hwt).
  exists t. split; [done|]. intros s fuel Hs.
  by apply (word_search_ok text Ha g t Hwt fuel s).
Qed.

(** [search] on the tree of [BANANA], a text without terminal. *)
Lemma search_any_text_witness :
  Forall alphabet (str "BANANA"%string)
  ∧ 3 * strlen (str "BANANA"%string) < Z.of_nat 20
  ∧ ∃ t, build (str "BANANA"%string) 20 = Done t
      ∧ ∀ s fuel, strlen s ≤ Z.of_nat fuel →
          ∃ b, search (str "BANANA"%string) t fuel s = Done b
               ∧ (b = true ↔ is_substring (str "BANANA"%string) s).
Proof.
  assert (Forall alphabet (str "BANANA"%string)) as Ha
    by (apply alphabet_str; reflexivity).
  assert (3 * strlen (str "BANANA"%string) < Z.of_nat 20) as Hf
    by (vm_compute; reflexivity).
  split; [exact Ha|]. split; [exact Hf|].
  exact (search_any_text _ 20 Ha Hf).
Defined.

(** ** [search] and [findAllMatches] *)

(** X3. On every tree object, however it was built, and for every
    pattern, [search] does what [_findNode] does: it returns [true] when
    [_findNode] returns a node, [false] when [_findNode] returns [null],
    and it throws when [_findNode] throws; so [findAllMatches] returns the
    empty list whenever [search] returns [false]. *)
Theorem search_is_findNode (text : list Z) (t : SuffixTree) (fuel : nat)
    (p : list Z) :
  search text t fuel p
  = (_findNode text t fuel p ≫= λ r, Done (bool_decide (is_Some r)))
  ∧ (search text t fuel p = Done false → findAllMatches text t fuel p = Done []).
Proof.
  assert (search text t fuel p
          = (_findNode text t fuel p ≫= λ r, Done (bool_decide (is_Some r))))
    as Heq by apply search_loop_findNode.
  split; [exact Heq|]. rewrite Heq. unfold findAllMatches.
  destruct (_findNode text t fuel p) as [[c|]| |]; simpl; done.
Qed.

Lemma occurrences_nil (text p : list Z) :
  0 < strlen text → occurrences text p = [] ↔ ¬ is_substring text p.
Proof.
  intros Hne. split.
  - intros Ho (i & Hi & Hb & Hs).
    destruct (decide (i < strlen text)) as [Hlt|Hge].
    + assert (i ∈ occurrences text p) as Hin.
      { apply elem_of_occurrences. split_and!; auto; lia. }
      rewrite Ho in Hin. by apply elem_of_nil in Hin.
    + pose proof (strlen_nonneg p).
      assert (strlen p = 0) as Hp by lia.
      assert (p = []) as -> by (destruct p; [done|unfold strlen in Hp; simpl in Hp; lia]).
      rewrite occurrences_empty in Ho. rewrite seqZ_cons in Ho by lia. done.
  - intros Hno. destruct (occurrences text p) as [|i l] eqn:Ho; [done|].
    destruct Hno. assert (occurs_at text p i) as (Hi & Hs & Hbd).
    { apply elem_of_occurrences. rewrite Ho. by left. }
    exists i. split_and!; auto; lia.
Qed.

(** X4. For a valid text, [search(p)] is [true] exactly when
    [findAllMatches(p)] is not empty. *)
Theorem search_iff_matches (text p : list Z) (fuel : nat) :
  valid_text text → 3 * strlen text + strlen p < Z.of_nat fuel →
  ∃ b r, run text fuel (λ tx t f, search tx t f p) = Done b
    ∧ run text fuel (λ tx t f, findAllMatches tx t f p) = Done r
    ∧ (b = true ↔ r ≠ []).
Proof.
  intros Hv Hf. pose proof (strlen_nonneg p). pose proof (strlen_nonneg text).
  destruct (built text Hv fuel) as (t & g & Hb & Hst & Ha & Hne & _); [lia|].
  destruct (search_ok text Ha g t Hst fuel p) as (b & Hrun & Hiff); [lia|].
  exists b, (occurrences text p). unfold run. rewrite Hb.
  cbn [mbind outcome_bind bind]. split; [exact Hrun|]. split.
  - apply (findAllMatches_ok text Ha Hne g t Hst); lia.
  - rewrite Hiff. split.
    + intros Hs Ho. by apply (occurrences_nil text p Hne) in Ho.
    + intros Ho. destruct (decide (occurrences text p = [])) as [He|He]; [done|].
      destruct b; [by apply Hiff|].
      destruct (occurrences text p) as [|i l] eqn:Hoc; [done|].
      assert (occurs_at text p i) as (Hi & Hs & Hbd).
      { apply elem_of_occurrences. rewrite Hoc. by left. }
      exists i. split_and!; auto; lia.
Qed.

(** [search("ANA")] and [findAllMatches("ANA")] on the tree of
    [BANANA$]. *)
Lemma search_iff_matches_witness :
  valid_text (str "BANANA$"%string)
  ∧ 3 * strlen (str "BANANA$"%string) + strlen (str "ANA"%string) < Z.of_nat 30
  ∧ ∃ b r, run (str "BANANA$"%string) 30
             (λ tx t f, search tx t f (str "ANA"%string)) = Done b
      ∧ run (str "BANANA$"%string) 30
          (λ tx t f, findAllMatches tx t f (str "ANA"%string)) = Done r
      ∧ (b = true ↔ r ≠ []).
Proof.
  assert (3 * strlen (str "BANANA$"%string) + strlen (str "ANA"%string)
          < Z.of_nat 30) as Hf by (vm_compute; reflexivity).
  split; [exact valid_BANANA|]. split; [exact Hf|].
  exact (search_iff_matches _ _ 30 valid_BANANA Hf).
Defined.

(** ** Path labels *)

Lemma char_at_drop (s : list Z) (n k : Z) :
  0 ≤ n → 0 ≤ k → char_at (drop (Z.to_nat n) s) k = char_at s (n + k).
Proof.
  intros Hn Hk. unfold char_at. rewrite !decide_True by lia.
  rewrite lookup_drop. f_equal. lia.
Qed.

Lemma strlen_drop (s : list Z) (n : Z) :
  0 ≤ n ≤ strlen s → strlen (drop (Z.to_nat n) s) = strlen s - n.
Proof. unfold strlen. intros Hn. rewrite length_drop. lia. Qed.

Section labels.
Variable text : list Z.
Hypothesis text_alphabet : Forall alphabet text.
Hypothesis text_nonempty : 0 < strlen text.
Variables (g : ghost) (t : SuffixTree).
Hypothesis Hst : suffix_tree text g t.

Local Abbreviation h := (heap t).
Local Abbreviation le := (strlen text - 1).
Local Abbreviation D := (dep g (heap t) (strlen text - 1)).

Lemma path_label_fun v s1 s2 :
  path_label text g t v s1 → path_label text g t v s2 → s1 = s2.
Proof.
  intros [Hl1 Hr1] [Hl2 Hr2]. apply str_eq_char_at; [lia|].
  intros k Hk. rewrite Hr1, Hr2 by lia. done.
Qed.

(** Two nodes with the same label are the same node. *)
Lemma path_label_inj v w s :
  live g v → live g w →
  path_label text g t v s → path_label text g t w s → v = w.
Proof.
  intros Hv Hw [Hl1 Hr1] [Hl2 Hr2]. pose proof (st_wf text g t Hst) as Hwf.
  assert (agree text (hd g v) (hd g w) (D v)) as Hag.
  { intros k Hk. rewrite <- Hr1, <- Hr2 by lia. done. }
  apply (anc_antisym Hwf); auto; [|lia].
  apply (prefix_anc Hwf); auto. lia.
Qed.

Lemma spells_path v s :
  spells text t v s → live g v ∧ path_label text g t v s.
Proof.
  pose proof (st_wf text g t Hst) as Hwf.
  induction 1 as [|p s pn i c cn _ [Hp Hs] Hpn Hc Hcn].
  - rewrite (st_root Hst). split; [apply (wf_root Hwf)|].
    split; [by rewrite (dep_root Hwf)|].
    intros k Hk. replace (strlen []) with 0 in Hk by done. lia.
  - split.
    + by destruct (wf_child Hwf p pn i c Hp Hpn Hc).
    + by apply (path_label_child text text_alphabet g t Hst p pn i c cn s).
Qed.

Lemma live_spells v : live g v → ∃ s, spells text t v s.
Proof.
  pose proof (st_wf text g t Hst) as Hwf. intros Hv.
  pose proof (anc_root Hwf v Hv) as Ha. remember 0%nat as r eqn:Hr.
  induction Ha as [r|r v Hv0 Ha IH]; subst r.
  - exists []. rewrite <- (st_root Hst). constructor.
  - destruct (IH (live_par Hwf v Hv Hv0) eq_refl) as [s Hs].
    destruct (wf_live Hwf v Hv) as [n Hn].
    destruct (child_key Hwf v n Hv Hv0 Hn) as (pn & ch & Hpn & _ & Hk).
    exists (s ++ edgeStr text t n). by eapply spells_child.
Qed.

Lemma spells_fun v s1 s2 :
  spells text t v s1 → spells text t v s2 → s1 = s2.
Proof.
  intros [_ H1]%spells_path [_ H2]%spells_path. by eapply path_label_fun.
Qed.

Lemma spells_inj v w s :
  spells text t v s → spells text t w s → v = w.
Proof.
  intros [Hv H1]%spells_path [Hw H2]%spells_path. by eapply path_label_inj.
Qed.

(** A path label is a substring of the text. *)
Lemma spells_substring v s : spells text t v s → is_substring text s.
Proof.
  intros [Hv [Hl Hr]]%spells_path. apply is_substring_reads.
  exists (hd g v). destruct (dep_size text g t (st_wf text g t Hst) v Hv).
  split_and!; auto; lia.
Qed.

(** A substring of the text is the beginning of a path label. *)
Lemma substring_spells s :
  is_substring text s → ∃ v s', spells text t v s' ∧ s `prefix_of` s'.
Proof.
  intros (i & Hi & Hb & Hrd)%is_substring_reads.
  pose proof (strlen_nonneg s) as Hs0.
  destruct (decide (i < strlen text)) as [Hlt|Hge].
  - destruct (leaf_at text g t Hst i) as (l & n & Hl & Hn & _ & _ & Hhd & Hdl);
      [lia|].
    destruct (live_spells l Hl) as [s' Hs'].
    exists l, s'. split; [done|].
    destruct (spells_path l s' Hs') as [_ [Hlen Hr]].
    exists (drop (Z.to_nat (strlen s)) s'). apply str_eq_char_at.
    + rewrite strlen_app, strlen_drop by lia. lia.
    + intros k Hk. destruct (decide (k < strlen s)) as [Hks|Hks].
      * rewrite char_at_app_l by lia. rewrite Hr, Hrd by lia. by rewrite Hhd.
      * rewrite char_at_app_r by lia. rewrite char_at_drop by lia.
        f_equal. lia.
  - assert (s = []) as ->.
    { destruct s; [done|]. unfold strlen in *. simpl in *. lia. }
    exists (root t), []. split; [constructor|]. by exists [].
Qed.

(** The leaf with the suffix index [i] spells the suffix [text[i ..]]. *)
Lemma spells_leaf v s n :
  spells text t v s → h !! v = Some n → children n = ∅ →
  0 ≤ suffixIndex n < strlen text ∧ s = drop (Z.to_nat (suffixIndex n)) text.
Proof.
  intros [Hv [Hl Hr]]%spells_path Hn Hc.
  destruct (leaf_facts text text_nonempty g t Hst v n Hv Hn Hc) as (Hhd & Hd & ->).
  split; [done|]. apply str_eq_char_at.
  - rewrite strlen_drop by lia. lia.
  - intros k Hk. rewrite Hr by done. rewrite char_at_drop by lia. done.
Qed.

(** The child of a slot: its edge is not empty, lies in the text and
    starts with the symbol of the slot. *)
Lemma spells_edge p s pn i c cn :
  spells text t p s → h !! p = Some pn → children pn !! i = Some c →
  h !! c = Some cn →
  0 ≤ i < 27 ∧ 0 ≤ start cn ∧ 1 ≤ edgeLength cn (leafEnd t)
  ∧ start cn + edgeLength cn (leafEnd t) ≤ strlen text
  ∧ ∃ ch, char_at text (start cn) = Some ch ∧ charToIndex ch = i.
Proof.
  intros [Hp _]%spells_path Hpn Hc Hcn. pose proof (st_wf text g t Hst) as Hwf.
  destruct (child_facts text_alphabet Hwf Hp Hpn Hc)
    as (_ & _ & _ & cn' & ch & Hcn' & Hs & Hch & Hi & _ & Hr & _ & Hel & Hre
        & Hhd & _).
  assert (cn' = cn) as -> by congruence. rewrite (st_le Hst).
  pose proof (dep_nonneg Hwf p Hp).
  split_and!; eauto; [lia..|unfold edgeLength in *; lia].
Qed.

(** The suffix link of a node with children leads to the node of its
    label without the first symbol; it is [null] when that node is the
    root. *)
Lemma spells_link v s n :
  spells text t v s → v ≠ root t → h !! v = Some n → children n ≠ ∅ →
  match suffixLink n with
  | Some u => spells text t u (drop 1 s)
  | None => strlen s = 1
  end.
Proof.
  intros Hsp Hv0 Hn Hc. destruct (spells_path v s Hsp) as [Hv [Hl Hr]].
  pose proof (st_wf text g t Hst) as Hwf. rewrite (st_root Hst) in Hv0.
  assert (is_Some (end_ n)) as He.
  { destruct (end_ n) eqn:He; [eauto|]. destruct Hc. by apply (wf_leaf Hwf v n). }
  pose proof (tr_link (st_tree Hst) v n Hv Hv0 Hn He ltac:(done)) as Hlink.
  unfold link_ok in Hlink. destruct (suffixLink n) as [u|]; [|lia].
  destruct Hlink as (Hu & _ & Hdu & Hag).
  destruct (live_spells u Hu) as [s' Hs'].
  destruct (spells_path u s' Hs') as [_ [Hl' Hr']].
  pose proof (dep_pos Hwf v Hv Hv0).
  assert (s' = drop 1 s) as <-; [|done].
  change (drop 1 s) with (drop (Z.to_nat 1) s). apply str_eq_char_at.
  - rewrite (strlen_drop s 1) by lia. lia.
  - intros k Hk. rewrite Hr' by done. rewrite (char_at_drop s 1) by lia.
    rewrite Hr by lia. rewrite (agree_at Hag) by lia. f_equal. lia.
Qed.
End labels.

(** ** The finished tree as a trie of the substrings *)

(** X5. In the finished tree of a valid text, the suffix link of a node
    with children, other than the root, leads to the node whose path
    label is the label of the node without its first symbol; the link is
    [null] when the label has one symbol, so that the node meant is the
    root. *)
Theorem suffix_links_spec (text : list Z) (fuel : nat) :
  valid_text text → 3 * strlen text < Z.of_nat fuel →
  ∃ t, build text fuel = Done t
    ∧ ∀ v s n, spells text t v s → v ≠ root t → heap t !! v = Some n →
        children n ≠ ∅ →
        match suffixLink n with
        | Some u => spells text t u (drop 1 s)
        | None => strlen s = 1
        end.
Proof.
  intros Hv Hf.
  destruct (built text Hv fuel) as (t & g & Hb & Hst & Ha & Hne & _); [lia|].
  exists t. split; [done|]. apply (spells_link text Ha g t Hst).
Qed.

Lemma suffix_links_spec_witness :
  valid_text (str "BANANA$"%string)
  ∧ 3 * strlen (str "BANANA$"%string) < Z.of_nat 30
  ∧ ∃ t, build (str "BANANA$"%string) 30 = Done t
      ∧ ∀ v s n, spells (str "BANANA$"%string) t v s → v ≠ root t →
          heap t !! v = Some n → children n ≠ ∅ →
          match suffixLink n with
          | Some u => spells (str "BANANA$"%string) t u (drop 1 s)
          | None => strlen s = 1
          end.
Proof.
  assert (3 * strlen (str "BANANA$"%string) < Z.of_nat 30) as Hf
    by (vm_compute; reflexivity).
  split; [exact valid_BANANA|]. split; [exact Hf|].
  exact (suffix_links_spec _ 30 valid_BANANA Hf).
Defined.

(** X6. In the finished tree of a valid text the strings that begin a
    path label are the substrings of the text. *)
Theorem substrings_are_paths (text s : list Z) (fuel : nat) :
  valid_text text → 3 * strlen text < Z.of_nat fuel →
  ∃ t, build text fuel = Done t
    ∧ (is_substring text s ↔ ∃ v s', spells text t v s' ∧ s `prefix_of` s').
Proof.
  intros Hv Hf.
  destruct (built text Hv fuel) as (t & g & Hb & Hst & Ha & Hne & _); [lia|].
  exists t. split; [done|]. split.
  - apply (substring_spells text Ha g t Hst).
  - intros (v & s' & Hs' & [r ->]).
    apply (spells_substring text Ha g t Hst) in Hs'.
    destruct Hs' as (i & Hi & Hb' & Heq). rewrite strlen_app in Hb'.
    pose proof (strlen_nonneg r). pose proof (strlen_nonneg s).
    exists i. split_and!; [lia..|].
    apply substring_reads in Heq; [|lia|rewrite strlen_app; lia].
    apply substring_reads; [lia..|]. intros k Hk.
    rewrite <- Heq by (rewrite strlen_app; lia).
    by rewrite char_at_app_l by lia.
Qed.

Lemma substrings_are_paths_witness :
  valid_text (str "BANANA$"%string)
  ∧ 3 * strlen (str "BANANA$"%string) < Z.of_nat 30
  ∧ ∃ t, build (str "BANANA$"%string) 30 = Done t
      ∧ (is_substring (str "BANANA$"%string) (str "NAN"%string)
         ↔ ∃ v s', spells (str "BANANA$"%string) t v s'
                   ∧ str "NAN"%string `prefix_of` s').
Proof.
  assert (3 * strlen (str "BANANA$"%string) < Z.of_nat 30) as Hf
    by (vm_compute; reflexivity).
  split; [exact valid_BANANA|]. split; [exact Hf|].
  exact (substrings_are_paths _ _ 30 valid_BANANA Hf).
Defined.

(** X7. In the finished tree of a valid text a node has one path label
    and a path label has one node, and the leaf with the suffix index [i]
    spells the suffix [text[i ..]]. *)
Theorem labels_and_nodes (text : list Z) (fuel : nat) :
  valid_text text → 3 * strlen text < Z.of_nat fuel →
  ∃ t, build text fuel = Done t
    ∧ (∀ v s1 s2, spells text t v s1 → spells text t v s2 → s1 = s2)
    ∧ (∀ v w s, spells text t v s → spells text t w s → v = w)
    ∧ (∀ v s n, spells text t v s → heap t !! v = Some n → children n = ∅ →
         0 ≤ suffixIndex n < strlen text
         ∧ s = drop (Z.to_nat (suffixIndex n)) text).
Proof.
  intros Hv Hf.
  destruct (built text Hv fuel) as (t & g & Hb & Hst & Ha & Hne & _); [lia|].
  exists t. split_and!; auto.
  - apply (spells_fun text Ha g t Hst).
  - apply (spells_inj text Ha g t Hst).
  - apply (spells_leaf text Ha Hne g t Hst).
Qed.

Lemma labels_and_nodes_witness :
  valid_text (str "BANANA$"%string)
  ∧ 3 * strlen (str "BANANA$"%string) < Z.of_nat 30
  ∧ ∃ t, build (str "BANANA$"%string) 30 = Done t
      ∧ (∀ v s1 s2, spells (str "BANANA$"%string) t v s1 →
           spells (str "BANANA$"%string) t v s2 → s1 = s2)
      ∧ (∀ v w s, spells (str "BANANA$"%string) t v s →
           spells (str "BANANA$"%string) t w s → v = w)
      ∧ (∀ v s n, spells (str "BANANA$"%string) t v s →
           heap t !! v = Some n → children n = ∅ →
           0 ≤ suffixIndex n < strlen (str "BANANA$"%string)
           ∧ s = drop (Z.to_nat (suffixIndex n)) (str "BANANA$"%string)).
Proof.
  assert (3 * strlen (str "BANANA$"%string) < Z.of_nat 30) as Hf
    by (vm_compute; reflexivity).
  split; [exact valid_BANANA|]. split; [exact Hf|].
  exact (labels_and_nodes _ 30 valid_BANANA Hf).
Defined.

(** X8. In the finished tree of a valid text the edge into the child of
    the slot [i] of a node is not empty, lies in the text, and starts
    with the symbol whose index is [i]. *)
Theorem edges_spec (text : list Z) (fuel : nat) :
  valid_text text → 3 * strlen text < Z.of_nat fuel →
  ∃ t, build text fuel = Done t
    ∧ ∀ p pn i c cn, reach (heap t) (root t) p → heap t !! p = Some pn →
        children pn !! i = Some c → heap t !! c = Some cn →
        0 ≤ i < 27 ∧ 0 ≤ start cn ∧ 1 ≤ edgeLength cn (leafEnd t)
        ∧ start cn + edgeLength cn (leafEnd t) ≤ strlen text
        ∧ ∃ ch, char_at text (start cn) = Some ch ∧ charToIndex ch = i.
Proof.
  intros Hv Hf.
  destruct (built text Hv fuel) as (t & g & Hb & Hst & Ha & Hne & _); [lia|].
  exists t. split; [done|]. intros p pn i c cn Hp Hpn Hc Hcn.
  rewrite (st_root Hst) in Hp. apply (reach_live text g t Hst) in Hp.
  destruct (live_spells text g t Hst p Hp) as [s Hs].
  by apply (spells_edge text Ha g t Hst p s pn i c cn).
Qed.

Lemma edges_spec_witness :
  valid_text (str "BANANA$"%string)
  ∧ 3 * strlen (str "BANANA$"%string) < Z.of_nat 30
  ∧ ∃ t, build (str "BANANA$"%string) 30 = Done t
      ∧ ∀ p pn i c cn, reach (heap t) (root t) p → heap t !! p = Some pn →
          children pn !! i = Some c → heap t !! c = Some cn →
          0 ≤ i < 27 ∧ 0 ≤ start cn ∧ 1 ≤ edgeLength cn (leafEnd t)
          ∧ start cn + edgeLength cn (leafEnd t)
            ≤ strlen (str "BANANA$"%string)
          ∧ ∃ ch, char_at (str "BANANA$"%string) (start cn) = Some ch
                  ∧ charToIndex ch = i.
Proof.
  assert (3 * strlen (str "BANANA$"%string) < Z.of_nat 30) as Hf
    by (vm_compute; reflexivity).
  split; [exact valid_BANANA|]. split; [exact Hf|].
  exact (edges_spec _ 30 valid_BANANA Hf).
Defined.

(** ** The number of nodes *)

Section counting.
Variable text : list Z.
Hypothesis text_alphabet : Forall alphabet text.
Hypothesis text_nonempty : 0 < strlen text.
Variables (g : ghost) (t : SuffixTree).
Hypothesis Hst : suffix_tree text g t.

Local Abbreviation h := (heap t).
Local Abbreviation le := (strlen text - 1).
Local Abbreviation D := (dep g (heap t) (strlen text - 1)).

(** The nodes and the leaves below [v]: there are less than twice as many
    nodes as leaves. *)
Lemma nodes_below (m : nat) :
  ∀ v, live g v → le + 1 - D v < Z.of_nat m →
    ∃ ns ls, NoDup ns ∧ (∀ u, u ∈ ns ↔ live g u ∧ anc g v u)
      ∧ NoDup ls ∧ (∀ l, l ∈ ls ↔ leaf_below g t v l)
      ∧ (v ≠ 0%nat → length ns + 1 ≤ 2 * length ls)%nat
      ∧ (length ns ≤ 2 * length ls)%nat.
Proof.
  pose proof (st_wf text g t Hst) as Hwf. pose proof (st_tree Hst) as Ht.
  induction m as [|m IH]; intros v Hv Hm.
  { pose proof (dep_bound text g h le _ _ Ht v Hv). lia. }
  destruct (wf_live Hwf v Hv) as [n Hn].
  assert (∀ ks, NoDup ks → (∀ i, i ∈ ks → 0 ≤ i < 27) →
            ∃ ns ls, NoDup ns
              ∧ (∀ u, u ∈ ns ↔ ∃ k c, k ∈ ks ∧ children n !! k = Some c
                                       ∧ live g u ∧ anc g c u)
              ∧ NoDup ls
              ∧ (∀ l, l ∈ ls ↔ ∃ k c, k ∈ ks ∧ children n !! k = Some c
                                       ∧ leaf_below g t c l)
              ∧ (length ns
                 + length (filter (λ i, is_Some (children n !! i)) ks)
                 ≤ 2 * length ls)%nat) as Hfold.
  { induction ks as [|i ks IHks]; intros Hnd Hin.
    { exists [], []. split_and!; [constructor| |constructor| |simpl; lia].
      - intros u. split; [by intros ?%elem_of_nil|].
        by intros (k & c & ?%elem_of_nil & _).
      - intros u. split; [by intros ?%elem_of_nil|].
        by intros (k & c & ?%elem_of_nil & _). }
    apply NoDup_cons in Hnd as [Hi Hnd].
    destruct (IHks Hnd (λ i' Hi', Hin i' (list_elem_of_further _ _ _ Hi')))
      as (ns2 & ls2 & Hnd2 & Hns2 & Hndl2 & Hls2 & Hlen2).
    rewrite filter_cons.
    destruct (children n !! i) as [c|] eqn:Hc.
    - destruct (child_facts text_alphabet Hwf Hv Hn Hc)
        as (Hcl & Hc0 & _ & cn & ch & Hcn & _ & _ & _ & _ & _ & Hdc & Hel & _).
      destruct (IH c Hcl) as (ns1 & ls1 & Hnd1 & Hns1 & Hndl1 & Hls1 & Hlen1 & _);
        [lia|].
      specialize (Hlen1 Hc0).
      rewrite decide_True by eauto.
      exists (ns1 ++ ns2), (ls1 ++ ls2). split_and!.
      + apply NoDup_app. split_and!; auto.
        intros u [Hu Ha1]%Hns1 (k & c' & Hk & Hc' & _ & Ha2)%Hns2.
        eapply (siblings_disjoint text g t Hst v n i k c c' u); eauto.
        intros <-. done.
      + intros u. rewrite elem_of_app, Hns1, Hns2. split.
        * intros [[Hu Ha]|(k & c' & Hk & Hc' & Hu)].
          -- exists i, c. split_and!; auto. by left.
          -- exists k, c'. split_and!; auto; [by right|apply Hu..].
        * intros (k & c' & [->|Hk]%elem_of_cons & Hc' & Hu & Ha).
          -- left. by simplify_eq.
          -- right. eauto 10.
      + apply NoDup_app. split_and!; auto.
        intros u (Hu & Ha1 & _)%Hls1 (k & c' & Hk & Hc' & (_ & Ha2 & _))%Hls2.
        eapply (siblings_disjoint text g t Hst v n i k c c' u); eauto.
        intros <-. done.
      + intros u. rewrite elem_of_app, Hls1, Hls2. split.
        * intros [Hl|(k & c' & Hk & Hc' & Hl)].
          -- exists i, c. split_and!; auto. by left.
          -- exists k, c'. split_and!; auto. by right.
        * intros (k & c' & [->|Hk]%elem_of_cons & Hc' & Hl).
          -- left. by simplify_eq.
          -- right. eauto.
      + rewrite !length_app. simpl. lia.
    - rewrite decide_False by (by intros [? ?]).
      exists ns2, ls2. split_and!; auto.
      + intros u. rewrite Hns2. split.
        * intros (k & c' & Hk & Hr). exists k, c'. split; [by right|done].
        * intros (k & c' & [->|Hk]%elem_of_cons & Hc' & Hr); [congruence|eauto].
      + intros u. rewrite Hls2. split.
        * intros (k & c' & Hk & Hr). exists k, c'. split; [by right|done].
        * intros (k & c' & [->|Hk]%elem_of_cons & Hc' & Hr); [congruence|eauto]. }
  destruct (Hfold slots (NoDup_seqZ _ _) (λ i, proj1 (elem_of_slots i)))
    as (ns & ls & Hnd & Hns & Hndl & Hls & Hlen).
  fold (childCount n) in Hlen.
  assert (∀ u, live g u → anc g v u → u ≠ v →
            ∃ k c, k ∈ slots ∧ children n !! k = Some c ∧ anc g c u) as Hdown.
  { intros u Hu Ha Hne.
    destruct (anc_child Hwf Ha Hu ltac:(congruence)) as (c & Hcl' & Hc0 & Hcp & Hca).
    destruct (wf_live Hwf c Hcl') as [cn Hcn].
    destruct (child_key Hwf c cn Hcl' Hc0 Hcn) as (pn & ch & Hpn & Hch & Hk).
    rewrite Hcp, Hn in Hpn. injection Hpn as <-.
    destruct (child_facts text_alphabet Hwf Hv Hn Hk)
      as (_ & _ & _ & cn' & ch' & _ & _ & _ & _ & _ & Hi & _).
    exists (charToIndex ch), c. split_and!; auto. by apply elem_of_slots. }
  assert (∀ k c, children n !! k = Some c → anc g v c ∧ c ≠ v) as Hup.
  { intros k c Hc.
    destruct (child_facts text_alphabet Hwf Hv Hn Hc)
      as (Hcl & Hc0 & Hp & cn & ch & Hcn & _ & _ & _ & _ & _ & Hdc & Hel & _).
    split; [apply anc_up; [done|]; rewrite Hp; constructor|].
    intros ->. lia. }
  destruct (map_choose_or_empty (children n)) as [(k0 & c0 & Hc0)|Hempty].
  - (* a node with children *)
    assert (v ∉ ns) as Hvns.
    { intros (k & c & _ & Hc & Hcl & Ha)%Hns.
      destruct (Hup k c Hc) as [Hvc Hne]. apply Hne.
      apply (anc_antisym Hwf); auto.
      destruct (wf_child Hwf v n k c Hv Hn Hc) as (Hcl' & _).
      apply (anc_dep Hwf Hvc Hcl'). }
    exists (v :: ns), ls. split_and!; auto.
    + by apply NoDup_cons.
    + intros u. rewrite elem_of_cons, Hns. split.
      * intros [->|(k & c & Hk & Hc & Hu & Ha)]; [split; [done|constructor]|].
        split; [done|]. eapply anc_trans; [apply (Hup k c Hc)|done].
      * intros [Hu Ha]. destruct (decide (u = v)) as [|Hne]; [by left|right].
        destruct (Hdown u Hu Ha Hne) as (k & c & ? & ? & ?). eauto 10.
    + intros l. rewrite Hls. split.
      * intros (k & c & Hk & Hc & Hl & Ha & Hleaf). split_and!; auto.
        eapply anc_trans; [apply (Hup k c Hc)|done].
      * intros (Hl & Ha & nl & Hnl & Hcl).
        assert (l ≠ v) as Hne.
        { intros ->. assert (nl = n) as -> by congruence.
          rewrite Hcl in Hc0. by rewrite lookup_empty in Hc0. }
        destruct (Hdown l Hl Ha Hne) as (k & c & ? & ? & ?).
        exists k, c. split_and!; auto. split_and!; eauto.
    + intros Hv0.
      pose proof (branching text text_alphabet g t Hst v n
                    (live_reach text g t Hst v Hv) Hv0 Hn) as Hbr.
      assert (children n ≠ ∅) as Hcne.
      { intros He. rewrite He in Hc0. by rewrite lookup_empty in Hc0. }
      specialize (Hbr Hcne). unfold childCount in *. simpl. lia.
    + assert (1 ≤ length (filter (λ i, is_Some (children n !! i)) slots))%nat.
      { destruct (child_facts text_alphabet Hwf Hv Hn Hc0)
          as (_ & _ & _ & ? & ? & _ & _ & _ & _ & _ & Hi & _).
        assert (k0 ∈ filter (λ i, is_Some (children n !! i)) slots) as Hin.
        { apply list_elem_of_filter. split; [eauto|by apply elem_of_slots]. }
        destruct (filter _ slots); [by apply elem_of_nil in Hin|simpl; lia]. }
      unfold childCount in *. simpl. lia.
  - (* a leaf *)
    exists [v], [v]. split_and!; [apply NoDup_singleton| |apply NoDup_singleton
                                  | |simpl; lia|simpl; lia].
    + intros u. rewrite list_elem_of_singleton. split.
      * intros ->. split; [done|constructor].
      * intros [Hu Ha]. by eapply (below_leaf text g h le _ _ Ht v n u).
    + intros u. rewrite list_elem_of_singleton. split.
      * intros ->. split_and!; eauto. constructor.
      * intros (Hu & Ha & _). by eapply (below_leaf text g h le _ _ Ht v n u).
Qed.

(** The finished tree has at most twice as many nodes as the text has
    symbols. *)
Lemma nodes_bound :
  ∃ ns, NoDup ns ∧ (∀ v, v ∈ ns ↔ reach h (root t) v)
    ∧ (length ns ≤ 2 * length text)%nat.
Proof.
  pose proof (st_wf text g t Hst) as Hwf. destruct (wf_root Hwf) as (H0 & _).
  destruct (nodes_below (S (Z.to_nat (strlen text))) 0%nat H0)
    as (ns & ls & Hnd & Hns & Hndl & Hls & _ & Hlen).
  { rewrite (dep_root Hwf). lia. }
  exists ns. split_and!; auto.
  - intros v. rewrite Hns, (st_root Hst). split.
    + intros [Hv _]. by apply (live_reach text g t Hst).
    + intros Hv%(reach_live text g t Hst). split; [done|].
      by apply (anc_root Hwf).
  - assert (length ls ≤ length text)%nat; [|lia].
    assert (hd g <$> ls ⊆+ seqZ 0 (strlen text)) as Hsub.
    { apply NoDup_submseteq.
      - apply NoDup_fmap_2_strong; [|done].
        intros l1 l2 (Hl1 & _ & n1 & Hn1 & Hc1)%Hls (Hl2 & _ & n2 & Hn2 & Hc2)%Hls Hhd.
        by eapply (leaf_inj text text_nonempty g t Hst l1 l2).
      - intros i (l & -> & (Hl & _ & n & Hn & Hc)%Hls)%list_elem_of_fmap.
        apply elem_of_seqZ.
        destruct (leaf_facts text text_nonempty g t Hst l n Hl Hn Hc). lia. }
    apply submseteq_length in Hsub.
    rewrite length_fmap, length_seqZ in Hsub. unfold strlen in Hsub. lia.
Qed.
End counting.

(** X9. The finished tree of a valid text has at most twice as many
    nodes, the root included, as the text has symbols. *)
Theorem node_count (text : list Z) (fuel : nat) :
  valid_text text → 3 * strlen text < Z.of_nat fuel →
  ∃ t ns, build text fuel = Done t
    ∧ NoDup ns ∧ (∀ v, v ∈ ns ↔ reach (heap t) (root t) v)
    ∧ (length ns ≤ 2 * length text)%nat.
Proof.
  intros Hv Hf.
  destruct (built text Hv fuel) as (t & g & Hb & Hst & Ha & Hne & _); [lia|].
  destruct (nodes_bound text Ha Hne g t Hst) as (ns & ? & ? & ?).
  exists t, ns. auto.
Qed.

Lemma node_count_witness :
  valid_text (str "BANANA$"%string)
  ∧ 3 * strlen (str "BANANA$"%string) < Z.of_nat 30
  ∧ ∃ t ns, build (str "BANANA$"%string) 30 = Done t
      ∧ NoDup ns ∧ (∀ v, v ∈ ns ↔ reach (heap t) (root t) v)
      ∧ (length ns ≤ 14)%nat.
Proof.
  assert (3 * strlen (str "BANANA$"%string) < Z.of_nat 30) as Hf
    by (vm_compute; reflexivity).
  split; [exact valid_BANANA|]. split; [exact Hf|].
  exact (node_count _ 30 valid_BANANA Hf).
Defined.

(** ** The records of the steps *)

(** What [recordStep(message)] pushes. *)
Lemma recordStep_fields (depth : nat) (msg : option Z * Z) (t t' : SuffixTree) :
  recordStep depth msg t = Done t' →
  ∃ s an, steps t' = steps t ++ [s]
    ∧ message s = msg
    ∧ stepActiveEdge s = activeEdge t
    ∧ stepActiveLength s = activeLength t
    ∧ remainder s = remainingSuffixCount t
    ∧ heap t' !! activeNode t = Some an ∧ activeNodeStart s = start an
    ∧ root t' = root t ∧ activeNode t' = activeNode t
    ∧ activeEdge t' = activeEdge t ∧ activeLength t' = activeLength t
    ∧ remainingSuffixCount t' = remainingSuffixCount t
    ∧ leafEnd t' = leafEnd t.
Proof.
  unfold recordStep.
  destruct (cloneNode depth (heap t) (root t)) as [[hc r]| |]; [|done..].
  cbn [mbind outcome_bind bind]. unfold get.
  destruct (hc !! activeNode t) as [an|] eqn:Han; [|done].
  cbn [of_option mbind outcome_bind bind]. intros [= <-].
  eexists _, an. simpl. split_and!; done.
Qed.

Section records.
Variable text : list Z.
Hypothesis text_alphabet : Forall alphabet text.
Variable F : nat.
Hypothesis HF : 3 * strlen text ≤ Z.of_nat F.

(** The records after [k] rounds. *)
Lemma phases_steps (k : nat) :
  (k ≤ length text)%nat →
  ∃ t fl, phases text F k = Done (t, fl)
    ∧ build_inv text F (Z.of_nat k) t fl
    ∧ (∀ i s, steps t !! i = Some s →
         message s = (char_at text (Z.of_nat i), Z.of_nat i)
         ∧ 0 ≤ remainder s ≤ Z.of_nat i + 1
         ∧ 0 ≤ stepActiveLength s ≤ Z.of_nat i + 1)
    ∧ (∀ s, last (steps t) = Some s →
         remainder s = remainingSuffixCount t
         ∧ stepActiveLength s = activeLength t
         ∧ ∃ an, heap t !! activeNode t = Some an
                 ∧ activeNodeStart s = start an).
Proof.
  induction k as [|k IH]; intros Hk.
  - exists init_tree, F. split_and!; auto.
    + by apply build_inv_init.
    + intros i s Hs. done.
    + done.
  - destruct IH as (t & fl & Hrun & Hinv & Hall & _); [lia|].
    destruct (build_step text text_alphabet F HF (Z.of_nat k) t fl Hinv)
      as (t' & fl' & Hs & Hinv'); [unfold strlen; lia|].
    destruct Hinv as (g & Hb & Hlen & _).
    destruct (phase_ok text text_alphabet F (Z.of_nat k) fl g t HF Hb)
      as (t1 & fl1 & g1 & Hext & Hb1 & Hst1 & _); [unfold strlen; lia|].
    rewrite Hext in Hs. cbn [mbind outcome_bind bind] in Hs.
    destruct (recordStep F (char_at text (Z.of_nat k), Z.of_nat k) t1)
      as [t2| |] eqn:Hrec; [|done..].
    cbn [mbind outcome_bind bind] in Hs. injection Hs as <- <-.
    destruct (recordStep_fields _ _ _ _ Hrec)
      as (s' & an & Hst2 & Hmsg & _ & Hal & Hrem & Han & Hans & _ & HaN & _
          & HaL & Hrm & _).
    exists t2, fl1. split_and!.
    + rewrite phases_S, Hrun. cbn [mbind outcome_bind bind].
      rewrite Hext. cbn [mbind outcome_bind bind]. by rewrite Hrec.
    + by replace (Z.of_nat (S k)) with (Z.of_nat k + 1) by lia.
    + intros i s0. rewrite Hst2, Hst1.
      assert (length (steps t) = k) as Hlen' by lia.
      destruct (decide (i < k)%nat) as [Hi|Hi].
      * rewrite lookup_app_l by lia. apply Hall.
      * rewrite lookup_app_r by lia. rewrite Hlen'.
        destruct (i - k)%nat as [|d] eqn:Hd; [|by destruct d].
        intros Heq. injection Heq as <-. assert (i = k) as -> by lia.
        pose proof (bd_core Hb1) as Hc1. pose proof (co_j Hc1).
        pose proof (bd_rem Hb1). destruct (co_al Hc1) as [? Hdl].
        pose proof (dep_nonneg (tr_wf (co_tree Hc1)) _ (proj1 (co_an Hc1))).
        split_and!; auto; lia.
    + rewrite Hst2, last_snoc. intros s0 Heq. injection Heq as <-.
      rewrite Hrm, HaL, HaN. split_and!; eauto.
Qed.
End records.

(** X10. The tree of a valid text holds one record for each position
    [i] of the text, in this order: its message names the symbol
    [text[i]] and the position [i], its remainder and its active length
    lie between [0] and [i + 1]; in the last record the remainder and the
    active length are [0] and the active node is the root, whose start is
    [-1]. *)
Theorem step_records (text : list Z) (fuel : nat) :
  valid_text text → 3 * strlen text < Z.of_nat fuel →
  ∃ t, build text fuel = Done t
    ∧ length (steps t) = length text
    ∧ (∀ i s, steps t !! i = Some s →
         message s = (char_at text (Z.of_nat i), Z.of_nat i)
         ∧ 0 ≤ remainder s ≤ Z.of_nat i + 1
         ∧ 0 ≤ stepActiveLength s ≤ Z.of_nat i + 1)
    ∧ (∀ s, last (steps t) = Some s →
         remainder s = 0 ∧ stepActiveLength s = 0 ∧ activeNodeStart s = -1).
Proof.
  intros Hv Hf. pose proof (valid_alphabet text Hv) as Ha.
  destruct (build_state text Ha fuel Hf)
    as (t0 & fl & g0 & h' & Hsteps & _ & _ & _ & Hb).
  destruct (phases_steps text Ha fuel ltac:(lia) (length text))
    as (t & fl' & Hrun & Hinv & Hall & Hlast); [lia|].
  rewrite <- phases_all in Hrun. rewrite Hsteps in Hrun.
  injection Hrun as <- <-.
  destruct Hinv as (g & Hbd & Hlen & _ & Hq).
  exists (with_heap h' t0). split; [done|]. simpl. split_and!; auto; [lia|].
  intros s Hs. destruct (Hlast s Hs) as (Hrem & Hal & an & Han & Hst).
  pose proof (bd_core Hbd) as Hc. pose proof (co_tree Hc) as Ht.
  pose proof (tr_wf Ht) as Hwf. pose proof (bd_rem Hbd) as Hge.
  assert (remainingSuffixCount t0 = 0) as Hr0.
  { destruct (decide (0 < remainingSuffixCount t0)) as [Hp|]; [exfalso|lia].
    destruct (Hq Hp) as (q & Hq1 & Hq2).
    replace (Z.of_nat (length text)) with (strlen text) in * by done.
    by apply (valid_last_unique text Hv q) in Hq2. }
  destruct (co_al Hc) as [Hal0 Hsum]. destruct (co_an Hc) as [Hanl _].
  pose proof (dep_nonneg Hwf _ Hanl) as Hd0.
  replace (Z.of_nat (length text)) with (strlen text) in * by done.
  assert (activeNode t0 = 0%nat) as HaN.
  { destruct (decide (activeNode t0 = 0%nat)) as [|Hne]; [done|exfalso].
    pose proof (dep_pos Hwf _ Hanl Hne). lia. }
  split_and!; [lia..|].
  rewrite Hst. rewrite HaN in Han.
  destruct (wf_root Hwf) as (_ & _ & r & Hr & Hrs & _). congruence.
Qed.

Lemma step_records_witness :
  valid_text (str "BANANA$"%string)
  ∧ 3 * strlen (str "BANANA$"%string) < Z.of_nat 30
  ∧ ∃ t, build (str "BANANA$"%string) 30 = Done t
      ∧ length (steps t) = 7%nat
      ∧ (∀ i s, steps t !! i = Some s →
           message s = (char_at (str "BANANA$"%string) (Z.of_nat i), Z.of_nat i)
           ∧ 0 ≤ remainder s ≤ Z.of_nat i + 1
           ∧ 0 ≤ stepActiveLength s ≤ Z.of_nat i + 1)
      ∧ (∀ s, last (steps t) = Some s →
           remainder s = 0 ∧ stepActiveLength s = 0 ∧ activeNodeStart s = -1).
Proof.
  assert (3 * strlen (str "BANANA$"%string) < Z.of_nat 30) as Hf
    by (vm_compute; reflexivity).
  split; [exact valid_BANANA|]. split; [exact Hf|].
  exact (step_records _ 30 valid_BANANA Hf).
Defined.

(** ** The shortest unique substring, by the walk of the tree *)

Lemma sus_prefixes_keep (path lens : list Z) (st : list Z * Z) :
  st.2 ≤ 1 → Forall (λ l, 1 ≤ l ≤ strlen path) lens →
  sus_prefixes path lens st = st.
Proof.
  intros Hst. induction 1 as [|l lens Hl _ IH]; [done|].
  cbn [sus_prefixes]. cbv zeta. destruct (includes_dollar _); [done|].
  rewrite decide_False; [done|]. rewrite strlen_substring by lia. lia.
Qed.

Lemma childCount_empty (n : Node) : children n = ∅ → childCount n = 0.
Proof.
  intros H. unfold childCount. rewrite H.
  assert (∀ l : list Z, filter (λ i, is_Some ((∅ : gmap Z nat) !! i)) l = [])
    as ->; [|done].
  induction l as [|i l IH]; [done|].
  rewrite filter_cons_False; [done|]. rewrite lookup_empty. by intros [? ?].
Qed.

Lemma substring_first (path : list Z) (c : Z) :
  char_at path 0 = Some c → substring path 0 1 = [c].
Proof.
  intros Hc. pose proof (char_at_Some _ _ _ Hc).
  apply str_eq_char_at.
  - rewrite strlen_substring by lia. done.
  - intros k. rewrite strlen_substring by lia. intros Hk.
    rewrite char_at_substring by lia. assert (k = 0) as -> by lia. done.
Qed.

Section sus_tree.
Variable text : list Z.
Hypothesis text_valid : valid_text text.
Variables (g : ghost) (t : SuffixTree).
Hypothesis Hst : suffix_tree text g t.

Local Abbreviation h := (heap t).
Local Abbreviation le := (strlen text - 1).
Local Abbreviation D := (dep g (heap t) (strlen text - 1)).

Lemma sus_dfs_S d v path st :
  sus_dfs text t (S d) v path st
  = get h v ≫= λ n,
      foldM (λ '(totalLeaves, count, st) i,
             match children n !! i with
             | Some c =>
                 cn ← get h c;
                 '(leaves, st) ← sus_dfs text t d c (path ++ edgeStr text t cn) st;
                 Done (totalLeaves + leaves, count + 1, st)
             | None => Done (totalLeaves, count, st)
             end) (0, 0, st) slots ≫= λ '(totalLeaves, count, st),
      let totalLeaves := if decide (count = 0) then 1 else totalLeaves in
      if decide (totalLeaves = 1) then
        let st :=
          if negb (includes_dollar path)
             && bool_decide (strlen path > 0)
             && bool_decide (strlen path < st.2)
          then (path, strlen path) else st in
        Done (totalLeaves,
              sus_prefixes path (seqZ 1 (strlen path - 1)) st)
      else Done (totalLeaves, st).
Proof. reflexivity. Qed.

(** The visit of a node other than the root: the variables are left as
    they are when [minLen] is [1] already or the label starts with the
    terminal; otherwise they are set to the first symbol of the label. *)
Lemma sus_dfs_ok depth :
  ∀ v path st, live g v → v ≠ 0%nat → path_label text g t v path →
    le + 1 - D v < Z.of_nat depth →
    ∃ n st' c, sus_dfs text t depth v path st = Done (n, st')
      ∧ 1 ≤ n
      ∧ char_at path 0 = Some c
      ∧ (st.2 ≤ 1 → st' = st)
      ∧ (c = DOLLAR → st' = st)
      ∧ (c ≠ DOLLAR → 1 < st.2 → st' = ([c], 1)).
Proof.
  pose proof (st_wf text g t Hst) as Hwf.
  pose proof (valid_alphabet text text_valid) as Ha.
  pose proof (valid_strlen text text_valid) as Hne.
  assert (0 < strlen text) as Hne' by lia.
  induction depth as [|d IH]; intros v path st Hv Hv0 Hpath Hd.
  { pose proof (dep_bound text g h le _ _ (st_tree Hst) v Hv). lia. }
  destruct (wf_live Hwf v Hv) as [n Hn].
  pose proof (dep_pos Hwf v Hv Hv0) as Hdp.
  pose proof Hpath as [Hlen Hrd].
  destruct (char_at_is_Some path 0) as [c0 Hc0]; [lia|].
  assert (char_at text (hd g v) = Some c0) as Hc0t.
  { rewrite <- Hc0, (Hrd 0) by lia. f_equal. lia. }
  destruct (dep_size text g t Hwf v Hv) as [Hhd0 Hhd1].
  assert (children n ≠ ∅ → c0 ≠ DOLLAR ∧ 2 ≤ childCount n) as Hint.
  { intros Hc. split.
    - intros ->. apply (valid_dollar text text_valid) in Hc0t.
      destruct (end_ n) as [e|] eqn:He.
      + destruct (wf_node Hwf v n Hv Hv0 Hn) as (_&_&_&_&_&_&_&He'&_).
        specialize (He' e He). rewrite (dep_eq Hn) in Hdp, Hhd1.
        unfold realEnd in *. rewrite He in *. lia.
      + destruct Hc. by apply (wf_leaf Hwf v n).
    - apply (branching text Ha g t Hst v n); auto.
      by apply (live_reach text g t Hst). }
  rewrite sus_dfs_S, (get_Some _ _ _ Hn). cbn [mbind outcome_bind bind].
  match goal with |- context [foldM ?f _ slots] => set (B := f) end.
  assert (∀ m a tl cnt s, a + Z.of_nat m = 27 → 0 ≤ a →
     cnt = Z.of_nat (length (filter (λ i, is_Some (children n !! i))
                                    (seqZ 0 a))) →
     cnt ≤ tl →
     (st.2 ≤ 1 → s = st) →
     (1 < st.2 → (cnt = 0 ∧ s = st)
                 ∨ (0 < cnt ∧ c0 ≠ DOLLAR ∧ s = ([c0], 1))) →
     ∃ tl' s', foldM B (tl, cnt, s) (seqZ a (Z.of_nat m))
               = Done (tl', childCount n, s')
        ∧ childCount n ≤ tl'
        ∧ (st.2 ≤ 1 → s' = st)
        ∧ (1 < st.2 → (childCount n = 0 ∧ s' = st)
                      ∨ (0 < childCount n ∧ c0 ≠ DOLLAR ∧ s' = ([c0], 1))))
    as Hfold.
  { induction m as [|m IHm]; intros a tl cnt s Ham Ha0 Hcnt Htl Hk1 Hk2.
    { rewrite seqZ_nil by lia. assert (a = 27) as -> by lia.
      exists tl, s. unfold childCount, slots, ALPHABET_SIZE.
      rewrite <- Hcnt. split_and!; auto. }
    rewrite seqZ_cons by lia.
    replace (Z.pred (Z.of_nat (S m))) with (Z.of_nat m) by lia.
    cbn [foldM]. set (X := B (tl, cnt, s) a). unfold B in X. subst X. cbn beta iota.
    assert (seqZ 0 (Z.succ a) = seqZ 0 a ++ [a]) as Hseq.
    { replace (Z.succ a) with (a + 1) by lia.
      rewrite seqZ_app by lia. by rewrite Z.add_0_l. }
    destruct (children n !! a) as [c|] eqn:Hc.
    - destruct (child_facts Ha Hwf Hv Hn Hc)
        as (Hcl & Hc0' & _ & cn & ch & Hcn & _ & _ & _ & _ & _ & Hdc & Hel & _).
      rewrite (get_Some _ _ _ Hcn). cbn [mbind outcome_bind bind].
      destruct (IH c (path ++ edgeStr text t cn) s Hcl Hc0')
        as (n1 & s1 & c1 & Hrun & Hn1 & Hc1 & Hkeep & _ & Hfirst).
      { exact (path_label_child text Ha g t Hst v n a c cn path
                 Hv Hn Hc Hcn Hpath). }
      { lia. }
      rewrite char_at_app_l in Hc1 by lia.
      assert (c1 = c0) as -> by congruence.
      rewrite Hrun. cbn [mbind outcome_bind bind].
      destruct Hint as [Hdol _]; [intros He; by rewrite He in Hc|].
      pose proof (Zle_0_nat (length (filter (λ i, is_Some (children n !! i))
                                            (seqZ 0 a)))) as Hcnt0.
      apply IHm; [lia..| | | |].
      + rewrite Hseq, filter_app, length_app.
        rewrite filter_cons_True by (by rewrite Hc). simpl. lia.
      + lia.
      + intros H1. rewrite <- (Hk1 H1). apply Hkeep. rewrite (Hk1 H1). done.
      + intros H1. right. split_and!; [lia|done|].
        destruct (Hk2 H1) as [[_ ->]|(_ & _ & ->)]; [by apply Hfirst|].
        by apply Hkeep.
    - cbn [mbind outcome_bind bind]. apply IHm; [lia..| |done|done|done].
      rewrite Hseq, filter_app, length_app.
      rewrite filter_cons_False by (rewrite Hc; by intros [? ?]). simpl. lia. }
  destruct (Hfold 27%nat 0 0 0 st) as (tl & s & Hrun & Htl & Hk1 & Hk2);
    [lia..|done|lia|done| |].
  { intros _. left. done. }
  change (seqZ 0 (Z.of_nat 27)) with slots in Hrun.
  rewrite Hrun. cbn [mbind outcome_bind bind]. cbv zeta.
  destruct (decide (childCount n = 0)) as [Hz|Hnz].
  - assert (children n = ∅) as Hempty.
    { destruct (decide (children n = ∅)) as [|Hc]; [done|].
      destruct (Hint Hc). lia. }
    assert (s = st) as ->.
    { destruct (decide (st.2 ≤ 1)) as [H1|H1]; [by apply Hk1|].
      destruct Hk2 as [[_ ->]|(? & _)]; [lia|done|lia]. }
    rewrite decide_True by done.
    destruct (leaf_facts text Hne' g t Hst v n Hv Hn Hempty) as (_ & Hdl & _).
    assert (includes_dollar path = true) as ->.
    { apply bool_decide_eq_true_2.
      apply (char_at_elem path (strlen path - 1)).
      rewrite Hrd by lia.
      apply (valid_dollar text text_valid). lia. }
    cbn [negb andb].
    exists 1, (sus_prefixes path (seqZ 1 (strlen path - 1)) st), c0.
    split_and!; [done|lia|done|..].
    + intros H1. apply sus_prefixes_keep; [done|].
      apply Forall_forall. intros l Hl%elem_of_seqZ. lia.
    + intros ->. apply (valid_dollar text text_valid) in Hc0t.
      rewrite seqZ_nil by lia. done.
    + intros Hnd H1.
      assert (hd g v ≠ strlen text - 1) as Hhd.
      { intros Heq. apply Hnd.
        apply (valid_dollar text text_valid) in Heq. congruence. }
      rewrite seqZ_cons by lia. cbn [sus_prefixes]. cbv zeta.
      rewrite (substring_first path c0 Hc0).
      assert (includes_dollar [c0] = false) as ->.
      { apply bool_decide_eq_false_2. intros H%list_elem_of_singleton. congruence. }
      rewrite decide_True by (unfold strlen; simpl; lia).
      apply sus_prefixes_keep; [simpl; lia|].
      apply Forall_forall. intros l Hl%elem_of_seqZ. lia.
  - destruct Hint as [Hdol Hcc].
    { intros He. by apply childCount_empty in He. }
    rewrite decide_False by lia.
    exists tl, s, c0. split_and!; [done|lia|done|done|done|].
    intros _ H1. destruct (Hk2 H1) as [[? _]|(_ & _ & ->)]; [lia|done].
Qed.

(** The children of the root are the symbols of the text. *)
Lemma root_child_of_symbol r x :
  h !! 0%nat = Some r → x ∈ text → is_Some (children r !! charToIndex x).
Proof.
  intros Hr Hx. pose proof (st_wf text g t Hst) as Hwf.
  pose proof (valid_alphabet text text_valid) as Ha.
  pose proof (valid_strlen text text_valid) as Hne.
  apply list_elem_of_lookup in Hx as [i Hi].
  pose proof (lookup_lt_Some _ _ _ Hi) as Hlt.
  destruct (leaf_at text g t Hst (Z.of_nat i))
    as (l & n & Hl & Hn & _ & _ & Hhd & Hd); [unfold strlen; lia|].
  assert (l ≠ 0%nat) as Hl0.
  { intros ->. rewrite (dep_root Hwf) in Hd. unfold strlen in Hd. lia. }
  destruct (anc_child Hwf (anc_root Hwf l Hl) Hl) as
    (c & Hcl & Hc0 & Hcp & Hca); [done|].
  destruct (wf_live Hwf c Hcl) as [cn Hcn].
  destruct (child_key Hwf c cn Hcl Hc0 Hcn) as (pn & ch & Hpn & Hch & Hk).
  rewrite Hcp in Hpn, Hch. rewrite (dep_root Hwf) in Hch.
  assert (pn = r) as -> by congruence.
  pose proof (anc_agree Hwf Hca Hl) as Hag.
  pose proof (dep_pos Hwf c Hcl Hc0) as Hdc.
  specialize (Hag 0 ltac:(lia)).
  rewrite Hag, Hhd in Hch. unfold char_at in Hch.
  rewrite decide_True, Z.add_0_r, Nat2Z.id in Hch by lia.
  assert (ch = x) as -> by congruence. by rewrite Hk.
Qed.

Lemma root_child_symbol r k c :
  h !! 0%nat = Some r → children r !! k = Some c →
  ∃ x, x ∈ text ∧ charToIndex x = k.
Proof.
  intros Hr Hc. pose proof (st_wf text g t Hst) as Hwf.
  pose proof (valid_alphabet text text_valid) as Ha.
  destruct (child_facts Ha Hwf (proj1 (wf_root Hwf)) Hr Hc)
    as (_ & _ & _ & cn & ch & _ & _ & Hch & Hi & _).
  exists ch. split; [by apply char_at_elem in Hch|done].
Qed.

(** The walk from the root: the result is the symbol of the first slot of
    the root, unless this is the slot of the terminal. *)
Lemma sus_dfs_root (fuel : nat) :
  strlen text < Z.of_nat fuel →
  ∃ r res, h !! 0%nat = Some r
    ∧ shortestUniqueSubstring_dfs text t fuel = Done res
    ∧ (((∀ k, 0 ≤ k < 26 → children r !! k = None) ∧ res = [])
       ∨ (∃ k, 0 ≤ k < 26 ∧ is_Some (children r !! k)
               ∧ (∀ k', 0 ≤ k' < k → children r !! k' = None)
               ∧ res = [k + CODE_A])).
Proof.
  intros Hf. pose proof (st_wf text g t Hst) as Hwf.
  pose proof (valid_alphabet text text_valid) as Ha.
  pose proof (valid_strlen text text_valid) as Hne.
  assert (0 < strlen text) as Hne' by lia.
  destruct (wf_root Hwf) as (H0 & Hhd0 & r & Hr & _).
  exists r. unfold shortestUniqueSubstring_dfs. rewrite (st_root Hst).
  destruct fuel as [|d]; [lia|].
  rewrite sus_dfs_S, (get_Some _ _ _ Hr). cbn [mbind outcome_bind bind].
  match goal with |- context [foldM ?f _ slots] => set (B := f) end.
  set (st0 := (([] : list Z), MAX_SAFE_INTEGER)).
  set (P := λ (a : Z) (s : list Z * Z),
         ((∀ k, 0 ≤ k < a → k < 26 → children r !! k = None) ∧ s = st0)
         ∨ (∃ k, (0 ≤ k < a ∧ k < 26) ∧ is_Some (children r !! k)
                 ∧ (∀ k', 0 ≤ k' < k → children r !! k' = None)
                 ∧ s = ([k + CODE_A], 1))).
  assert (path_label text g t 0%nat []) as Hp0.
  { split; [by rewrite (dep_root Hwf)|]. intros k Hk.
    unfold strlen in Hk. simpl in Hk. lia. }
  assert (∀ m a tl cnt s, a + Z.of_nat m = 27 → 0 ≤ a → P a s →
     ∃ tl' cnt' s', foldM B (tl, cnt, s) (seqZ a (Z.of_nat m))
                    = Done (tl', cnt', s') ∧ P 27 s') as Hfold.
  { induction m as [|m IHm]; intros a tl cnt s Ham Ha0 HP.
    { rewrite seqZ_nil by lia. assert (a = 27) as -> by lia.
      by exists tl, cnt, s. }
    rewrite seqZ_cons by lia.
    replace (Z.pred (Z.of_nat (S m))) with (Z.of_nat m) by lia.
    cbn [foldM]. set (X := B (tl, cnt, s) a). unfold B in X. subst X.
    cbn beta iota.
    destruct (children r !! a) as [c|] eqn:Hc.
    - destruct (child_facts Ha Hwf H0 Hr Hc)
        as (Hcl & Hc0' & _ & cn & ch & Hcn & Hs & Hch & Hi & Hal & _ & Hdc
            & Hel & _).
      rewrite (get_Some _ _ _ Hcn). cbn [mbind outcome_bind bind].
      pose proof (path_label_child text Ha g t Hst 0%nat r a c cn []
                    H0 Hr Hc Hcn Hp0) as Hpc.
      destruct (sus_dfs_ok d c ([] ++ edgeStr text t cn) s Hcl Hc0' Hpc)
        as (n1 & s1 & c1 & Hrun & _ & Hc1 & Hkeep & Hdol & Hfirst).
      { rewrite (dep_root Hwf) in Hdc. lia. }
      rewrite (dep_root Hwf) in Hdc, Hs.
      assert (c1 = ch) as ->.
      { destruct Hpc as [Hl1 Hr1]. rewrite Hr1 in Hc1 by lia.
        replace (hd g c + 0) with (start cn) in Hc1 by lia. congruence. }
      rewrite Hrun. cbn [mbind outcome_bind bind].
      apply IHm; [lia..|].
      destruct (decide (a = 26)) as [->|Ha26].
      + assert (ch = DOLLAR) as ->.
        { apply charToIndex_inj; [done|by left|]. rewrite Hi. done. }
        rewrite (Hdol eq_refl).
        destruct HP as [[Hnone ->]|(k & Hk & Hsome & Hleast & ->)].
        * left. split; [|done]. intros k ? ?. apply Hnone; lia.
        * right. exists k. split_and!; auto; lia.
      + assert (ch ≠ DOLLAR ∧ ch = a + CODE_A) as [Hnd ->].
        { unfold charToIndex in Hi. case_decide; [lia|]. split; [done|lia]. }
        right.
        destruct HP as [[Hnone ->]|(k & Hk & Hsome & Hleast & ->)].
        * exists a. split_and!; [lia..|by rewrite Hc| |].
          -- intros k' Hk'. apply Hnone; lia.
          -- apply Hfirst; [done|]. unfold st0, MAX_SAFE_INTEGER. simpl. lia.
        * exists k. split_and!; auto; [lia..|]. apply Hkeep. simpl. lia.
    - cbn [mbind outcome_bind bind]. apply IHm; [lia..|].
      destruct HP as [[Hnone ->]|(k & Hk & Hsome & Hleast & ->)].
      + left. split; [|done]. intros k ? ?.
        destruct (decide (k = a)) as [->|]; [done|]. apply Hnone; lia.
      + right. exists k. split_and!; auto; lia. }
  destruct (Hfold 27%nat 0 0 0 st0) as (tl & cnt & s & Hrun & HP); [lia..| |].
  { left. split; [|done]. intros k ?. lia. }
  change (seqZ 0 (Z.of_nat 27)) with slots in Hrun.
  rewrite Hrun. cbn [mbind outcome_bind bind]. cbv zeta.
  exists s.1. split; [done|]. split.
  - destruct (decide (_ = 1)); cbn [mbind outcome_bind bind]; done.
  - destruct HP as [[Hnone ->]|(k & Hk & Hsome & Hleast & ->)].
    + left. split; [|done]. intros k Hk. apply Hnone; lia.
    + right. exists k. split_and!; auto; lia.
Qed.

(** In terms of the text: the least letter, or nothing when the text has
    no letter. *)
Lemma shortestUniqueSubstring_dfs_ok (fuel : nat) :
  strlen text < Z.of_nat fuel →
  ∃ res, shortestUniqueSubstring_dfs text t fuel = Done res
    ∧ (∀ c, c ∈ text → c ≠ DOLLAR →
         (∀ x, x ∈ text → x ≠ DOLLAR → c ≤ x) → res = [c])
    ∧ ((∀ x, x ∈ text → x = DOLLAR) → res = []).
Proof.
  intros Hf. pose proof (valid_alphabet text text_valid) as Ha.
  rewrite Forall_forall in Ha.
  destruct (sus_dfs_root fuel Hf) as (r & res & Hr & Hrun & Hres).
  exists res. split; [done|].
  assert (∀ x, x ∈ text → x ≠ DOLLAR →
            0 ≤ charToIndex x < 26 ∧ x = charToIndex x + CODE_A) as Hidx.
  { intros x Hx Hnd. destruct (Ha x Hx) as [|Hr']; [done|].
    unfold charToIndex, CODE_A, CODE_Z in *. case_decide; [done|]. lia. }
  split.
  - intros c Hc Hnd Hmin. destruct (Hidx c Hc Hnd) as [Hi Hci].
    pose proof (root_child_of_symbol r c Hr Hc) as Hsome.
    destruct Hres as [[Hnone _]|(k & Hk & [c' Hc'] & Hleast & ->)].
    + rewrite Hnone in Hsome by done. by destruct Hsome.
    + destruct (root_child_symbol r k c' Hr Hc') as (x & Hx & Hxk).
      assert (x ≠ DOLLAR) as Hxd.
      { intros ->. unfold charToIndex in Hxk. rewrite decide_True in Hxk by done.
        lia. }
      destruct (Hidx x Hx Hxd) as [_ Hxi]. specialize (Hmin x Hx Hxd).
      assert (¬ charToIndex c < k) as Hge.
      { intros Hlt. rewrite Hleast in Hsome by lia. by destruct Hsome. }
      f_equal. lia.
  - intros Hall.
    destruct Hres as [[_ ->]|(k & Hk & [c' Hc'] & _)]; [done|].
    destruct (root_child_symbol r k c' Hr Hc') as (x & Hx & Hxk).
    rewrite (Hall x Hx) in Hxk. unfold charToIndex in Hxk.
    rewrite decide_True in Hxk by done. lia.
Qed.
End sus_tree.

(** X11. For every valid text the variant of [shortestUniqueSubstring()]
    that walks the tree returns the one-symbol string of the least letter
    of the text, however often this letter occurs; it returns the empty
    string when the text is the terminal alone. *)
Theorem sus_dfs_least_letter (text : list Z) (fuel : nat) :
  valid_text text → 3 * strlen text < Z.of_nat fuel →
  ∃ res, run text fuel (λ tx t f, shortestUniqueSubstring_dfs tx t f)
         = Done res
    ∧ (∀ c, c ∈ text → c ≠ DOLLAR →
         (∀ x, x ∈ text → x ≠ DOLLAR → c ≤ x) → res = [c])
    ∧ ((∀ x, x ∈ text → x = DOLLAR) → res = []).
Proof.
  intros Hv Hf. pose proof (valid_strlen text Hv) as Hne.
  destruct (built text Hv fuel Hf) as (t & g & Hb & Hst & _).
  destruct (shortestUniqueSubstring_dfs_ok text Hv g t Hst fuel)
    as (res & Hrun & H1 & H2); [lia|].
  exists res. split; [|done]. unfold run. rewrite Hb.
  cbn [mbind outcome_bind bind]. exact Hrun.
Qed.

Lemma sus_dfs_least_letter_witness :
  valid_text (str "BANANA$"%string)
  ∧ 3 * strlen (str "BANANA$"%string) < Z.of_nat 30
  ∧ ∃ res, run (str "BANANA$"%string) 30
             (λ tx t f, shortestUniqueSubstring_dfs tx t f) = Done res
      ∧ (∀ c, c ∈ str "BANANA$"%string → c ≠ DOLLAR →
           (∀ x, x ∈ str "BANANA$"%string → x ≠ DOLLAR → c ≤ x) → res = [c])
      ∧ ((∀ x, x ∈ str "BANANA$"%string → x = DOLLAR) → res = []).
Proof.
  assert (3 * strlen (str "BANANA$"%string) < Z.of_nat 30) as Hf
    by (vm_compute; reflexivity).
  split; [exact valid_BANANA|]. split; [exact Hf|].
  exact (sus_dfs_least_letter _ 30 valid_BANANA Hf).
Defined.

(** ** The suffix indices *)

(** The nodes are made with the suffix index [-1], and no step of the
    construction writes this field: [cloneNode] copies it. *)
Section unindexed.
Variable text : list Z.

Local Abbreviation U := (Forall (λ n : Node, suffixIndex n = -1)).

Lemma unindexed_alter (f : Node → Node) (i : nat) (h : list Node) :
  (∀ n, suffixIndex (f n) = suffixIndex n) → U h → U (alter f i h).
Proof.
  intros Hf HU. apply Forall_alter; [done|]. intros n _ Hn. by rewrite Hf.
Qed.

Lemma unindexed_snoc (h : list Node) (s : Z) (e : option Z) :
  U h → U (h ++ [newNode s e]).
Proof. intros HU. apply Forall_app. split; [done|]. by constructor. Qed.

Lemma next_suffix_heap pos t t' :
  next_suffix pos t = Done t' → heap t' = heap t.
Proof.
  unfold next_suffix. cbv zeta. repeat case_decide.
  - by intros [= <-].
  - by intros [= <-].
  - destruct (get _ _) as [an| |]; cbn [mbind outcome_bind bind]; [|done..].
    by intros [= <-].
Qed.

Lemma extend_iter_unindexed pos t0 b t' :
  U (heap t0) → extend_iter text pos t0 = Done (b, t') → U (heap t').
Proof.
  intros HU. unfold extend_iter.
  set (t := if decide (activeLength t0 = 0)
            then with_active (activeNode t0) pos (activeLength t0) t0 else t0).
  assert (U (heap t)) as HUt by (unfold t; by case_decide).
  clearbody t. clear HU.
  destruct (charToIndex_at text (activeEdge t)) as [edgeIndex| |];
    cbn [mbind outcome_bind bind]; [|done..].
  destruct (get (heap t) (activeNode t)) as [an| |];
    cbn [mbind outcome_bind bind]; [|done..].
  destruct (children an !! edgeIndex) as [next|].
  - destruct (get (heap t) next) as [nextNode| |];
      cbn [mbind outcome_bind bind]; [|done..]. cbv zeta.
    case_decide; [by intros [= <- <-]|].
    case_decide.
    + intros [= <- <-]. simpl.
      destruct (lastCreatedNode t) as [w|]; [|done].
      case_decide; [|done]. simpl. by apply unindexed_alter.
    + destruct (charToIndex_at text pos) as [leafIndex| |];
        cbn [mbind outcome_bind bind]; [|done..].
      destruct (charToIndex_at text (start nextNode + activeLength t))
        as [nextIndex| |]; cbn [mbind outcome_bind bind]; [|done..].
      match goal with |- context [next_suffix pos ?t1] =>
        destruct (next_suffix pos t1) as [t2| |] eqn:Hns;
          cbn [mbind outcome_bind bind]; [|done..]
      end.
      intros [= <- <-]. rewrite (next_suffix_heap _ _ _ Hns). simpl.
      destruct (lastCreatedNode t) as [w|];
        repeat first [apply unindexed_alter; [done|]
                     |apply unindexed_snoc]; done.
  - cbv zeta.
    match goal with |- context [next_suffix pos ?t1] =>
      destruct (next_suffix pos t1) as [t2| |] eqn:Hns;
        cbn [mbind outcome_bind bind]; [|done..]
    end.
    intros [= <- <-]. rewrite (next_suffix_heap _ _ _ Hns).
    destruct (lastCreatedNode t) as [w|]; simpl;
      repeat first [apply unindexed_alter; [done|]
                   |apply unindexed_snoc]; done.
Qed.

Lemma extend_loop_unindexed fuel :
  ∀ pos t t' fl, U (heap t) → extend_loop text fuel pos t = Done (t', fl) →
    U (heap t').
Proof.
  induction fuel as [|fuel IH]; intros pos t t' fl HU; cbn [extend_loop].
  - case_decide; [done|]. by intros [= <- <-].
  - case_decide; [|by intros [= <- <-]].
    destruct (extend_iter text pos t) as [[b t1]| |] eqn:Hit;
      cbn [mbind outcome_bind bind]; [|done..].
    pose proof (extend_iter_unindexed _ _ _ _ HU Hit) as HU1.
    destruct b; [by apply IH|]. by intros [= <- <-].
Qed.

Lemma extendSuffixTree_unindexed fuel pos t t' fl :
  U (heap t) → extendSuffixTree text fuel pos t = Done (t', fl) → U (heap t').
Proof. intros HU. unfold extendSuffixTree. by apply extend_loop_unindexed. Qed.

Lemma cloneNode_unindexed depth :
  ∀ h v h' r, U h → cloneNode depth h v = Done (h', r) → U h'.
Proof.
  induction depth as [|d IH]; intros h v h' r HU; [done|].
  rewrite cloneNode_S.
  destruct (get h v) as [n| |] eqn:Hn; cbn [mbind outcome_bind bind]; [|done..].
  assert (suffixIndex n = -1) as Hi.
  { unfold get in Hn. destruct (h !! v) as [n'|] eqn:Hv; [|done].
    injection Hn as <-. rewrite Forall_forall in HU. apply HU.
    by eapply list_elem_of_lookup_2. }
  match goal with |- context [foldM ?f ?a slots] =>
    set (B := f); set (h1 := a) end.
  assert (U h1) as HU1.
  { unfold h1. apply Forall_alter.
    - apply unindexed_alter; [done|]. by apply unindexed_snoc.
    - intros x _ _. simpl. done. }
  clearbody h1.
  assert (∀ l h2 h3, U h2 → foldM B h2 l = Done h3 → U h3) as Hfold.
  { induction l as [|i l IHl]; intros h2 h3 HU2; [by intros [= <-]|].
    cbn [foldM]. set (X := B h2 i). unfold B in X. subst X. cbn beta.
    destruct (get h2 v) as [n1| |]; cbn [mbind outcome_bind bind]; [|done..].
    destruct (children n1 !! i) as [c|].
    - destruct (cloneNode d h2 c) as [[h4 c']| |] eqn:Hcl;
        cbn [mbind outcome_bind bind]; [|done..].
      apply IHl. apply unindexed_alter; [done|]. by apply (IH h2 c h4 c').
    - cbn [mbind outcome_bind bind]. by apply IHl. }
  destruct (foldM B h1 slots) as [h2| |] eqn:Hf;
    cbn [mbind outcome_bind bind]; [|done..].
  intros [= <- <-]. by apply (Hfold slots h1).
Qed.

Lemma recordStep_unindexed depth msg t t' :
  U (heap t) → recordStep depth msg t = Done t' → U (heap t').
Proof.
  intros HU. unfold recordStep.
  destruct (cloneNode depth (heap t) (root t)) as [[h r]| |] eqn:Hcl;
    cbn [mbind outcome_bind bind]; [|done..].
  destruct (get h (activeNode t)) as [an| |];
    cbn [mbind outcome_bind bind]; [|done..].
  intros [= <-]. simpl. by apply (cloneNode_unindexed depth (heap t) (root t) h r).
Qed.

(** Before [setSuffixIndexByDFS] runs, every node of the heap, of the
    tree and of the snapshots, has the suffix index [-1]. *)
Lemma buildSteps_unindexed fuel t fl :
  buildSuffixTreeStepByStep text fuel = Done (t, fl) → U (heap t).
Proof.
  unfold buildSuffixTreeStepByStep.
  match goal with |- context [foldM ?f _ _] => set (B := f) end.
  assert (∀ l t1 fl1 t2 fl2, U (heap t1) →
            foldM B (t1, fl1) l = Done (t2, fl2) → U (heap t2)) as Hfold.
  { induction l as [|i l IHl]; intros t1 fl1 t2 fl2 HU1;
      [by intros [= <- <-]|].
    cbn [foldM]. set (X := B (t1, fl1) i). unfold B in X. subst X.
    cbn beta iota.
    destruct (extendSuffixTree text fl1 i t1) as [[t3 fl3]| |] eqn:Hext;
      cbn [mbind outcome_bind bind]; [|done..].
    destruct (recordStep fuel (char_at text i, i) t3) as [t4| |] eqn:Hrec;
      cbn [mbind outcome_bind bind]; [|done..].
    apply IHl. eapply recordStep_unindexed; [|exact Hrec].
    eapply extendSuffixTree_unindexed; [|exact Hext]. done. }
  apply Hfold. by repeat constructor.
Qed.
End unindexed.

(** The nodes of the tree are reached from the root. *)
Lemma wf_reach (text : list Z) (g : ghost) (h : list Node) (le : Z) (v : nat) :
  wf text g h le → live g v → reach h 0%nat v.
Proof.
  intros Hwf Hv. pose proof (anc_root Hwf v Hv) as Ha.
  induction Ha as [|u v Hv0 Ha IH]; [constructor|].
  destruct (wf_live Hwf v Hv) as [n Hn].
  destruct (child_key Hwf v n Hv Hv0 Hn) as (pn & ch & Hpn & _ & Hk).
  eapply reach_child; [|exact Hpn|exact Hk].
  apply IH. by apply (live_par Hwf).
Qed.

(** [setSuffixIndexByDFS] is the only writer of suffix indices, and it
    runs after the last snapshot was taken. *)
Lemma build_suffix_indices (text : list Z) (F : nat) :
  Forall alphabet text → 3 * strlen text < Z.of_nat F →
  ∃ t, build text F = Done t
    ∧ ∀ v n, heap t !! v = Some n → suffixIndex n ≠ -1 →
        children n = ∅ ∧ reach (heap t) (root t) v.
Proof.
  intros Ha HF.
  destruct (build_state text Ha F HF)
    as (t0 & fl & g & h' & Hsteps & Hbd & _ & HR & Hb).
  pose proof (buildSteps_unindexed text F t0 fl Hsteps) as HU.
  pose proof (bd_core Hbd) as Hc. pose proof (co_tree Hc) as Ht.
  pose proof (tr_wf Ht) as Hwf.
  pose proof (indexed_struct text g (heap t0) (strlen text - 1) _ _ HR) as Hss.
  pose proof (wf_struct Hss Hwf) as Hwf'.
  exists (with_heap h' t0). split; [done|]. simpl.
  intros v n Hn Hi.
  destruct (lookup_lt_is_Some_2 (heap t0) v) as [n0 Hn0].
  { rewrite (proj1 HR). by eapply lookup_lt_Some. }
  destruct (proj2 HR v n0 Hn0) as (n2 & Hn2 & _ & _ & Hch & _ & Hcase).
  assert (n2 = n) as -> by congruence.
  assert (suffixIndex n0 = -1) as Hi0.
  { rewrite Forall_forall in HU. apply HU. by eapply list_elem_of_lookup_2. }
  destruct Hcase as [Heq|(Hl & He & _)]; [congruence|].
  split; [congruence|]. rewrite (co_root Hc). by apply (wf_reach text g _ _ v Hwf').
Qed.

(** X12. In the object that the constructor returns for a valid text, a
    node whose suffix index is not [-1] is a node of the tree without
    children: the nodes with children keep [-1], and so does every node
    of every snapshot, its leaves included, since the indices are set
    after the last snapshot was taken. *)
Theorem suffix_indices_spec (text : list Z) (fuel : nat) :
  valid_text text → 3 * strlen text < Z.of_nat fuel →
  ∃ t, build text fuel = Done t
    ∧ (∀ v n, heap t !! v = Some n → suffixIndex n ≠ -1 →
         children n = ∅ ∧ reach (heap t) (root t) v)
    ∧ (∀ s v n, s ∈ steps t → reach (heap t) (snapshotRoot s) v →
         heap t !! v = Some n → suffixIndex n = -1).
Proof.
  intros Hv Hf.
  destruct (built text Hv fuel Hf) as (t & g & Hb & Hst & Ha & _ & _ & Hsn).
  destruct (build_suffix_indices text fuel Ha Hf) as (t' & Hb' & Hidx).
  assert (t' = t) as -> by congruence.
  exists t. split_and!; auto.
  intros s v n Hs Hr Hn.
  destruct (decide (suffixIndex n = -1)) as [|Hne]; [done|exfalso].
  destruct (Hidx v n Hn Hne) as [_ Hroot].
  by destruct (snapshot_nodes text g t Hst Hsn s v n Hs Hr Hn) as [Hnot _].
Qed.

Lemma suffix_indices_spec_witness :
  valid_text (str "BANANA$"%string)
  ∧ 3 * strlen (str "BANANA$"%string) < Z.of_nat 30
  ∧ ∃ t, build (str "BANANA$"%string) 30 = Done t
      ∧ (∀ v n, heap t !! v = Some n → suffixIndex n ≠ -1 →
           children n = ∅ ∧ reach (heap t) (root t) v)
      ∧ (∀ s v n, s ∈ steps t → reach (heap t) (snapshotRoot s) v →
           heap t !! v = Some n → suffixIndex n = -1).
Proof.
  assert (3 * strlen (str "BANANA$"%string) < Z.of_nat 30) as Hf
    by (vm_compute; reflexivity).
  split; [exact valid_BANANA|]. split; [exact Hf|].
  exact (suffix_indices_spec _ 30 valid_BANANA Hf).
Defined.

(** ** The tree after each phase *)

Lemma char_at_take (s : list Z) (n k : Z) :
  k < n → char_at (take (Z.to_nat n) s) k = char_at s k.
Proof.
  intros Hk. unfold char_at. case_decide; [|done].
  apply lookup_take_lt. lia.
Qed.

Lemma strlen_take (s : list Z) (n : Z) :
  0 ≤ n ≤ strlen s → strlen (take (Z.to_nat n) s) = n.
Proof. unfold strlen. intros Hn. rewrite length_take. lia. Qed.

Section phase_tree.
Variable text : list Z.
Hypothesis text_alphabet : Forall alphabet text.
Variables (g : ghost) (t : SuffixTree) (n : Z).
Hypothesis Hroot : root t = 0%nat.
Hypothesis Hle : leafEnd t = n - 1.
Hypothesis Hwf : wf text g (heap t) (n - 1).
Hypothesis Hwords : ∀ a, 0 ≤ a ≤ n →
  ∃ c, live g c ∧ n - a ≤ dep g (heap t) (n - 1) c
       ∧ agree text (hd g c) a (n - a).

Local Abbreviation h := (heap t).
Local Abbreviation D := (dep g (heap t) (n - 1)).

Lemma phase_size v : live g v → 0 ≤ hd g v ∧ hd g v + D v ≤ n.
Proof.
  intros Hv. destruct (decide (v = 0%nat)) as [->|Hv0].
  - destruct (wf_root Hwf) as (_ & -> & _). rewrite (dep_root Hwf).
    pose proof (wf_le Hwf). lia.
  - destruct (wf_live Hwf v Hv) as [nd Hn].
    destruct (wf_node Hwf v nd Hv Hv0 Hn) as (_&_&?&_&_&_&?&_).
    rewrite (dep_eq Hn). lia.
Qed.

Lemma phase_spells v s :
  spells text t v s → live g v ∧ strlen s = D v ∧ reads text s (hd g v).
Proof.
  induction 1 as [|p s pn i c cn _ (Hp & Hlen & Hr) Hpn Hc Hcn].
  - rewrite Hroot. split; [apply (wf_root Hwf)|].
    split; [by rewrite (dep_root Hwf)|].
    intros k Hk. replace (strlen []) with 0 in Hk by done. lia.
  - destruct (child_facts text_alphabet Hwf Hp Hpn Hc)
      as (Hcl & Hc0 & _ & cn' & ch & Hcn' & Hs & _ & _ & _ & _ & Hdc & Hel
          & Hre & Hhd & Hag).
    assert (cn' = cn) as -> by congruence.
    pose proof (dep_nonneg Hwf p Hp) as Hd0. pose proof (wf_le Hwf) as Hn.
    unfold edgeStr. rewrite Hle.
    assert (start cn + edgeLength cn (n - 1) ≤ strlen text) as Hb
      by (unfold edgeLength in *; lia).
    split; [done|]. split.
    + rewrite strlen_app, strlen_substring by lia. lia.
    + intros k Hk. rewrite strlen_app, strlen_substring in Hk by lia.
      destruct (decide (k < strlen s)) as [Hlt|Hge].
      * rewrite char_at_app_l by lia. rewrite Hr by lia.
        apply (agree_at Hag). lia.
      * rewrite char_at_app_r by lia.
        rewrite char_at_substring by lia. f_equal. lia.
Qed.

Lemma phase_live_spells v : live g v → ∃ s, spells text t v s.
Proof.
  intros Hv. pose proof (anc_root Hwf v Hv) as Ha.
  assert (∀ r u, anc g r u → r = 0%nat → live g u → ∃ s, spells text t u s)
    as Hind; [|by apply (Hind 0%nat v)].
  clear v Hv Ha.
  induction 1 as [r|r v Hv0 Ha IH]; intros -> Hv.
  - exists []. rewrite <- Hroot. constructor.
  - destruct (IH eq_refl (live_par Hwf v Hv Hv0)) as [s Hs].
    destruct (wf_live Hwf v Hv) as [nd Hn].
    destruct (child_key Hwf v nd Hv Hv0 Hn) as (pn & ch & Hpn & _ & Hk).
    exists (s ++ edgeStr text t nd). by eapply spells_child.
Qed.

(** The strings read from the root are the substrings of the first [n]
    symbols of the text. *)
Lemma phase_substrings s :
  is_substring (take (Z.to_nat n) text) s
  ↔ ∃ v s', spells text t v s' ∧ s `prefix_of` s'.
Proof.
  pose proof (wf_le Hwf) as Hn. pose proof (strlen_nonneg s) as Hs0.
  assert (0 ≤ n ≤ strlen text) as Hn' by lia.
  rewrite is_substring_reads, (strlen_take text n Hn'). split.
  - intros (i & Hi & Hb & Hrd).
    destruct (Hwords i) as (c & Hc & Hd & Hag); [lia|].
    destruct (phase_live_spells c Hc) as [s' Hs'].
    destruct (phase_spells c s' Hs') as (_ & Hlen & Hr).
    exists c, s'. split; [done|].
    exists (drop (Z.to_nat (strlen s)) s'). apply str_eq_char_at.
    + rewrite strlen_app, strlen_drop by lia. lia.
    + intros k Hk. destruct (decide (k < strlen s)) as [Hks|Hks].
      * rewrite char_at_app_l by lia. rewrite Hr, Hrd by lia.
        rewrite char_at_take by lia. apply (agree_at Hag). lia.
      * rewrite char_at_app_r by lia. rewrite char_at_drop by lia.
        f_equal. lia.
  - intros (v & s' & Hs' & [r ->]).
    destruct (phase_spells v _ Hs') as (Hv & Hlen & Hr).
    destruct (phase_size v Hv) as [Hh0 Hh1].
    rewrite strlen_app in Hlen. pose proof (strlen_nonneg r).
    exists (hd g v). split_and!; [lia..|].
    intros k Hk. rewrite char_at_take by lia.
    rewrite <- Hr by (rewrite strlen_app; lia).
    by rewrite char_at_app_l by lia.
Qed.
End phase_tree.

(** X13. After [k] rounds of the loop of [buildSuffixTreeStepByStep], for
    every text of symbols of the alphabet, the tree is the trie of the
    first [k] symbols: [leafEnd] is [k - 1], and the strings that begin
    the concatenated edge labels of a path from the root are the
    substrings of [text[0 .. k)]. *)
Theorem phase_substrings_spec (text : list Z) (fuel k : nat) :
  Forall alphabet text → 3 * strlen text < Z.of_nat fuel →
  (k ≤ length text)%nat →
  ∃ t fl, phases text fuel k = Done (t, fl)
    ∧ leafEnd t = Z.of_nat k - 1
    ∧ ∀ s, is_substring (take k text) s
           ↔ ∃ v s', spells text t v s' ∧ s `prefix_of` s'.
Proof.
  intros Ha Hf Hk.
  destruct (phases_ok text Ha fuel ltac:(lia) k Hk)
    as (t & fl & Hrun & g & Hbd & _).
  pose proof (bd_core Hbd) as Hc. pose proof (tr_wf (co_tree Hc)) as Hwf.
  exists t, fl. split; [done|]. split; [apply (co_le Hc)|].
  intros s. rewrite <- (Nat2Z.id k) at 1.
  apply (phase_substrings text Ha g t (Z.of_nat k)).
  - apply (co_root Hc).
  - apply (co_le Hc).
  - exact Hwf.
  - intros a Ha'. apply (core_word Hc); lia.
Qed.

(** The tree of [BANANA$] after three rounds and the substrings of
    [BAN]. *)
Lemma phase_substrings_spec_witness :
  Forall alphabet (str "BANANA$"%string)
  ∧ 3 * strlen (str "BANANA$"%string) < Z.of_nat 30
  ∧ (3 ≤ length (str "BANANA$"%string))%nat
  ∧ ∃ t fl, phases (str "BANANA$"%string) 30 3 = Done (t, fl)
      ∧ leafEnd t = Z.of_nat 3 - 1
      ∧ ∀ s, is_substring (take 3 (str "BANANA$"%string)) s
             ↔ ∃ v s', spells (str "BANANA$"%string) t v s'
                       ∧ s `prefix_of` s'.
Proof.
  assert (Forall alphabet (str "BANANA$"%string)) as Ha
    by (apply alphabet_str; reflexivity).
  assert (3 * strlen (str "BANANA$"%string) < Z.of_nat 30) as Hf
    by (vm_compute; reflexivity).
  assert (3 ≤ length (str "BANANA$"%string))%nat as Hk
    by (vm_compute; lia).
  split; [exact Ha|]. split; [exact Hf|]. split; [exact Hk|].
  exact (phase_substrings_spec _ 30 3 Ha Hf Hk).
Defined.

(** ** The order of the leaves *)

Section leaf_order.
Variable text : list Z.
Hypothesis text_alphabet : Forall alphabet text.
Hypothesis text_nonempty : 0 < strlen text.
Variables (g : ghost) (t : SuffixTree).
Hypothesis Hst : suffix_tree text g t.

Local Abbreviation h := (heap t).
Local Abbreviation le := (strlen text - 1).
Local Abbreviation D := (dep g (heap t) (strlen text - 1)).
Local Abbreviation before :=
  (λ i j : Z, idx_le (drop (Z.to_nat i) text) (drop (Z.to_nat j) text)).

(** The label of a leaf is its suffix. *)
Lemma leaf_label l :
  leaf_below g t 0%nat l →
  path_label text g t l (drop (Z.to_nat (hd g l)) text).
Proof.
  intros (Hl & _ & n & Hn & Hc).
  destruct (leaf_facts text text_nonempty g t Hst l n Hl Hn Hc)
    as (Hhd & Hd & _).
  split.
  - rewrite strlen_drop by lia. lia.
  - intros k Hk. rewrite char_at_drop by lia. done.
Qed.

Lemma leaf_below_root v l : live g v → leaf_below g t v l → leaf_below g t 0%nat l.
Proof.
  intros Hv (Hl & Ha & Hn). split_and!; auto.
  by apply (anc_root (st_wf text g t Hst)).
Qed.

(** [_collectLeafIndices] meets the leaves below a node in the order of
    their suffixes. *)
Lemma collect_order depth :
  ∀ v arr, live g v → le + 1 - D v < Z.of_nat depth →
    ∃ out, _collectLeafIndices t depth v arr = Done (arr ++ out)
      ∧ (∀ i, i ∈ out → ∃ l, leaf_below g t v l ∧ hd g l = i)
      ∧ StronglySorted before out.
Proof.
  pose proof (st_wf text g t Hst) as Hwf. pose proof (st_tree Hst) as Ht.
  induction depth as [|d IH]; intros v arr Hv Hd.
  { pose proof (dep_bound text g h le _ _ Ht v Hv). lia. }
  destruct (wf_live Hwf v Hv) as [n Hn].
  rewrite collect_S, (get_Some _ _ _ Hn). cbn [mbind outcome_bind bind].
  match goal with |- context [foldM ?f _ slots] => set (B := f) end.
  set (P := λ (a : Z) (out : list Z) (b : bool),
         (∀ i, i ∈ out → ∃ k c l, 0 ≤ k < a ∧ children n !! k = Some c
                                    ∧ leaf_below g t c l ∧ hd g l = i)
         ∧ StronglySorted before out
         ∧ (b = true ↔ ∀ k, 0 ≤ k < a → children n !! k = None)).
  assert (∀ m a out1 b, a + Z.of_nat m = 27 → 0 ≤ a → P a out1 b →
            ∃ out b', foldM B (arr ++ out1, b) (seqZ a (Z.of_nat m))
                      = Done (arr ++ out, b') ∧ P 27 out b') as Hfold.
  { induction m as [|m IHm]; intros a out1 b Ham Ha0 HP.
    { rewrite seqZ_nil by lia. assert (a = 27) as -> by lia.
      by exists out1, b. }
    rewrite seqZ_cons by lia.
    replace (Z.pred (Z.of_nat (S m))) with (Z.of_nat m) by lia.
    cbn [foldM]. set (X := B (arr ++ out1, b) a). unfold B in X. subst X.
    cbn beta iota. destruct HP as (Hsound & Hsorted & Hb).
    destruct (children n !! a) as [c|] eqn:Hc.
    - destruct (child_facts text_alphabet Hwf Hv Hn Hc)
        as (Hcl & Hc0 & _ & cn & ch & Hcn & _ & _ & _ & _ & _ & Hdc & Hel & _).
      destruct (IH c (arr ++ out1) Hcl) as (outc & Hrun & Hsc & Hso); [lia|].
      rewrite Hrun. cbn [mbind outcome_bind bind]. rewrite <- app_assoc.
      apply IHm; [lia..|]. split_and!.
      + intros i [Hi|Hi]%elem_of_app.
        * destruct (Hsound i Hi) as (k & c' & l & Hk & Hc' & Hl & Hhd).
          exists k, c', l. split_and!; auto; lia.
        * destruct (Hsc i Hi) as (l & Hl & Hhd).
          exists a, c, l. split_and!; auto; lia.
      + apply StronglySorted_app_2; [|done..].
        intros i1 i2 Hi1 Hi2.
        destruct (Hsound i1 Hi1) as (k & c' & l1 & Hk & Hc' & Hl1 & <-).
        destruct (Hsc i2 Hi2) as (l2 & Hl2 & <-).
        destruct (child_facts text_alphabet Hwf Hv Hn Hc') as (Hcl' & _).
        apply (sibling_order text text_alphabet g t Hst v n k a c' c l1 l2);
          auto; try lia.
        * apply Hl1. * apply Hl2. * apply Hl1. * apply Hl2.
        * apply leaf_label. by apply (leaf_below_root c').
        * apply leaf_label. by apply (leaf_below_root c).
      + split; [done|]. intros Hall. rewrite Hall in Hc by lia. done.
    - cbn [mbind outcome_bind bind]. apply IHm; [lia..|]. split_and!.
      + intros i Hi. destruct (Hsound i Hi) as (k & c' & l & Hk & Hc' & Hl & Hhd).
        exists k, c', l. split_and!; auto; lia.
      + done.
      + rewrite Hb. split; intros Hall k Hk.
        * destruct (decide (k = a)) as [->|]; [done|]. apply Hall. lia.
        * apply Hall. lia. }
  destruct (Hfold 27%nat 0 [] true) as (out & b & Hf & Hsound & Hsorted & Hb);
    [lia..| |].
  { split_and!; [by intros i ?%elem_of_nil|constructor|].
    split; [|done]. intros _ k Hk. lia. }
  rewrite app_nil_r in Hf.
  change (seqZ 0 (Z.of_nat 27)) with slots in Hf.
  rewrite Hf. cbn [mbind outcome_bind bind].
  destruct b.
  - assert (children n = ∅) as Hempty.
    { apply map_eq. intros i. rewrite lookup_empty.
      destruct (children n !! i) as [c|] eqn:Hc; [|done].
      destruct (child_facts text_alphabet Hwf Hv Hn Hc)
        as (_ & _ & _ & cn & ch & _ & _ & _ & _ & _ & Hi & _).
      rewrite <- Hc. apply (proj1 Hb eq_refl). lia. }
    assert (out = []) as ->.
    { destruct out as [|i out]; [done|exfalso].
      destruct (Hsound i) as (k & c & _ & _ & Hc & _); [by left|].
      rewrite Hempty in Hc. by rewrite lookup_empty in Hc. }
    pose proof (st_index Hst v n Hv Hn Hempty) as Hidx.
    pose proof (dep_size text g t Hwf v Hv) as [Hhd _].
    rewrite Hidx. rewrite bool_decide_true by lia. cbn [andb].
    exists [hd g v]. rewrite app_nil_r. split_and!; auto.
    + intros i ->%list_elem_of_singleton. exists v. split; [|done].
      split_and!; eauto. constructor.
    + repeat constructor.
  - cbn [andb]. exists out. split_and!; auto.
    intros i Hi. destruct (Hsound i Hi) as (k & c & l & _ & Hc & Hl & Hhd).
    exists l. split; [|done]. destruct Hl as (Hl & Ha & Hleaf).
    destruct (wf_child Hwf v n k c Hv Hn Hc) as (Hcl & Hc0 & Hp & _).
    split_and!; auto. eapply anc_trans; [|exact Ha].
    apply anc_up; [done|]. rewrite Hp. constructor.
Qed.

(** From the root: every position of the text once, in the order of the
    suffixes. *)
Lemma collect_root (fuel : nat) :
  strlen text < Z.of_nat fuel →
  ∃ r, _collectLeafIndices t fuel (root t) [] = Done r
    ∧ r ≡ₚ seqZ 0 (strlen text) ∧ StronglySorted before r.
Proof.
  intros Hf. pose proof (st_wf text g t Hst) as Hwf.
  destruct (wf_root Hwf) as (H0 & _). rewrite (st_root Hst).
  destruct (collect_order fuel 0%nat [] H0) as (out & Hrun & _ & Hsorted).
  { rewrite (dep_root Hwf). lia. }
  destruct (collect_ok text text_alphabet g t Hst fuel 0%nat [] H0)
    as (ls & Hrun' & Hnd & Hls).
  { rewrite (dep_root Hwf). lia. }
  exists out. split; [done|]. split; [|done].
  assert (out = hd g <$> ls) as -> by (simpl in *; congruence).
  apply NoDup_Permutation.
  - apply NoDup_fmap_2_strong; [|done].
    intros l1 l2 H1 H2 Hhd.
    apply Hls in H1 as (Hl1 & _ & n1 & Hn1 & Hc1).
    apply Hls in H2 as (Hl2 & _ & n2 & Hn2 & Hc2).
    by eapply (leaf_inj text text_nonempty g t Hst l1 l2).
  - apply NoDup_seqZ.
  - intros i. rewrite list_elem_of_fmap, elem_of_seqZ. split.
    + intros (l & -> & Hl). apply Hls in Hl as (Hl & _ & n & Hn & Hc).
      destruct (leaf_facts text text_nonempty g t Hst l n Hl Hn Hc). lia.
    + intros Hi.
      destruct (leaf_at text g t Hst i) as (l & n & Hl & Hn & _ & Hc & Hhd & _);
        [lia|].
      exists l. split; [done|]. apply Hls. split_and!; eauto.
      by apply (anc_root Hwf).
Qed.
End leaf_order.

(** X14. For a valid text, [_collectLeafIndices(root, [])] on the
    finished tree returns every position of the text once, in the order
    of the suffixes that start there: the suffixes are compared symbol by
    symbol by the index of the symbol, so that the terminal comes after
    the letters.  The array is the suffix array of the text for this
    order. *)
Theorem leaves_in_order (text : list Z) (fuel : nat) :
  valid_text text → 3 * strlen text < Z.of_nat fuel →
  ∃ r, run text fuel (λ tx t f, _collectLeafIndices t f (root t) []) = Done r
    ∧ r ≡ₚ seqZ 0 (strlen text)
    ∧ StronglySorted
        (λ i j, idx_le (drop (Z.to_nat i) text) (drop (Z.to_nat j) text)) r.
Proof.
  intros Hv Hf. pose proof (strlen_nonneg text).
  destruct (built text Hv fuel Hf) as (t & g & Hb & Hst & Ha & Hne & _).
  destruct (collect_root text Ha Hne g t Hst fuel) as (r & Hrun & Hp & Hs);
    [lia|].
  exists r. split_and!; auto.
  unfold run. rewrite Hb. cbn [mbind outcome_bind bind]. exact Hrun.
Qed.

Lemma leaves_in_order_witness :
  valid_text (str "BANANA$"%string)
  ∧ 3 * strlen (str "BANANA$"%string) < Z.of_nat 30
  ∧ ∃ r, run (str "BANANA$"%string) 30
           (λ tx t f, _collectLeafIndices t f (root t) []) = Done r
      ∧ r ≡ₚ seqZ 0 (strlen (str "BANANA$"%string))
      ∧ StronglySorted
          (λ i j, idx_le (drop (Z.to_nat i) (str "BANANA$"%string))
                         (drop (Z.to_nat j) (str "BANANA$"%string))) r.
Proof.
  assert (3 * strlen (str "BANANA$"%string) < Z.of_nat 30) as Hf
    by (vm_compute; reflexivity).
  split; [exact valid_BANANA|]. split; [exact Hf|].
  exact (leaves_in_order _ 30 valid_BANANA Hf).
Defined.

(** ** The snapshots with remapped suffix links *)

Lemma map_set_fresh (k v : nat) (m : list (nat * nat)) :
  k ∉ m.*1 → map_set k v m = m ++ [(k, v)].
Proof.
  induction m as [|[k' v'] m IH]; intros Hk; [done|].
  simpl. rewrite decide_False.
  - rewrite IH; [done|]. intros Hin. apply Hk. simpl. by right.
  - intros ->. apply Hk. simpl. by left.
Qed.

Lemma map_get_Some (k v : nat) (m : list (nat * nat)) :
  map_get k m = Some v → (k, v) ∈ m.
Proof.
  induction m as [|[k' v'] m IH]; [done|]. simpl.
  case_decide; [intros [= <-]; subst; by left|]. intros H'. right. auto.
Qed.

Lemma map_get_elem (k v : nat) (m : list (nat * nat)) :
  NoDup m.*1 → (k, v) ∈ m → map_get k m = Some v.
Proof.
  induction m as [|[k' v'] m IH]; intros Hnd Hin; [by apply elem_of_nil in Hin|].
  simpl in *. apply NoDup_cons in Hnd as [Hk' Hnd].
  apply elem_of_cons in Hin as [[= -> ->]|Hin].
  - by rewrite decide_True.
  - rewrite decide_False; [by apply IH|].
    intros ->. apply Hk'. apply list_elem_of_fmap. by exists (k, v).
Qed.

Lemma map_key_fun (k v v' : nat) (m : list (nat * nat)) :
  NoDup m.*1 → (k, v) ∈ m → (k, v') ∈ m → v = v'.
Proof.
  intros Hnd H1 H2. apply (map_get_elem _ _ _ Hnd) in H1.
  apply (map_get_elem _ _ _ Hnd) in H2. congruence.
Qed.

Lemma map_value_fun (k k' v : nat) (m : list (nat * nat)) :
  NoDup m.*2 → (k, v) ∈ m → (k', v) ∈ m → k = k'.
Proof.
  induction m as [|[k0 v0] m IH]; intros Hnd H1 H2; [by apply elem_of_nil in H1|].
  simpl in Hnd. apply NoDup_cons in Hnd as [Hv0 Hnd].
  assert (∀ k1, (k1, v) ∈ m → v ≠ v0) as Hno.
  { intros k1 Hk1 ->. apply Hv0. apply list_elem_of_fmap. by exists (k1, v0). }
  apply elem_of_cons in H1 as [H1|H1]; apply elem_of_cons in H2 as [H2|H2].
  - congruence.
  - injection H1 as _ ->. by destruct (Hno k' H2).
  - injection H2 as _ ->. by destruct (Hno k H1).
  - by apply IH.
Qed.

Section linked_clone.
Variable text : list Z.
Hypothesis text_alphabet : Forall alphabet text.
Variables (g : ghost) (h0 : list Node) (le j : Z) (last : option nat).
Hypothesis Ht : tree text g h0 le j last.

Lemma copying_values h m u c :
  copying g h0 h m → (u, c) ∈ m → (length h0 ≤ c < length h)%nat.
Proof.
  intros (Hlen & _ & Hval & _) Hin.
  assert (c ∈ m.*2) as Hc by (apply list_elem_of_fmap; by exists (u, c)).
  rewrite Hval in Hc. apply elem_of_seq in Hc. lia.
Qed.

Lemma copying_NoDup_values h m : copying g h0 h m → NoDup m.*2.
Proof. intros (_ & _ & -> & _). apply NoDup_seq. Qed.

(** The trees of two children of a node share no node. *)
Lemma children_disjoint v n k1 k2 c1 c2 l :
  live g v → h0 !! v = Some n → k1 ≠ k2 →
  children n !! k1 = Some c1 → children n !! k2 = Some c2 →
  live g l → anc g c1 l → anc g c2 l → False.
Proof.
  intros Hv Hn Hk H1 H2 Hl Ha1 Ha2. pose proof (tr_wf Ht) as Hwf.
  destruct (wf_child Hwf v n k1 c1 Hv Hn H1)
    as (Hl1 & H10 & Hp1 & n1 & ch1 & Hn1 & Hc1 & Hi1).
  destruct (wf_child Hwf v n k2 c2 Hv Hn H2)
    as (Hl2 & H20 & Hp2 & n2 & ch2 & Hn2 & Hc2 & Hi2).
  assert (c1 ≠ c2) as Hne by (intros <-; simplify_eq).
  pose proof (dep_par Hwf c1 Hl1 H10) as Hd1.
  pose proof (dep_par Hwf c2 Hl2 H20) as Hd2.
  rewrite Hp1 in Hd1. rewrite Hp2 in Hd2.
  destruct (anc_comparable _ _ _ _ Ha1 Ha2) as [Ha|Ha];
    destruct (anc_inv _ _ _ Ha) as [?|[_ Ha']]; try done.
  - rewrite Hp2 in Ha'. pose proof (anc_dep Hwf Ha' Hv). lia.
  - rewrite Hp1 in Ha'. pose proof (anc_dep Hwf Ha' Hv). lia.
Qed.

Lemma cloneNodeHelper_S d h m v :
  Linked._cloneNodeHelper (S d) h m v
  = get h v ≫= λ n,
      foldM (λ '(h1, m1) i,
          get h1 v ≫= λ n1,
            match children n1 !! i with
            | Some c =>
                Linked._cloneNodeHelper d h1 m1 c ≫= λ '(h2, m2, c'),
                  Done (alter (set_child i c') (length h) h2, m2)
            | None => Done (h1, m1)
            end)
        (alter (set_suffixIndex (suffixIndex n)) (length h)
           (h ++ [newNode (start n) (end_ n)]), map_set v (length h) m) slots
      ≫= λ '(h', m'), Done (h', m', length h).
Proof. reflexivity. Qed.

(** [_cloneNodeHelper] on the node [v]: one entry and one node for
    every node of the tree of [v], each a full copy but for the suffix
    link. *)
Lemma cloneNodeHelper_ok depth :
  ∀ h m v, copying g h0 h m → live g v →
    le + 1 - dep g h0 le v < Z.of_nat depth →
    (∀ u, live g u → anc g v u → u ∉ m.*1) →
    ∃ h' m', Linked._cloneNodeHelper depth h m v = Done (h', m ++ m', length h)
      ∧ copying g h0 h' (m ++ m')
      ∧ (∀ u, (u < length h)%nat → h' !! u = h !! u)
      ∧ (∀ u, u ∈ m'.*1 ↔ live g u ∧ anc g v u)
      ∧ (∀ u c, (u, c) ∈ m' → copied h0 h' (m ++ m') u c)
      ∧ (v, length h) ∈ m'.
Proof.
  pose proof (tr_wf Ht) as Hwf.
  induction depth as [|d IH]; intros h m v Hcp Hv Hd Hfresh.
  { pose proof (dep_bound text g h0 le _ _ Ht v Hv). lia. }
  destruct (wf_live Hwf v Hv) as [n0 Hn0].
  pose proof (lookup_lt_Some _ _ _ Hn0) as Hvlt.
  pose proof Hcp as (Hlen & Hold & Hval & Hnd & Hent).
  assert (h !! v = Some n0) as Hnv by (by rewrite Hold).
  rewrite cloneNodeHelper_S, (get_Some h v n0 Hnv).
  cbn [mbind outcome_bind bind].
  rewrite map_set_fresh by (apply Hfresh; [done|constructor]).
  set (r := length h).
  set (hs := alter (set_suffixIndex (suffixIndex n0)) r
               (h ++ [newNode (start n0) (end_ n0)])).
  match goal with |- context [foldM ?f _ slots] => set (B := f) end.
  set (Q := λ (K : list Z) (h1 : list Node) (mK : list (nat * nat)),
         copying g h0 h1 (m ++ (v, r) :: mK)
         ∧ (∀ u, (u < r)%nat → h1 !! u = h !! u)
         ∧ (∀ u, u ∈ mK.*1 ↔ ∃ i c, i ∈ K ∧ children n0 !! i = Some c
                                     ∧ live g u ∧ anc g c u)
         ∧ (∀ u c, (u, c) ∈ mK → copied h0 h1 (m ++ (v, r) :: mK) u c)
         ∧ (∃ nr, h1 !! r = Some nr
              ∧ ∀ i x, i ∈ K → children n0 !! i = Some x →
                  ∃ c', children nr !! i = Some c'
                        ∧ (x, c') ∈ m ++ (v, r) :: mK)).
  assert (∀ u, live g u → anc g v u → u ≠ v → ∃ i c,
            0 ≤ i < 27 ∧ children n0 !! i = Some c ∧ anc g c u) as Hbelow.
  { intros u Hu Ha Hne.
    destruct (anc_child Hwf Ha Hu) as (c & Hcl & Hc0 & Hcp' & Hca); [done|].
    destruct (wf_live Hwf c Hcl) as [cn Hcn].
    destruct (child_key Hwf c cn Hcl Hc0 Hcn) as (pn & ch & Hpn & Hch & Hk).
    rewrite Hcp', Hn0 in Hpn. injection Hpn as <-.
    destruct (child_facts text_alphabet Hwf Hv Hn0 Hk)
      as (_ & _ & _ & _ & _ & _ & _ & _ & _ & _ & Hi & _).
    exists (charToIndex ch), c. done. }
  assert (∀ l K h1 mK, NoDup (K ++ l) → (∀ i, i ∈ l → 0 ≤ i < 27) →
            Q K h1 mK →
            ∃ h2 mK', foldM B (h1, m ++ (v, r) :: mK) l
                      = Done (h2, m ++ (v, r) :: mK')
              ∧ Q (K ++ l) h2 mK') as Hfold.
  { induction l as [|i l IHl]; intros K h1 mK HndK Hin HQ.
    { exists h1, mK. rewrite app_nil_r. done. }
    assert (i ∉ K) as HiK.
    { apply NoDup_app in HndK as (_ & Hd' & _). intros HK.
      apply (Hd' i HK). by left. }
    assert (∃ h2 mK', B (h1, m ++ (v, r) :: mK) i
                      = Done (h2, m ++ (v, r) :: mK')
              ∧ Q (K ++ [i]) h2 mK') as (h2 & mK' & HB & HQ').
    { destruct HQ as (Hcp1 & Hold1 & Hkeys & Hdone & nr & Hnr & Hkids).
      pose proof Hcp1 as (Hlen1 & Hold1' & Hval1 & Hnd1 & Hent1).
      assert (h1 !! v = Some n0) as Hv1 by (by rewrite Hold1').
      unfold B. cbn beta iota. rewrite (get_Some h1 v n0 Hv1).
      cbn [mbind outcome_bind bind].
      destruct (children n0 !! i) as [c|] eqn:Hc.
      - destruct (child_facts text_alphabet Hwf Hv Hn0 Hc)
          as (Hcl & Hc0 & Hcpar & cn & ch & Hcn & _ & _ & _ & _ & _ & Hdc
              & Hel & _).
        assert (¬ anc g c v) as Hcv.
        { intros Ha. pose proof (anc_dep Hwf Ha Hv). lia. }
        destruct (IH h1 (m ++ (v, r) :: mK) c Hcp1 Hcl)
          as (h2 & m2 & Hrun & Hcp2 & Hold2 & Hkeys2 & Hdone2 & Hroot2).
        { lia. }
        { intros u Hu Ha. rewrite fmap_app, fmap_cons. cbn [fst].
          intros [Hm|[->|HmK]%elem_of_cons]%elem_of_app.
          - apply (Hfresh u Hu); [|done].
            eapply anc_trans; [|exact Ha].
            apply anc_up; [done|]. rewrite Hcpar. constructor.
          - done.
          - apply Hkeys in HmK as (i' & c' & Hi' & Hc' & _ & Ha').
            eapply (children_disjoint v n0 i' i c' c u); eauto.
            intros ->. done. }
        rewrite Hrun. cbn [mbind outcome_bind bind].
        rewrite <- app_assoc in *. cbn [app] in *.
        exists (alter (set_child i (length h1)) r h2), (mK ++ m2).
        split; [done|].
        pose proof Hcp2 as (Hlen2 & Hold2' & Hval2 & Hnd2 & Hent2).
        assert ((v, r) ∈ m ++ (v, r) :: mK ++ m2) as Hvr.
        { apply elem_of_app. right. by left. }
        assert (r < length h1)%nat as Hr1.
        { destruct (copying_values h1 (m ++ (v, r) :: mK) v r Hcp1); [|lia].
          apply elem_of_app. right. by left. }
        assert (∀ u c0, (u, c0) ∈ m ++ (v, r) :: mK ++ m2 → u ≠ v → c0 ≠ r)
          as Hother.
        { intros u c0 Hin0 Hne ->. apply Hne.
          by apply (map_value_fun u v r _ (copying_NoDup_values _ _ Hcp2)). }
        assert (h2 !! r = Some nr) as Hnr2 by (rewrite Hold2 by lia; done).
        assert (v ∉ (mK ++ m2).*1) as HvK.
        { rewrite fmap_app, fmap_cons in Hnd2. cbn [fst] in Hnd2.
          apply NoDup_app in Hnd2 as (_ & _ & Hnd2).
          by apply NoDup_cons in Hnd2 as [? _]. }
        split_and!.
        + split_and!; auto.
          * by rewrite length_alter.
          * intros u Hu. rewrite list_lookup_alter_ne by (unfold r; lia).
            by apply Hold2'.
          * intros u c0 Hin0. destruct (Hent2 u c0 Hin0)
              as (Hul & nu & nc & Hnu & Hnc & Hs & He & Hsi & Hsl & Hch).
            split; [done|].
            destruct (decide (c0 = r)) as [->|Hc0r].
            -- assert (u = v) as ->.
               { by apply (map_value_fun u v r _
                             (copying_NoDup_values _ _ Hcp2)). }
               exists nu, (set_child i (length h1) nc).
               rewrite list_lookup_alter_eq, Hnc. simpl.
               split_and!; auto.
               intros i' c'. destruct (decide (i' = i)) as [->|Hne].
               ++ rewrite lookup_insert_eq. intros [= <-].
                  exists c. assert (nu = n0) as -> by congruence.
                  split; [done|]. apply elem_of_app. right. right.
                  apply elem_of_app. by right.
               ++ rewrite lookup_insert_ne by done. apply Hch.
            -- exists nu, nc. rewrite list_lookup_alter_ne by done.
               split_and!; auto.
        + intros u Hu. rewrite list_lookup_alter_ne by lia.
          rewrite Hold2 by lia. by apply Hold1.
        + intros u. rewrite fmap_app, elem_of_app, Hkeys, Hkeys2. split.
          * intros [(i' & c' & Hi' & Hc' & Hu)|[Hu Ha]].
            -- exists i', c'. split; [apply elem_of_app; by left|done].
            -- exists i, c. split; [apply elem_of_app; right; by left|done].
          * intros (i' & c' & [Hi'|Hi'%list_elem_of_singleton]%elem_of_app
                    & Hc' & Hu & Ha).
            -- left. exists i', c'. done.
            -- subst i'. right. by simplify_eq.
        + intros u c0 Hin0.
          assert (u ≠ v) as Huv.
          { intros ->. apply HvK. apply list_elem_of_fmap. by exists (v, c0). }
          assert ((u, c0) ∈ m ++ (v, r) :: mK ++ m2) as Hin1.
          { apply elem_of_app. right. by right. }
          pose proof (Hother u c0 Hin1 Huv) as Hc0r.
          apply elem_of_app in Hin0 as [Hin0|Hin0].
          * destruct (Hdone u c0 Hin0) as (nu & nc & Hnu & Hnc & Hch).
            exists nu, nc. split; [done|]. split.
            -- rewrite list_lookup_alter_ne by done. rewrite Hold2; [done|].
               by apply lookup_lt_Some in Hnc.
            -- intros i' x Hx. destruct (Hch i' x Hx) as (c' & ? & Hin').
               exists c'. split; [done|].
               apply elem_of_app in Hin' as [?|Hin']; [apply elem_of_app; by left|].
               apply elem_of_app. right.
               apply elem_of_cons in Hin' as [->|?]; [by left|right].
               apply elem_of_app. by left.
          * destruct (Hdone2 u c0 Hin0) as (nu & nc & Hnu & Hnc & Hch).
            exists nu, nc. split; [done|]. split; [|done].
            by rewrite list_lookup_alter_ne by done.
        + exists (set_child i (length h1) nr). split.
          { by rewrite list_lookup_alter_eq, Hnr2. }
          intros i' x [Hi'|Hi'%list_elem_of_singleton]%elem_of_app Hx.
          * destruct (Hkids i' x Hi' Hx) as (c' & Hc' & Hin').
            exists c'. simpl. rewrite lookup_insert_ne by (intros ->; done).
            split; [done|].
            apply elem_of_app in Hin' as [?|Hin']; [apply elem_of_app; by left|].
            apply elem_of_app. right.
            apply elem_of_cons in Hin' as [->|?]; [by left|right].
            apply elem_of_app. by left.
          * subst i'. simplify_eq. exists (length h1). simpl.
            rewrite lookup_insert_eq. split; [done|].
            apply elem_of_app. right. right. apply elem_of_app. by right.
      - cbn [mbind outcome_bind bind]. exists h1, mK. split; [done|].
        split_and!; auto.
        + intros u. rewrite Hkeys. split.
          * intros (i' & c' & Hi' & Hc' & Hu).
            exists i', c'. split; [apply elem_of_app; by left|done].
          * intros (i' & c' & [Hi'|Hi'%list_elem_of_singleton]%elem_of_app
                    & Hc' & Hu); [eauto|]. congruence.
        + exists nr. split; [done|].
          intros i' x [Hi'|Hi'%list_elem_of_singleton]%elem_of_app Hx;
            [eauto|congruence]. }
    cbn [foldM]. rewrite HB. cbn [mbind outcome_bind bind].
    destruct (IHl (K ++ [i]) h2 mK') as (h3 & mK'' & Hf & HQ3); auto.
    { by rewrite <- app_assoc. }
    { intros i' Hi'. apply Hin. by right. }
    exists h3, mK''. split; [done|]. by rewrite <- app_assoc in HQ3. }
  destruct (Hfold slots [] hs []) as (h' & mK & Hf & HQ).
  { simpl. apply NoDup_seqZ. }
  { intros i Hi. by apply elem_of_slots. }
  { assert (hs !! r = Some (mkNode (start n0) (end_ n0) ∅ None (suffixIndex n0)))
      as Hr.
    { unfold hs. rewrite list_lookup_alter_eq.
      rewrite lookup_app_r by (unfold r; lia). unfold r. by rewrite Nat.sub_diag. }
    assert (length hs = S r) as Hlens.
    { unfold hs. rewrite length_alter, length_app. simpl. unfold r. lia. }
    split_and!.
    - split_and!.
      + rewrite Hlens, length_app. simpl. unfold r. lia.
      + intros u Hu. unfold hs. rewrite list_lookup_alter_ne by (unfold r; lia).
        rewrite lookup_app_l by lia. by apply Hold.
      + rewrite fmap_app, length_app, Hval. simpl.
        rewrite Nat.add_1_r, seq_S. unfold r. by rewrite Hlen.
      + rewrite fmap_app. apply NoDup_app. split_and!; [done| |].
        * intros u Hu ->%list_elem_of_singleton.
          by apply (Hfresh v Hv (anc_refl g v)).
        * apply NoDup_singleton.
      + intros u c [Hin|Hin%list_elem_of_singleton]%elem_of_app.
        * destruct (Hent u c Hin)
            as (Hul & nu & nc & Hnu & Hnc & Hs & He & Hsi & Hsl & Hch).
          split; [done|]. exists nu, nc. split_and!; auto.
          -- unfold hs. rewrite list_lookup_alter_ne.
             ++ rewrite lookup_app_l; [done|]. by apply lookup_lt_Some in Hnc.
             ++ apply lookup_lt_Some in Hnc. unfold r. lia.
          -- intros i c' Hc'. destruct (Hch i c' Hc') as (x & ? & ?).
             exists x. split; [done|]. apply elem_of_app. by left.
        * injection Hin as -> ->. split; [done|].
          eexists n0, _. split_and!; [done|exact Hr|done..|].
          intros i c'. simpl. by rewrite lookup_empty.
    - intros u Hu. unfold hs. rewrite list_lookup_alter_ne by lia.
      rewrite lookup_app_l; [done|]. unfold r in Hu. lia.
    - intros u. split; [by intros ?%elem_of_nil|].
      by intros (i & c & ?%elem_of_nil & _).
    - intros u c Hin. by apply elem_of_nil in Hin.
    - eexists. split; [exact Hr|]. intros i x Hi. by apply elem_of_nil in Hi. }
  simpl in HQ. destruct HQ as (Hcp' & Hold' & Hkeys & Hdone & nr & Hnr & Hkids).
  rewrite Hf. cbn [mbind outcome_bind bind].
  exists h', ((v, r) :: mK). split; [done|]. split_and!; auto.
  - intros u. rewrite fmap_cons, elem_of_cons, Hkeys. cbn [fst]. split.
    + intros [->|(i & c & _ & Hc & Hu & Ha)]; [split; [done|constructor]|].
      split; [done|].
      destruct (wf_child Hwf v n0 i c Hv Hn0 Hc) as (_ & Hc0 & Hp & _).
      eapply anc_trans; [|exact Ha]. apply anc_up; [done|].
      rewrite Hp. constructor.
    + intros [Hu Ha]. destruct (decide (u = v)) as [|Hne]; [by left|right].
      destruct (Hbelow u Hu Ha Hne) as (i & c & Hi & Hc & Hca).
      exists i, c. split; [by apply elem_of_slots|done].
  - intros u c [[= -> ->]|Hin]%elem_of_cons; [|by apply Hdone].
    exists n0, nr. split_and!; auto. intros i x Hx. apply (Hkids i x); [|done].
    destruct (child_facts text_alphabet Hwf Hv Hn0 Hx)
      as (_ & _ & _ & _ & _ & _ & _ & _ & _ & _ & Hi & _).
    by apply elem_of_slots.
  - by left.
Qed.
End linked_clone.

Section linked_tree.
Variable text : list Z.
Hypothesis text_alphabet : Forall alphabet text.
Variables (g : ghost) (h0 : list Node) (le j : Z) (last : option nat).
Hypothesis Ht : tree text g h0 le j last.

(** The loop over the entries of the map: the suffix link of every
    clone becomes the clone of the suffix link of its original. *)
Lemma relink_ok (M : list (nat * nat)) (h1 : list Node) :
  copying g h0 h1 M →
  ∀ l P h, P ++ l = M → length h = length h1 →
    (∀ u, (u < length h0)%nat → h !! u = h0 !! u) →
    (∀ u c, (u, c) ∈ M →
       ∃ nu nc1 nc, h0 !! u = Some nu ∧ h1 !! c = Some nc1 ∧ h !! c = Some nc
         ∧ start nc = start nc1 ∧ end_ nc = end_ nc1
         ∧ children nc = children nc1 ∧ suffixIndex nc = suffixIndex nc1
         ∧ ((u, c) ∈ P → suffixLink nc = suffixLink nu ≫= λ x, map_get x M)
         ∧ ((u, c) ∉ P → suffixLink nc = None)) →
    ∃ h', foldM (λ h '(orig, clone),
              o ← get h orig;
              match suffixLink o with
              | Some x => Done (alter (set_suffixLink (map_get x M)) clone h)
              | None => Done h
              end) h l = Done h'
      ∧ length h' = length h1
      ∧ (∀ u, (u < length h0)%nat → h' !! u = h0 !! u)
      ∧ ∀ u c, (u, c) ∈ M →
          ∃ nu nc1 nc, h0 !! u = Some nu ∧ h1 !! c = Some nc1
            ∧ h' !! c = Some nc
            ∧ start nc = start nc1 ∧ end_ nc = end_ nc1
            ∧ children nc = children nc1 ∧ suffixIndex nc = suffixIndex nc1
            ∧ suffixLink nc = suffixLink nu ≫= λ x, map_get x M.
Proof.
  intros Hcp. pose proof (copying_NoDup_values g h0 h1 M Hcp) as Hndv.
  induction l as [|[u0 c0] l IH]; intros P h HP Hlen Hold Hent.
  { rewrite app_nil_r in HP. subst P. exists h. split; [done|].
    split_and!; auto. intros u c Hin.
    destruct (Hent u c Hin) as (nu & nc1 & nc & ? & ? & ? & ? & ? & ? & ? & Hl & _).
    exists nu, nc1, nc. split_and!; auto. }
  assert ((u0, c0) ∈ M) as Hin0.
  { rewrite <- HP. apply elem_of_app. right. by left. }
  destruct (copying_values g h0 h1 M u0 c0 Hcp Hin0) as [Hc0lo Hc0hi].
  destruct (Hent u0 c0 Hin0)
    as (nu0 & nc10 & nc0 & Hnu0 & Hnc10 & Hnc0 & _).
  pose proof (lookup_lt_Some _ _ _ Hnu0) as Hu0.
  cbn [foldM]. cbn beta iota. rewrite (get_Some h u0 nu0) by (by rewrite Hold).
  cbn [mbind outcome_bind bind].
  assert ((u0, c0) ∉ P) as HnP.
  { intros HinP. destruct Hcp as (_ & _ & _ & Hnd & _).
    rewrite <- HP, fmap_app, fmap_cons in Hnd. cbn [fst] in Hnd.
    apply NoDup_app in Hnd as (_ & Hd & _). apply (Hd u0).
    - apply list_elem_of_fmap. by exists (u0, c0).
    - by left. }
  destruct (suffixLink nu0) as [x|] eqn:Hl0.
  - apply (IH (P ++ [(u0, c0)])).
    + by rewrite <- app_assoc.
    + by rewrite length_alter.
    + intros u Hu. rewrite list_lookup_alter_ne by lia. by apply Hold.
    + intros u c Hin.
      destruct (Hent u c Hin)
        as (nu & nc1 & nc & Hnu & Hnc1 & Hnc & Hs & He & Hch & Hsi & Hl & Hl').
      destruct (decide (c = c0)) as [->|Hne].
      * assert (u = u0) as -> by (by apply (map_value_fun u u0 c0 M)).
        exists nu, nc1, (set_suffixLink (map_get x M) nc).
        rewrite list_lookup_alter_eq, Hnc. simpl.
        split_and!; auto.
        -- intros _. assert (nu = nu0) as -> by congruence. by rewrite Hl0.
        -- intros Hno. destruct Hno. apply elem_of_app. right. by left.
      * exists nu, nc1, nc. rewrite list_lookup_alter_ne by done.
        split_and!; auto.
        -- intros [HinP|HinP%list_elem_of_singleton]%elem_of_app; [auto|].
           congruence.
        -- intros Hno. apply Hl'. intros HinP. apply Hno.
           apply elem_of_app. by left.
  - apply (IH (P ++ [(u0, c0)])); auto.
    + by rewrite <- app_assoc.
    + intros u c Hin.
      destruct (Hent u c Hin)
        as (nu & nc1 & nc & Hnu & Hnc1 & Hnc & Hs & He & Hch & Hsi & Hl & Hl').
      exists nu, nc1, nc. split_and!; auto.
      * intros [HinP|HinP%list_elem_of_singleton]%elem_of_app; [auto|].
        injection HinP as -> ->. assert (nu = nu0) as -> by congruence.
        rewrite Hl0. simpl. by apply Hl'.
      * intros Hno. apply Hl'. intros HinP. apply Hno.
        apply elem_of_app. by left.
Qed.

(** [cloneTreeWithSuffixLinks(root)] on the heap of the tree: the map
    [M] sends every node of the tree to its clone, a new node; the clone
    has the numbers of the original, and its children and its suffix link
    are the clones of those of the original. *)
Lemma cloneTreeWithSuffixLinks_ok depth :
  le + 1 < Z.of_nat depth →
  ∃ h' M, Linked.cloneTreeWithSuffixLinks depth h0 0%nat
          = Done (h', length h0)
    ∧ length h' = (length h0 + length M)%nat
    ∧ (∀ u, (u < length h0)%nat → h' !! u = h0 !! u)
    ∧ M.*2 = seq (length h0) (length M)
    ∧ NoDup M.*1
    ∧ (∀ u, u ∈ M.*1 ↔ live g u)
    ∧ (0%nat, length h0) ∈ M
    ∧ ∀ u c, (u, c) ∈ M →
        ∃ nu nc, h0 !! u = Some nu ∧ h' !! c = Some nc
          ∧ start nc = start nu ∧ end_ nc = end_ nu
          ∧ suffixIndex nc = suffixIndex nu
          ∧ suffixLink nc = (suffixLink nu ≫= λ x, map_get x M)
          ∧ ∀ i, children nc !! i = (children nu !! i ≫= λ x, map_get x M).
Proof.
  intros Hd. pose proof (tr_wf Ht) as Hwf.
  destruct (wf_root Hwf) as (H0 & _).
  destruct (cloneNodeHelper_ok text text_alphabet g h0 le j last Ht depth
              h0 [] 0%nat)
    as (h1 & M & Hrun & Hcp & Hold1 & Hkeys & Hdone & Hroot); auto.
  { split_and!; [simpl; lia|done|done|constructor|].
    intros u c Hin. by apply elem_of_nil in Hin. }
  { rewrite (dep_root Hwf). lia. }
  { intros u _ _ Hin. by apply elem_of_nil in Hin. }
  simpl in Hrun, Hcp, Hdone.
  pose proof Hcp as (Hlen & Hold & Hval & Hnd & Hent).
  unfold Linked.cloneTreeWithSuffixLinks. rewrite Hrun.
  cbn [mbind outcome_bind bind].
  destruct (relink_ok M h1 Hcp M [] h1 eq_refl eq_refl Hold)
    as (h' & Hf & Hlen' & Hold' & Hent').
  { intros u c Hin.
    destruct (Hent u c Hin)
      as (Hul & nu & nc & Hnu & Hnc & Hs & He & Hsi & Hsl & Hch).
    exists nu, nc, nc. split_and!; auto.
    intros Hin'. by apply elem_of_nil in Hin'. }
  rewrite Hf. cbn [mbind outcome_bind bind].
  exists h', M. split; [done|]. split_and!; auto; [lia| |].
  - intros u. rewrite Hkeys. split; [by intros [? _]|].
    intros Hu. split; [done|]. by apply (anc_root Hwf).
  - intros u c Hin.
    destruct (Hent' u c Hin)
      as (nu & nc1 & nc & Hnu & Hnc1 & Hnc & Hs & He & Hch & Hsi & Hl).
    destruct (Hent u c Hin)
      as (Hul & nu' & nc1' & Hnu' & Hnc1' & Hs' & He' & Hsi' & Hsl' & Hch').
    destruct (Hdone u c Hin) as (nu'' & nc1'' & Hnu'' & Hnc1'' & Hall).
    simplify_eq. exists nu, nc. split_and!; auto; try congruence.
    intros i. rewrite Hch.
    destruct (children nu !! i) as [x|] eqn:Hx; simpl.
    + destruct (Hall i x Hx) as (c' & Hc' & Hin').
      rewrite Hc'. symmetry. by apply map_get_elem.
    + destruct (children nc1 !! i) as [c'|] eqn:Hc'; [|done].
      destruct (Hch' i c' Hc') as (x & Hx' & _). congruence.
Qed.

(** The nodes of the clone form a snapshot with remapped links. *)
Lemma cloneTree_linked_range h' M :
  length h' = (length h0 + length M)%nat →
  M.*2 = seq (length h0) (length M) →
  NoDup M.*1 →
  (∀ u, u ∈ M.*1 ↔ live g u) →
  (0%nat, length h0) ∈ M →
  (∀ u c, (u, c) ∈ M →
     ∃ nu nc, h0 !! u = Some nu ∧ h' !! c = Some nc
       ∧ start nc = start nu ∧ end_ nc = end_ nu
       ∧ suffixIndex nc = suffixIndex nu
       ∧ suffixLink nc = (suffixLink nu ≫= λ x, map_get x M)
       ∧ ∀ i, children nc !! i = (children nu !! i ≫= λ x, map_get x M)) →
  linked_range g h' (length h0) (length h').
Proof.
  intros Hlen Hval Hnd Hkeys Hroot Hent. pose proof (tr_wf Ht) as Hwf.
  assert (∀ c, (length h0 ≤ c < length h')%nat → ∃ u, (u, c) ∈ M) as Hsurj.
  { intros c Hc. assert (c ∈ M.*2) as Hin.
    { rewrite Hval. apply elem_of_seq. lia. }
    apply list_elem_of_fmap in Hin as ([u c'] & -> & Hin). by exists u. }
  assert (∀ u c, (u, c) ∈ M → (length h0 ≤ c < length h')%nat) as Hrange.
  { intros u c Hin. assert (c ∈ M.*2) as Hc.
    { apply list_elem_of_fmap. by exists (u, c). }
    rewrite Hval in Hc. apply elem_of_seq in Hc. lia. }
  assert (∀ r u, anc g r u → r = 0%nat → live g u →
            ∀ c, (u, c) ∈ M → reach h' (length h0) c) as Hreach.
  { induction 1 as [r|r u Hu0 Ha IH]; intros -> Hu c Hin.
    - rewrite (map_key_fun 0%nat c (length h0) M Hnd Hin Hroot). constructor.
    - pose proof (live_par Hwf u Hu Hu0) as Hp.
      destruct (wf_live Hwf u Hu) as [nu Hnu].
      destruct (child_key Hwf u nu Hu Hu0 Hnu) as (pn & ch & Hpn & _ & Hk).
      assert (par g u ∈ M.*1) as Hpin by (by apply Hkeys).
      apply list_elem_of_fmap in Hpin as ([p cp] & Hpeq & Hpin).
      simpl in Hpeq. subst p.
      destruct (Hent _ _ Hpin) as (pn' & ncp & Hpn' & Hncp & _ & _ & _ & _ & Hch).
      assert (pn' = pn) as -> by congruence.
      specialize (Hch (charToIndex ch)). rewrite Hk in Hch. simpl in Hch.
      rewrite (map_get_elem u c M Hnd Hin) in Hch.
      eapply reach_child; [|exact Hncp|exact Hch].
      by apply (IH eq_refl Hp). }
  split; [done|]. intros c nc Hc Hnc.
  destruct (Hsurj c Hc) as [u Hin].
  destruct (Hent u c Hin) as (nu & nc' & Hnu & Hnc' & _ & _ & _ & Hl & Hch).
  assert (nc' = nc) as -> by congruence.
  assert (live g u) as Hu.
  { apply Hkeys. apply list_elem_of_fmap. by exists (u, c). }
  split_and!.
  - intros Hlv. apply (live_lt_heap text g h0 le c Hwf) in Hlv. lia.
  - apply (Hreach 0%nat u); auto. by apply (anc_root Hwf).
  - intros i c' Hc'. rewrite Hch in Hc'.
    destruct (children nu !! i) as [x|]; [|done]. simpl in Hc'.
    apply map_get_Some in Hc'. by apply (Hrange x).
  - intros c' Hc'. rewrite Hl in Hc'.
    destruct (suffixLink nu) as [x|]; [|done]. simpl in Hc'.
    apply map_get_Some in Hc'. by apply (Hrange x).
Qed.
End linked_tree.

(** A snapshot with remapped links stays one when its nodes stay as
    they are and stay outside the tree. *)
Lemma linked_range_agree (g g' : ghost) (h h' : list Node) (lo hi : nat) :
  (length h ≤ length h')%nat →
  (∀ v, (lo ≤ v < hi)%nat → h' !! v = h !! v) →
  (∀ v, (lo ≤ v < hi)%nat → ¬ live g v → ¬ live g' v) →
  linked_range g h lo hi → linked_range g' h' lo hi.
Proof.
  intros Hlen Hag Hlv (Hhi & Hr). split; [lia|].
  assert (∀ v, reach h lo v → (lo < hi)%nat →
            (lo ≤ v < hi)%nat ∧ reach h' lo v) as Hreach.
  { induction 1 as [|p pn i c _ IH Hpn Hc]; intros Hlo; [split; [lia|constructor]|].
    destruct (IH Hlo) as [Hp Hrp].
    destruct (Hr p pn Hp Hpn) as (_ & _ & Hch & _).
    split; [by apply (Hch i)|].
    eapply reach_child; [exact Hrp| |exact Hc]. by rewrite Hag. }
  intros v n Hv Hn. rewrite Hag in Hn by done.
  destruct (Hr v n Hv Hn) as (Hnl & Hrv & Hch & Hl).
  split_and!; auto. apply Hreach; [done|lia].
Qed.

Lemma linked_range_reach (g : ghost) (h : list Node) (lo hi v : nat) :
  linked_range g h lo hi → (lo < hi)%nat → reach h lo v → (lo ≤ v < hi)%nat.
Proof.
  intros (Hhi & Hr) Hlo. induction 1 as [|p pn i c _ IH Hpn Hc]; [lia|].
  destruct (Hr p pn IH Hpn) as (_ & _ & Hch & _). by apply (Hch i).
Qed.

Lemma linked_range_frame (g g' : ghost) (h h' : list Node) (lo hi : nat) :
  heap_frame g g' h h' → linked_range g h lo hi → linked_range g' h' lo hi.
Proof.
  intros (H1 & H2 & H3) Hr. pose proof Hr as (Hhi & Hr').
  apply (linked_range_agree g g' h h' lo hi); auto.
  - intros v Hv. destruct (lookup_lt_is_Some_2 h v) as [n Hn]; [lia|].
    destruct (Hr' v n Hv Hn) as (Hnl & _). apply H2; [lia|done].
  - intros v Hv Hnl. rewrite H3. intros [?|?]; [done|lia].
Qed.

(** The nodes reached from the root are nodes of the tree. *)
Lemma wf_reach_live (text : list Z) (g : ghost) (h : list Node) (le : Z)
    (v : nat) :
  wf text g h le → reach h 0%nat v → live g v.
Proof.
  intros Hwf. induction 1 as [|p pn i c _ IH Hpn Hc].
  - apply (wf_root Hwf).
  - by destruct (wf_child Hwf p pn i c IH Hpn Hc).
Qed.

Section linked_record.
Variable text : list Z.
Hypothesis text_alphabet : Forall alphabet text.

(** [recordStep] of this copy appends one record, whose snapshot is a
    copy of the tree in new nodes, with the links among them. *)
Lemma linked_recordStep_ok g pos t F fuel p msg les stp :
  3 * strlen text ≤ Z.of_nat F →
  boundary text g pos t F fuel → 1 ≤ pos →
  ∃ h' s M, Linked.recordStep F p msg les t stp
            = Done (with_heap h' t, stp ++ [s])
    ∧ boundary text g pos (with_heap h' t) F fuel
    ∧ Linked.snapshotRoot s = length (heap t)
    ∧ Linked.pos s = p ∧ Linked.leafEndSnapshot s = les
    ∧ Linked.message s = msg
    ∧ (length (heap t) < length h')%nat
    ∧ (∀ u, (u < length (heap t))%nat → h' !! u = heap t !! u)
    ∧ linked_range g h' (length (heap t)) (length h')
    ∧ length h' = (length (heap t) + length M)%nat
    ∧ M.*2 = seq (length (heap t)) (length M)
    ∧ NoDup M.*1
    ∧ (∀ u, u ∈ M.*1 ↔ live g u)
    ∧ (0%nat, length (heap t)) ∈ M
    ∧ ∀ u c, (u, c) ∈ M →
        ∃ nu nc, heap t !! u = Some nu ∧ h' !! c = Some nc
          ∧ start nc = start nu ∧ end_ nc = end_ nu
          ∧ suffixIndex nc = suffixIndex nu
          ∧ suffixLink nc = (suffixLink nu ≫= λ x, map_get x M)
          ∧ ∀ i, children nc !! i = (children nu !! i ≫= λ x, map_get x M).
Proof.
  intros HF Hb Hpos. pose proof (bd_core Hb) as Hc.
  pose proof (co_tree Hc) as Ht. pose proof (tr_wf Ht) as Hwf.
  pose proof (bd_pos Hb) as Hp. destruct (wf_root Hwf) as (Hrl & _).
  destruct (co_an Hc) as [Hal (an & Han & _)].
  destruct (cloneTreeWithSuffixLinks_ok text text_alphabet g (heap t) (pos - 1)
              (pos - remainingSuffixCount t) None Ht F)
    as (h' & M & Hcl & Hlen & Hold & Hval & Hnd & Hkeys & Hroot & Hent); [lia|].
  assert (∀ v, live g v → h' !! v = heap t !! v) as Hag.
  { intros v Hv. apply Hold. by eapply live_lt_heap. }
  unfold Linked.recordStep. rewrite (co_root Hc), Hcl.
  cbn [mbind outcome_bind bind].
  unfold get. rewrite Hag, Han by done. cbn [of_option mbind outcome_bind bind].
  eexists h', _, M. split; [reflexivity|]. cbn.
  assert (M ≠ []) as HM by (intros ->; by apply elem_of_nil in Hroot).
  split_and!; auto.
  - constructor; simpl; [done|apply (bd_rem Hb)|].
    change (with_heap h' t) with (with_steps (steps t) (with_heap h' t)).
    by apply core_agree_heap.
  - destruct M; [done|]. simpl in Hlen. lia.
  - by apply (cloneTree_linked_range text g (heap t) (pos - 1)
                (pos - remainingSuffixCount t) None Ht h' M).
Qed.
End linked_record.

Section linked_loop.
Variable text : list Z.
Hypothesis text_alphabet : Forall alphabet text.
Variable F : nat.
Hypothesis HF : 3 * strlen text ≤ Z.of_nat F.

Lemma linked_inv_init : linked_inv text F 0 init_tree [] F.
Proof.
  destruct (build_inv_init text F) as (g & Hb & _).
  exists g. split_and!; auto. intros i s Hs. done.
Qed.

(** One round of the loop. *)
Lemma linked_round pos t stp fuel :
  linked_inv text F pos t stp fuel → pos < strlen text →
  ∃ g1 t1 fl h' s M,
    extendSuffixTree text fuel pos t = Done (t1, fl)
    ∧ Linked.recordStep F pos (char_at text pos, pos) (leafEnd t1) t1 stp
      = Done (with_heap h' t1, stp ++ [s])
    ∧ linked_inv text F (pos + 1) (with_heap h' t1) (stp ++ [s]) fl
    ∧ wf text g1 (heap t1) pos ∧ root t1 = 0%nat
    ∧ Linked.snapshotRoot s = length (heap t1)
    ∧ (∀ u, (u < length (heap t1))%nat → h' !! u = heap t1 !! u)
    ∧ length h' = (length (heap t1) + length M)%nat
    ∧ M.*2 = seq (length (heap t1)) (length M)
    ∧ NoDup M.*1
    ∧ (∀ u, u ∈ M.*1 ↔ live g1 u)
    ∧ (0%nat, length (heap t1)) ∈ M
    ∧ ∀ u c, (u, c) ∈ M →
        ∃ nu nc, heap t1 !! u = Some nu ∧ h' !! c = Some nc
          ∧ start nc = start nu ∧ end_ nc = end_ nu
          ∧ suffixIndex nc = suffixIndex nu
          ∧ suffixLink nc = (suffixLink nu ≫= λ x, map_get x M)
          ∧ ∀ i, children nc !! i = (children nu !! i ≫= λ x, map_get x M).
Proof.
  intros (g & Hb & Hsteps & Hsnap & Hrec) Hlt.
  pose proof (bd_pos Hb) as Hp.
  destruct (phase_ok text text_alphabet F pos fuel g t HF Hb Hlt)
    as (t1 & fl & g1 & Hext & Hb1 & _ & Hfr & _).
  pose proof (bd_core Hb1) as Hc1. pose proof (co_le Hc1) as Hle1.
  pose proof (tr_wf (co_tree Hc1)) as Hwf1.
  replace (pos + 1 - 1) with pos in Hle1, Hwf1 by lia.
  destruct (linked_recordStep_ok text text_alphabet g1 (pos + 1) t1 F fl
              pos (char_at text pos, pos) (leafEnd t1) stp HF Hb1)
    as (h' & s & M & Hrun & Hb2 & Hroot & Hpos & Hles & Hmsg & Hlen & Hold
        & Hrange & HlenM & Hval & Hnd & Hkeys & Hr0 & Hent); [lia|].
  exists g1, t1, fl, h', s, M. split_and!; auto; [|apply (co_root Hc1)].
  exists g1. split_and!; auto.
  - rewrite length_app. simpl. lia.
  - apply Forall_app. split.
    + eapply Forall_impl; [exact Hsnap|]. simpl.
      intros s0 (hi & Hr & Hlo). exists hi. split; [|done].
      pose proof (linked_range_frame g g1 _ _ _ _ Hfr Hr) as Hr1.
      pose proof Hr1 as (Hhi & _).
      apply (linked_range_agree g1 g1 (heap t1) h' _ hi); auto; [lia|].
      intros v Hv. apply Hold. lia.
    + constructor; [|constructor]. exists (length h'). rewrite Hroot.
      split; [done|lia].
  - intros i s0. destruct (decide (i < length stp)%nat) as [Hi|Hi].
    + rewrite lookup_app_l by done. apply Hrec.
    + rewrite lookup_app_r by lia.
      destruct (i - length stp)%nat as [|k] eqn:Hk; [|by destruct k].
      intros [= <-]. assert (Z.of_nat i = pos) as -> by lia.
      rewrite Hpos, Hles, Hmsg, Hle1. done.
Qed.

Lemma linked_loop_ok (n : nat) :
  ∀ pos t stp fuel, linked_inv text F pos t stp fuel →
    pos + Z.of_nat n = strlen text →
    ∃ t' stp' fuel',
      foldM (λ '(t, steps, fuel_left) i,
          extendSuffixTree text fuel_left i t ≫= λ '(t, fuel_left),
            Linked.recordStep F i (char_at text i, i) (leafEnd t) t steps
            ≫= λ '(t, steps), Done (t, steps, fuel_left))
        (t, stp, fuel) (seqZ pos (Z.of_nat n)) = Done (t', stp', fuel')
      ∧ linked_inv text F (strlen text) t' stp' fuel'.
Proof.
  induction n as [|n IH]; intros pos t stp fuel Hinv Hn.
  - exists t, stp, fuel. simpl. split; [done|].
    replace (strlen text) with pos by lia. done.
  - rewrite seqZ_cons by lia. cbn [foldM].
    destruct (linked_round pos t stp fuel Hinv)
      as (g1 & t1 & fl & h' & s & M & Hext & Hrec & Hinv' & _); [lia|].
    rewrite Hext. cbn [mbind outcome_bind bind].
    rewrite Hrec. cbn [mbind outcome_bind bind].
    replace (Z.pred (Z.of_nat (S n))) with (Z.of_nat n) by lia.
    apply (IH (Z.succ pos)).
    + by replace (Z.succ pos) with (pos + 1) by lia.
    + lia.
Qed.

Lemma linked_phases_S (k : nat) :
  linked_phases text F (S k)
  = linked_phases text F k ≫= λ '(t, stp, fuel_left),
      extendSuffixTree text fuel_left (Z.of_nat k) t ≫= λ '(t1, fl),
        Linked.recordStep F (Z.of_nat k) (char_at text (Z.of_nat k), Z.of_nat k)
          (leafEnd t1) t1 stp ≫= λ '(t2, stp2), Done (t2, stp2, fl).
Proof.
  unfold linked_phases. replace (Z.of_nat (S k)) with (Z.of_nat k + 1) by lia.
  rewrite seqZ_app by lia. rewrite foldM_app.
  destruct (foldM _ _ (seqZ 0 (Z.of_nat k))) as [[[t stp] fl]| |]; [|done..].
  cbn [mbind outcome_bind bind]. rewrite seqZ_cons by lia.
  rewrite seqZ_nil by lia. cbn [foldM]. rewrite Z.add_0_l.
  destruct (extendSuffixTree text fl (Z.of_nat k) t) as [[t1 fl1]| |]; [|done..].
  cbn [mbind outcome_bind bind].
  destruct (Linked.recordStep F _ _ _ t1 stp) as [[t2 stp2]| |]; done.
Qed.

Lemma linked_phases_ok (k : nat) :
  (k ≤ length text)%nat →
  ∃ t stp fl, linked_phases text F k = Done (t, stp, fl)
    ∧ linked_inv text F (Z.of_nat k) t stp fl.
Proof.
  induction k as [|k IH]; intros Hk.
  - exists init_tree, [], F. split; [done|]. apply linked_inv_init.
  - destruct IH as (t & stp & fl & Hrun & Hinv); [lia|].
    destruct (linked_round (Z.of_nat k) t stp fl Hinv)
      as (g1 & t1 & fl1 & h' & s & M & Hext & Hrec & Hinv' & _);
      [unfold strlen; lia|].
    exists (with_heap h' t1), (stp ++ [s]), fl1.
    rewrite linked_phases_S, Hrun. cbn [mbind outcome_bind bind].
    rewrite Hext. cbn [mbind outcome_bind bind].
    rewrite Hrec. cbn [mbind outcome_bind bind]. split; [done|].
    by replace (Z.of_nat (S k)) with (Z.of_nat k + 1) by lia.
Qed.
End linked_loop.

Section linked_build.
Variable text : list Z.
Hypothesis text_alphabet : Forall alphabet text.
Variable F : nat.
Hypothesis HF : 3 * strlen text < Z.of_nat F.

(** The constructor of this copy returns, and its snapshots are closed
    under children and suffix links. *)
Lemma linked_build_ok :
  ∃ t stp g, Linked.build text F = Done (t, stp)
    ∧ wf text g (heap t) (strlen text - 1) ∧ root t = 0%nat
    ∧ length stp = length text
    ∧ Forall (λ s, ∃ hi, linked_range g (heap t) (Linked.snapshotRoot s) hi
                         ∧ (Linked.snapshotRoot s < hi)%nat) stp
    ∧ ∀ i s, stp !! i = Some s →
        Linked.pos s = Z.of_nat i ∧ Linked.leafEndSnapshot s = Z.of_nat i
        ∧ Linked.message s = (char_at text (Z.of_nat i), Z.of_nat i).
Proof.
  destruct (linked_loop_ok text text_alphabet F ltac:(lia) (length text) 0
              init_tree [] F)
    as (t & stp & fl & Hrun & g & Hbd & Hlen & Hsnap & Hrec).
  { apply linked_inv_init. }
  { unfold strlen. lia. }
  pose proof (bd_core Hbd) as Hc. pose proof (co_tree Hc) as Ht.
  pose proof (tr_wf Ht) as Hwf. destruct (wf_root Hwf) as (Hrl & _).
  destruct (setSuffixIndexByDFS_ok text text_alphabet g (heap t)
              (strlen text - 1) _ None Ht F (heap t) 0%nat)
    as (h' & Hdfs & HR & _); auto.
  { apply indexed_refl. }
  { rewrite (dep_root Hwf). lia. }
  rewrite (dep_root Hwf) in Hdfs.
  pose proof (indexed_struct text g (heap t) (strlen text - 1) _ _ HR) as Hss.
  exists (with_heap h' t), stp, g.
  change (Z.of_nat (length text)) with (strlen text) in Hrun.
  unfold Linked.build, Linked.buildSuffixTreeStepByStep.
  rewrite Hrun. cbn [mbind outcome_bind bind].
  rewrite (co_le Hc), (co_root Hc), Hdfs. cbn [mbind outcome_bind bind].
  simpl. split_and!; auto.
  - by apply (wf_struct Hss).
  - apply (co_root Hc).
  - unfold strlen in Hlen. lia.
  - eapply Forall_impl; [exact Hsnap|]. simpl.
    intros s (hi & Hr & Hlo). exists hi. split; [|done].
    pose proof Hr as (Hhi & Hr').
    apply (linked_range_agree g g (heap t) h' _ hi); auto.
    + rewrite (proj1 HR). lia.
    + intros v Hv. destruct (lookup_lt_is_Some_2 (heap t) v) as [n Hn]; [lia|].
      destruct (Hr' v n Hv Hn) as (Hnl & _).
      by apply (indexed_dead text g (heap t) (strlen text - 1) h' v).
Qed.
End linked_build.

(** X15. In the copy of the class whose [recordStep] clones with
    [cloneTreeWithSuffixLinks], for every text of symbols of the
    alphabet: the constructor returns, with one record for each position
    [i] of the text, holding [pos = i] and [leafEndSnapshot = i]; the
    nodes reached from the root of a snapshot are not nodes of the tree,
    and every suffix link stored in them leads to a node of the same
    snapshot, never to a node of the tree. *)
Theorem linked_snapshots_spec (text : list Z) (fuel : nat) :
  Forall alphabet text → 3 * strlen text < Z.of_nat fuel →
  ∃ t stp, Linked.build text fuel = Done (t, stp)
    ∧ length stp = length text
    ∧ (∀ i s, stp !! i = Some s →
         Linked.pos s = Z.of_nat i ∧ Linked.leafEndSnapshot s = Z.of_nat i)
    ∧ ∀ s v n, s ∈ stp → reach (heap t) (Linked.snapshotRoot s) v →
        heap t !! v = Some n →
        ¬ reach (heap t) (root t) v
        ∧ ∀ u, suffixLink n = Some u →
            reach (heap t) (Linked.snapshotRoot s) u
            ∧ ¬ reach (heap t) (root t) u.
Proof.
  intros Ha Hf.
  destruct (linked_build_ok text Ha fuel Hf)
    as (t & stp & g & Hb & Hwf & Hroot & Hlen & Hsnap & Hrec).
  exists t, stp. split_and!; auto.
  - intros i s Hs. destruct (Hrec i s Hs) as (? & ? & _). done.
  - intros s v n Hs Hr Hn. rewrite Forall_forall in Hsnap.
    destruct (Hsnap s Hs) as (hi & Hrange & Hlo).
    pose proof (linked_range_reach g _ _ hi v Hrange Hlo Hr) as Hv.
    pose proof Hrange as (Hhi & Hnodes).
    destruct (Hnodes v n Hv Hn) as (Hdead & _ & _ & Hlink).
    rewrite Hroot. split.
    + intros Hlive. apply Hdead. by apply (wf_reach_live text g _ _ v Hwf).
    + intros u Hu. specialize (Hlink u Hu).
      destruct (lookup_lt_is_Some_2 (heap t) u) as [un Hun]; [lia|].
      destruct (Hnodes u un Hlink Hun) as (Hud & Hur & _).
      split; [done|]. intros Hlive. apply Hud.
      by apply (wf_reach_live text g _ _ u Hwf).
Qed.

Lemma linked_snapshots_spec_witness :
  Forall alphabet (str "AA$"%string)
  ∧ 3 * strlen (str "AA$"%string) < Z.of_nat 20
  ∧ ∃ t stp, Linked.build (str "AA$"%string) 20 = Done (t, stp)
      ∧ length stp = 3%nat
      ∧ (∀ i s, stp !! i = Some s →
           Linked.pos s = Z.of_nat i ∧ Linked.leafEndSnapshot s = Z.of_nat i)
      ∧ ∀ s v n, s ∈ stp → reach (heap t) (Linked.snapshotRoot s) v →
          heap t !! v = Some n →
          ¬ reach (heap t) (root t) v
          ∧ ∀ u, suffixLink n = Some u →
              reach (heap t) (Linked.snapshotRoot s) u
              ∧ ¬ reach (heap t) (root t) u.
Proof.
  assert (Forall alphabet (str "AA$"%string)) as Ha
    by (apply alphabet_str; reflexivity).
  assert (3 * strlen (str "AA$"%string) < Z.of_nat 20) as Hf
    by (vm_compute; reflexivity).
  split; [exact Ha|]. split; [exact Hf|].
  exact (linked_snapshots_spec _ 20 Ha Hf).
Defined.

(** X16. In the copy of the class whose [recordStep] clones with
    [cloneTreeWithSuffixLinks], for every text of symbols of the
    alphabet, the round [k] of the loop of [buildSuffixTreeStepByStep]
    adds one record whose snapshot is a copy of the tree of that moment,
    taken with [leafEnd = k]: the map [M] of [cloneTreeWithSuffixLinks]
    pairs the nodes of the tree, one to one, with the new nodes of the
    heap, the root with the root of the snapshot; the nodes of the tree
    stay as they are; a copy has the numbers of its original, and its
    children and its suffix link are the copies of the children and of
    the suffix link of its original. *)
Theorem linked_snapshot_copy (text : list Z) (fuel k : nat) :
  Forall alphabet text → 3 * strlen text < Z.of_nat fuel →
  (k < length text)%nat →
  ∃ t stp fl t1 fl1 h2 s M,
    linked_phases text fuel k = Done (t, stp, fl)
    ∧ extendSuffixTree text fl (Z.of_nat k) t = Done (t1, fl1)
    ∧ Linked.recordStep fuel (Z.of_nat k)
        (char_at text (Z.of_nat k), Z.of_nat k) (leafEnd t1) t1 stp
      = Done (with_heap h2 t1, stp ++ [s])
    ∧ linked_phases text fuel (S k) = Done (with_heap h2 t1, stp ++ [s], fl1)
    ∧ leafEnd t1 = Z.of_nat k
    ∧ (∀ u, (u < length (heap t1))%nat → h2 !! u = heap t1 !! u)
    ∧ NoDup M.*1 ∧ NoDup M.*2
    ∧ (∀ u, u ∈ M.*1 ↔ reach (heap t1) (root t1) u)
    ∧ (∀ c, c ∈ M.*2 ↔ (length (heap t1) ≤ c < length h2)%nat)
    ∧ (root t1, Linked.snapshotRoot s) ∈ M
    ∧ ∀ u c, (u, c) ∈ M →
        ∃ nu nc, heap t1 !! u = Some nu ∧ h2 !! c = Some nc
          ∧ start nc = start nu ∧ end_ nc = end_ nu
          ∧ suffixIndex nc = suffixIndex nu
          ∧ suffixLink nc = (suffixLink nu ≫= λ x, map_get x M)
          ∧ ∀ i, children nc !! i = (children nu !! i ≫= λ x, map_get x M).
Proof.
  intros Ha Hf Hk.
  destruct (linked_phases_ok text Ha fuel ltac:(lia) k)
    as (t & stp & fl & Hrun & Hinv); [lia|].
  destruct (linked_round text Ha fuel ltac:(lia) (Z.of_nat k) t stp fl Hinv)
    as (g1 & t1 & fl1 & h2 & s & M & Hext & Hrec & Hinv' & Hwf & Hroot & Hsr
        & Hold & Hlen & Hval & Hnd & Hkeys & Hr0 & Hent); [unfold strlen; lia|].
  destruct Hinv' as (g2 & Hb2 & _).
  pose proof (co_le (bd_core Hb2)) as Hle. simpl in Hle.
  exists t, stp, fl, t1, fl1, h2, s, M. split_and!; auto.
  - rewrite linked_phases_S, Hrun. cbn [mbind outcome_bind bind].
    rewrite Hext. cbn [mbind outcome_bind bind]. by rewrite Hrec.
  - lia.
  - rewrite Hval. apply NoDup_seq.
  - intros u. rewrite Hkeys, Hroot. split.
    + by apply (wf_reach text g1 _ _ u Hwf).
    + by apply (wf_reach_live text g1 _ _ u Hwf).
  - intros c. rewrite Hval, elem_of_seq. lia.
  - by rewrite Hroot, Hsr.
Qed.

Lemma linked_snapshot_copy_witness :
  Forall alphabet (str "AA$"%string)
  ∧ 3 * strlen (str "AA$"%string) < Z.of_nat 20
  ∧ (2 < length (str "AA$"%string))%nat
  ∧ ∃ t stp fl t1 fl1 h2 s M,
      linked_phases (str "AA$"%string) 20 2 = Done (t, stp, fl)
      ∧ extendSuffixTree (str "AA$"%string) fl (Z.of_nat 2) t = Done (t1, fl1)
      ∧ Linked.recordStep 20 (Z.of_nat 2)
          (char_at (str "AA$"%string) (Z.of_nat 2), Z.of_nat 2) (leafEnd t1)
          t1 stp
        = Done (with_heap h2 t1, stp ++ [s])
      ∧ linked_phases (str "AA$"%string) 20 3
        = Done (with_heap h2 t1, stp ++ [s], fl1)
      ∧ leafEnd t1 = Z.of_nat 2
      ∧ (∀ u, (u < length (heap t1))%nat → h2 !! u = heap t1 !! u)
      ∧ NoDup M.*1 ∧ NoDup M.*2
      ∧ (∀ u, u ∈ M.*1 ↔ reach (heap t1) (root t1) u)
      ∧ (∀ c, c ∈ M.*2 ↔ (length (heap t1) ≤ c < length h2)%nat)
      ∧ (root t1, Linked.snapshotRoot s) ∈ M
      ∧ ∀ u c, (u, c) ∈ M →
          ∃ nu nc, heap t1 !! u = Some nu ∧ h2 !! c = Some nc
            ∧ start nc = start nu ∧ end_ nc = end_ nu
            ∧ suffixIndex nc = suffixIndex nu
            ∧ suffixLink nc = (suffixLink nu ≫= λ x, map_get x M)
            ∧ ∀ i, children nc !! i = (children nu !! i ≫= λ x, map_get x M).
Proof.
  assert (Forall alphabet (str "AA$"%string)) as Ha
    by (apply alphabet_str; reflexivity).
  assert (3 * strlen (str "AA$"%string) < Z.of_nat 20) as Hf
    by (vm_compute; reflexivity).
  assert (2 < length (str "AA$"%string))%nat as Hk by (vm_compute; lia).
  split; [exact Ha|]. split; [exact Hf|]. split; [exact Hk|].
  exact (linked_snapshot_copy _ 20 2 Ha Hf Hk).
Defined.

(** The two copies of the class on the text [AA$], in the snapshot taken
    after the last phase: the copy of the node of [A] has the root of the
    tree as its suffix link where [recordStep] clones with [cloneNode],
    and the root of the snapshot where it clones with
    [cloneTreeWithSuffixLinks]. *)
Example snapshot_links_AA :
  (∃ t s cn, build (str "AA$"%string) 20 = Done t
     ∧ steps t !! 2%nat = Some s ∧ snapshotRoot s = 9%nat
     ∧ heap t !! 10%nat = Some cn ∧ suffixLink cn = Some (root t))
  ∧ (∃ t stp s cn, Linked.build (str "AA$"%string) 20 = Done (t, stp)
       ∧ stp !! 2%nat = Some s ∧ Linked.snapshotRoot s = 9%nat
       ∧ heap t !! 10%nat = Some cn ∧ suffixLink cn = Some 9%nat).
Proof.
  split.
  - eexists _, _, _. split; [vm_compute; reflexivity|]. by split_and!.
  - eexists _, _, _, _. split; [vm_compute; reflexivity|]. by split_and!.
Qed.

(** ** Concrete runs *)

Example findAllMatches_AAAA :
  run (str "AAAA$"%string) 20 (λ tx t f, findAllMatches tx t f (str "A"%string))
  = Done [0; 1; 2; 3].
Proof. vm_compute. reflexivity. Qed.

Example findAllMatches_absent :
  run (str "BANANA$"%string) 30 (λ tx t f, findAllMatches tx t f (str "NAB"%string))
  = Done [].
Proof. vm_compute. reflexivity. Qed.

Example search_BANANA :
  run (str "BANANA$"%string) 30 (λ tx t f, search tx t f (str "ANA"%string))
  = Done true
  ∧ run (str "BANANA$"%string) 30 (λ tx t f, search tx t f (str "NAB"%string))
    = Done false
  ∧ run (str "BANANA$"%string) 30 (λ tx t f, search tx t f (str "ana"%string))
    = Done false
  ∧ run (str "BANANA$"%string) 30 (λ tx t f, search tx t f (str "[")%string)
    = Done false.
Proof. split_and!; vm_compute; reflexivity. Qed.

Example longestRepeatedSubstring_BANANA :
  run (str "BANANA$"%string) 30 (λ tx t f, longestRepeatedSubstring tx t f)
  = Done (str "ANA"%string).
Proof. vm_compute. reflexivity. Qed.
